(** * nna: protobuf wire-format codec (TypeScript) -- verification of the core

    Shallow embedding of [src/lib.ts], [src/encoder.ts], the decoder class
    [BinaryDecoder] and the 64-bit arithmetic class [UInt64].

    JavaScript numbers that hold integers are modelled as [Z]; every bitwise
    operator of the source goes through the ECMAScript conversions
    [ToInt32] / [ToUint32], written out below. *)

From stdpp Require Import base gmap list.
From Stdlib Require Import ZArith List Lia Bool Btauto String Ascii.
Import ListNotations.

Local Open Scope Z_scope.

(** ** ECMAScript 32-bit integer operators *)

Module JS.

Definition TWO_TO_31 : Z := 2147483648.
Definition TWO_TO_32 : Z := 4294967296.
Definition TWO_TO_64 : Z := 18446744073709551616.

(** [ToUint32]: reduction modulo 2^32. *)
Definition toUint32 (x : Z) : Z := x mod TWO_TO_32.

(** [ToInt32]: the two's complement reading of the low 32 bits. *)
Definition toInt32 (x : Z) : Z :=
  let u := x mod TWO_TO_32 in
  if u <? TWO_TO_31 then u else u - TWO_TO_32.

(** [a & b], [a | b], [a ^ b], [~a]: operands through [ToInt32], the result
    is a signed 32-bit integer. *)
Definition and (a b : Z) : Z := Z.land (toInt32 a) (toInt32 b).
Definition or (a b : Z) : Z := Z.lor (toInt32 a) (toInt32 b).
Definition xor (a b : Z) : Z := Z.lxor (toInt32 a) (toInt32 b).
Definition not (a : Z) : Z := Z.lnot (toInt32 a).

(** [a << n]: signed result; the shift count is taken modulo 32. *)
Definition shl (a n : Z) : Z := toInt32 (Z.shiftl (toInt32 a) (n mod 32)).
(** [a >> n]: sign-propagating right shift. *)
Definition sar (a n : Z) : Z := Z.shiftr (toInt32 a) (n mod 32).
(** [a >>> n]: zero-fill right shift, unsigned result. *)
Definition shr (a n : Z) : Z := Z.shiftr (toUint32 a) (n mod 32).

End JS.

Declare Scope js_scope.
Delimit Scope js_scope with js.
Infix ".&" := JS.and (at level 41, left associativity) : js_scope.
Infix ".^" := JS.xor (at level 46, left associativity) : js_scope.
Infix ".|" := JS.or (at level 51, left associativity) : js_scope.
Infix ".<<" := JS.shl (at level 33, left associativity) : js_scope.
Infix ".>>" := JS.sar (at level 33, left associativity) : js_scope.
Infix ".>>>" := JS.shr (at level 33, left associativity) : js_scope.
Local Open Scope js_scope.

(** A 32-bit word as the callers of the library pass it: an integer of
    [0, 2^32). *)
Definition u32 (x : Z) : Prop := 0 <= x < JS.TWO_TO_32.

(** The 64-bit value denoted by a split pair [(lo, hi)]. *)
Definition join64 (lo hi : Z) : Z := hi * JS.TWO_TO_32 + lo.

(** ** lib.ts: zigzag transforms on split pairs *)

Section Zigzag.
Context {T : Type}.

(** [fromZigzag64(bitsLow, bitsHigh, convert)] *)
Definition fromZigzag64 (bitsLow bitsHigh : Z) (convert : Z -> Z -> T) : T :=
  let signFlipMask := - (bitsLow .& 1) in
  let bitsLow' := ((bitsLow .>>> 1) .| (bitsHigh .<< 31)) .^ signFlipMask in
  let bitsHigh' := (bitsHigh .>>> 1) .^ signFlipMask in
  convert bitsLow' bitsHigh'.

(** [toZigzag64(bitsLow, bitsHigh, convert)] *)
Definition toZigzag64 (bitsLow bitsHigh : Z) (convert : Z -> Z -> T) : T :=
  let signFlipMask := bitsHigh .>> 31 in
  let bitsHigh' := ((bitsHigh .<< 1) .| (bitsLow .>>> 31)) .^ signFlipMask in
  let bitsLow' := (bitsLow .<< 1) .^ signFlipMask in
  convert bitsLow' bitsHigh'.
End Zigzag.


(** ** Outcomes of a call: normal return, a thrown exception, or (only for
    the models of unbounded [while] loops) exhaustion of the iteration
    budget. *)

Inductive Exn : Type := AssertionError | TypeError | RangeError.

Inductive Outcome (A : Type) : Type :=
| Return (a : A)
| Throw (e : Exn)
| OutOfFuel.
Arguments Return {A} a.
Arguments Throw {A} e.
Arguments OutOfFuel {A}.

(** State-and-exception monad: the state survives a [throw], as the fields
    of a JavaScript object do. *)
Definition ST (S A : Type) : Type := S -> Outcome A * S.

Definition ret {S A} (a : A) : ST S A := fun s => (Return a, s).
Definition throw {S A} (e : Exn) : ST S A := fun s => (Throw e, s).
Definition bind {S A B} (m : ST S A) (k : A -> ST S B) : ST S B :=
  fun s => match m s with
           | (Return a, s') => k a s'
           | (Throw e, s') => (Throw e, s')
           | (OutOfFuel, s') => (OutOfFuel, s')
           end.
Definition get {S} : ST S S := fun s => (Return s, s).
Definition modify {S} (f : S -> S) : ST S unit := fun s => (Return tt, f s).

Notation "x <- m ;; k" := (bind m (fun x => k))
  (at level 100, m at next level, right associativity).
Notation "m ;;; k" := (bind m (fun _ => k))
  (at level 100, right associativity).

(** [assert(condition)] of asserts.ts *)
Definition assert {S} (condition : bool) : ST S unit :=
  if condition then ret tt else throw AssertionError.

(** ** lib.ts: numbers to strings *)

(** A JavaScript string as its sequence of UTF-16 code units. *)
Definition jsstring : Type := list Z.

(** [String.fromCharCode(...units)]: every argument through [ToUint16]. *)
Definition fromCharCode (units : list Z) : jsstring :=
  map (fun u => u mod 65536) units.

Definition digitChar (d : Z) : ascii := ascii_of_nat (48 + Z.to_nat d).

(** Digits of a positive integer, most significant first, in front of [acc]. *)
Fixpoint decimalDigits (fuel : nat) (n : Z) (acc : string) : string :=
  match fuel with
  | O => acc
  | S fuel' =>
      let acc' := String (digitChar (n mod 10)) acc in
      if n / 10 =? 0 then acc' else decimalDigits fuel' (n / 10) acc'
  end.

(** [String(n)] / [n.toString()] / ["" + n] for an integer [n] that a double
    holds exactly (|n| < 2^53): its decimal digits, with a minus sign when
    negative. *)
Definition Number_toString (n : Z) : string :=
  let digits := decimalDigits (S (Z.to_nat (Z.log2 (Z.abs n)))) (Z.abs n) EmptyString in
  if n <? 0 then String "-" digits else digits.

(** [s.slice(n)] for [0 <= n] *)
Definition slice (s : string) (n : nat) : string :=
  substring n (String.length s - n) s.

(** The local function [decimalFrom1e7] of [joinUnsignedDecimalString];
    [needLeadingZeros] is used for its truthiness. *)
Definition decimalFrom1e7 (digit1e7 needLeadingZeros : Z) : string :=
  let partial := if digit1e7 =? 0 then EmptyString else Number_toString digit1e7 in
  if needLeadingZeros =? 0 then partial
  else (slice "0000000" (String.length partial) ++ partial)%string.

(** [joinUnsignedDecimalString(bitsLow, bitsHigh)].  All intermediate values
    are integers below 2^53, so the double arithmetic of the source is exact
    and [Math.floor(a / base)] is the integer quotient. *)
Definition joinUnsignedDecimalString (bitsLow bitsHigh : Z) : string :=
  if bitsHigh <=? 0x1fffff then
    Number_toString (JS.TWO_TO_32 * bitsHigh + bitsLow)
  else
    let low := bitsLow .& 0xffffff in
    let mid := (((bitsLow .>>> 24) .| (bitsHigh .<< 8)) .>>> 0) .& 0xffffff in
    let high := (bitsHigh .>> 16) .& 0xffff in
    let digitA := low + mid * 6777216 + high * 6710656 in
    let digitB := mid + high * 8147497 in
    let digitC := high * 2 in
    let base := 10000000 in
    let '(digitA, digitB) :=
      if digitA >=? base then (Z.rem digitA base, digitB + digitA / base)
      else (digitA, digitB) in
    let '(digitB, digitC) :=
      if digitB >=? base then (Z.rem digitB base, digitC + digitB / base)
      else (digitB, digitC) in
    (decimalFrom1e7 digitC 0 ++ decimalFrom1e7 digitB digitC
       ++ decimalFrom1e7 digitA 1)%string.

(** [joinSignedDecimalString(bitsLow, bitsHigh)] *)
Definition joinSignedDecimalString (bitsLow bitsHigh : Z) : string :=
  let negative := bitsHigh .& 0x80000000 in
  let '(bitsLow, bitsHigh) :=
    if negative =? 0 then (bitsLow, bitsHigh)
    else
      let bitsLow' := (JS.not bitsLow + 1) .>>> 0 in
      let carry := if bitsLow' =? 0 then 1 else 0 in
      (bitsLow', (JS.not bitsHigh + carry) .>>> 0) in
  let result := joinUnsignedDecimalString bitsLow bitsHigh in
  if negative =? 0 then result else String "-" result.

(** [joinHash64(bitsLow, bitsHigh)] *)
Definition joinHash64 (bitsLow bitsHigh : Z) : jsstring :=
  let a := (bitsLow .>>> 0) .& 0xff in
  let b := (bitsLow .>>> 8) .& 0xff in
  let c := (bitsLow .>>> 16) .& 0xff in
  let d := (bitsLow .>>> 24) .& 0xff in
  let e := (bitsHigh .>>> 0) .& 0xff in
  let f := (bitsHigh .>>> 8) .& 0xff in
  let g := (bitsHigh .>>> 16) .& 0xff in
  let h := (bitsHigh .>>> 24) .& 0xff in
  fromCharCode [a; b; c; d; e; f; g; h].

(** ** lib.ts: splitting numbers and strings into two 32-bit halves *)

(** The module-level temporaries [split64Low] and [split64High]: every
    [split...] function overwrites both, and its caller reads them next. *)
Record Split64 : Type := mkSplit64 { split64Low : Z; split64High : Z }.

(** [splitUint64(value)] for an integer [value].  [value - lowBits] is a
    multiple of 2^32, so the subtraction and the division are exact and
    [Math.floor] is the integer quotient. *)
Definition splitUint64 (value : Z) : Split64 :=
  let lowBits := value .>>> 0 in
  let highBits := ((value - lowBits) / JS.TWO_TO_32) .>>> 0 in
  mkSplit64 lowBits highBits.

(** [splitInt64(value)] *)
Definition splitInt64 (value : Z) : Split64 :=
  let sign := value <? 0 in
  let value := Z.abs value in
  let lowBits := value .>>> 0 in
  let highBits := (value - lowBits) / JS.TWO_TO_32 in
  let highBits := highBits .>>> 0 in
  if sign then
    let highBits := JS.not highBits .>>> 0 in
    let lowBits := JS.not lowBits .>>> 0 in
    let lowBits := lowBits + 1 in
    if lowBits >? 0xffffffff then
      let highBits := highBits + 1 in
      mkSplit64 0 (if highBits >? 0xffffffff then 0 else highBits)
    else mkSplit64 lowBits highBits
  else mkSplit64 lowBits highBits.

(** [splitZigzag64(value)] *)
Definition splitZigzag64 (value : Z) : Split64 :=
  let sign := value <? 0 in
  let value := Z.abs value * 2 in
  let s := splitUint64 value in
  let lowBits := split64Low s in
  let highBits := split64High s in
  if sign then
    if lowBits =? 0 then
      if highBits =? 0 then mkSplit64 0xffffffff 0xffffffff
      else mkSplit64 0xffffffff (highBits - 1)
    else mkSplit64 (lowBits - 1) highBits
  else mkSplit64 lowBits highBits.

(** [s.charCodeAt(i)]: [NaN] ([None]) outside the string. *)
Definition charCodeAt (s : jsstring) (i : nat) : option Z := nth_error s i.

(** A code unit under a shift: [NaN] converts to 0. *)
Definition unitOrZero (v : option Z) : Z :=
  match v with Some x => x | None => 0 end.

(** [splitHash64(hash)].  A missing first unit of a half makes the sum
    [NaN], which [>>> 0] turns into 0. *)
Definition splitHash64 (hash : jsstring) : Split64 :=
  let a := charCodeAt hash 0 in
  let b := charCodeAt hash 1 in
  let c := charCodeAt hash 2 in
  let d := charCodeAt hash 3 in
  let e := charCodeAt hash 4 in
  let f := charCodeAt hash 5 in
  let g := charCodeAt hash 6 in
  let h := charCodeAt hash 7 in
  mkSplit64
    match a with
    | Some a =>
        (a + (unitOrZero b .<< 8) + (unitOrZero c .<< 16)
           + (unitOrZero d .<< 24)) .>>> 0
    | None => 0
    end
    match e with
    | Some e =>
        (e + (unitOrZero f .<< 8) + (unitOrZero g .<< 16)
           + (unitOrZero h .<< 24)) .>>> 0
    | None => 0
    end.

(** ** lib.ts: byte arrays and decimal strings to strings of code units *)

Definition CHUNK_SIZE : Z := 8192.

(** [Array.prototype.slice.call(a, begin, end)] for [0 <= begin <= end];
    [end] is clamped to the length. *)
Definition arraySlice (a : list Z) (begin end' : Z) : list Z :=
  firstn (Z.to_nat (end' - begin)) (skipn (Z.to_nat begin) a).

(** The chunk loop of [byteArrayToString]; one unit of [fuel] per
    evaluation of [i < bytes.length]. *)
Fixpoint byteArrayToString_loop (fuel : nat) (bytes : list Z) (i : Z)
    (str : jsstring) : Outcome jsstring :=
  match fuel with
  | O => OutOfFuel
  | S fuel' =>
      if i <? Z.of_nat (List.length bytes) then
        let chunk := arraySlice bytes i (i + CHUNK_SIZE) in
        byteArrayToString_loop fuel' bytes (i + CHUNK_SIZE)
          (str ++ fromCharCode chunk)
      else Return str
  end.

(** [byteArrayToString(bytes)] *)
Definition byteArrayToString (bytes : list Z) : Outcome jsstring :=
  if Z.of_nat (List.length bytes) <=? CHUNK_SIZE then Return (fromCharCode bytes)
  else byteArrayToString_loop (S (List.length bytes)) bytes 0 [].

Definition ZERO_CHAR_CODE_ : Z := 48.

(** The code unit of a character of a decimal string. *)
Definition charCode (c : ascii) : Z := Z.of_nat (nat_of_ascii c).

(** The local function [muladd(m, c)] of [decimalStringToHash64] on the
    local array [resultBytes]; [n] iterations are left, [i = 8 - n] indexes
    one of the eight elements. *)
Fixpoint muladd_loop (n i : nat) (m c : Z) (resultBytes : list Z) : list Z :=
  match n with
  | O => resultBytes
  | S n' =>
      if negb (m =? 1) || (c >? 0) then
        let r := m * unitOrZero (resultBytes !! i) + c in
        muladd_loop n' (S i) m (r .>>> 8) (<[i := r .& 0xff]> resultBytes)
      else resultBytes
  end.

Definition muladd (m c : Z) (resultBytes : list Z) : list Z :=
  muladd_loop 8 0 m c resultBytes.

(** The local function [neg()]: every one of the eight elements. *)
Definition neg (resultBytes : list Z) : list Z :=
  fold_left
    (fun bytes i => <[i := JS.not (unitOrZero (bytes !! i)) .& 0xff]> bytes)
    (seq 0 8) resultBytes.

(** [decimalStringToHash64(dec)]; a decimal string is a [string], whose
    code units are the [charCode]s of its characters.  No character is
    checked to be a digit. *)
Definition decimalStringToHash64 (dec : string) : Outcome jsstring :=
  if Z.of_nat (String.length dec) >? 0 then
    let '(minus, dec) :=
      match dec with
      | String "-" rest => (true, rest)
      | _ => (false, dec)
      end in
    let resultBytes := [0; 0; 0; 0; 0; 0; 0; 0] in
    let resultBytes :=
      fold_left (fun bytes ch => muladd 10 (charCode ch - ZERO_CHAR_CODE_) bytes)
        (list_ascii_of_string dec) resultBytes in
    let resultBytes :=
      if minus then muladd 1 1 (neg resultBytes) else resultBytes in
    byteArrayToString resultBytes
  else Throw AssertionError.


(** ** encoder.ts: class [BinaryEncoder] *)

Module BinaryEncoder.

Record t : Type := mk { buffer : list Z }.

Definition M : Type -> Type := ST t.

(** [this.buffer.push(v)] *)
Definition push (v : Z) : M unit :=
  modify (fun e => mk (buffer e ++ [v])).

(** [length()] *)
Definition length : M Z := e <- get;; ret (Z.of_nat (List.length (buffer e))).

(** [end()] *)
Definition end_ : M (list Z) :=
  e <- get;; modify (fun _ => mk []);;; ret (buffer e).

(** The [while] loop of [writeSplitVarint64] together with the final
    [push]; one unit of [fuel] per evaluation of the loop condition. *)
Fixpoint writeSplitVarint64_loop (fuel : nat) (lowBits highBits : Z) : M unit :=
  match fuel with
  | O => fun e => (OutOfFuel, e)
  | S fuel' =>
      if (highBits >? 0) || (lowBits >? 127) then
        push ((lowBits .& 0x7f) .| 0x80);;;
        writeSplitVarint64_loop fuel'
          (((lowBits .>>> 7) .| (highBits .<< 25)) .>>> 0)
          (highBits .>>> 7)
      else push lowBits
  end.

(** [writeSplitVarint64(lowBits, highBits)].  The two [Math.floor]
    assertions hold of every integer. *)
Definition writeSplitVarint64 (lowBits highBits : Z) : M unit :=
  assert ((lowBits >=? 0) && (lowBits <? JS.TWO_TO_32));;;
  assert ((highBits >=? 0) && (highBits <? JS.TWO_TO_32));;;
  writeSplitVarint64_loop 10 lowBits highBits.

(** The [for] loop of [writeString] over the code units that remain:
    [value.charCodeAt(i)] is the head, [i + 1 < value.length] says that the
    tail is not empty, and [i++] inside the body drops one more unit. *)
Fixpoint writeString_loop (value : jsstring) : M unit :=
  match value with
  | [] => ret tt
  | c :: rest =>
      if c <? 128 then
        push c;;; writeString_loop rest
      else if c <? 2048 then
        push ((c .>> 6) .| 192);;;
        push ((c .& 63) .| 128);;;
        writeString_loop rest
      else if c <? 65536 then
        if (c >=? 0xd800) && (c <=? 0xdbff)
           && (match rest with [] => false | _ :: _ => true end) then
          match rest with
          | second :: rest' =>
              if (second >=? 0xdc00) && (second <=? 0xdfff) then
                let c := (c - 0xd800) * 0x400 + second - 0xdc00 + 0x10000 in
                push ((c .>> 18) .| 240);;;
                push (((c .>> 12) .& 63) .| 128);;;
                push (((c .>> 6) .& 63) .| 128);;;
                push ((c .& 63) .| 128);;;
                writeString_loop rest'
              else writeString_loop rest
          | [] => writeString_loop rest
          end
        else
          push ((c .>> 12) .| 224);;;
          push (((c .>> 6) .& 63) .| 128);;;
          push ((c .& 63) .| 128);;;
          writeString_loop rest
      else writeString_loop rest
  end.

(** [writeString(value)] *)
Definition writeString (value : jsstring) : M Z :=
  oldLength <- length;;
  writeString_loop value;;;
  newLength <- length;;
  ret (newLength - oldLength).

(** *** Fixed-width writers.  The assertion [value == Math.floor(value)] of
    each writer holds of every integer. *)

(** [writeUint8(value)], [writeUint16(value)], [writeUint32(value)] *)
Definition writeUint8 (value : Z) : M unit :=
  assert ((value >=? 0) && (value <? 256));;;
  push ((value .>>> 0) .& 0xff).

Definition writeUint16 (value : Z) : M unit :=
  assert ((value >=? 0) && (value <? 65536));;;
  push ((value .>>> 0) .& 0xff);;;
  push ((value .>>> 8) .& 0xff).

Definition writeUint32 (value : Z) : M unit :=
  assert ((value >=? 0) && (value <? JS.TWO_TO_32));;;
  push ((value .>>> 0) .& 0xff);;;
  push ((value .>>> 8) .& 0xff);;;
  push ((value .>>> 16) .& 0xff);;;
  push ((value .>>> 24) .& 0xff).

(** [writeInt8(value)], [writeInt16(value)], [writeInt32(value)] *)
Definition writeInt8 (value : Z) : M unit :=
  assert ((value >=? -128) && (value <? 128));;;
  push ((value .>>> 0) .& 0xff).

Definition writeInt16 (value : Z) : M unit :=
  assert ((value >=? -32768) && (value <? 32768));;;
  push ((value .>>> 0) .& 0xff);;;
  push ((value .>>> 8) .& 0xff).

Definition writeInt32 (value : Z) : M unit :=
  assert ((value >=? - JS.TWO_TO_31) && (value <? JS.TWO_TO_31));;;
  push ((value .>>> 0) .& 0xff);;;
  push ((value .>>> 8) .& 0xff);;;
  push ((value .>>> 16) .& 0xff);;;
  push ((value .>>> 24) .& 0xff).

(** [writeSplitFixed64(lowBits, highBits)] *)
Definition writeSplitFixed64 (lowBits highBits : Z) : M unit :=
  assert ((lowBits >=? 0) && (lowBits <? JS.TWO_TO_32));;;
  assert ((highBits >=? 0) && (highBits <? JS.TWO_TO_32));;;
  writeUint32 lowBits;;;
  writeUint32 highBits.

(** [writeUint64(value)], [writeInt64(value)] *)
Definition writeUint64 (value : Z) : M unit :=
  assert ((value >=? 0) && (value <? JS.TWO_TO_64));;;
  let s := splitUint64 value in
  writeUint32 (split64Low s);;;
  writeUint32 (split64High s).

Definition TWO_TO_63 : Z := 9223372036854775808.

Definition writeInt64 (value : Z) : M unit :=
  assert ((value >=? - TWO_TO_63) && (value <? TWO_TO_63));;;
  let s := splitInt64 value in
  writeSplitFixed64 (split64Low s) (split64High s).

(** *** Varint writers *)

(** The [while (value > 127)] loop of [writeUnsignedVarint32] together with
    the final [push]; one unit of [fuel] per evaluation of the condition. *)
Fixpoint writeUnsignedVarint32_loop (fuel : nat) (value : Z) : M unit :=
  match fuel with
  | O => fun e => (OutOfFuel, e)
  | S fuel' =>
      if value >? 127 then
        push ((value .& 0x7f) .| 0x80);;;
        writeUnsignedVarint32_loop fuel' (value .>>> 7)
      else push value
  end.

(** [writeUnsignedVarint32(value)]: a 32-bit value needs at most five
    bytes. *)
Definition writeUnsignedVarint32 (value : Z) : M unit :=
  assert ((value >=? 0) && (value <? JS.TWO_TO_32));;;
  writeUnsignedVarint32_loop 5 value.

(** [for (let i = 0; i < 9; i++)] of [writeSignedVarint32]: [n] iterations
    are left. *)
Fixpoint writeSignedVarint32_loop (n : nat) (value : Z) : M unit :=
  match n with
  | O => ret tt
  | S n' =>
      push ((value .& 0x7f) .| 0x80);;;
      writeSignedVarint32_loop n' (value .>> 7)
  end.

(** [writeSignedVarint32(value)] *)
Definition writeSignedVarint32 (value : Z) : M unit :=
  assert ((value >=? - JS.TWO_TO_31) && (value <? JS.TWO_TO_31));;;
  if value >=? 0 then writeUnsignedVarint32 value
  else
    writeSignedVarint32_loop 9 value;;;
    push 1.

(** [writeEnum(value)] *)
Definition writeEnum (value : Z) : M unit :=
  assert ((value >=? - JS.TWO_TO_31) && (value <? JS.TWO_TO_31));;;
  writeSignedVarint32 value.

(** [writeZigzagVarint32(value)] *)
Definition writeZigzagVarint32 (value : Z) : M unit :=
  assert ((value >=? - JS.TWO_TO_31) && (value <? JS.TWO_TO_31));;;
  writeUnsignedVarint32 (((value .<< 1) .^ (value .>> 31)) .>>> 0).

(** [writeUnsignedVarint64(value)], [writeSignedVarint64(value)]: both go
    through [splitInt64]. *)
Definition writeUnsignedVarint64 (value : Z) : M unit :=
  assert ((value >=? 0) && (value <? JS.TWO_TO_64));;;
  let s := splitInt64 value in
  writeSplitVarint64 (split64Low s) (split64High s).

Definition writeSignedVarint64 (value : Z) : M unit :=
  assert ((value >=? - TWO_TO_63) && (value <? TWO_TO_63));;;
  let s := splitInt64 value in
  writeSplitVarint64 (split64Low s) (split64High s).

(** [writeZigzagVarint64(value)] *)
Definition writeZigzagVarint64 (value : Z) : M unit :=
  assert ((value >=? - TWO_TO_63) && (value <? TWO_TO_63));;;
  let s := splitZigzag64 value in
  writeSplitVarint64 (split64Low s) (split64High s).

(** *** Hash strings, booleans, byte blocks *)

(** [writeZigzagVarintHash64(hash)] *)
Definition writeZigzagVarintHash64 (hash : jsstring) : M unit :=
  let s := splitHash64 hash in
  toZigzag64 (split64Low s) (split64High s)
    (fun lo hi => writeSplitVarint64 (lo .>>> 0) (hi .>>> 0)).

(** [writeZigzagVarint64String(value)]; the assertion of
    [decimalStringToHash64] is passed on. *)
Definition writeZigzagVarint64String (value : string) : M unit :=
  match decimalStringToHash64 value with
  | Return hash => writeZigzagVarintHash64 hash
  | Throw e => throw e
  | OutOfFuel => fun e => (OutOfFuel, e)
  end.

(** [writeVarintHash64(hash)], [writeFixedHash64(hash)] *)
Definition writeVarintHash64 (hash : jsstring) : M unit :=
  let s := splitHash64 hash in
  writeSplitVarint64 (split64Low s) (split64High s).

Definition writeFixedHash64 (hash : jsstring) : M unit :=
  let s := splitHash64 hash in
  writeUint32 (split64Low s);;;
  writeUint32 (split64High s).

(** [writeBool(value)]: [value] is used for its truthiness. *)
Definition writeBool (value : bool) : M unit :=
  push (if value then 1 else 0).


End BinaryEncoder.

(** ** class [UInt64]: 64-bit arithmetic on two 32-bit halves *)

Module UInt64.

Record t : Type := mk { lo : Z; hi : Z }.

(** [cmp(other)] *)
Definition cmp (this other : t) : Z :=
  if (hi this <? hi other) || ((hi this =? hi other) && (lo this <? lo other))
  then -1
  else if (hi this =? hi other) && (lo this =? lo other) then 0
  else 1.

(** [rightShift()] *)
Definition rightShift (this : t) : t :=
  let hi' := hi this .>>> 1 in
  let lo' := (lo this .>>> 1) .| ((hi this .& 1) .<< 31) in
  mk (lo' .>>> 0) (hi' .>>> 0).

(** [leftShift()] *)
Definition leftShift (this : t) : t :=
  let lo' := lo this .<< 1 in
  let hi' := (hi this .<< 1) .| (lo this .>>> 31) in
  mk (lo' .>>> 0) (hi' .>>> 0).

(** [msb()] *)
Definition msb (this : t) : bool := negb (hi this .& 0x80000000 =? 0).

(** [lsb()] *)
Definition lsb (this : t) : bool := negb (lo this .& 1 =? 0).

(** [zero()] *)
Definition zero (this : t) : bool := (lo this =? 0) && (hi this =? 0).

(** [add(other)] *)
Definition add (this other : t) : t :=
  let lo' := ((lo this + lo other) .& 0xffffffff) .>>> 0 in
  let hi' := (((hi this + hi other) .& 0xffffffff) .>>> 0)
             + (if lo this + lo other >=? 0x100000000 then 1 else 0) in
  mk (lo' .>>> 0) (hi' .>>> 0).

(** [sub(other)] *)
Definition sub (this other : t) : t :=
  let lo' := ((lo this - lo other) .& 0xffffffff) .>>> 0 in
  let hi' := (((hi this - hi other) .& 0xffffffff) .>>> 0)
             - (if lo this - lo other <? 0 then 1 else 0) in
  mk (lo' .>>> 0) (hi' .>>> 0).

(** First loop of [div]: [while (!divisor.msb())]. *)
Fixpoint div_align (fuel : nat) (divisor unit : t) : Outcome (t * t) :=
  match fuel with
  | O => OutOfFuel
  | S fuel' =>
      if negb (msb divisor)
      then div_align fuel' (leftShift divisor) (leftShift unit)
      else Return (divisor, unit)
  end.

(** Second loop of [div]: [while (!unit.zero())]. *)
Fixpoint div_loop (fuel : nat) (quotient remainder divisor unit : t)
  : Outcome (t * t) :=
  match fuel with
  | O => OutOfFuel
  | S fuel' =>
      if negb (zero unit) then
        let '(quotient, remainder) :=
          if cmp divisor remainder <=? 0
          then (add quotient unit, sub remainder divisor)
          else (quotient, remainder) in
        div_loop fuel' quotient remainder (rightShift divisor) (rightShift unit)
      else Return (quotient, remainder)
  end.

(** [div(_divisor)]: the empty array when [_divisor == 0], else
    [[quotient, remainder]]. *)
Definition div (this : t) (_divisor : Z) : Outcome (list t) :=
  if _divisor =? 0 then Return []
  else
    match div_align 64 (mk _divisor 0) (mk 1 0) with
    | Return (divisor, unit) =>
        match div_loop 65 (mk 0 0) (mk (lo this) (hi this)) divisor unit with
        | Return (quotient, remainder) => Return [quotient; remainder]
        | Throw e => Throw e
        | OutOfFuel => OutOfFuel
        end
    | Throw e => Throw e
    | OutOfFuel => OutOfFuel
    end.

(** The number a [UInt64] stands for. *)
Definition value (x : t) : Z := join64 (lo x) (hi x).

(** Class invariant: both halves are 32-bit words. *)
Definition wf (x : t) : Prop := u32 (lo x) /\ u32 (hi x).

(** Sequencing of calls that may run out of their iteration budget. *)
Definition andThen {A B} (o : Outcome A) (k : A -> Outcome B) : Outcome B :=
  match o with
  | Return a => k a
  | Throw e => Throw e
  | OutOfFuel => OutOfFuel
  end.

(** The carry loop of [mul32x32]: [while (productLow >= 0x100000000)]. *)
Fixpoint mul32x32_carry (fuel : nat) (productLow productHigh : Z)
  : Outcome (Z * Z) :=
  match fuel with
  | O => OutOfFuel
  | S fuel' =>
      if productLow >=? 0x100000000
      then mul32x32_carry fuel' (productLow - 0x100000000) (productHigh + 1)
      else Return (productLow, productHigh)
  end.

(** [static mul32x32(a, b)]; the comment of the source promises at most two
    carries, the budget allows for the three tests they need. *)
Definition mul32x32 (a b : Z) : Outcome t :=
  let aLow := a .& 0xffff in
  let aHigh := a .>>> 16 in
  let bLow := b .& 0xffff in
  let bHigh := b .>>> 16 in
  let productLow :=
    aLow * bLow
    + ((aLow * bHigh) .& 0xffff) * 0x10000
    + ((aHigh * bLow) .& 0xffff) * 0x10000 in
  let productHigh :=
    aHigh * bHigh + ((aLow * bHigh) .>>> 16) + ((aHigh * bLow) .>>> 16) in
  andThen (mul32x32_carry 3 productLow productHigh) (fun p =>
    let '(productLow, productHigh) := p in
    Return (mk (productLow .>>> 0) (productHigh .>>> 0))).

(** [mul(a)]: the high product is moved up by 32 bits, [hi.hi = hi.lo;
    hi.lo = 0], before the addition. *)
Definition mul (this : t) (a : Z) : Outcome t :=
  andThen (mul32x32 (lo this) a) (fun lo' =>
  andThen (mul32x32 (hi this) a) (fun hi' =>
    let hi' := mk 0 (lo hi') in
    Return (add lo' hi'))).

(** The [for] loop of [fromString] over the characters that remain;
    [None] is the [null] of a parse error. *)
Fixpoint fromString_loop (input : string) (result : t) : Outcome (option t) :=
  match input with
  | EmptyString => Return (Some result)
  | String c rest =>
      if (charCode c <? charCode "0") || (charCode c >? charCode "9")
      then Return None
      else
        let digit := charCode c - 48 in
        let digit64 := mk digit 0 in
        andThen (mul result 10) (fun r => fromString_loop rest (add r digit64))
  end.

(** [static fromString(input)] *)
Definition fromString (input : string) : Outcome (option t) :=
  fromString_loop input (mk 0 0).

(** The [while (!num.zero())] loop of [toString]; [remainder.lo + result]
    puts the decimal form of the number [remainder.lo] in front. *)
Fixpoint toString_loop (fuel : nat) (num : t) (result : string)
  : Outcome string :=
  match fuel with
  | O => OutOfFuel
  | S fuel' =>
      if negb (zero num) then
        andThen (div num 10) (fun divResult =>
          match divResult with
          | [quotient; remainder] =>
              toString_loop fuel' quotient
                (Number_toString (lo remainder) ++ result)%string
          | _ => Throw TypeError
          end)
      else Return result
  end.

(** [toString()]: a 64-bit number has at most twenty decimal digits. *)
Definition toString (this : t) : Outcome string :=
  andThen (toString_loop 21 this EmptyString) (fun result =>
    Return (match result with
            | EmptyString => String "0" EmptyString
            | _ => result
            end)).

(** [clone()] *)
Definition clone (this : t) : t := mk (lo this) (hi this).

End UInt64.

(** ** class [Int64] *)

Module Int64.

Record t : Type := mk { lo : Z; hi : Z }.

(** [static fromString(s)] *)
Definition fromString (s : string) : Outcome (option t) :=
  let '(hasNegative, s) :=
    match s with
    | String "-" rest => (true, rest)
    | _ => (false, s)
    end in
  UInt64.andThen (UInt64.fromString s) (fun num =>
    match num with
    | None => Return None
    | Some num =>
        let num := if hasNegative then UInt64.sub (UInt64.mk 0 0) num else num in
        Return (Some (mk (UInt64.lo num) (UInt64.hi num)))
    end).

(** [add(other)], [sub(other)] *)
Definition add (this other : t) : t :=
  let lo' := ((lo this + lo other) .& 0xffffffff) .>>> 0 in
  let hi' := (((hi this + hi other) .& 0xffffffff) .>>> 0)
             + (if lo this + lo other >=? 0x100000000 then 1 else 0) in
  mk (lo' .>>> 0) (hi' .>>> 0).

Definition sub (this other : t) : t :=
  let lo' := ((lo this - lo other) .& 0xffffffff) .>>> 0 in
  let hi' := (((hi this - hi other) .& 0xffffffff) .>>> 0)
             - (if lo this - lo other <? 0 then 1 else 0) in
  mk (lo' .>>> 0) (hi' .>>> 0).

(** [clone()] *)
Definition clone (this : t) : t := mk (lo this) (hi this).

(** [toString()] *)
Definition toString (this : t) : Outcome string :=
  let sign := negb (hi this .& 0x80000000 =? 0) in
  let num := UInt64.mk (lo this) (hi this) in
  let num := if sign then UInt64.sub (UInt64.mk 0 0) num else num in
  UInt64.andThen (UInt64.toString num) (fun s =>
    Return ((if sign then String "-" EmptyString else EmptyString) ++ s)%string).

End Int64.


(** ** constants.ts: the [ByteSource] union *)

Inductive ByteSource : Type :=
| BSUint8Array (data : list Z)
| BSArrayBuffer (data : list Z)
| BSBuffer (data : list Z)
| BSArray (data : list Z)
| BSString (data : string).

(** ** class [BinaryDecoder] *)

Module BinaryDecoder.

Record t : Type := mk {
  bytes : option (list Z);   (* [undefined] before the first [setBlock] *)
  start : Z;
  end_ : Z;
  cursor : Z;
  error : bool
}.

Definition M : Type -> Type := ST t.

(** Field initialisers of the class. *)
Definition init : t := mk None 0 0 0 false.

Definition set_cursor (c : Z) (d : t) : t :=
  mk (bytes d) (start d) (end_ d) c (error d).
Definition set_end (e : Z) (d : t) : t :=
  mk (bytes d) (start d) e (cursor d) (error d).
Definition set_error (b : bool) (d : t) : t :=
  mk (bytes d) (start d) (end_ d) (cursor d) b.

(** [b[i]] on a [Uint8Array]: [undefined] ([None]) outside the array. *)
Definition index (b : list Z) (i : Z) : option Z :=
  if i <? 0 then None else nth_error b (Z.to_nat i).

(** An array element under a bitwise operator: [undefined] converts to 0. *)
Definition num (v : option Z) : Z :=
  match v with Some x => x | None => 0 end.

(** [v >= 128] and [v < 128]; both are false of [undefined]. *)
Definition ge128 (v : option Z) : bool :=
  match v with Some x => x >=? 128 | None => false end.
Definition lt128 (v : option Z) : bool :=
  match v with Some x => x <? 128 | None => false end.

(** [!!v] *)
Definition truthy (v : option Z) : bool :=
  match v with Some x => negb (x =? 0) | None => false end.

(** [this.cursor += n] *)
Definition addCursor (n : Z) : M unit :=
  modify (fun d => set_cursor (cursor d + n) d).

(** [b[this.cursor++]] *)
Definition nextByte (b : list Z) : M (option Z) :=
  d <- get;; addCursor 1;;; ret (index b (cursor d)).

(** [assert(this.cursor <= this.end)] *)
Definition assertInBounds : M unit :=
  d <- get;; assert (cursor d <=? end_ d).

(** [clear()] *)
Definition clear : M unit := modify (fun _ => mk None 0 0 0 false).

(** [getBuffer()] *)
Definition getBuffer : M (option (list Z)) := d <- get;; ret (bytes d).

(** [getEnd()], [setEnd(end)] *)
Definition getEnd : M Z := d <- get;; ret (end_ d).
Definition setEnd (e : Z) : M unit := modify (set_end e).

(** [reset()] *)
Definition reset : M unit := modify (fun d => set_cursor (start d) d).

(** [getCursor()], [setCursor(cursor)] *)
Definition getCursor : M Z := d <- get;; ret (cursor d).
Definition setCursor (c : Z) : M unit := modify (set_cursor c).

(** [advance(count)] *)
Definition advance (count : Z) : M unit := addCursor count;;; assertInBounds.

(** [atEnd()], [pastEnd()] *)
Definition atEnd : M bool := d <- get;; ret (cursor d =? end_ d).
Definition pastEnd : M bool := d <- get;; ret (cursor d >? end_ d).

(** [getError()] *)
Definition getError : M bool :=
  d <- get;; ret (error d || (cursor d <? 0) || (cursor d >? end_ d)).

Section Coercion.
(** [decodeStringToUint8Array] lives in base64.ts, which is out of the
    core; it is a parameter here. *)
Variable decodeStringToUint8Array : string -> list Z.

(** [byteSourceToUint8Array(data)] of lib.ts; the final [throw] is for
    values outside the [ByteSource] type. *)
Definition byteSourceToUint8Array (data : ByteSource) : list Z :=
  match data with
  | BSUint8Array a => a
  | BSArrayBuffer a => a
  | BSBuffer a => a
  | BSArray a => map (fun v => v mod 256) a
  | BSString s => decodeStringToUint8Array s
  end.

(** [setBlock(data, start?, length?)] *)
Definition setBlock (data : ByteSource) (start length : option Z) : M unit :=
  modify (fun d =>
    let b := byteSourceToUint8Array data in
    let start' := match start with Some s => s | None => 0 end in
    let end' := match length with
                | Some l => start' + l
                | None => Z.of_nat (List.length b)
                end in
    mk (Some b) start' end' start' (error d)).
End Coercion.

(** Truthiness of an optional [ByteSource] argument: [undefined] and the
    empty string are falsy, every object is truthy. *)
Definition given (data : option ByteSource) : bool :=
  match data with
  | None => false
  | Some (BSString EmptyString) => false
  | Some _ => true
  end.

(** *** Varint readers *)

(** [for (i = 0; i < 4 && temp >= 128; i++)] of [readSplitVarint64]: [n]
    iterations are left, [i = 4 - n]. *)
Fixpoint readSplitVarint64_low (b : list Z) (n : nat) (i : Z)
    (temp : option Z) (lowBits : Z) : M (option Z * Z) :=
  match n with
  | O => ret (temp, lowBits)
  | S n' =>
      if ge128 temp then
        temp <- nextByte b;;
        readSplitVarint64_low b n' (i + 1) temp
          (lowBits .| ((num temp .& 0x7f) .<< (i * 7)))
      else ret (temp, lowBits)
  end.

(** [for (i = 0; i < 5 && temp >= 128; i++)]: the sixth to tenth byte. *)
Fixpoint readSplitVarint64_high (b : list Z) (n : nat) (i : Z)
    (temp : option Z) (highBits : Z) : M (option Z * Z) :=
  match n with
  | O => ret (temp, highBits)
  | S n' =>
      if ge128 temp then
        temp <- nextByte b;;
        readSplitVarint64_high b n' (i + 1) temp
          (highBits .| ((num temp .& 0x7f) .<< (i * 7 + 3)))
      else ret (temp, highBits)
  end.

(** [readSplitVarint64(convert)]; the assignment [this.error = true] after
    the [throw] is never executed. *)
Definition readSplitVarint64 {T} (convert : Z -> Z -> T) : M T :=
  d <- get;;
  match bytes d with
  | Some b =>
      r <- readSplitVarint64_low b 4 0 (Some 128) 0;;
      let '(temp, lowBits) := r in
      r <- (if ge128 temp then
              temp <- nextByte b;;
              ret (temp, lowBits .| ((num temp .& 0x7f) .<< 28),
                   0 .| ((num temp .& 0x7f) .>> 4))
            else ret (temp, lowBits, 0));;
      let '(temp, lowBits, highBits) := r in
      r <- (if ge128 temp then readSplitVarint64_high b 5 0 temp highBits
            else ret (temp, highBits));;
      let '(temp, highBits) := r in
      if lt128 temp then ret (convert (lowBits .>>> 0) (highBits .>>> 0))
      else throw AssertionError
  | None => throw TypeError
  end.

(** [readSplitZigzagVarint64(convert)] *)
Definition readSplitZigzagVarint64 {T} (convert : Z -> Z -> T) : M T :=
  readSplitVarint64 (fun low high => fromZigzag64 low high convert).

(** The [for] loop of [readSplitFixed64], [i] from [cursor + 7] down to
    [cursor]: [n] iterations are left, [i = cursor + n - 1]. *)
Fixpoint readSplitFixed64_loop (b : list Z) (cursor : Z) (n : nat)
    (lowBits highBits : Z) : Z * Z :=
  match n with
  | O => (lowBits, highBits)
  | S n' =>
      let i := cursor + Z.of_nat n' in
      readSplitFixed64_loop b cursor n'
        ((lowBits .<< 8) .| num (index b i))
        ((highBits .<< 8) .| num (index b (i + 4)))
  end.

(** [readSplitFixed64(convert)] *)
Definition readSplitFixed64 {T} (convert : Z -> Z -> T) : M T :=
  d <- get;;
  match bytes d with
  | Some b =>
      addCursor 8;;;
      let '(lowBits, highBits) := readSplitFixed64_loop b (cursor d) 8 0 0 in
      ret (convert lowBits highBits)
  | None => throw TypeError
  end.

(** [while (this.bytes[this.cursor] & 0x80)] of [skipVarint]; one unit of
    [fuel] per evaluation of the condition. *)
Fixpoint skipVarint_loop (b : list Z) (fuel : nat) : M unit :=
  match fuel with
  | O => fun d => (OutOfFuel, d)
  | S fuel' =>
      d <- get;;
      if negb (num (index b (cursor d)) .& 0x80 =? 0)
      then addCursor 1;;; skipVarint_loop b fuel'
      else ret tt
  end.

(** [skipVarint()].  An element outside the array is [undefined], which
    ends the loop, so one test per element and one more are enough. *)
Definition skipVarint : M unit :=
  d <- get;;
  match bytes d with
  | Some b => skipVarint_loop b (S (List.length b));;; addCursor 1
  | None => ret tt
  end.

(** [while (value > 128)] of [unskipVarint] together with the final
    [this.cursor--]. *)
Fixpoint unskipVarint_loop (fuel : nat) (value : Z) : M unit :=
  match fuel with
  | O => fun d => (OutOfFuel, d)
  | S fuel' =>
      if value >? 128
      then addCursor (-1);;; unskipVarint_loop fuel' (value .>>> 7)
      else addCursor (-1)
  end.

(** [unskipVarint(value)]: [>>> 7] leaves less than 2^25, so six tests are
    enough for every integer. *)
Definition unskipVarint (value : Z) : M unit := unskipVarint_loop 6 value.

(** The chain [b[this.cursor++] >= 128 && ...] of [n] conjuncts; [&&] stops
    at the first byte without the high bit. *)
Fixpoint allContinue (b : list Z) (n : nat) : M bool :=
  match n with
  | O => ret true
  | S n' =>
      temp <- nextByte b;;
      if ge128 temp then allContinue b n' else ret false
  end.

(** [readUnsignedVarint32()] *)
Definition readUnsignedVarint32 : M Z :=
  d <- get;;
  match bytes d with
  | Some b =>
      let temp := index b (cursor d + 0) in
      let x := num temp .& 0x7f in
      if lt128 temp then addCursor 1;;; assertInBounds;;; ret x
      else
      let temp := index b (cursor d + 1) in
      let x := x .| ((num temp .& 0x7f) .<< 7) in
      if lt128 temp then addCursor 2;;; assertInBounds;;; ret x
      else
      let temp := index b (cursor d + 2) in
      let x := x .| ((num temp .& 0x7f) .<< 14) in
      if lt128 temp then addCursor 3;;; assertInBounds;;; ret x
      else
      let temp := index b (cursor d + 3) in
      let x := x .| ((num temp .& 0x7f) .<< 21) in
      if lt128 temp then addCursor 4;;; assertInBounds;;; ret x
      else
      let temp := index b (cursor d + 4) in
      let x := x .| ((num temp .& 0x0f) .<< 28) in
      if lt128 temp then addCursor 5;;; assertInBounds;;; ret (x .>>> 0)
      else
      addCursor 5;;;
      tooLong <- allContinue b 5;;
      (if tooLong then assert false else ret tt);;;
      assertInBounds;;;
      ret x
  | None => throw TypeError
  end.

(** [readSignedVarint32()], [readEnum()] *)
Definition readSignedVarint32 : M Z := readUnsignedVarint32.
Definition readEnum : M Z := readSignedVarint32.

(** [readUnsignedVarint32String()], [readSignedVarint32String()] *)
Definition readUnsignedVarint32String : M string :=
  value <- readUnsignedVarint32;; ret (Number_toString value).
Definition readSignedVarint32String : M string :=
  value <- readSignedVarint32;; ret (Number_toString value).

(** [readZigzagVarint32()] *)
Definition readZigzagVarint32 : M Z :=
  result <- readUnsignedVarint32;;
  ret ((result .>>> 1) .^ (- (result .& 1))).

(** [readUnsignedVarint64String()], [readSignedVarint64String()],
    [readZigzagVarint64String()], [readZigzagVarintHash64()],
    [readVarintHash64()] *)
Definition readUnsignedVarint64String : M string :=
  readSplitVarint64 joinUnsignedDecimalString.
Definition readSignedVarint64String : M string :=
  readSplitVarint64 joinSignedDecimalString.
Definition readZigzagVarint64String : M string :=
  readSplitZigzagVarint64 joinSignedDecimalString.
Definition readZigzagVarintHash64 : M jsstring :=
  readSplitZigzagVarint64 joinHash64.
Definition readVarintHash64 : M jsstring := readSplitVarint64 joinHash64.

(** *** Fixed-width readers *)

(** [readUint8()]: the element itself, [undefined] outside the array. *)
Definition readUint8 : M (option Z) :=
  d <- get;;
  match bytes d with
  | Some b =>
      let a := index b (cursor d + 0) in
      addCursor 1;;; assertInBounds;;; ret a
  | None => throw TypeError
  end.

(** [readUint16()] *)
Definition readUint16 : M Z :=
  d <- get;;
  match bytes d with
  | Some b =>
      let a := num (index b (cursor d + 0)) in
      let b1 := num (index b (cursor d + 1)) in
      addCursor 2;;; assertInBounds;;;
      ret ((a .<< 0) .| (b1 .<< 8))
  | None => throw TypeError
  end.

(** [readUint32()] *)
Definition readUint32 : M Z :=
  d <- get;;
  match bytes d with
  | Some b =>
      let a := num (index b (cursor d + 0)) in
      let b1 := num (index b (cursor d + 1)) in
      let c := num (index b (cursor d + 2)) in
      let d1 := num (index b (cursor d + 3)) in
      addCursor 4;;; assertInBounds;;;
      ret (((a .<< 0) .| (b1 .<< 8) .| (c .<< 16) .| (d1 .<< 24)) .>>> 0)
  | None => throw TypeError
  end.

(** [readUint64String()], [readInt64String()] *)
Definition readUint64String : M string :=
  bitsLow <- readUint32;; bitsHigh <- readUint32;;
  ret (joinUnsignedDecimalString bitsLow bitsHigh).
Definition readInt64String : M string :=
  bitsLow <- readUint32;; bitsHigh <- readUint32;;
  ret (joinSignedDecimalString bitsLow bitsHigh).

(** [readInt8()] *)
Definition readInt8 : M Z :=
  d <- get;;
  match bytes d with
  | Some b =>
      let a := num (index b (cursor d + 0)) in
      addCursor 1;;; assertInBounds;;;
      ret ((a .<< 24) .>> 24)
  | None => throw TypeError
  end.

(** [readInt16()] *)
Definition readInt16 : M Z :=
  d <- get;;
  match bytes d with
  | Some b =>
      let a := num (index b (cursor d + 0)) in
      let b1 := num (index b (cursor d + 1)) in
      addCursor 2;;; assertInBounds;;;
      ret ((((a .<< 0) .| (b1 .<< 8)) .<< 16) .>> 16)
  | None => throw TypeError
  end.

(** [readInt32()] *)
Definition readInt32 : M Z :=
  d <- get;;
  match bytes d with
  | Some b =>
      let a := num (index b (cursor d + 0)) in
      let b1 := num (index b (cursor d + 1)) in
      let c := num (index b (cursor d + 2)) in
      let d1 := num (index b (cursor d + 3)) in
      addCursor 4;;; assertInBounds;;;
      ret ((a .<< 0) .| (b1 .<< 8) .| (c .<< 16) .| (d1 .<< 24))
  | None => throw TypeError
  end.

(** [readBool()] *)
Definition readBool : M bool :=
  d <- get;;
  match bytes d with
  | Some b => v <- nextByte b;; ret (truthy v)
  | None => ret false
  end.

Section Doubles.
(** Results that are JavaScript doubles: the joins of lib.ts that compute
    in floating point are parameters. *)
Variable number : Type.
Variable joinUint64 joinInt64 joinFloat32 joinFloat64 : Z -> Z -> number.

(** [joinZigzag64(bitsLow, bitsHigh)] of lib.ts *)
Definition joinZigzag64 (bitsLow bitsHigh : Z) : number :=
  fromZigzag64 bitsLow bitsHigh joinInt64.

Definition readUnsignedVarint64 : M number := readSplitVarint64 joinUint64.
Definition readSignedVarint64 : M number := readSplitVarint64 joinInt64.
Definition readZigzagVarint64 : M number := readSplitVarint64 joinZigzag64.

Definition readUint64 : M number :=
  bitsLow <- readUint32;; bitsHigh <- readUint32;;
  ret (joinUint64 bitsLow bitsHigh).
Definition readInt64 : M number :=
  bitsLow <- readUint32;; bitsHigh <- readUint32;;
  ret (joinInt64 bitsLow bitsHigh).
Definition readFloat : M number :=
  bitsLow <- readUint32;; ret (joinFloat32 bitsLow 0).
Definition readDouble : M number :=
  bitsLow <- readUint32;; bitsHigh <- readUint32;;
  ret (joinFloat64 bitsLow bitsHigh).
End Doubles.

(** *** Strings and byte blocks *)

(** [v < k] for an array element; false of [undefined]. *)
Definition lt (v : option Z) (k : Z) : bool :=
  match v with Some x => x <? k | None => false end.

(** The end of one iteration of the loop of [readString]: flush the code
    units to [result] once there are 8192 of them. *)
Definition readString_flush (codeUnits : list Z) (result : jsstring)
  : list Z * jsstring :=
  if Z.of_nat (List.length codeUnits) >=? 8192
  then ([], result ++ fromCharCode codeUnits)
  else (codeUnits, result).

(** [while (cursor < end)] of [readString] on its local variables; one
    unit of [fuel] per evaluation of the loop condition. *)
Fixpoint readString_loop (b : list Z) (end' : Z) (fuel : nat) (cursor : Z)
    (codeUnits : list Z) (result : jsstring) : option (Z * list Z * jsstring) :=
  match fuel with
  | O => None
  | S fuel' =>
      if cursor <? end' then
        let c := index b cursor in
        let cursor := cursor + 1 in
        if lt c 128 then
          let '(codeUnits, result) :=
            readString_flush (codeUnits ++ [num c]) result in
          readString_loop b end' fuel' cursor codeUnits result
        else if lt c 192 then
          (* continue *)
          readString_loop b end' fuel' cursor codeUnits result
        else if lt c 224 then
          let c2 := index b cursor in
          let cursor := cursor + 1 in
          let '(codeUnits, result) :=
            readString_flush
              (codeUnits ++ [((num c .& 31) .<< 6) .| (num c2 .& 63)]) result in
          readString_loop b end' fuel' cursor codeUnits result
        else if lt c 240 then
          let c2 := index b cursor in
          let cursor := cursor + 1 in
          let c3 := index b cursor in
          let cursor := cursor + 1 in
          let '(codeUnits, result) :=
            readString_flush
              (codeUnits ++ [((num c .& 15) .<< 12) .| ((num c2 .& 63) .<< 6)
                               .| (num c3 .& 63)]) result in
          readString_loop b end' fuel' cursor codeUnits result
        else if lt c 248 then
          let c2 := index b cursor in
          let cursor := cursor + 1 in
          let c3 := index b cursor in
          let cursor := cursor + 1 in
          let c4 := index b cursor in
          let cursor := cursor + 1 in
          let codepoint :=
            ((num c .& 7) .<< 18) .| ((num c2 .& 63) .<< 12)
              .| ((num c3 .& 63) .<< 6) .| (num c4 .& 63) in
          let codepoint := codepoint - 0x10000 in
          let low := (codepoint .& 1023) + 0xdc00 in
          let high := ((codepoint .>> 10) .& 1023) + 0xd800 in
          let '(codeUnits, result) :=
            readString_flush (codeUnits ++ [high; low]) result in
          readString_loop b end' fuel' cursor codeUnits result
        else
          let '(codeUnits, result) := readString_flush codeUnits result in
          readString_loop b end' fuel' cursor codeUnits result
      else Some (cursor, codeUnits, result)
  end.

(** [readString(length)]; [byteArrayToString] of lib.ts is
    [String.fromCharCode] applied chunk by chunk.  Every iteration moves
    the local cursor forward, so [length] iterations and the final test
    fit in the budget. *)
Definition readString (length : Z) : M jsstring :=
  d <- get;;
  let end' := cursor d + length in
  match bytes d with
  | Some b =>
      match readString_loop b end' (S (Z.to_nat length)) (cursor d) [] [] with
      | Some (cursor', codeUnits, result) =>
          let result := result ++ fromCharCode codeUnits in
          modify (set_cursor cursor');;;
          ret result
      | None => fun d => (OutOfFuel, d)
      end
  | None => throw TypeError
  end.

(** [readStringWithLength()] *)
Definition readStringWithLength : M jsstring :=
  length <- readUnsignedVarint32;; readString length.

(** [b.subarray(begin, end)]: negative indices count from the end, both
    are clamped to the array. *)
Definition subarray (b : list Z) (begin end' : Z) : list Z :=
  let len := Z.of_nat (List.length b) in
  let rel k := if k <? 0 then Z.max (len + k) 0 else Z.min k len in
  firstn (Z.to_nat (rel end' - rel begin)) (skipn (Z.to_nat (rel begin)) b).

(** [readBytes(length)] *)
Definition readBytes (length : Z) : M (list Z) :=
  d <- get;;
  match bytes d with
  | Some b =>
      if (length <? 0) || (cursor d + length >? Z.of_nat (List.length b)) then
        modify (set_error true);;; throw TypeError
      else
        let result := subarray b (cursor d) (cursor d + length) in
        addCursor length;;; assertInBounds;;; ret result
  | None => throw TypeError
  end.

(** [readFixedHash64()] *)
Definition readFixedHash64 : M jsstring :=
  d <- get;;
  match bytes d with
  | Some b =>
      let cursor := cursor d in
      let a := index b (cursor + 0) in
      let b1 := index b (cursor + 1) in
      let c := index b (cursor + 2) in
      let d1 := index b (cursor + 3) in
      let e := index b (cursor + 4) in
      let f := index b (cursor + 5) in
      let g := index b (cursor + 6) in
      let h := index b (cursor + 7) in
      addCursor 8;;;
      ret (fromCharCode (map num [a; b1; c; d1; e; f; g; h]))
  | None => throw TypeError
  end.

(** *** The instance cache

    Decoders are objects: the heap maps references to their fields, and
    the static [instanceCache] is an array of references. *)

Record World : Type := mkWorld {
  heap : gmap nat t;
  instanceCache : list nat
}.

Definition emptyWorld : World := mkWorld ∅ [].

(** A method call [r.m(...)] on the object behind reference [r]. *)
Definition call {A} (r : nat) (m : M A) (w : World) : Outcome A * World :=
  match heap w !! r with
  | Some d =>
      let '(o, d') := m d in
      (o, mkWorld (<[r := d']> (heap w)) (instanceCache w))
  | None => (Throw TypeError, w)
  end.

Section Pool.
Variable decodeStringToUint8Array : string -> list Z.

(** [constructor(bytes?, start?, length?)] *)
Definition construct (bytes : option ByteSource) (start length : option Z) : t :=
  match bytes with
  | Some data =>
      if given bytes
      then snd (setBlock decodeStringToUint8Array data start length init)
      else init
  | None => init
  end.

(** [static alloc(bytes?, start?, length?)]: [pop] takes the last
    reference of the cache. *)
Definition alloc (bytes : option ByteSource) (start length : option Z)
    (w : World) : nat * World :=
  match instanceCache w with
  | _ :: _ =>
      let newDecoder := List.last (instanceCache w) 0%nat in
      let w := mkWorld (heap w) (removelast (instanceCache w)) in
      match bytes with
      | Some data =>
          if given bytes
          then (newDecoder,
                snd (call newDecoder
                       (setBlock decodeStringToUint8Array data start length) w))
          else (newDecoder, w)
      | None => (newDecoder, w)
      end
  | [] =>
      let r := fresh (dom (heap w)) in
      (r, mkWorld (<[r := construct bytes start length]> (heap w))
            (instanceCache w))
  end.

(** [free()] on the object behind [r]: [push] appends the reference. *)
Definition free (r : nat) (w : World) : World :=
  let w := snd (call r clear w) in
  if Z.of_nat (List.length (instanceCache w)) <? 100
  then mkWorld (heap w) (instanceCache w ++ [r])
  else w.

(** [clone()] on the object behind [r] *)
Definition clone (r : nat) (w : World) : option (nat * World) :=
  match heap w !! r with
  | Some d =>
      Some (alloc (option_map BSUint8Array (bytes d)) (Some (start d))
              (Some (end_ d - start d)) w)
  | None => None
  end.

(** [alloc().free()] once, and [n] times in a row. *)
Definition allocFree (w : World) : World :=
  let '(r, w) := alloc None None None w in free r w.

Fixpoint allocFreeCycles (n : nat) (w : World) : World :=
  match n with
  | O => w
  | S n' => allocFreeCycles n' (allocFree w)
  end.

(** [n] calls of [alloc()] that keep their decoders, which are then all
    freed, first allocated first. *)
Fixpoint allocMany (n : nat) (w : World) : list nat * World :=
  match n with
  | O => ([], w)
  | S n' =>
      let '(r, w) := alloc None None None w in
      let '(rs, w) := allocMany n' w in
      (r :: rs, w)
  end.

Definition freeAll (rs : list nat) (w : World) : World :=
  fold_left (fun w r => free r w) rs w.
End Pool.

Definition poolSize (w : World) : Z := Z.of_nat (List.length (instanceCache w)).

End BinaryDecoder.


(** ** Reference notions used to state the properties *)

(** The signed 64-bit integer held by a pair of 32-bit words, whichever of
    the signed or unsigned reading each word is given in. *)
Definition int64_of_split (lo hi : Z) : Z :=
  let v := join64 (JS.toUint32 lo) (JS.toUint32 hi) in
  if v <? 2 ^ 63 then v else v - 2 ^ 64.

(** The unsigned 64-bit integer held by a pair of words. *)
Definition uint64_of_split (lo hi : Z) : Z :=
  join64 (JS.toUint32 lo) (JS.toUint32 hi).

(** The split pair of the low 64 bits of an integer. *)
Definition split_of_int64 (v : Z) : Z * Z :=
  (v mod 2 ^ 32, (v / 2 ^ 32) mod 2 ^ 32).

(** The zigzag table of decoder.test.ts ("does zigzag encoding properly"):
    pairs (original, zigzag). *)
Definition zigzagTestCases : list (Z * Z) :=
  [ (0, 0); (-1, 1); (1, 2); (-2, 3);
    (2147483647, 4294967294); (-2147483648, 4294967295);
    (9223372036854775807, 18446744073709551614);
    (-9223372036854775808, 18446744073709551615) ].

(** One row of the table checked in both directions on the split words. *)
Definition zigzagCaseHolds (c : Z * Z) : bool :=
  let '(original, zigzag) := c in
  let '(lo, hi) := split_of_int64 original in
  let '(zlo, zhi) := split_of_int64 zigzag in
  (toZigzag64 lo hi uint64_of_split =? zigzag)
  && (fromZigzag64 zlo zhi int64_of_split =? original).

(** Base-128 little-endian varints as the wire format defines them: bytes
    of [0, 256), the high bit (bit 7) set on every byte but the last. *)
Definition isByte (b : Z) : bool := (0 <=? b) && (b <? 256).
Definition continuationBit (b : Z) : bool := Z.testbit b 7.

Fixpoint wellFormedVarint (bs : list Z) : bool :=
  match bs with
  | [] => false
  | b :: rest =>
      match rest with
      | [] => isByte b && negb (continuationBit b)
      | _ :: _ => isByte b && continuationBit b && wellFormedVarint rest
      end
  end.

(** The number a varint encodes: seven value bits per byte, low group first. *)
Fixpoint varintValue (bs : list Z) : Z :=
  match bs with
  | [] => 0
  | b :: rest => b mod 2 ^ 7 + 2 ^ 7 * varintValue rest
  end.

(** What a decoder method may change: [preservesView m] says that [m]
    leaves [bytes], [start] and [end] as they were, whatever its outcome. *)
Definition preservesView {A} (m : BinaryDecoder.M A) : Prop :=
  forall d,
    BinaryDecoder.bytes (snd (m d)) = BinaryDecoder.bytes d
    /\ BinaryDecoder.start (snd (m d)) = BinaryDecoder.start d
    /\ BinaryDecoder.end_ (snd (m d)) = BinaryDecoder.end_ d.

(** [checksEnd m]: [m] never returns normally with the cursor past [end]. *)
Definition checksEnd {A} (m : BinaryDecoder.M A) : Prop :=
  forall d a d',
    m d = (Return a, d') -> BinaryDecoder.cursor d' <= BinaryDecoder.end_ d'.

(** [advancesBy n m]: a normal return of [m] leaves the cursor [n] further. *)
Definition advancesBy {A} (n : Z) (m : BinaryDecoder.M A) : Prop :=
  forall d a d',
    m d = (Return a, d') -> BinaryDecoder.cursor d' = BinaryDecoder.cursor d + n.

(** [advancesWithin lo hi m]: a normal return of [m] leaves the cursor between
    [lo] and [hi] further. *)
Definition advancesWithin {A} (lo hi : Z) (m : BinaryDecoder.M A) : Prop :=
  forall d a d',
    m d = (Return a, d') ->
    BinaryDecoder.cursor d + lo <= BinaryDecoder.cursor d'
      <= BinaryDecoder.cursor d + hi.

(** The 32 bits that [readUnsignedVarint32] keeps of a varint of five or
    more bytes: the low 32 bits, in signed reading, of the value of its first
    five bytes. *)
Definition varint32Low (t0 t1 t2 t3 t4 : Z) : Z :=
  JS.toInt32 (varintValue [t0; t1; t2; t3; t4]).

(** UTF-16 surrogates and the UTF-8 sequences of the wire format. *)
Definition isHighSurrogate (c : Z) : bool := (0xd800 <=? c) && (c <=? 0xdbff).
Definition isLowSurrogate (c : Z) : bool := (0xdc00 <=? c) && (c <=? 0xdfff).

(** The code point of a surrogate pair. *)
Definition surrogatePairCodePoint (high low : Z) : Z :=
  0x10000 + (high - 0xd800) * 0x400 + (low - 0xdc00).

(** Four-byte UTF-8 sequence of a code point of [0x10000, 0x10ffff], and the
    three-byte pattern applied to a 16-bit value. *)
Definition utf8Sequence4 (cp : Z) : list Z :=
  [240 + cp / 2 ^ 18; 128 + (cp / 2 ^ 12) mod 2 ^ 6;
   128 + (cp / 2 ^ 6) mod 2 ^ 6; 128 + cp mod 2 ^ 6].
Definition utf8Sequence3 (c : Z) : list Z :=
  [224 + c / 2 ^ 12; 128 + (c / 2 ^ 6) mod 2 ^ 6; 128 + c mod 2 ^ 6].

(** The bytes that [writeString] appends for a string. *)
Definition writeString_bytes (value : jsstring) : list Z :=
  BinaryEncoder.buffer
    (snd (BinaryEncoder.writeString_loop value (BinaryEncoder.mk []))).

(** Decimal numerals, read independently of how they are printed: the value
    of a non-empty string of ASCII digits, and the absence of a leading
    zero. *)
Definition digitValue (c : ascii) : option Z :=
  let n := Z.of_nat (nat_of_ascii c) in
  if (48 <=? n) && (n <=? 57) then Some (n - 48) else None.

Fixpoint parseDecimal_from (s : string) (acc : Z) : option Z :=
  match s with
  | EmptyString => Some acc
  | String c s' =>
      match digitValue c with
      | Some d => parseDecimal_from s' (10 * acc + d)
      | None => None
      end
  end.

Definition parseDecimal (s : string) : option Z :=
  match s with
  | EmptyString => None
  | String _ _ => parseDecimal_from s 0
  end.

Definition noLeadingZero (s : string) : Prop :=
  s = String "0" EmptyString
  \/ exists c s', s = String c s' /\ c <> "0"%char.

(** The last [k] decimal digits of [m], zero-padded. *)
Fixpoint lastDigits (k : nat) (m : Z) : string :=
  match k with
  | O => EmptyString
  | S k' => (lastDigits k' (m / 10) ++ String (digitChar (m mod 10)) EmptyString)%string
  end.

(** ** Reference notions for the properties of the remaining functions *)

(** The zigzag code of an integer: 0, -1, 1, -2, ... are 0, 1, 2, 3, ... *)
Definition zigzag64 (v : Z) : Z := if v <? 0 then - 2 * v - 1 else 2 * v.

(** The decoder has an array, and [bs] are its elements from the cursor on
    (the array may go on after them). *)
Definition bytesAtCursor (d : BinaryDecoder.t) (bs : list Z) : Prop :=
  0 <= BinaryDecoder.cursor d
  /\ match BinaryDecoder.bytes d with
     | Some b =>
         firstn (List.length bs) (skipn (Z.to_nat (BinaryDecoder.cursor d)) b) = bs
     | None => False
     end.

(** The writer returns normally and puts [bs] at the end of the buffer,
    whatever the buffer holds. *)
Definition appends (m : BinaryEncoder.M unit) (bs : list Z) : Prop :=
  forall buf,
    m (BinaryEncoder.mk buf) = (Return tt, BinaryEncoder.mk (buf ++ bs)).

(** On [bs] under the cursor the reader moves the cursor over them and
    returns [v] if the cursor is then within [end], and raises an assertion
    error if it is not. *)
Definition readsChecked {A} (m : BinaryDecoder.M A) (bs : list Z) (v : A) : Prop :=
  forall d,
    bytesAtCursor d bs ->
    m d = (if BinaryDecoder.cursor d + Z.of_nat (List.length bs)
              <=? BinaryDecoder.end_ d
           then Return v else Throw AssertionError,
           BinaryDecoder.set_cursor
             (BinaryDecoder.cursor d + Z.of_nat (List.length bs)) d).

(** On [bs] under the cursor the reader moves the cursor over them and
    returns [v], wherever [end] is. *)
Definition readsUnchecked {A} (m : BinaryDecoder.M A) (bs : list Z) (v : A) : Prop :=
  forall d,
    bytesAtCursor d bs ->
    m d = (Return v,
           BinaryDecoder.set_cursor
             (BinaryDecoder.cursor d + Z.of_nat (List.length bs)) d).

(** The bytes the fixed-width writers push for [v], low byte first. *)
Definition le32 (v : Z) : list Z :=
  [(v .>>> 0) .& 0xff; (v .>>> 8) .& 0xff; (v .>>> 16) .& 0xff; (v .>>> 24) .& 0xff].

(** On [bs] under the cursor and before [end] the reader moves the cursor
    over them and returns [v]. *)
Definition readsWithin {A} (m : BinaryDecoder.M A) (bs : list Z) (v : A) : Prop :=
  forall d,
    bytesAtCursor d bs ->
    BinaryDecoder.cursor d + Z.of_nat (List.length bs) <= BinaryDecoder.end_ d ->
    m d = (Return v,
           BinaryDecoder.set_cursor
             (BinaryDecoder.cursor d + Z.of_nat (List.length bs)) d).

Definition le16 (v : Z) : list Z := [(v .>>> 0) .& 0xff; (v .>>> 8) .& 0xff].
Definition le8 (v : Z) : list Z := [(v .>>> 0) .& 0xff].

(** What [readUnsignedVarint32] makes of a well-formed varint: up to five
    bytes give the value modulo 2^32, six to ten bytes its low 32 bits in
    signed reading. *)
Definition varint32Result (bs : list Z) : Z :=
  if (List.length bs <=? 5)%nat then varintValue bs mod 2 ^ 32
  else JS.toInt32 (varintValue bs).

(** The ten bytes [writeSignedVarint32] pushes for a negative value. *)
Definition signedVarint32Bytes (v : Z) : list Z :=
  let c x := (x .& 0x7f) .| 0x80 in
  let s x := x .>> 7 in
  [c v; c (s v); c (s (s v)); c (s (s (s v))); c (s (s (s (s v))));
   c (s (s (s (s (s v))))); c (s (s (s (s (s (s v))))));
   c (s (s (s (s (s (s (s v))))))); c (s (s (s (s (s (s (s (s v))))))));
   1].

(** The decimal string that [readZigzagVarint64String] returns for the
    zigzag varint of [v]. *)
Definition zigzagStringValue (v : Z) : Z :=
  if (0 <=? v) && (v <? 2 ^ 53) && (2 ^ 31 <=? v mod 2 ^ 32)
  then v - 2 ^ 32 else v.

(** The hash string that stands for the two words taken from [h]; it is
    [h] itself when [h] has eight code units below 256. *)
Definition normalizedHash (h : jsstring) : jsstring :=
  joinHash64 (split64Low (splitHash64 h)) (split64High (splitHash64 h)).

(** A UTF-16 code unit. *)
Definition isUnit (c : Z) : bool := (0 <=? c) && (c <? 65536).

(** The code units of a string that [writeString] encodes: a high
    surrogate followed by a unit that is not a low surrogate is left
    out. *)
Fixpoint survivors (value : jsstring) : jsstring :=
  match value with
  | [] => []
  | c :: rest =>
      if isHighSurrogate c then
        match rest with
        | [] => [c]
        | second :: rest' =>
            if isLowSurrogate second then c :: second :: survivors rest'
            else survivors rest
        end
      else c :: survivors rest
  end.

(** The bytes [ws] lie in [b] from index [c] on. *)
Definition holds (b : list Z) (c : Z) (ws : list Z) : Prop :=
  forall k v, nth_error ws k = Some v ->
    BinaryDecoder.index b (c + Z.of_nat k) = Some v.

(** No high surrogate is followed by a unit that is not a low surrogate. *)
Fixpoint noLoneHigh (value : jsstring) : bool :=
  match value with
  | [] => true
  | c :: rest =>
      (if isHighSurrogate c
       then match rest with [] => true | second :: _ => isLowSurrogate second end
       else true)
      && noLoneHigh rest
  end.

(** The number a list of bytes stands for, low byte first. *)
Definition bytesValue (bs : list Z) : Z :=
  fold_right (fun b acc => b + 256 * acc) 0 bs.

(** Every element is a byte. *)
Definition isByteList (bs : list Z) : Prop := Forall (fun b => 0 <= b < 256) bs.

(** The hash string of the low 64 bits of an integer. *)
Definition hashOf (v : Z) : jsstring :=
  joinHash64 (v mod 2 ^ 32) ((v / 2 ^ 32) mod 2 ^ 32).

(** Bytes of the varint of a 32-bit value. *)
Definition varintLength (v : Z) : Z :=
  if v <? 128 then 1
  else if v <? 16384 then 2
  else if v <? 2097152 then 3
  else if v <? 268435456 then 4
  else 5.

(** The values on which [unskipVarint] stops one byte early: those with
    [value >>> 7k = 128] for some k. *)
Definition unskipShortfall (v : Z) : Z :=
  if ((128 <=? v) && (v <? 129)) || ((16384 <=? v) && (v <? 16512))
     || ((2097152 <=? v) && (v <? 2113536))
     || ((268435456 <=? v) && (v <? 270532608))
  then 1 else 0.

(** How many times [unskipVarint] decrements the cursor. *)
Fixpoint unskipSteps (fuel : nat) (v : Z) : Z :=
  match fuel with
  | O => 0
  | S fuel' => if v >? 128 then 1 + unskipSteps fuel' (v / 128) else 1
  end.

(** Every element is a byte with the continuation bit. *)
Definition allContinuation (bs : list Z) : bool :=
  forallb (fun b => (128 <=? b) && (b <? 256)) bs.

(** The decoder's array ends with [bs]: nothing follows them. *)
Definition bytesToArrayEnd (d : BinaryDecoder.t) (bs : list Z) : Prop :=
  0 <= BinaryDecoder.cursor d
  /\ match BinaryDecoder.bytes d with
     | Some b => skipn (Z.to_nat (BinaryDecoder.cursor d)) b = bs
     | None => False
     end.

(** The writers of one integer that check its range, each with its range
    [lo <= value < hi]. *)
Definition rangeChecked : list ((Z -> BinaryEncoder.M unit) * Z * Z) :=
  [ (BinaryEncoder.writeUint8, 0, 256);
    (BinaryEncoder.writeUint16, 0, 65536);
    (BinaryEncoder.writeUint32, 0, JS.TWO_TO_32);
    (BinaryEncoder.writeUint64, 0, JS.TWO_TO_64);
    (BinaryEncoder.writeInt8, -128, 128);
    (BinaryEncoder.writeInt16, -32768, 32768);
    (BinaryEncoder.writeInt32, - JS.TWO_TO_31, JS.TWO_TO_31);
    (BinaryEncoder.writeInt64, - BinaryEncoder.TWO_TO_63, BinaryEncoder.TWO_TO_63);
    (BinaryEncoder.writeUnsignedVarint32, 0, JS.TWO_TO_32);
    (BinaryEncoder.writeSignedVarint32, - JS.TWO_TO_31, JS.TWO_TO_31);
    (BinaryEncoder.writeEnum, - JS.TWO_TO_31, JS.TWO_TO_31);
    (BinaryEncoder.writeZigzagVarint32, - JS.TWO_TO_31, JS.TWO_TO_31);
    (BinaryEncoder.writeUnsignedVarint64, 0, JS.TWO_TO_64);
    (BinaryEncoder.writeSignedVarint64, - BinaryEncoder.TWO_TO_63, BinaryEncoder.TWO_TO_63);
    (BinaryEncoder.writeZigzagVarint64, - BinaryEncoder.TWO_TO_63, BinaryEncoder.TWO_TO_63) ].

(** The writer returns normally and appends at least one byte. *)
Definition writesSome (m : BinaryEncoder.M unit) : Prop :=
  exists bs, bs <> [] /\ appends m bs.

(** The writer raises an assertion error and leaves the buffer as it was. *)
Definition rejects (m : BinaryEncoder.M unit) : Prop :=
  forall e, m e = (Throw AssertionError, e).

(** * Properties *)

(** ** Bits of the 32-bit operators *)

Lemma TWO_TO_32_pow : JS.TWO_TO_32 = 2 ^ 32.
Proof. reflexivity. Qed.

Lemma TWO_TO_31_pow : JS.TWO_TO_31 = 2 ^ 31.
Proof. reflexivity. Qed.

Lemma toUint32_range x : u32 (JS.toUint32 x).
Proof. unfold u32, JS.toUint32. apply Z.mod_pos_bound. reflexivity. Qed.

Lemma toUint32_id x : u32 x -> JS.toUint32 x = x.
Proof. unfold u32, JS.toUint32. intros H. apply Z.mod_small. exact H. Qed.

Lemma toInt32_range x : - JS.TWO_TO_31 <= JS.toInt32 x < JS.TWO_TO_31.
Proof.
  unfold JS.toInt32.
  pose proof (Z.mod_pos_bound x JS.TWO_TO_32 eq_refl) as H.
  destruct (Z.ltb_spec (x mod JS.TWO_TO_32) JS.TWO_TO_31);
    unfold JS.TWO_TO_31, JS.TWO_TO_32 in *; lia.
Qed.

Lemma toUint32_bits x i :
  Z.testbit (JS.toUint32 x) i = (i <? 32) && Z.testbit x i.
Proof.
  unfold JS.toUint32. rewrite TWO_TO_32_pow.
  destruct (Z.ltb_spec i 32).
  - destruct (Z.ltb_spec i 0).
    + rewrite !Z.testbit_neg_r by lia. reflexivity.
    + rewrite Z.mod_pow2_bits_low by lia. reflexivity.
  - rewrite Z.mod_pow2_bits_high by lia. reflexivity.
Qed.

(** Subtracting 2^32 from a word with bit 31 set fills in all bits from 32
    upwards. *)
Lemma sub_pow32_bits u i :
  0 <= u < 2 ^ 32 -> 0 <= i ->
  Z.testbit (u - 2 ^ 32) i = Z.testbit u i || (32 <=? i).
Proof.
  intros Hu Hi.
  assert (Hdisj : Z.land u (Z.shiftl (-1) 32) = 0).
  { apply Z.bits_inj'. intros j Hj. rewrite Z.land_spec, Z.bits_0.
    destruct (Z.ltb_spec j 32).
    - rewrite Z.shiftl_spec_low by lia. apply andb_false_r.
    - replace (Z.testbit u j) with false; [reflexivity|].
      symmetry. rewrite <- (Z.mod_small u (2 ^ 32)) by lia.
      apply Z.mod_pow2_bits_high. lia. }
  replace (u - 2 ^ 32) with (u + Z.shiftl (-1) 32) by (rewrite Z.shiftl_mul_pow2; lia).
  rewrite (Z.add_nocarry_lxor _ _ Hdisj), Z.lxor_spec.
  destruct (Z.leb_spec 32 i).
  - rewrite Z.shiftl_spec by lia. rewrite Z.bits_m1 by lia.
    replace (Z.testbit u i) with false; [reflexivity|].
    symmetry. rewrite <- (Z.mod_small u (2 ^ 32)) by lia.
    apply Z.mod_pow2_bits_high. lia.
  - rewrite Z.shiftl_spec_low by lia. rewrite xorb_false_r, orb_false_r. reflexivity.
Qed.

Lemma toInt32_bits x i :
  Z.testbit (JS.toInt32 x) i = Z.testbit x (Z.min i 31).
Proof.
  destruct (Z.ltb_spec i 0) as [Hneg|Hi].
  { rewrite Z.min_l by lia. rewrite !Z.testbit_neg_r by lia. reflexivity. }
  unfold JS.toInt32. rewrite TWO_TO_32_pow, TWO_TO_31_pow.
  pose proof (Z.mod_pos_bound x (2 ^ 32) eq_refl) as Hu.
  assert (H31 : Z.testbit x 31 = negb (x mod 2 ^ 32 <? 2 ^ 31)).
  { rewrite <- (Z.mod_pow2_bits_low x 32 31) by lia.
    destruct (Z.ltb_spec (x mod 2 ^ 32) (2 ^ 31)); cbn [negb].
    - rewrite <- (Z.mod_small (x mod 2 ^ 32) (2 ^ 31)) by lia.
      apply Z.mod_pow2_bits_high. lia.
    - apply Z.testbit_true; [lia|].
      replace (x mod 2 ^ 32 / 2 ^ 31) with 1; [reflexivity|].
      apply Z.div_unique with (r := x mod 2 ^ 32 - 2 ^ 31); lia. }
  destruct (Z.ltb_spec (x mod 2 ^ 32) (2 ^ 31)) as [Hlt|Hge].
  - destruct (Z.ltb_spec i 32).
    + rewrite Z.mod_pow2_bits_low by lia.
      destruct (Z.min_spec i 31) as [[? ->]|[? ->]]; [reflexivity|].
      f_equal; lia.
    + rewrite Z.mod_pow2_bits_high by lia.
      rewrite Z.min_r by lia. rewrite H31. reflexivity.
  - rewrite sub_pow32_bits by lia.
    destruct (Z.leb_spec 32 i).
    + rewrite Z.min_r by lia. rewrite H31, orb_true_r. reflexivity.
    + rewrite orb_false_r, Z.mod_pow2_bits_low by lia.
      f_equal; lia.
Qed.

Lemma and_bits a b i :
  Z.testbit (a .& b) i = Z.testbit a (Z.min i 31) && Z.testbit b (Z.min i 31).
Proof. unfold JS.and. rewrite Z.land_spec, !toInt32_bits. reflexivity. Qed.

Lemma or_bits a b i :
  Z.testbit (a .| b) i = Z.testbit a (Z.min i 31) || Z.testbit b (Z.min i 31).
Proof. unfold JS.or. rewrite Z.lor_spec, !toInt32_bits. reflexivity. Qed.

Lemma xor_bits a b i :
  Z.testbit (a .^ b) i = xorb (Z.testbit a (Z.min i 31)) (Z.testbit b (Z.min i 31)).
Proof. unfold JS.xor. rewrite Z.lxor_spec, !toInt32_bits. reflexivity. Qed.

Lemma not_bits a i :
  Z.testbit (JS.not a) i = (0 <=? i) && negb (Z.testbit a (Z.min i 31)).
Proof.
  unfold JS.not. destruct (Z.leb_spec 0 i).
  - rewrite Z.lnot_spec, toInt32_bits by lia. reflexivity.
  - apply Z.testbit_neg_r. lia.
Qed.

Lemma shl_bits a n i :
  0 <= n < 32 ->
  Z.testbit (a .<< n) i = (n <=? Z.min i 31) && Z.testbit a (Z.min i 31 - n).
Proof.
  intros Hn. unfold JS.shl. rewrite (Z.mod_small n 32) by lia.
  rewrite toInt32_bits.
  destruct (Z.leb_spec n (Z.min i 31)).
  - rewrite Z.shiftl_spec, toInt32_bits by lia. cbn [andb]. f_equal. lia.
  - destruct (Z.ltb_spec (Z.min i 31) 0).
    + apply Z.testbit_neg_r. lia.
    + rewrite Z.shiftl_spec_low by lia. reflexivity.
Qed.

Lemma sar_bits a n i :
  0 <= n < 32 ->
  Z.testbit (a .>> n) i = (0 <=? i) && Z.testbit a (Z.min (i + n) 31).
Proof.
  intros Hn. unfold JS.sar. rewrite (Z.mod_small n 32) by lia.
  destruct (Z.leb_spec 0 i).
  - rewrite Z.shiftr_spec, toInt32_bits by lia. reflexivity.
  - apply Z.testbit_neg_r. lia.
Qed.

Lemma shr_bits a n i :
  0 <= n < 32 ->
  Z.testbit (a .>>> n) i = (0 <=? i) && (i + n <? 32) && Z.testbit a (i + n).
Proof.
  intros Hn. unfold JS.shr. rewrite (Z.mod_small n 32) by lia.
  destruct (Z.leb_spec 0 i).
  - rewrite Z.shiftr_spec, toUint32_bits by lia. reflexivity.
  - apply Z.testbit_neg_r. lia.
Qed.

(** [-(x & 1)] is the all-ones or all-zeros mask given by bit 0 of [x]. *)
Lemma neg_and1_bits x i :
  Z.testbit (- (x .& 1)) i = (0 <=? i) && Z.testbit x 0.
Proof.
  destruct (Z.leb_spec 0 i) as [Hi|Hi]; [|apply Z.testbit_neg_r; lia].
  unfold JS.and. change (JS.toInt32 1) with (Z.ones 1).
  rewrite Z.land_ones by lia. change (2 ^ 1) with 2.
  replace (Z.testbit x 0) with (Z.testbit (JS.toInt32 x) 0)
    by (rewrite toInt32_bits; reflexivity).
  rewrite <- (Z.bit0_mod (JS.toInt32 x)).
  destruct (Z.testbit (JS.toInt32 x) 0); cbn [Z.b2z andb].
  - apply Z.bits_m1. exact Hi.
  - apply Z.bits_0.
Qed.

(** Bits of an unsigned word above bit 31 are clear. *)
Lemma u32_high_bits x i : u32 x -> 32 <= i -> Z.testbit x i = false.
Proof.
  intros Hx Hi. rewrite <- (toUint32_id x Hx), toUint32_bits.
  destruct (Z.ltb_spec i 32); [lia | reflexivity].
Qed.

Create Rewrite HintDb jsbits.
#[local] Hint Rewrite and_bits or_bits xor_bits not_bits shl_bits sar_bits shr_bits
  neg_and1_bits toInt32_bits toUint32_bits using lia : jsbits.

(** Case analysis on the positions and tests that the bit lemmas leave;
    impossible cases are closed at once. *)
Ltac split_bit_case :=
  match goal with
  | |- context [Z.min ?a ?b] =>
      first [ rewrite (Z.min_l a b) by lia
            | rewrite (Z.min_r a b) by lia
            | destruct (Z.min_spec a b) as [[? ->] | [? ->]] ]
  | |- context [?a <? ?b] =>
      destruct (Z.ltb_spec a b); try (exfalso; lia); cbn [andb orb xorb negb]
  | |- context [?a <=? ?b] =>
      destruct (Z.leb_spec a b); try (exfalso; lia); cbn [andb orb xorb negb]
  | |- context [?a =? ?b] =>
      destruct (Z.eqb_spec a b); try (exfalso; lia); cbn [andb orb xorb negb]
  end.

Ltac norm_bit_index :=
  repeat match goal with
    | |- context [Z.testbit _ ?e] => progress ring_simplify e
    end.

(** Positions of one word that are provably the same are made so. *)
Ltac unify_bit_index :=
  repeat match goal with
    | |- context [Z.testbit ?x ?a] =>
        match goal with
        | |- context [Z.testbit x ?b] =>
            tryif constr_eq a b then fail else replace b with a by lia
        end
    end.

Ltac jsbits :=
  repeat (first [ progress (autorewrite with jsbits) | split_bit_case ]);
  cbn [andb orb xorb negb];
  norm_bit_index; unify_bit_index;
  repeat match goal with
    | |- context [Z.testbit ?x ?e] =>
        first [ rewrite (Z.testbit_neg_r x e) by lia
              | rewrite (u32_high_bits x e) by (first [assumption | lia]) ]
    end;
  rewrite ?andb_false_r, ?andb_true_r, ?orb_false_r, ?orb_true_r;
  try reflexivity; try btauto.

(** The two transforms without their local bindings. *)
Lemma toZigzag64_eq {T} lo hi (k : Z -> Z -> T) :
  toZigzag64 lo hi k
  = k ((lo .<< 1) .^ (hi .>> 31))
      (((hi .<< 1) .| (lo .>>> 31)) .^ (hi .>> 31)).
Proof. reflexivity. Qed.

Lemma fromZigzag64_eq {T} lo hi (k : Z -> Z -> T) :
  fromZigzag64 lo hi k
  = k (((lo .>>> 1) .| (hi .<< 31)) .^ (- (lo .& 1)))
      ((hi .>>> 1) .^ (- (lo .& 1))).
Proof. reflexivity. Qed.

(** Round trip on the low word: the continuation of [fromZigzag64] gets the
    signed reading of the original low word. *)
Lemma zigzag_roundtrip_lo lo hi :
  toZigzag64 lo hi (fun l h => fromZigzag64 l h (fun a b => a)) = JS.toInt32 lo.
Proof.
  rewrite toZigzag64_eq, fromZigzag64_eq.
  apply Z.bits_inj'. intros i Hi. jsbits.
Qed.

Lemma zigzag_roundtrip_hi lo hi :
  toZigzag64 lo hi (fun l h => fromZigzag64 l h (fun a b => b)) = JS.toInt32 hi.
Proof.
  rewrite toZigzag64_eq, fromZigzag64_eq.
  apply Z.bits_inj'. intros i Hi. jsbits.
Qed.

Lemma toUint32_toInt32 x : JS.toUint32 (JS.toInt32 x) = JS.toUint32 x.
Proof.
  apply Z.bits_inj'. intros i Hi. jsbits.
Qed.

Lemma int64_of_split_toInt32 lo hi :
  int64_of_split (JS.toInt32 lo) (JS.toInt32 hi) = int64_of_split lo hi.
Proof. unfold int64_of_split. rewrite !toUint32_toInt32. reflexivity. Qed.

Lemma split_of_int64_u32 v :
  u32 (fst (split_of_int64 v)) /\ u32 (snd (split_of_int64 v)).
Proof.
  unfold split_of_int64, u32. rewrite TWO_TO_32_pow. cbn [fst snd].
  split; apply Z.mod_pos_bound; reflexivity.
Qed.

Lemma int64_of_split_of_int64 v :
  - 2 ^ 63 <= v < 2 ^ 63 ->
  int64_of_split (fst (split_of_int64 v)) (snd (split_of_int64 v)) = v.
Proof.
  intros Hv. destruct (split_of_int64_u32 v) as [Hlo Hhi].
  unfold int64_of_split. rewrite (toUint32_id _ Hlo), (toUint32_id _ Hhi).
  unfold split_of_int64, join64. cbn [fst snd]. rewrite TWO_TO_32_pow.
  assert (Hj : (v / 2 ^ 32) mod 2 ^ 32 * 2 ^ 32 + v mod 2 ^ 32 = v mod 2 ^ 64).
  { change (2 ^ 64) with (2 ^ 32 * 2 ^ 32).
    rewrite (Z.rem_mul_r v (2 ^ 32) (2 ^ 32)) by lia. lia. }
  rewrite Hj.
  pose proof (Z.div_mod v (2 ^ 64) ltac:(lia)) as Hdm.
  pose proof (Z.mod_pos_bound v (2 ^ 64) ltac:(lia)) as Hr.
  destruct (Z.ltb_spec (v mod 2 ^ 64) (2 ^ 63)); lia.
Qed.

(** [fromZigzag64] reads its arguments through the 32-bit conversions: the
    unsigned reading of a word, as the decoder supplies it, does as well as
    the signed one. *)
Lemma fromZigzag64_unsigned {T} (k : Z -> Z -> T) lo hi :
  fromZigzag64 (lo .>>> 0) (hi .>>> 0) k = fromZigzag64 lo hi k.
Proof.
  rewrite !fromZigzag64_eq. f_equal; apply Z.bits_inj'; intros i Hi; jsbits.
Qed.

(** Whatever the final continuation [k], it is called on the signed readings
    of the original words. *)
Lemma zigzag_roundtrip_gen {T} (k : Z -> Z -> T) lo hi :
  toZigzag64 lo hi (fun l h => fromZigzag64 l h k)
  = k (JS.toInt32 lo) (JS.toInt32 hi).
Proof.
  pose proof (zigzag_roundtrip_lo lo hi) as H1.
  pose proof (zigzag_roundtrip_hi lo hi) as H2.
  rewrite toZigzag64_eq, fromZigzag64_eq in H1.
  rewrite toZigzag64_eq, fromZigzag64_eq in H2.
  rewrite toZigzag64_eq, fromZigzag64_eq.
  rewrite H1, H2. reflexivity.
Qed.

(** ** Bits of split pairs and of the arithmetic used in the statements *)

Lemma div_pow2_bits_guard a n m :
  0 <= n -> Z.testbit (a / 2 ^ n) m = (0 <=? m) && Z.testbit a (m + n).
Proof.
  intros Hn. destruct (Z.leb_spec 0 m).
  - apply Z.div_pow2_bits; assumption.
  - apply Z.testbit_neg_r. lia.
Qed.

Lemma join64_bits lo hi i :
  u32 lo ->
  Z.testbit (join64 lo hi) i
  = (i <? 32) && Z.testbit lo i || (32 <=? i) && Z.testbit hi (i - 32).
Proof.
  intros Hlo. unfold join64. rewrite TWO_TO_32_pow.
  assert (Hdisj : Z.land (hi * 2 ^ 32) lo = 0).
  { apply Z.bits_inj'. intros j Hj. rewrite Z.land_spec, Z.bits_0.
    destruct (Z.ltb_spec j 32).
    - rewrite Z.mul_pow2_bits_low by lia. reflexivity.
    - rewrite (u32_high_bits lo j Hlo) by lia. apply andb_false_r. }
  rewrite (Z.add_nocarry_lxor _ _ Hdisj), Z.lxor_spec.
  rewrite Z.mul_pow2_bits by lia.
  destruct (Z.ltb_spec i 32), (Z.leb_spec 32 i); try lia; cbn [andb orb].
  - rewrite Z.testbit_neg_r by lia. rewrite orb_false_r. reflexivity.
  - rewrite (u32_high_bits lo i Hlo) by lia. apply xorb_false_r.
Qed.

#[local] Hint Rewrite Z.lor_spec Z.land_spec Z.lxor_spec Z.bits_0 : jsbits.
#[local] Hint Rewrite Z.testbit_mod_pow2 div_pow2_bits_guard Z.mul_pow2_bits
  Z.testbit_ones Z.pow2_bits_eqb using lia : jsbits.
#[local] Hint Rewrite join64_bits using (first [assumption | apply toUint32_range]) : jsbits.

Lemma shr0 x : x .>>> 0 = JS.toUint32 x.
Proof. unfold JS.shr. change (0 mod 32) with 0. apply Z.shiftr_0_r. Qed.

Lemma shr_u32 x n : 0 <= n < 32 -> u32 (x .>>> n).
Proof.
  intros Hn. unfold JS.shr. rewrite (Z.mod_small n 32) by lia.
  pose proof (toUint32_range x) as Hx. unfold u32 in *.
  rewrite Z.shiftr_div_pow2 by lia.
  assert (0 < 2 ^ n) by (apply Z.pow_pos_nonneg; lia).
  split.
  - apply Z.div_pos; lia.
  - apply Z.le_lt_trans with (JS.toUint32 x); [|lia].
    apply Z.div_le_upper_bound; [lia|]. nia.
Qed.

(** [x & (2^k - 1)] keeps the low [k] bits. *)
Lemma and_ones x k : 0 <= k < 32 -> x .& Z.ones k = x mod 2 ^ k.
Proof.
  intros Hk. apply Z.bits_inj'. intros i Hi. jsbits.
Qed.

(** ** C2: varints written by [writeSplitVarint64] *)

(** A continuation byte of the loop: the low seven bits with bit 7 set. *)
Lemma varint_cont_byte lo : (lo .& 0x7f) .| 0x80 = lo mod 2 ^ 7 + 2 ^ 7.
Proof.
  change 0x7f with (Z.ones 7). rewrite and_ones by lia.
  change 0x80 with (2 ^ 7).
  assert (Hdisj : Z.land (lo mod 2 ^ 7) (2 ^ 7) = 0)
    by (apply Z.bits_inj'; intros i Hi; jsbits).
  rewrite (Z.add_nocarry_lxor _ _ Hdisj).
  apply Z.bits_inj'. intros i Hi. jsbits.
Qed.

(** One iteration shifts the 64-bit value right by seven bits. *)
Lemma varint_step_join lo hi :
  u32 lo -> u32 hi ->
  join64 (((lo .>>> 7) .| (hi .<< 25)) .>>> 0) (hi .>>> 7) = join64 lo hi / 2 ^ 7.
Proof.
  intros Hlo Hhi.
  rewrite shr0.
  apply Z.bits_inj'. intros i Hi. jsbits.
Qed.

(** ** C1: zigzag round trip *)

(** C1, as stated, fails: on the pair (4294967295, 4294967295), the split
    form of -1, [toZigzag64] followed by [fromZigzag64] hands (-1, -1) to the
    continuation, because the bitwise operators of the source produce signed
    32-bit results. *)
Lemma C1_counterexample :
  u32 4294967295 /\
  toZigzag64 4294967295 4294967295 (fun l h => fromZigzag64 l h pair) = (-1, -1) /\
  toZigzag64 4294967295 4294967295 (fun l h => fromZigzag64 l h pair)
    <> (4294967295, 4294967295).
Proof.
  split; [unfold u32, JS.TWO_TO_32; lia|].
  split; [vm_compute; reflexivity | vm_compute; discriminate].
Qed.

(** C1 (amended): for every split pair (lo, hi) of 32-bit words, [toZigzag64]
    followed by [fromZigzag64] hands the original words back in their signed
    32-bit reading, also when the zigzag words pass through [>>> 0] in
    between as they do on the wire, so that [>>> 0] restores (lo, hi) and the
    pair is returned unchanged when both words are below 2^31; the 64-bit
    signed value of the pair is preserved, every signed 64-bit value is
    reached this way, and the rows of the zigzag test table hold in both
    directions. *)
Theorem C1_zigzag_roundtrip (lo hi : Z) (Hlo : u32 lo) (Hhi : u32 hi) :
  toZigzag64 lo hi (fun l h => fromZigzag64 l h pair)
    = (JS.toInt32 lo, JS.toInt32 hi)
  /\ toZigzag64 lo hi (fun l h => fromZigzag64 (l .>>> 0) (h .>>> 0) pair)
    = (JS.toInt32 lo, JS.toInt32 hi)
  /\ toZigzag64 lo hi (fun l h => fromZigzag64 l h
                                   (fun a b => (a .>>> 0, b .>>> 0))) = (lo, hi)
  /\ (lo < JS.TWO_TO_31 -> hi < JS.TWO_TO_31 ->
      toZigzag64 lo hi (fun l h => fromZigzag64 l h pair) = (lo, hi))
  /\ toZigzag64 lo hi (fun l h => fromZigzag64 l h int64_of_split)
      = int64_of_split lo hi
  /\ (forall v, - 2 ^ 63 <= v < 2 ^ 63 ->
      let '(l, h) := split_of_int64 v in
      toZigzag64 l h (fun l' h' => fromZigzag64 l' h' int64_of_split) = v)
  /\ forallb zigzagCaseHolds zigzagTestCases = true.
Proof.
  split; [apply zigzag_roundtrip_gen|].
  split.
  { rewrite toZigzag64_eq, fromZigzag64_unsigned, <- toZigzag64_eq.
    apply zigzag_roundtrip_gen. }
  split.
  { rewrite zigzag_roundtrip_gen.
    unfold JS.shr. change (0 mod 32) with 0. rewrite !Z.shiftr_0_r.
    rewrite !toUint32_toInt32, !toUint32_id by assumption. reflexivity. }
  split.
  { intros Hl Hh. rewrite zigzag_roundtrip_gen. unfold JS.toInt32, u32 in *.
    rewrite !Z.mod_small by lia.
    destruct (Z.ltb_spec lo JS.TWO_TO_31); [|lia].
    destruct (Z.ltb_spec hi JS.TWO_TO_31); [|lia].
    reflexivity. }
  split; [rewrite zigzag_roundtrip_gen; apply int64_of_split_toInt32|].
  split.
  { intros v Hv. pose proof (int64_of_split_of_int64 v Hv) as Hs.
    destruct (split_of_int64 v) as [l h]. cbn [fst snd] in Hs.
    rewrite zigzag_roundtrip_gen, int64_of_split_toInt32. exact Hs. }
  vm_compute. reflexivity.
Qed.

Lemma C1_zigzag_roundtrip_witness :
  toZigzag64 4294967294 2147483648 (fun l h => fromZigzag64 l h pair)
  = (JS.toInt32 4294967294, JS.toInt32 2147483648).
Proof.
  refine (proj1 (C1_zigzag_roundtrip 4294967294 2147483648 _ _));
    unfold u32, JS.TWO_TO_32; lia.
Defined.

(** The signed reading reaches the callers.  The zigzag form of 2147483648 is
    the pair (0, 1), written as the varint [128; 128; 128; 128; 16];
    [fromZigzag64] passes the low word on as -2147483648, and
    [joinUnsignedDecimalString], which adds its words as they come, prints a
    negative number. *)
Example readZigzagVarint64String_signed_low_word :
  BinaryEncoder.writeSplitVarint64 0 1 (BinaryEncoder.mk [])
  = (Return tt, BinaryEncoder.mk [128; 128; 128; 128; 16])
  /\ fromZigzag64 0 1 pair = (-2147483648, 0)
  /\ fst (BinaryDecoder.readZigzagVarint64String
            (BinaryDecoder.mk (Some [128; 128; 128; 128; 16]) 0 5 0 false))
     = Return "-2147483648"%string.
Proof. repeat split; vm_compute; reflexivity. Qed.

(** The rows of the zigzag table through the decoder, as the test reads
    them. *)
Example readZigzagVarint64String_table :
  fst (BinaryDecoder.readZigzagVarint64String
         (BinaryDecoder.mk (Some [255; 255; 255; 255; 255; 255; 255; 255; 255; 1])
            0 10 0 false))
  = Return "-9223372036854775808"%string
  /\ fst (BinaryDecoder.readUnsignedVarint64String
            (BinaryDecoder.mk (Some [255; 255; 255; 255; 255; 255; 255; 255; 255; 1])
               0 10 0 false))
     = Return "18446744073709551615"%string
  /\ fst (BinaryDecoder.readZigzagVarint64String
            (BinaryDecoder.mk (Some [254; 255; 255; 255; 255; 255; 255; 255; 255; 1])
               0 10 0 false))
     = Return "9223372036854775807"%string
  /\ fst (BinaryDecoder.readZigzagVarint64String
            (BinaryDecoder.mk (Some [1]) 0 1 0 false))
     = Return "-1"%string.
Proof. repeat split; vm_compute; reflexivity. Qed.


Lemma byte_bit7 b : 0 <= b < 256 -> Z.testbit b 7 = (128 <=? b).
Proof.
  intros Hb. rewrite Z.testbit_eqb by lia. change (2 ^ 7) with 128.
  destruct (Z.leb_spec 128 b).
  - replace (b / 128) with 1; [reflexivity|].
    apply Z.div_unique with (r := b - 128); lia.
  - rewrite Z.div_small by lia. reflexivity.
Qed.

Lemma wellFormedVarint_bound bs :
  wellFormedVarint bs = true ->
  0 <= varintValue bs < 2 ^ (7 * Z.of_nat (List.length bs)).
Proof.
  induction bs as [|b rest IH]; [discriminate|].
  cbn [wellFormedVarint varintValue List.length].
  pose proof (Z.mod_pos_bound b (2 ^ 7) eq_refl) as Hm.
  destruct rest as [|b' rest'].
  - intros _. cbn [varintValue List.length]. change (7 * Z.of_nat 1) with 7. lia.
  - intros H. apply andb_prop in H. destruct H as [_ H].
    specialize (IH H).
    replace (7 * Z.of_nat (S (List.length (b' :: rest'))))
      with (7 + 7 * Z.of_nat (List.length (b' :: rest'))) by lia.
    rewrite Z.pow_add_r by lia. nia.
Qed.

Lemma wellFormedVarint_nonempty bs :
  wellFormedVarint bs = true -> (1 <= List.length bs)%nat.
Proof. destruct bs; [discriminate|]. intros _. cbn. lia. Qed.

(** The loop condition tests whether the 64-bit value needs another byte. *)
Lemma varint_loop_cond lo hi :
  u32 lo -> u32 hi ->
  (hi >? 0) || (lo >? 127) = (2 ^ 7 <=? join64 lo hi).
Proof.
  unfold u32, join64, JS.TWO_TO_32. intros Hlo Hhi. change (2 ^ 7) with 128.
  destruct (Z.gtb_spec hi 0), (Z.gtb_spec lo 127), (Z.leb_spec 128 (hi * 4294967296 + lo));
    cbn [orb]; try reflexivity; lia.
Qed.

Lemma join64_mod128 lo hi : join64 lo hi mod 2 ^ 7 = lo mod 2 ^ 7.
Proof.
  unfold join64, JS.TWO_TO_32.
  replace (hi * 4294967296 + lo) with (lo + (hi * 33554432) * 2 ^ 7) by lia.
  apply Z.mod_add. lia.
Qed.

Lemma writeSplitVarint64_loop_S fuel lo hi :
  BinaryEncoder.writeSplitVarint64_loop (S fuel) lo hi
  = if (hi >? 0) || (lo >? 127) then
      bind (BinaryEncoder.push ((lo .& 0x7f) .| 0x80))
        (fun _ => BinaryEncoder.writeSplitVarint64_loop fuel
                    (((lo .>>> 7) .| (hi .<< 25)) .>>> 0) (hi .>>> 7))
    else BinaryEncoder.push lo.
Proof. reflexivity. Qed.

Lemma writeSplitVarint64_loop_spec fuel : forall lo hi buf,
  u32 lo -> u32 hi ->
  join64 lo hi < 2 ^ (7 * Z.of_nat (S fuel)) ->
  exists bs,
    BinaryEncoder.writeSplitVarint64_loop (S fuel) lo hi (BinaryEncoder.mk buf)
      = (Return tt, BinaryEncoder.mk (buf ++ bs))
    /\ wellFormedVarint bs = true
    /\ varintValue bs = join64 lo hi
    /\ (List.length bs <= S fuel)%nat
    /\ (List.length bs = 1%nat
        \/ 2 ^ (7 * (Z.of_nat (List.length bs) - 1)) <= join64 lo hi).
Proof.
  induction fuel as [|fuel IH]; intros lo hi buf Hlo Hhi Hv.
  - exists [lo].
    assert (Hsmall : join64 lo hi < 2 ^ 7) by exact Hv.
    rewrite writeSplitVarint64_loop_S.
    rewrite varint_loop_cond by assumption.
    destruct (Z.leb_spec (2 ^ 7) (join64 lo hi)); [lia|].
    assert (hi = 0 /\ 0 <= lo < 128)
      by (unfold u32, join64, JS.TWO_TO_32 in *; change (2 ^ 7) with 128 in *; lia).
    destruct H0 as [-> Hl].
    split; [reflexivity|].
    split.
    { cbn [wellFormedVarint]. unfold isByte, continuationBit.
      rewrite byte_bit7 by lia.
      destruct (Z.leb_spec 0 lo), (Z.ltb_spec lo 256), (Z.leb_spec 128 lo);
        try lia; reflexivity. }
    split.
    { cbn [varintValue]. unfold join64. rewrite Z.mod_small by (change (2 ^ 7) with 128; lia).
      lia. }
    split; [cbn; lia | left; reflexivity].
  - rewrite (writeSplitVarint64_loop_S (S fuel) lo hi).
    rewrite varint_loop_cond by assumption.
    destruct (Z.leb_spec (2 ^ 7) (join64 lo hi)) as [Hge|Hlt].
    + rewrite varint_cont_byte.
      pose proof (varint_step_join lo hi Hlo Hhi) as Hstep.
      set (lo' := ((lo .>>> 7) .| (hi .<< 25)) .>>> 0) in *.
      set (hi' := hi .>>> 7) in *.
      assert (Hlo' : u32 lo') by (apply shr_u32; lia).
      assert (Hhi' : u32 hi') by (apply shr_u32; lia).
      assert (Hv' : join64 lo' hi' < 2 ^ (7 * Z.of_nat (S fuel))).
      { rewrite Hstep. apply Z.div_lt_upper_bound; [lia|].
        rewrite <- Z.pow_add_r by lia.
        replace (7 + 7 * Z.of_nat (S fuel)) with (7 * Z.of_nat (S (S fuel))) by lia.
        exact Hv. }
      destruct (IH lo' hi' (buf ++ [lo mod 2 ^ 7 + 2 ^ 7]) Hlo' Hhi' Hv')
        as (bs & Hrun & Hwf & Hval & Hlen & Hmin).
      exists ((lo mod 2 ^ 7 + 2 ^ 7) :: bs).
      pose proof (Z.mod_pos_bound lo (2 ^ 7) eq_refl) as Hm.
      pose proof (wellFormedVarint_nonempty bs Hwf) as Hne.
      split.
      { unfold bind at 1. unfold BinaryEncoder.push at 1. unfold modify.
        cbn [BinaryEncoder.buffer]. rewrite Hrun, <- app_assoc. reflexivity. }
      split.
      { cbn [wellFormedVarint]. destruct bs as [|b' bs']; [cbn in Hne; lia|].
        rewrite Hwf. unfold isByte, continuationBit.
        rewrite byte_bit7 by (change (2 ^ 7) with 128 in *; lia).
        change (2 ^ 7) with 128 in *.
        destruct (Z.leb_spec 0 (lo mod 128 + 128)),
          (Z.ltb_spec (lo mod 128 + 128) 256),
          (Z.leb_spec 128 (lo mod 128 + 128)); try lia; reflexivity. }
      split.
      { cbn [varintValue]. rewrite Hval, Hstep.
        replace ((lo mod 2 ^ 7 + 2 ^ 7) mod 2 ^ 7) with (join64 lo hi mod 2 ^ 7).
        - pose proof (Z.div_mod (join64 lo hi) (2 ^ 7) ltac:(lia)). lia.
        - rewrite join64_mod128.
          replace (lo mod 2 ^ 7 + 2 ^ 7) with (lo mod 2 ^ 7 + 1 * 2 ^ 7) by lia.
          rewrite Z.mod_add by lia. rewrite Z.mod_mod by lia. reflexivity. }
      split; [cbn [List.length]; lia|].
      right. cbn [List.length].
      replace (Z.of_nat (S (List.length bs)) - 1) with (Z.of_nat (List.length bs)) by lia.
      destruct Hmin as [H1|Hmin].
      * rewrite H1. exact Hge.
      * rewrite Hstep in Hmin.
        replace (7 * Z.of_nat (List.length bs))
          with (7 + 7 * (Z.of_nat (List.length bs) - 1)) by lia.
        rewrite Z.pow_add_r by lia.
        pose proof (Z.mul_div_le (join64 lo hi) (2 ^ 7) ltac:(lia)). nia.
    + exists [lo].
      assert (hi = 0 /\ 0 <= lo < 128)
        by (unfold u32, join64, JS.TWO_TO_32 in *; change (2 ^ 7) with 128 in *; lia).
      destruct H as [-> Hl].
      split; [reflexivity|].
      split.
      { cbn [wellFormedVarint]. unfold isByte, continuationBit.
        rewrite byte_bit7 by lia.
        destruct (Z.leb_spec 0 lo), (Z.ltb_spec lo 256), (Z.leb_spec 128 lo);
          try lia; reflexivity. }
      split.
      { cbn [varintValue]. unfold join64.
        rewrite Z.mod_small by (change (2 ^ 7) with 128; lia). lia. }
      split; [cbn; lia | left; reflexivity].
Qed.

(** C2: for every split pair of 32-bit words, [writeSplitVarint64] returns
    normally and appends to the buffer a well-formed varint (bytes of
    [0, 256), continuation bit set on all but the last byte and clear on the
    last) of 1 to 10 bytes whose value is hi * 2^32 + lo, and no well-formed
    varint of that value is shorter. *)
Theorem C2_writeSplitVarint64_canonical (lo hi : Z) (buf : list Z)
    (Hlo : u32 lo) (Hhi : u32 hi) :
  exists bs,
    BinaryEncoder.writeSplitVarint64 lo hi (BinaryEncoder.mk buf)
      = (Return tt, BinaryEncoder.mk (buf ++ bs))
    /\ (1 <= List.length bs <= 10)%nat
    /\ wellFormedVarint bs = true
    /\ varintValue bs = join64 lo hi
    /\ (forall bs', wellFormedVarint bs' = true ->
                    varintValue bs' = join64 lo hi ->
                    (List.length bs <= List.length bs')%nat).
Proof.
  assert (Hv : join64 lo hi < 2 ^ (7 * Z.of_nat 10)).
  { unfold u32, join64, JS.TWO_TO_32 in *.
    change (2 ^ (7 * Z.of_nat 10)) with 1180591620717411303424. lia. }
  destruct (writeSplitVarint64_loop_spec 9 lo hi buf Hlo Hhi Hv)
    as (bs & Hrun & Hwf & Hval & Hlen & Hmin).
  exists bs.
  pose proof (wellFormedVarint_nonempty bs Hwf) as Hne.
  split.
  { unfold BinaryEncoder.writeSplitVarint64, assert, u32 in *.
    destruct (Z.geb_spec lo 0); [|lia].
    destruct (Z.ltb_spec lo JS.TWO_TO_32); [|lia].
    destruct (Z.geb_spec hi 0); [|lia].
    destruct (Z.ltb_spec hi JS.TWO_TO_32); [|lia].
    cbn [andb]. unfold bind at 1 2. unfold ret at 1 2. exact Hrun. }
  split; [lia|]. split; [exact Hwf|]. split; [exact Hval|].
  intros bs' Hwf' Hval'.
  pose proof (wellFormedVarint_nonempty bs' Hwf') as Hne'.
  destruct Hmin as [H1|Hmin]; [lia|].
  pose proof (wellFormedVarint_bound bs' Hwf') as Hb. rewrite Hval' in Hb.
  destruct (Nat.le_gt_cases (List.length bs) (List.length bs')) as [|Hlt];
    [assumption|exfalso].
  assert (2 ^ (7 * Z.of_nat (List.length bs'))
          <= 2 ^ (7 * (Z.of_nat (List.length bs) - 1)))
    by (apply Z.pow_le_mono_r; lia).
  lia.
Qed.

Lemma C2_writeSplitVarint64_canonical_witness :
  exists bs,
    BinaryEncoder.writeSplitVarint64 300 0 (BinaryEncoder.mk [8])
      = (Return tt, BinaryEncoder.mk ([8] ++ bs))
    /\ (1 <= List.length bs <= 10)%nat
    /\ wellFormedVarint bs = true
    /\ varintValue bs = join64 300 0
    /\ (forall bs', wellFormedVarint bs' = true ->
                    varintValue bs' = join64 300 0 ->
                    (List.length bs <= List.length bs')%nat).
Proof.
  apply (C2_writeSplitVarint64_canonical 300 0 [8]);
    unfold u32, JS.TWO_TO_32; lia.
Defined.

(** 300 is written as [0xac; 0x02], and 2^64 - 1 takes all ten bytes. *)
Example writeSplitVarint64_examples :
  BinaryEncoder.writeSplitVarint64 300 0 (BinaryEncoder.mk [])
  = (Return tt, BinaryEncoder.mk [0xac; 0x02])
  /\ BinaryEncoder.writeSplitVarint64 4294967295 4294967295 (BinaryEncoder.mk [])
     = (Return tt,
        BinaryEncoder.mk [255; 255; 255; 255; 255; 255; 255; 255; 255; 1])
  /\ fst (BinaryEncoder.writeSplitVarint64 4294967296 0 (BinaryEncoder.mk []))
     = Throw AssertionError.
Proof. repeat split; vm_compute; reflexivity. Qed.


(** ** C8: [getError] *)

(** C8, as stated, fails: with the window [2, 5] and the cursor at 1, before
    [start], and the flag clear, [getError] returns false. *)
Lemma C8_counterexample :
  let d := BinaryDecoder.mk (Some [0; 0; 0; 0; 0]) 2 5 1 false in
  BinaryDecoder.cursor d < BinaryDecoder.start d
  /\ BinaryDecoder.getError d = (Return false, d)
  /\ fst (BinaryDecoder.getError d) <> Return true.
Proof. split; [cbn; lia|]. split; [reflexivity | discriminate]. Qed.

(** C8 (amended): for every decoder state, [getError] leaves the state as it
    is and returns true exactly when the latched error flag is set, or
    cursor < 0, or cursor > end: the lower bound it tests is 0, not [start].
    It returns true whenever cursor > end, false when the flag is clear and
    0 <= cursor <= end, and when [start] is 0 the condition is that of the
    window [start, end]. *)
Theorem C8_getError (d : BinaryDecoder.t) :
  exists b,
    BinaryDecoder.getError d = (Return b, d)
    /\ (b = true <->
        BinaryDecoder.error d = true
        \/ BinaryDecoder.cursor d < 0
        \/ BinaryDecoder.cursor d > BinaryDecoder.end_ d)
    /\ (BinaryDecoder.cursor d > BinaryDecoder.end_ d -> b = true)
    /\ (BinaryDecoder.error d = false ->
        0 <= BinaryDecoder.cursor d <= BinaryDecoder.end_ d -> b = false)
    /\ (BinaryDecoder.start d = 0 ->
        (b = true <->
         BinaryDecoder.error d = true
         \/ BinaryDecoder.cursor d < BinaryDecoder.start d
         \/ BinaryDecoder.cursor d > BinaryDecoder.end_ d)).
Proof.
  eexists. split; [reflexivity|].
  destruct d as [b s e c err]. cbn [BinaryDecoder.error BinaryDecoder.cursor
    BinaryDecoder.end_ BinaryDecoder.start].
  destruct err, (Z.ltb_spec c 0), (Z.gtb_spec c e); cbn [orb];
    repeat split; intros; try lia; try discriminate; try reflexivity;
    auto; try (subst; intuition (try lia; try discriminate)).
Qed.

(** ** C9: the instance cache *)

Section PoolProperties.
Variable decodeStringToUint8Array : string -> list Z.

#[local] Abbreviation alloc := (BinaryDecoder.alloc decodeStringToUint8Array).
#[local] Abbreviation free := BinaryDecoder.free.
#[local] Abbreviation allocFree := (BinaryDecoder.allocFree decodeStringToUint8Array).
#[local] Abbreviation allocFreeCycles :=
  (BinaryDecoder.allocFreeCycles decodeStringToUint8Array).
#[local] Abbreviation allocMany := (BinaryDecoder.allocMany decodeStringToUint8Array).
#[local] Abbreviation freeAll := BinaryDecoder.freeAll.

Lemma call_instanceCache {A} r (m : BinaryDecoder.M A) w :
  BinaryDecoder.instanceCache (snd (BinaryDecoder.call r m w))
  = BinaryDecoder.instanceCache w.
Proof.
  unfold BinaryDecoder.call.
  destruct (BinaryDecoder.heap w !! r) as [d|]; [|reflexivity].
  destruct (m d) as [o d']. reflexivity.
Qed.

(** [alloc] pops one reference when there is one, and leaves an empty cache
    empty. *)
Lemma alloc_instanceCache bytes start length w :
  BinaryDecoder.instanceCache (snd (alloc bytes start length w))
  = removelast (BinaryDecoder.instanceCache w).
Proof.
  unfold BinaryDecoder.alloc.
  destruct (BinaryDecoder.instanceCache w) as [|r cache] eqn:Hc.
  - reflexivity.
  - destruct bytes as [data|]; [|reflexivity].
    destruct (BinaryDecoder.given (Some data)); [|reflexivity].
    cbn [snd]. rewrite call_instanceCache. reflexivity.
Qed.

Lemma alloc_pops bytes start length w :
  BinaryDecoder.instanceCache w <> [] ->
  fst (alloc bytes start length w) = List.last (BinaryDecoder.instanceCache w) 0%nat.
Proof.
  unfold BinaryDecoder.alloc.
  destruct (BinaryDecoder.instanceCache w) as [|r cache] eqn:Hc; [congruence|].
  intros _. destruct bytes as [data|]; [|reflexivity].
  destruct (BinaryDecoder.given (Some data)); reflexivity.
Qed.

(** [free] pushes its instance unless the cache already holds 100. *)
Lemma free_instanceCache r w :
  BinaryDecoder.instanceCache (free r w)
  = if Z.of_nat (List.length (BinaryDecoder.instanceCache w)) <? 100
    then BinaryDecoder.instanceCache w ++ [r]
    else BinaryDecoder.instanceCache w.
Proof.
  unfold BinaryDecoder.free. rewrite call_instanceCache.
  destruct (Z.of_nat (List.length (BinaryDecoder.instanceCache w)) <? 100);
    [reflexivity | apply call_instanceCache].
Qed.

Lemma free_poolSize r w :
  BinaryDecoder.poolSize (free r w)
  = if BinaryDecoder.poolSize w <? 100
    then BinaryDecoder.poolSize w + 1 else BinaryDecoder.poolSize w.
Proof.
  unfold BinaryDecoder.poolSize. rewrite free_instanceCache.
  destruct (Z.ltb_spec (Z.of_nat (List.length (BinaryDecoder.instanceCache w))) 100);
    [|reflexivity].
  rewrite List.length_app. cbn [List.length]. lia.
Qed.

Lemma alloc_poolSize bytes start length w :
  BinaryDecoder.poolSize (snd (alloc bytes start length w))
  = Z.max 0 (BinaryDecoder.poolSize w - 1).
Proof.
  unfold BinaryDecoder.poolSize. rewrite alloc_instanceCache.
  destruct (BinaryDecoder.instanceCache w) as [|r cache] using rev_ind.
  - reflexivity.
  - rewrite removelast_last, List.length_app. cbn [List.length]. lia.
Qed.

(** One [alloc().free()] on a cache of at most one instance leaves exactly
    one instance in it. *)
Lemma allocFree_poolSize w :
  BinaryDecoder.poolSize w <= 1 -> BinaryDecoder.poolSize (allocFree w) = 1.
Proof.
  intros Hw. unfold BinaryDecoder.allocFree.
  pose proof (alloc_poolSize None None None w) as Ha.
  destruct (alloc None None None w) as [r w']. cbn [snd] in Ha.
  rewrite free_poolSize.
  assert (0 <= BinaryDecoder.poolSize w) by (unfold BinaryDecoder.poolSize; lia).
  destruct (Z.ltb_spec (BinaryDecoder.poolSize w') 100); lia.
Qed.

Lemma allocFreeCycles_poolSize n : forall w,
  BinaryDecoder.poolSize w <= 1 ->
  BinaryDecoder.poolSize (allocFreeCycles n w)
  = if Nat.eqb n 0 then BinaryDecoder.poolSize w else 1.
Proof.
  induction n as [|n IH]; intros w Hw; [reflexivity|].
  cbn [BinaryDecoder.allocFreeCycles Nat.eqb].
  pose proof (allocFree_poolSize w Hw) as H1.
  rewrite IH by lia. destruct (Nat.eqb n 0); [exact H1 | reflexivity].
Qed.

Lemma allocMany_spec n : forall w,
  BinaryDecoder.instanceCache w = [] ->
  List.length (fst (allocMany n w)) = n
  /\ BinaryDecoder.instanceCache (snd (allocMany n w)) = [].
Proof.
  induction n as [|n IH]; intros w Hw; [split; [reflexivity | exact Hw]|].
  cbn [BinaryDecoder.allocMany].
  pose proof (alloc_instanceCache None None None w) as Ha.
  destruct (alloc None None None w) as [r w1]. cbn [snd] in Ha.
  rewrite Hw in Ha. cbn [removelast] in Ha.
  destruct (IH w1 Ha) as [Hl Hc].
  destruct (allocMany n w1) as [rs w2]. cbn [fst snd List.length] in *.
  split; [congruence | exact Hc].
Qed.

Lemma freeAll_poolSize rs : forall w,
  0 <= BinaryDecoder.poolSize w <= 100 ->
  BinaryDecoder.poolSize (freeAll rs w)
  = Z.min (BinaryDecoder.poolSize w + Z.of_nat (List.length rs)) 100.
Proof.
  induction rs as [|r rs IH]; intros w Hw.
  - cbn [BinaryDecoder.freeAll fold_left List.length]. lia.
  - unfold BinaryDecoder.freeAll in *. cbn [fold_left List.length].
    pose proof (free_poolSize r w) as Hf.
    destruct (Z.ltb_spec (BinaryDecoder.poolSize w) 100);
      rewrite IH by lia; lia.
Qed.

End PoolProperties.

(** C9, as stated, fails: from an empty pool, two [alloc().free()] cycles
    leave one instance in the pool, not min(2, 100) = 2, because the second
    [alloc()] takes the pooled instance out again. *)
Lemma C9_counterexample :
  BinaryDecoder.poolSize
    (BinaryDecoder.allocFreeCycles (fun _ => []) 2 BinaryDecoder.emptyWorld) = 1
  /\ 1 <> Z.min 2 100.
Proof. split; [vm_compute; reflexivity | lia]. Qed.

(** C9 (amended): starting from an empty pool, [alloc().free()] repeated n
    times leaves min(n, 1) instances in the pool (so 1 after 101 cycles);
    n decoders allocated and kept, then all freed, leave min(n, 100), which is
    n for n <= 100 and 100 for n = 101; and the pool size never exceeds 100:
    [free] pushes only below the cap and [alloc] never grows the pool. *)
Theorem C9_pool_size (decodeStringToUint8Array : string -> list Z) (n : nat) :
  BinaryDecoder.poolSize
    (BinaryDecoder.allocFreeCycles decodeStringToUint8Array n
       BinaryDecoder.emptyWorld) = Z.min (Z.of_nat n) 1
  /\ (let '(rs, w) := BinaryDecoder.allocMany decodeStringToUint8Array n
                        BinaryDecoder.emptyWorld in
      BinaryDecoder.poolSize
        (BinaryDecoder.freeAll rs w)
      = Z.min (Z.of_nat n) 100)
  /\ (forall r w, BinaryDecoder.poolSize w <= 100 ->
        BinaryDecoder.poolSize (BinaryDecoder.free r w) <= 100)
  /\ (forall bytes start length w,
        BinaryDecoder.poolSize
          (snd (BinaryDecoder.alloc decodeStringToUint8Array bytes start length w))
        <= BinaryDecoder.poolSize w).
Proof.
  split.
  { assert (H0 : BinaryDecoder.poolSize BinaryDecoder.emptyWorld = 0) by reflexivity.
    rewrite allocFreeCycles_poolSize by lia.
    destruct n; cbn [Nat.eqb]; lia. }
  split.
  { pose proof (allocMany_spec decodeStringToUint8Array n
                  BinaryDecoder.emptyWorld eq_refl) as [Hl Hc].
    destruct (BinaryDecoder.allocMany decodeStringToUint8Array n
                BinaryDecoder.emptyWorld) as [rs w]. cbn [fst snd] in *.
    rewrite freeAll_poolSize; unfold BinaryDecoder.poolSize; rewrite Hc;
      cbn [List.length]; lia. }
  split.
  { intros r w Hw. rewrite free_poolSize.
    destruct (Z.ltb_spec (BinaryDecoder.poolSize w) 100); lia. }
  intros bytes start length w. rewrite alloc_poolSize.
  unfold BinaryDecoder.poolSize. lia.
Qed.

(** ** C10: reads leave [bytes], [start] and [end] alone *)

Lemma pv_ret {A} (a : A) : preservesView (ret a).
Proof. intros d. repeat split. Qed.

Lemma pv_throw {A} e : preservesView (@throw _ A e).
Proof. intros d. repeat split. Qed.

Lemma pv_get : preservesView get.
Proof. intros d. repeat split. Qed.

Lemma pv_outOfFuel {A} : preservesView (fun d => (@OutOfFuel A, d)).
Proof. intros d. repeat split. Qed.

Lemma pv_assert b : preservesView (assert b).
Proof. destruct b; intros d; repeat split. Qed.

Lemma pv_bind {A B} (m : BinaryDecoder.M A) (k : A -> BinaryDecoder.M B) :
  preservesView m -> (forall a, preservesView (k a)) -> preservesView (bind m k).
Proof.
  intros Hm Hk d. unfold bind. specialize (Hm d).
  destruct (m d) as [[a|e|] d1]; cbn [snd] in *; [|exact Hm|exact Hm].
  destruct (Hk a d1) as (H1 & H2 & H3). destruct Hm as (H4 & H5 & H6).
  repeat split; congruence.
Qed.

Lemma pv_set_cursor c : preservesView (modify (BinaryDecoder.set_cursor c)).
Proof. intros d. repeat split. Qed.

Lemma pv_set_error b : preservesView (modify (BinaryDecoder.set_error b)).
Proof. intros d. repeat split. Qed.

Lemma pv_addCursor n : preservesView (BinaryDecoder.addCursor n).
Proof. intros d. repeat split. Qed.

Lemma pv_assertInBounds : preservesView BinaryDecoder.assertInBounds.
Proof.
  unfold BinaryDecoder.assertInBounds.
  apply pv_bind; [apply pv_get | intros a; apply pv_assert].
Qed.

Lemma pv_nextByte b : preservesView (BinaryDecoder.nextByte b).
Proof.
  unfold BinaryDecoder.nextByte.
  apply pv_bind; [apply pv_get | intros a].
  apply pv_bind; [apply pv_addCursor | intros _; apply pv_ret].
Qed.

Create HintDb pv discriminated.
#[local] Hint Resolve pv_ret pv_throw pv_get pv_outOfFuel pv_assert pv_set_cursor
  pv_set_error pv_addCursor pv_assertInBounds pv_nextByte : pv.

(** One step through the structure of a method body. *)
Ltac pv_step :=
  lazymatch goal with
  | |- preservesView (bind _ _) => apply pv_bind; [|intros ?]
  | |- preservesView (match ?x with _ => _ end) => destruct x
  | |- preservesView _ => solve [auto with pv]
  | |- forall _, _ => intros ?
  end.

Ltac pv := cbv zeta; repeat pv_step.

Lemma pv_readSplitVarint64_low b n : forall i temp lowBits,
  preservesView (BinaryDecoder.readSplitVarint64_low b n i temp lowBits).
Proof.
  induction n as [|n IH]; intros i temp lowBits;
    cbn [BinaryDecoder.readSplitVarint64_low]; pv.
Qed.

Lemma pv_readSplitVarint64_high b n : forall i temp highBits,
  preservesView (BinaryDecoder.readSplitVarint64_high b n i temp highBits).
Proof.
  induction n as [|n IH]; intros i temp highBits;
    cbn [BinaryDecoder.readSplitVarint64_high]; pv.
Qed.

Lemma pv_allContinue b n : preservesView (BinaryDecoder.allContinue b n).
Proof.
  induction n as [|n IH]; cbn [BinaryDecoder.allContinue]; pv.
Qed.

#[local] Hint Resolve pv_readSplitVarint64_low pv_readSplitVarint64_high
  pv_allContinue : pv.

Lemma pv_readSplitVarint64 {T} (convert : Z -> Z -> T) :
  preservesView (BinaryDecoder.readSplitVarint64 convert).
Proof. unfold BinaryDecoder.readSplitVarint64. pv. Qed.

Lemma pv_readSplitFixed64 {T} (convert : Z -> Z -> T) :
  preservesView (BinaryDecoder.readSplitFixed64 convert).
Proof. unfold BinaryDecoder.readSplitFixed64. pv. Qed.

Lemma pv_readUnsignedVarint32 : preservesView BinaryDecoder.readUnsignedVarint32.
Proof. unfold BinaryDecoder.readUnsignedVarint32. pv. Qed.

Lemma pv_readUint8 : preservesView BinaryDecoder.readUint8.
Proof. unfold BinaryDecoder.readUint8. pv. Qed.

Lemma pv_readUint16 : preservesView BinaryDecoder.readUint16.
Proof. unfold BinaryDecoder.readUint16. pv. Qed.

Lemma pv_readUint32 : preservesView BinaryDecoder.readUint32.
Proof. unfold BinaryDecoder.readUint32. pv. Qed.

Lemma pv_readInt8 : preservesView BinaryDecoder.readInt8.
Proof. unfold BinaryDecoder.readInt8. pv. Qed.

Lemma pv_readInt16 : preservesView BinaryDecoder.readInt16.
Proof. unfold BinaryDecoder.readInt16. pv. Qed.

Lemma pv_readInt32 : preservesView BinaryDecoder.readInt32.
Proof. unfold BinaryDecoder.readInt32. pv. Qed.

Lemma pv_readBool : preservesView BinaryDecoder.readBool.
Proof. unfold BinaryDecoder.readBool. pv. Qed.

Lemma pv_readString length : preservesView (BinaryDecoder.readString length).
Proof. unfold BinaryDecoder.readString. pv. Qed.

Lemma pv_readBytes length : preservesView (BinaryDecoder.readBytes length).
Proof. unfold BinaryDecoder.readBytes. pv. Qed.

Lemma pv_readFixedHash64 : preservesView BinaryDecoder.readFixedHash64.
Proof. unfold BinaryDecoder.readFixedHash64. pv. Qed.

#[local] Hint Resolve pv_readSplitVarint64 pv_readSplitFixed64
  pv_readUnsignedVarint32 pv_readUint8 pv_readUint16 pv_readUint32 pv_readInt8
  pv_readInt16 pv_readInt32 pv_readBool pv_readString pv_readBytes
  pv_readFixedHash64 : pv.

(** The frame property is a real restriction: the lifecycle operations that
    are not reads do change the window. *)
Lemma setEnd_changes_view : ~ preservesView (BinaryDecoder.setEnd 1).
Proof.
  intros H. destruct (H BinaryDecoder.init) as (_ & _ & He). discriminate He.
Qed.

(** C10: every read method of the decoder leaves the fields [bytes], [start]
    and [end] unchanged, whether it returns or throws; only [cursor] and
    [error] can differ afterwards.  The conversion callbacks are pure
    functions of the two words. *)
Theorem C10_reads_preserve_view (number : Type)
    (joinUint64 joinInt64 joinFloat32 joinFloat64 : Z -> Z -> number) :
  (forall T (convert : Z -> Z -> T),
      preservesView (BinaryDecoder.readSplitVarint64 convert))
  /\ (forall T (convert : Z -> Z -> T),
      preservesView (BinaryDecoder.readSplitZigzagVarint64 convert))
  /\ (forall T (convert : Z -> Z -> T),
      preservesView (BinaryDecoder.readSplitFixed64 convert))
  /\ preservesView BinaryDecoder.readUnsignedVarint32
  /\ preservesView BinaryDecoder.readSignedVarint32
  /\ preservesView BinaryDecoder.readUnsignedVarint32String
  /\ preservesView BinaryDecoder.readSignedVarint32String
  /\ preservesView BinaryDecoder.readZigzagVarint32
  /\ preservesView (BinaryDecoder.readUnsignedVarint64 number joinUint64)
  /\ preservesView BinaryDecoder.readUnsignedVarint64String
  /\ preservesView (BinaryDecoder.readSignedVarint64 number joinInt64)
  /\ preservesView BinaryDecoder.readSignedVarint64String
  /\ preservesView (BinaryDecoder.readZigzagVarint64 number joinInt64)
  /\ preservesView BinaryDecoder.readZigzagVarintHash64
  /\ preservesView BinaryDecoder.readZigzagVarint64String
  /\ preservesView BinaryDecoder.readUint8
  /\ preservesView BinaryDecoder.readUint16
  /\ preservesView BinaryDecoder.readUint32
  /\ preservesView (BinaryDecoder.readUint64 number joinUint64)
  /\ preservesView BinaryDecoder.readUint64String
  /\ preservesView BinaryDecoder.readInt8
  /\ preservesView BinaryDecoder.readInt16
  /\ preservesView BinaryDecoder.readInt32
  /\ preservesView (BinaryDecoder.readInt64 number joinInt64)
  /\ preservesView BinaryDecoder.readInt64String
  /\ preservesView (BinaryDecoder.readFloat number joinFloat32)
  /\ preservesView (BinaryDecoder.readDouble number joinFloat64)
  /\ preservesView BinaryDecoder.readBool
  /\ preservesView BinaryDecoder.readEnum
  /\ (forall length, preservesView (BinaryDecoder.readString length))
  /\ preservesView BinaryDecoder.readStringWithLength
  /\ (forall length, preservesView (BinaryDecoder.readBytes length))
  /\ preservesView BinaryDecoder.readVarintHash64
  /\ preservesView BinaryDecoder.readFixedHash64.
Proof.
  repeat match goal with |- _ /\ _ => split end; intros;
    unfold BinaryDecoder.readSplitZigzagVarint64, BinaryDecoder.readSignedVarint32,
      BinaryDecoder.readUnsignedVarint32String, BinaryDecoder.readSignedVarint32String,
      BinaryDecoder.readZigzagVarint32, BinaryDecoder.readUnsignedVarint64,
      BinaryDecoder.readUnsignedVarint64String, BinaryDecoder.readSignedVarint64,
      BinaryDecoder.readSignedVarint64String, BinaryDecoder.readZigzagVarint64,
      BinaryDecoder.readZigzagVarintHash64, BinaryDecoder.readZigzagVarint64String,
      BinaryDecoder.readUint64, BinaryDecoder.readUint64String,
      BinaryDecoder.readInt64, BinaryDecoder.readInt64String,
      BinaryDecoder.readFloat, BinaryDecoder.readDouble, BinaryDecoder.readEnum,
      BinaryDecoder.readStringWithLength, BinaryDecoder.readVarintHash64,
      BinaryDecoder.readSplitZigzagVarint64, BinaryDecoder.readSignedVarint32;
    pv.
Qed.

(** ** C4: the bytes after the fifth in [readUnsignedVarint32] *)

Lemma varint_cons_bits b r i :
  Z.testbit (b mod 2 ^ 7 + 2 ^ 7 * r) i
  = (i <? 7) && Z.testbit b i || (7 <=? i) && Z.testbit r (i - 7).
Proof.
  assert (Hdisj : Z.land (b mod 2 ^ 7) (r * 2 ^ 7) = 0)
    by (apply Z.bits_inj'; intros j Hj; jsbits).
  replace (2 ^ 7 * r) with (r * 2 ^ 7) by lia.
  rewrite (Z.add_nocarry_lxor _ _ Hdisj). jsbits.
Qed.

#[local] Hint Rewrite varint_cons_bits : jsbits.

(** The accumulation of the five unrolled steps. *)
Lemma varint32_accumulate t0 t1 t2 t3 t4 :
  (t0 .& 0x7f) .| ((t1 .& 0x7f) .<< 7) .| ((t2 .& 0x7f) .<< 14)
    .| ((t3 .& 0x7f) .<< 21) .| ((t4 .& 0x0f) .<< 28)
  = varint32Low t0 t1 t2 t3 t4.
Proof.
  unfold varint32Low. cbn [varintValue].
  change 0x7f with (Z.ones 7). change 0x0f with (Z.ones 4).
  apply Z.bits_inj'. intros i Hi. jsbits.
Qed.

Lemma set_cursor_set_cursor c c' d :
  BinaryDecoder.set_cursor c (BinaryDecoder.set_cursor c' d)
  = BinaryDecoder.set_cursor c d.
Proof. reflexivity. Qed.

(** Symbolic execution of the monadic plumbing of a decoder method. *)
Ltac run_decoder :=
  cbv [bind get ret throw modify assert BinaryDecoder.addCursor
         BinaryDecoder.assertInBounds BinaryDecoder.nextByte];
  cbn [BinaryDecoder.bytes BinaryDecoder.start BinaryDecoder.end_
         BinaryDecoder.cursor BinaryDecoder.error BinaryDecoder.set_cursor
         BinaryDecoder.set_error fst snd].

(** The [&&] chain stops after the first byte, at offset [k], that does not
    have its high bit set. *)
Lemma allContinue_stops b n : forall k d,
  (k < n)%nat ->
  (forall j, (j < k)%nat ->
     BinaryDecoder.ge128
       (BinaryDecoder.index b (BinaryDecoder.cursor d + Z.of_nat j)) = true) ->
  BinaryDecoder.ge128
    (BinaryDecoder.index b (BinaryDecoder.cursor d + Z.of_nat k)) = false ->
  BinaryDecoder.allContinue b n d
  = (Return false,
     BinaryDecoder.set_cursor (BinaryDecoder.cursor d + Z.of_nat k + 1) d).
Proof.
  induction n as [|n IH]; intros k d Hk Hpre Hstop; [lia|].
  cbn [BinaryDecoder.allContinue]. run_decoder.
  destruct k as [|k].
  - replace (BinaryDecoder.cursor d + Z.of_nat 0) with (BinaryDecoder.cursor d)
      in Hstop by lia.
    rewrite Hstop. do 2 f_equal. lia.
  - pose proof (Hpre 0%nat ltac:(lia)) as H0.
    replace (BinaryDecoder.cursor d + Z.of_nat 0) with (BinaryDecoder.cursor d)
      in H0 by lia.
    rewrite H0.
    rewrite (IH k (BinaryDecoder.set_cursor (BinaryDecoder.cursor d + 1) d)).
    + rewrite set_cursor_set_cursor. do 2 f_equal.
      cbn [BinaryDecoder.cursor BinaryDecoder.set_cursor]. lia.
    + lia.
    + intros j Hj. cbn [BinaryDecoder.cursor BinaryDecoder.set_cursor].
      replace (BinaryDecoder.cursor d + 1 + Z.of_nat j)
        with (BinaryDecoder.cursor d + Z.of_nat (S j)) by lia.
      apply Hpre. lia.
    + cbn [BinaryDecoder.cursor BinaryDecoder.set_cursor].
      replace (BinaryDecoder.cursor d + 1 + Z.of_nat k)
        with (BinaryDecoder.cursor d + Z.of_nat (S k)) by lia.
      exact Hstop.
Qed.

Lemma allContinue_all b n : forall d,
  (forall j, (j < n)%nat ->
     BinaryDecoder.ge128
       (BinaryDecoder.index b (BinaryDecoder.cursor d + Z.of_nat j)) = true) ->
  BinaryDecoder.allContinue b n d
  = (Return true, BinaryDecoder.set_cursor (BinaryDecoder.cursor d + Z.of_nat n) d).
Proof.
  induction n as [|n IH]; intros d Hall.
  - cbn [BinaryDecoder.allContinue]. run_decoder.
    destruct d as [b0 s e c err]. unfold BinaryDecoder.set_cursor.
    cbn [BinaryDecoder.bytes BinaryDecoder.start BinaryDecoder.end_
           BinaryDecoder.cursor BinaryDecoder.error Z.of_nat].
    rewrite Z.add_0_r. reflexivity.
  - cbn [BinaryDecoder.allContinue]. run_decoder.
    pose proof (Hall 0%nat ltac:(lia)) as H0.
    replace (BinaryDecoder.cursor d + Z.of_nat 0) with (BinaryDecoder.cursor d)
      in H0 by lia.
    rewrite H0.
    rewrite (IH (BinaryDecoder.set_cursor (BinaryDecoder.cursor d + 1) d)).
    + rewrite set_cursor_set_cursor. do 2 f_equal.
      cbn [BinaryDecoder.cursor BinaryDecoder.set_cursor]. lia.
    + intros j Hj. cbn [BinaryDecoder.cursor BinaryDecoder.set_cursor].
      replace (BinaryDecoder.cursor d + 1 + Z.of_nat j)
        with (BinaryDecoder.cursor d + Z.of_nat (S j)) by lia.
      apply Hall. lia.
Qed.

(** C4, as stated, fails in both directions.  After five continuation bytes,
    an extension byte without the high bit ends the varint and the read
    returns (here -1, the 32 bits of the first five bytes, cursor after the
    sixth byte), where the claim has it fail as malformed; and when all five
    extension bytes have the high bit set the read fails, where the claim
    has it return. *)
Lemma C4_counterexample :
  (let d := BinaryDecoder.mk (Some [255; 255; 255; 255; 255; 0]) 0 6 0 false in
   BinaryDecoder.ge128 (BinaryDecoder.index [255; 255; 255; 255; 255; 0] 5) = false
   /\ BinaryDecoder.readUnsignedVarint32 d
      = (Return (-1), BinaryDecoder.set_cursor 6 d)
   /\ fst (BinaryDecoder.readUnsignedVarint32 d) <> Throw AssertionError)
  /\ (let b := [255; 255; 255; 255; 255; 255; 255; 255; 255; 255] in
      let d := BinaryDecoder.mk (Some b) 0 10 0 false in
      forallb (fun j => BinaryDecoder.ge128 (BinaryDecoder.index b j))
        [5; 6; 7; 8; 9] = true
      /\ BinaryDecoder.readUnsignedVarint32 d
         = (Throw AssertionError, BinaryDecoder.set_cursor 10 d)).
Proof.
  split; [split; [|split] | split]; try (vm_compute; reflexivity).
  vm_compute. discriminate.
Qed.

(** C4 (amended): when the first five bytes of the varint all have the high
    bit set, [readUnsignedVarint32] goes through up to five more bytes and
    stops after the first one whose high bit is clear.  If that byte is the
    one at offset 5 + k (k < 5), the cursor has advanced by exactly the 6 + k
    bytes read, and the read returns the low 32 bits accumulated from the
    first five bytes (in signed reading) when the cursor is within [end],
    and fails on the bounds assertion otherwise.  If all five extension bytes
    have the high bit set, the varint is too long and the read fails with
    the cursor advanced by 10. *)
Theorem C4_readUnsignedVarint32_overflow
    (d : BinaryDecoder.t) (b : list Z) (t0 t1 t2 t3 t4 : Z)
    (Hb : BinaryDecoder.bytes d = Some b)
    (H0 : BinaryDecoder.index b (BinaryDecoder.cursor d + 0) = Some t0)
    (H1 : BinaryDecoder.index b (BinaryDecoder.cursor d + 1) = Some t1)
    (H2 : BinaryDecoder.index b (BinaryDecoder.cursor d + 2) = Some t2)
    (H3 : BinaryDecoder.index b (BinaryDecoder.cursor d + 3) = Some t3)
    (H4 : BinaryDecoder.index b (BinaryDecoder.cursor d + 4) = Some t4)
    (G0 : 128 <= t0) (G1 : 128 <= t1) (G2 : 128 <= t2) (G3 : 128 <= t3)
    (G4 : 128 <= t4) :
  (forall k, (k < 5)%nat ->
     (forall j, (j < k)%nat ->
        BinaryDecoder.ge128
          (BinaryDecoder.index b (BinaryDecoder.cursor d + 5 + Z.of_nat j)) = true) ->
     BinaryDecoder.ge128
       (BinaryDecoder.index b (BinaryDecoder.cursor d + 5 + Z.of_nat k)) = false ->
     BinaryDecoder.readUnsignedVarint32 d
     = (if BinaryDecoder.cursor d + 6 + Z.of_nat k <=? BinaryDecoder.end_ d
        then Return (varint32Low t0 t1 t2 t3 t4)
        else Throw AssertionError,
        BinaryDecoder.set_cursor (BinaryDecoder.cursor d + 6 + Z.of_nat k) d))
  /\ ((forall j, (j < 5)%nat ->
         BinaryDecoder.ge128
           (BinaryDecoder.index b (BinaryDecoder.cursor d + 5 + Z.of_nat j)) = true) ->
      BinaryDecoder.readUnsignedVarint32 d
      = (Throw AssertionError,
         BinaryDecoder.set_cursor (BinaryDecoder.cursor d + 10) d)).
Proof.
  assert (Hrun : BinaryDecoder.readUnsignedVarint32 d
    = bind (BinaryDecoder.addCursor 5) (fun _ =>
      bind (BinaryDecoder.allContinue b 5) (fun tooLong =>
      bind (if tooLong then assert false else ret tt) (fun _ =>
      bind BinaryDecoder.assertInBounds (fun _ =>
      ret (varint32Low t0 t1 t2 t3 t4))))) d).
  { unfold BinaryDecoder.readUnsignedVarint32.
    unfold bind at 1. unfold get at 1. rewrite Hb. cbv zeta.
    rewrite H0, H1, H2, H3, H4.
    unfold BinaryDecoder.lt128.
    destruct (Z.ltb_spec t0 128); [lia|].
    destruct (Z.ltb_spec t1 128); [lia|].
    destruct (Z.ltb_spec t2 128); [lia|].
    destruct (Z.ltb_spec t3 128); [lia|].
    destruct (Z.ltb_spec t4 128); [lia|].
    cbn [BinaryDecoder.num]. rewrite varint32_accumulate. reflexivity. }
  rewrite Hrun. clear Hrun. split.
  - intros k Hk Hpre Hstop.
    unfold bind at 1. unfold BinaryDecoder.addCursor at 1. unfold modify at 1.
    unfold bind at 1.
    rewrite (allContinue_stops b 5 k).
    + rewrite set_cursor_set_cursor. run_decoder.
      replace (BinaryDecoder.cursor d + 5 + Z.of_nat k + 1)
        with (BinaryDecoder.cursor d + 6 + Z.of_nat k) by lia.
      destruct (BinaryDecoder.cursor d + 6 + Z.of_nat k <=? BinaryDecoder.end_ d);
        reflexivity.
    + exact Hk.
    + intros j Hj. cbn [BinaryDecoder.cursor BinaryDecoder.set_cursor].
      apply Hpre. exact Hj.
    + cbn [BinaryDecoder.cursor BinaryDecoder.set_cursor]. exact Hstop.
  - intros Hall.
    unfold bind at 1. unfold BinaryDecoder.addCursor at 1. unfold modify at 1.
    unfold bind at 1.
    rewrite (allContinue_all b 5).
    + rewrite set_cursor_set_cursor. run_decoder.
      do 2 f_equal. lia.
    + intros j Hj. cbn [BinaryDecoder.cursor BinaryDecoder.set_cursor].
      apply Hall. exact Hj.
Qed.

Lemma C4_readUnsignedVarint32_overflow_witness :
  BinaryDecoder.readUnsignedVarint32
    (BinaryDecoder.mk (Some [255; 255; 255; 255; 255; 255; 1]) 0 7 0 false)
  = (Return (varint32Low 255 255 255 255 255),
     BinaryDecoder.mk (Some [255; 255; 255; 255; 255; 255; 1]) 0 7 7 false).
Proof.
  refine (proj1 (C4_readUnsignedVarint32_overflow
                   (BinaryDecoder.mk (Some [255; 255; 255; 255; 255; 255; 1]) 0 7 0 false)
                   [255; 255; 255; 255; 255; 255; 1] 255 255 255 255 255
                   eq_refl eq_refl eq_refl eq_refl eq_refl eq_refl
                   _ _ _ _ _) 1%nat _ _ _); try lia.
  - intros j Hj. assert (j = 0%nat) as -> by lia. reflexivity.
  - reflexivity.
Defined.

(** ** C5: which reads check the cursor against [end] *)

Lemma aw_ret {A} (a : A) : advancesWithin 0 0 (ret a).
Proof. intros d a' d' H. inversion H. lia. Qed.

Lemma aw_weaken {A} lo hi lo' hi' (m : BinaryDecoder.M A) :
  advancesWithin lo hi m -> lo' <= lo -> hi <= hi' -> advancesWithin lo' hi' m.
Proof. intros Hm Hl Hh d a d' H. specialize (Hm d a d' H). lia. Qed.

Lemma aw_bind {A B} l1 h1 l2 h2 (m : BinaryDecoder.M A)
    (k : A -> BinaryDecoder.M B) :
  advancesWithin l1 h1 m -> (forall a, advancesWithin l2 h2 (k a)) ->
  advancesWithin (l1 + l2) (h1 + h2) (bind m k).
Proof.
  intros Hm Hk d b d' H. unfold bind in H.
  destruct (m d) as [[a|e|] d1] eqn:Hd; try discriminate.
  specialize (Hm d a d1 Hd). specialize (Hk a d1 b d' H). lia.
Qed.

Lemma aw_map {A B} lo hi (m : BinaryDecoder.M A) (f : A -> B) :
  advancesWithin lo hi m -> advancesWithin lo hi (bind m (fun a => ret (f a))).
Proof.
  intros Hm. apply (aw_weaken (lo + 0) (hi + 0)); [|lia|lia].
  apply aw_bind; [exact Hm | intros a; apply aw_ret].
Qed.

Lemma advancesBy_within {A} n (m : BinaryDecoder.M A) :
  advancesBy n m <-> advancesWithin n n m.
Proof.
  split; intros H d a d' Hr; specialize (H d a d' Hr); lia.
Qed.

Lemma ab_bind {A B} n1 n2 (m : BinaryDecoder.M A) (k : A -> BinaryDecoder.M B) :
  advancesBy n1 m -> (forall a, advancesBy n2 (k a)) ->
  advancesBy (n1 + n2) (bind m k).
Proof.
  intros Hm Hk. apply advancesBy_within. apply aw_bind.
  - apply advancesBy_within, Hm.
  - intros a. apply advancesBy_within, Hk.
Qed.

Lemma ab_map {A B} n (m : BinaryDecoder.M A) (f : A -> B) :
  advancesBy n m -> advancesBy n (bind m (fun a => ret (f a))).
Proof. intros Hm. apply advancesBy_within, aw_map, advancesBy_within, Hm. Qed.

Lemma ce_bind {A B} (m : BinaryDecoder.M A) (k : A -> BinaryDecoder.M B) :
  (forall a, checksEnd (k a)) -> checksEnd (bind m k).
Proof.
  intros Hk d b d' H. unfold bind in H.
  destruct (m d) as [[a|e|] d1] eqn:Hd; try discriminate.
  exact (Hk a d1 b d' H).
Qed.

Lemma ce_map {A B} (m : BinaryDecoder.M A) (f : A -> B) :
  checksEnd m -> checksEnd (bind m (fun a => ret (f a))).
Proof.
  intros Hm d b d' H. unfold bind in H.
  destruct (m d) as [[a|e|] d1] eqn:Hd; try discriminate.
  inversion H; subst. exact (Hm d a d' Hd).
Qed.

Ltac run_decoder_in H :=
  cbv [bind get ret throw modify assert BinaryDecoder.addCursor
         BinaryDecoder.assertInBounds BinaryDecoder.nextByte] in H;
  cbn [BinaryDecoder.bytes BinaryDecoder.start BinaryDecoder.end_
         BinaryDecoder.cursor BinaryDecoder.error BinaryDecoder.set_cursor
         BinaryDecoder.set_error fst snd] in H.

(** Boolean comparisons recorded by [destruct ... eqn] as order facts. *)
Ltac bool_to_order :=
  repeat match goal with
    | H : (_ <=? _) = true |- _ => apply Z.leb_le in H
    | H : (_ <=? _) = false |- _ => apply Z.leb_gt in H
    | H : (_ <? _) = true |- _ => apply Z.ltb_lt in H
    | H : (_ <? _) = false |- _ => apply Z.ltb_ge in H
    | H : (_ >? _) = true |- _ => rewrite Z.gtb_ltb in H
    | H : (_ >? _) = false |- _ => rewrite Z.gtb_ltb in H
    | H : (_ >=? _) = true |- _ => rewrite Z.geb_leb in H
    | H : (_ >=? _) = false |- _ => rewrite Z.geb_leb in H
    | H : (_ || _) = false |- _ => apply orb_false_elim in H; destruct H
    | H : (_ && _) = true |- _ => apply andb_prop in H; destruct H
    end.

(** A return of a method without loops: follow each branch to its end. *)
Ltac follow_return H :=
  run_decoder_in H;
  repeat match type of H with
    | context [match ?x with _ => _ end] =>
        lazymatch x with
        | context [match _ with _ => _ end] => fail
        | _ => destruct x eqn:?; cbv beta iota in H
        end
    end;
  try discriminate H;
  inversion H; subst; clear H;
  cbn [BinaryDecoder.bytes BinaryDecoder.start BinaryDecoder.end_
         BinaryDecoder.cursor BinaryDecoder.error BinaryDecoder.set_cursor
         BinaryDecoder.set_error];
  bool_to_order; lia.

Lemma readUint8_bounds :
  checksEnd BinaryDecoder.readUint8 /\ advancesBy 1 BinaryDecoder.readUint8.
Proof.
  split; intros d a d' H; unfold BinaryDecoder.readUint8 in H; follow_return H.
Qed.

Lemma readUint16_bounds :
  checksEnd BinaryDecoder.readUint16 /\ advancesBy 2 BinaryDecoder.readUint16.
Proof.
  split; intros d a d' H; unfold BinaryDecoder.readUint16 in H; follow_return H.
Qed.

Lemma readUint32_bounds :
  checksEnd BinaryDecoder.readUint32 /\ advancesBy 4 BinaryDecoder.readUint32.
Proof.
  split; intros d a d' H; unfold BinaryDecoder.readUint32 in H; follow_return H.
Qed.

Lemma readInt8_bounds :
  checksEnd BinaryDecoder.readInt8 /\ advancesBy 1 BinaryDecoder.readInt8.
Proof.
  split; intros d a d' H; unfold BinaryDecoder.readInt8 in H; follow_return H.
Qed.

Lemma readInt16_bounds :
  checksEnd BinaryDecoder.readInt16 /\ advancesBy 2 BinaryDecoder.readInt16.
Proof.
  split; intros d a d' H; unfold BinaryDecoder.readInt16 in H; follow_return H.
Qed.

Lemma readInt32_bounds :
  checksEnd BinaryDecoder.readInt32 /\ advancesBy 4 BinaryDecoder.readInt32.
Proof.
  split; intros d a d' H; unfold BinaryDecoder.readInt32 in H; follow_return H.
Qed.

Lemma readBytes_bounds length :
  checksEnd (BinaryDecoder.readBytes length)
  /\ advancesBy length (BinaryDecoder.readBytes length).
Proof.
  split; intros d a d' H; unfold BinaryDecoder.readBytes in H; follow_return H.
Qed.

Lemma readFixedHash64_advances : advancesBy 8 BinaryDecoder.readFixedHash64.
Proof.
  intros d a d' H; unfold BinaryDecoder.readFixedHash64 in H; follow_return H.
Qed.

Lemma readSplitFixed64_advances {T} (convert : Z -> Z -> T) :
  advancesBy 8 (BinaryDecoder.readSplitFixed64 convert).
Proof.
  intros d a d' H; unfold BinaryDecoder.readSplitFixed64 in H.
  run_decoder_in H. destruct (BinaryDecoder.bytes d); [|discriminate].
  destruct (BinaryDecoder.readSplitFixed64_loop _ _ _ _ _).
  inversion H; subst. reflexivity.
Qed.

Lemma readBool_advances : advancesWithin 0 1 BinaryDecoder.readBool.
Proof.
  intros d a d' H; unfold BinaryDecoder.readBool in H; follow_return H.
Qed.

Lemma readBool_bound_advances d b :
  BinaryDecoder.bytes d = Some b ->
  BinaryDecoder.cursor (snd (BinaryDecoder.readBool d)) = BinaryDecoder.cursor d + 1.
Proof.
  intros Hb. unfold BinaryDecoder.readBool. run_decoder. rewrite Hb. reflexivity.
Qed.

Lemma allContinue_advances b n : forall d t d',
  BinaryDecoder.allContinue b n d = (Return t, d') ->
  BinaryDecoder.cursor d <= BinaryDecoder.cursor d'
    <= BinaryDecoder.cursor d + Z.of_nat n
  /\ (t = false -> BinaryDecoder.cursor d + 1 <= BinaryDecoder.cursor d').
Proof.
  induction n as [|n IH]; intros d t d' H.
  - cbn [BinaryDecoder.allContinue] in H. inversion H; subst.
    split; [lia | discriminate].
  - cbn [BinaryDecoder.allContinue] in H. run_decoder_in H.
    destruct (BinaryDecoder.ge128 _).
    + apply IH in H. cbn [BinaryDecoder.cursor BinaryDecoder.set_cursor] in H. lia.
    + inversion H; subst.
      cbn [BinaryDecoder.cursor BinaryDecoder.set_cursor]. lia.
Qed.

Lemma readSplitVarint64_low_advances b n : forall i temp lowBits d r d',
  BinaryDecoder.readSplitVarint64_low b n i temp lowBits d = (Return r, d') ->
  BinaryDecoder.cursor d <= BinaryDecoder.cursor d'
    <= BinaryDecoder.cursor d + Z.of_nat n
  /\ (BinaryDecoder.ge128 temp = true -> (1 <= n)%nat ->
      BinaryDecoder.cursor d + 1 <= BinaryDecoder.cursor d').
Proof.
  induction n as [|n IH]; intros i temp lowBits d r d' H.
  - cbn [BinaryDecoder.readSplitVarint64_low] in H. inversion H; subst.
    split; [lia | intros _ Hn; lia].
  - cbn [BinaryDecoder.readSplitVarint64_low] in H.
    destruct (BinaryDecoder.ge128 temp) eqn:Ht.
    + run_decoder_in H. apply IH in H.
      cbn [BinaryDecoder.cursor BinaryDecoder.set_cursor] in H. lia.
    + inversion H; subst. split; [lia | discriminate].
Qed.

Lemma readSplitVarint64_high_advances b n : forall i temp highBits d r d',
  BinaryDecoder.readSplitVarint64_high b n i temp highBits d = (Return r, d') ->
  BinaryDecoder.cursor d <= BinaryDecoder.cursor d'
    <= BinaryDecoder.cursor d + Z.of_nat n.
Proof.
  induction n as [|n IH]; intros i temp highBits d r d' H.
  - cbn [BinaryDecoder.readSplitVarint64_high] in H. inversion H; subst. lia.
  - cbn [BinaryDecoder.readSplitVarint64_high] in H.
    destruct (BinaryDecoder.ge128 temp) eqn:Ht.
    + run_decoder_in H. apply IH in H.
      cbn [BinaryDecoder.cursor BinaryDecoder.set_cursor] in H. lia.
    + inversion H; subst. lia.
Qed.

(** Facts about the loops that a branch went through, ready for [lia]. *)
Ltac loop_facts :=
  repeat match goal with
    | H : BinaryDecoder.allContinue _ _ _ = (Return _, _) |- _ =>
        apply allContinue_advances in H
    | H : BinaryDecoder.readSplitVarint64_low _ _ _ _ _ _ = (Return _, _) |- _ =>
        apply readSplitVarint64_low_advances in H
    | H : BinaryDecoder.readSplitVarint64_high _ _ _ _ _ _ = (Return _, _) |- _ =>
        apply readSplitVarint64_high_advances in H
    end;
  cbn [BinaryDecoder.bytes BinaryDecoder.start BinaryDecoder.end_
         BinaryDecoder.cursor BinaryDecoder.error BinaryDecoder.set_cursor
         BinaryDecoder.set_error BinaryDecoder.ge128 Z.of_nat Pos.of_succ_nat
         Pos.succ] in *.

Ltac follow_loops H :=
  run_decoder_in H;
  repeat match type of H with
    | context [match ?x with _ => _ end] =>
        lazymatch x with
        | context [match _ with _ => _ end] => fail
        | _ => destruct x eqn:?; cbv beta iota in H
        end
    end;
  try discriminate H;
  inversion H; subst; clear H;
  loop_facts; bool_to_order;
  repeat match goal with
    | H : _ /\ _ |- _ => destruct H
    | H : ?a = ?a -> _ |- _ => specialize (H eq_refl)
    | H : (1 <= _)%nat -> _ |- _ => specialize (H ltac:(lia))
    end;
  lia.

Lemma readUnsignedVarint32_bounds :
  checksEnd BinaryDecoder.readUnsignedVarint32
  /\ advancesWithin 1 10 BinaryDecoder.readUnsignedVarint32.
Proof.
  split; intros d a d' H; unfold BinaryDecoder.readUnsignedVarint32 in H;
    cbv zeta in H; follow_loops H.
Qed.

Lemma readSplitVarint64_advances {T} (convert : Z -> Z -> T) :
  advancesWithin 1 10 (BinaryDecoder.readSplitVarint64 convert).
Proof.
  intros d a d' H; unfold BinaryDecoder.readSplitVarint64 in H.
  follow_loops H.
Qed.

(** The loop of [readString] stops at the first position at or after
    [end'], at most three bytes past it, and it does so within the budget:
    every iteration moves the cursor forward. *)
Lemma readString_loop_spec b end' fuel : forall cursor codeUnits result,
  (Z.to_nat (end' - cursor) < fuel)%nat ->
  exists cursor' codeUnits' result',
    BinaryDecoder.readString_loop b end' fuel cursor codeUnits result
      = Some (cursor', codeUnits', result')
    /\ cursor <= cursor'
    /\ (end' <= cursor -> cursor' = cursor)
    /\ (cursor < end' -> end' <= cursor' <= end' + 3).
Proof.
  induction fuel as [|fuel IH]; intros cursor codeUnits result Hfuel; [lia|].
  cbn [BinaryDecoder.readString_loop].
  destruct (Z.ltb_spec cursor end') as [Hlt|Hge].
  - cbv zeta.
    repeat match goal with
      | |- context [if BinaryDecoder.lt ?c ?k then _ else _] =>
          destruct (BinaryDecoder.lt c k)
      | |- context [let '(_, _) := ?x in _] => destruct x
      end;
      match goal with
      | |- context [BinaryDecoder.readString_loop b end' fuel ?c ?cu ?r] =>
          destruct (IH c cu r ltac:(lia)) as (c' & cu' & r' & Hrun & H1 & H2 & H3);
          exists c', cu', r'; split; [exact Hrun|];
          destruct (Z.lt_ge_cases c end'); lia
      end.
  - eexists _, _, _. split; [reflexivity|]. lia.
Qed.

Lemma readString_advances length :
  0 <= length -> advancesWithin length (length + 3) (BinaryDecoder.readString length).
Proof.
  intros Hlen d a d' H. unfold BinaryDecoder.readString in H.
  unfold bind at 1 in H. unfold get at 1 in H.
  destruct (BinaryDecoder.bytes d) as [b|]; [|discriminate].
  destruct (readString_loop_spec b (BinaryDecoder.cursor d + length)
              (S (Z.to_nat length)) (BinaryDecoder.cursor d) [] [] ltac:(lia))
    as (c' & cu' & r' & Hrun & H1 & H2 & H3).
  rewrite Hrun in H. run_decoder_in H. inversion H; subst.
  cbn [BinaryDecoder.cursor BinaryDecoder.set_cursor].
  destruct (Z.eq_dec length 0); lia.
Qed.

(** [readString] never exhausts the iteration budget of its model. *)
Lemma readString_total length d :
  fst (BinaryDecoder.readString length d) <> OutOfFuel.
Proof.
  unfold BinaryDecoder.readString. unfold bind at 1. unfold get at 1.
  destruct (BinaryDecoder.bytes d) as [b|]; [|discriminate].
  destruct (readString_loop_spec b (BinaryDecoder.cursor d + length)
              (S (Z.to_nat length)) (BinaryDecoder.cursor d) [] [] ltac:(lia))
    as (c' & cu' & r' & Hrun & _).
  rewrite Hrun. discriminate.
Qed.

(** C5: the code departs from the claim.  On the three-byte block of the
    test [testDecodeErrors] a read of eight bytes goes off the end of the
    block.  [readUint64] raises the assertion there, as the claim, the
    docstring of [alloc] and [setBlock] and the test say it should, and so
    does [readUint8] behind the last byte.  [readFixedHash64] and
    [readSplitFixed64] have no such assertion: they return normally with
    the cursor at 8, past [end] = 3, and so do [readString], [readBool] and
    [readSplitVarint64] when they are taken beyond [end]; [pastEnd] and
    [getError] are all that tells afterwards. *)
Theorem C5_reads_past_end :
  let d := BinaryDecoder.mk (Some [0; 1; 2]) 0 3 0 false in
  fst (BinaryDecoder.readUint64 (Z * Z) pair d) = Throw AssertionError
  /\ fst (BinaryDecoder.readUint8 (BinaryDecoder.set_cursor 3 d))
     = Throw AssertionError
  /\ BinaryDecoder.readFixedHash64 d
     = (Return [0; 1; 2; 0; 0; 0; 0; 0], BinaryDecoder.set_cursor 8 d)
  /\ BinaryDecoder.readSplitFixed64 pair d
     = (Return (131328, 0), BinaryDecoder.set_cursor 8 d)
  /\ BinaryDecoder.readString 4 d
     = (Return [0; 1; 2], BinaryDecoder.set_cursor 4 d)
  /\ BinaryDecoder.readBool (BinaryDecoder.set_cursor 3 d)
     = (Return false, BinaryDecoder.set_cursor 4 d)
  /\ BinaryDecoder.readSplitVarint64 pair
       (BinaryDecoder.mk (Some [172; 2]) 0 1 0 false)
     = (Return (300, 0), BinaryDecoder.mk (Some [172; 2]) 0 1 2 false)
  /\ BinaryDecoder.end_ (BinaryDecoder.set_cursor 8 d)
     < BinaryDecoder.cursor (BinaryDecoder.set_cursor 8 d)
  /\ fst (BinaryDecoder.pastEnd (BinaryDecoder.set_cursor 8 d)) = Return true
  /\ fst (BinaryDecoder.getError (BinaryDecoder.set_cursor 8 d)) = Return true.
Proof. repeat split; vm_compute; reflexivity. Qed.

(** Which reads compare the cursor with [end]: the reads that carry
    [assert(this.cursor <= this.end)] never return normally with the cursor
    past [end], and advance the cursor by the bytes they consumed: 1, 2 or 4
    for the 8-, 16- and 32-bit reads, 8 for the 64-bit fixed reads built on
    [readUint32], 4 and 8 for [readFloat] and [readDouble], the given length
    for [readBytes], and the 1 to 10 bytes gone through for
    [readUnsignedVarint32] and the reads built on it.  [readSplitVarint64]
    (1 to 10 bytes) and the 64-bit varint reads built on it,
    [readSplitFixed64] and [readFixedHash64] (8 bytes), [readBool] (1 byte on
    a bound decoder) and [readString] (at least the given length, at most 3
    more) advance the cursor likewise; nothing is said here of their cursor
    and [end]. *)
Lemma reads_and_end (number : Type)
    (joinUint64 joinInt64 joinFloat32 joinFloat64 : Z -> Z -> number) :
  (checksEnd BinaryDecoder.readUint8 /\ advancesBy 1 BinaryDecoder.readUint8)
  /\ (checksEnd BinaryDecoder.readUint16 /\ advancesBy 2 BinaryDecoder.readUint16)
  /\ (checksEnd BinaryDecoder.readUint32 /\ advancesBy 4 BinaryDecoder.readUint32)
  /\ (checksEnd BinaryDecoder.readInt8 /\ advancesBy 1 BinaryDecoder.readInt8)
  /\ (checksEnd BinaryDecoder.readInt16 /\ advancesBy 2 BinaryDecoder.readInt16)
  /\ (checksEnd BinaryDecoder.readInt32 /\ advancesBy 4 BinaryDecoder.readInt32)
  /\ (checksEnd (BinaryDecoder.readUint64 number joinUint64)
      /\ advancesBy 8 (BinaryDecoder.readUint64 number joinUint64))
  /\ (checksEnd (BinaryDecoder.readInt64 number joinInt64)
      /\ advancesBy 8 (BinaryDecoder.readInt64 number joinInt64))
  /\ (checksEnd BinaryDecoder.readUint64String
      /\ advancesBy 8 BinaryDecoder.readUint64String)
  /\ (checksEnd BinaryDecoder.readInt64String
      /\ advancesBy 8 BinaryDecoder.readInt64String)
  /\ (checksEnd (BinaryDecoder.readFloat number joinFloat32)
      /\ advancesBy 4 (BinaryDecoder.readFloat number joinFloat32))
  /\ (checksEnd (BinaryDecoder.readDouble number joinFloat64)
      /\ advancesBy 8 (BinaryDecoder.readDouble number joinFloat64))
  /\ (forall length,
        checksEnd (BinaryDecoder.readBytes length)
        /\ advancesBy length (BinaryDecoder.readBytes length))
  /\ (checksEnd BinaryDecoder.readUnsignedVarint32
      /\ advancesWithin 1 10 BinaryDecoder.readUnsignedVarint32)
  /\ (checksEnd BinaryDecoder.readSignedVarint32
      /\ advancesWithin 1 10 BinaryDecoder.readSignedVarint32)
  /\ (checksEnd BinaryDecoder.readEnum
      /\ advancesWithin 1 10 BinaryDecoder.readEnum)
  /\ (checksEnd BinaryDecoder.readZigzagVarint32
      /\ advancesWithin 1 10 BinaryDecoder.readZigzagVarint32)
  /\ (checksEnd BinaryDecoder.readUnsignedVarint32String
      /\ advancesWithin 1 10 BinaryDecoder.readUnsignedVarint32String)
  /\ (checksEnd BinaryDecoder.readSignedVarint32String
      /\ advancesWithin 1 10 BinaryDecoder.readSignedVarint32String)
  /\ (forall T (convert : Z -> Z -> T),
        advancesWithin 1 10 (BinaryDecoder.readSplitVarint64 convert))
  /\ (forall T (convert : Z -> Z -> T),
        advancesWithin 1 10 (BinaryDecoder.readSplitZigzagVarint64 convert))
  /\ (forall T (convert : Z -> Z -> T),
        advancesBy 8 (BinaryDecoder.readSplitFixed64 convert))
  /\ advancesBy 8 BinaryDecoder.readFixedHash64
  /\ advancesWithin 0 1 BinaryDecoder.readBool
  /\ (forall d b, BinaryDecoder.bytes d = Some b ->
        BinaryDecoder.cursor (snd (BinaryDecoder.readBool d))
        = BinaryDecoder.cursor d + 1)
  /\ (forall length, 0 <= length ->
        advancesWithin length (length + 3) (BinaryDecoder.readString length))
  /\ (forall length d, fst (BinaryDecoder.readString length d) <> OutOfFuel).
Proof.
  pose proof readUint32_bounds as [Hce Hab].
  assert (H64 : forall A (f : Z -> Z -> A),
    checksEnd (bind BinaryDecoder.readUint32 (fun lo =>
                 bind BinaryDecoder.readUint32 (fun hi => ret (f lo hi))))
    /\ advancesBy 8 (bind BinaryDecoder.readUint32 (fun lo =>
                 bind BinaryDecoder.readUint32 (fun hi => ret (f lo hi))))).
  { intros A f. split.
    - apply ce_bind. intros lo. apply ce_map. exact Hce.
    - change 8 with (4 + 4). apply ab_bind; [exact Hab|].
      intros lo. apply ab_map. exact Hab. }
  pose proof readUnsignedVarint32_bounds as [Hvc Hva].
  assert (Hv32 : forall A (f : Z -> A),
    checksEnd (bind BinaryDecoder.readUnsignedVarint32 (fun v => ret (f v)))
    /\ advancesWithin 1 10
         (bind BinaryDecoder.readUnsignedVarint32 (fun v => ret (f v)))).
  { intros A f. split; [apply ce_map | apply aw_map]; assumption. }
  split; [exact readUint8_bounds|].
  split; [exact readUint16_bounds|].
  split; [exact readUint32_bounds|].
  split; [exact readInt8_bounds|].
  split; [exact readInt16_bounds|].
  split; [exact readInt32_bounds|].
  split; [apply H64|]. split; [apply H64|]. split; [apply H64|].
  split; [apply H64|].
  split; [split; [apply ce_map | apply ab_map]; assumption|].
  split; [apply H64|].
  split; [exact readBytes_bounds|].
  split; [exact readUnsignedVarint32_bounds|].
  split; [exact readUnsignedVarint32_bounds|].
  split; [exact readUnsignedVarint32_bounds|].
  split; [apply Hv32|]. split; [apply Hv32|]. split; [apply Hv32|].
  split; [intros T convert; apply readSplitVarint64_advances|].
  split; [intros T convert; apply readSplitVarint64_advances|].
  split; [intros T convert; apply readSplitFixed64_advances|].
  split; [exact readFixedHash64_advances|].
  split; [exact readBool_advances|].
  split; [exact readBool_bound_advances|].
  split; [exact readString_advances | exact readString_total].
Qed.

(** ** C6: surrogates in [writeString] *)

Lemma small_high_bits x n i :
  0 <= x < 2 ^ n -> 0 <= n <= i -> Z.testbit x i = false.
Proof.
  intros Hx Hi. rewrite <- (Z.mod_small x (2 ^ n)) by lia.
  apply Z.mod_pow2_bits_high. lia.
Qed.

Lemma toInt32_small x : 0 <= x < JS.TWO_TO_31 -> JS.toInt32 x = x.
Proof.
  intros Hx. unfold JS.toInt32, JS.TWO_TO_31, JS.TWO_TO_32 in *.
  rewrite Z.mod_small by lia.
  destruct (Z.ltb_spec x 2147483648); [reflexivity | lia].
Qed.

Lemma sar_small c n : 0 <= c < JS.TWO_TO_31 -> 0 <= n < 32 -> c .>> n = c / 2 ^ n.
Proof.
  intros Hc Hn. unfold JS.sar. rewrite (Z.mod_small n 32) by lia.
  rewrite toInt32_small by assumption. apply Z.shiftr_div_pow2. lia.
Qed.

(** [x | m * 2^k] adds when [x] is below [2^k]. *)
Lemma or_disjoint_add x m k :
  0 <= k -> 0 <= x < 2 ^ k -> 1 <= m -> m * 2 ^ k < JS.TWO_TO_31 ->
  x .| (m * 2 ^ k) = x + m * 2 ^ k.
Proof.
  intros Hk Hx Hm Hb. unfold JS.or.
  assert (0 < 2 ^ k) by (apply Z.pow_pos_nonneg; lia).
  assert (Hx31 : 0 <= x < JS.TWO_TO_31) by (unfold JS.TWO_TO_31 in *; nia).
  rewrite !toInt32_small by (try assumption; unfold JS.TWO_TO_31 in *; nia).
  assert (Hdisj : Z.land x (m * 2 ^ k) = 0).
  { apply Z.bits_inj'. intros i Hi. rewrite Z.land_spec, Z.bits_0.
    destruct (Z.ltb_spec i k).
    - rewrite Z.mul_pow2_bits_low by lia. apply andb_false_r.
    - rewrite (small_high_bits x k i) by lia. reflexivity. }
  rewrite <- Z.lxor_lor by exact Hdisj.
  symmetry. apply Z.add_nocarry_lxor. exact Hdisj.
Qed.

Lemma push_bind {A} v (k : unit -> BinaryEncoder.M A) buf :
  bind (BinaryEncoder.push v) k (BinaryEncoder.mk buf)
  = k tt (BinaryEncoder.mk (buf ++ [v])).
Proof. reflexivity. Qed.

Lemma writeString_loop_cons c rest :
  BinaryEncoder.writeString_loop (c :: rest)
  = if c <? 128 then
      bind (BinaryEncoder.push c) (fun _ => BinaryEncoder.writeString_loop rest)
    else if c <? 2048 then
      bind (BinaryEncoder.push ((c .>> 6) .| 192)) (fun _ =>
      bind (BinaryEncoder.push ((c .& 63) .| 128)) (fun _ =>
      BinaryEncoder.writeString_loop rest))
    else if c <? 65536 then
      if (c >=? 0xd800) && (c <=? 0xdbff)
         && (match rest with [] => false | _ :: _ => true end) then
        match rest with
        | second :: rest' =>
            if (second >=? 0xdc00) && (second <=? 0xdfff) then
              let c := (c - 0xd800) * 0x400 + second - 0xdc00 + 0x10000 in
              bind (BinaryEncoder.push ((c .>> 18) .| 240)) (fun _ =>
              bind (BinaryEncoder.push (((c .>> 12) .& 63) .| 128)) (fun _ =>
              bind (BinaryEncoder.push (((c .>> 6) .& 63) .| 128)) (fun _ =>
              bind (BinaryEncoder.push ((c .& 63) .| 128)) (fun _ =>
              BinaryEncoder.writeString_loop rest'))))
            else BinaryEncoder.writeString_loop rest
        | [] => BinaryEncoder.writeString_loop rest
        end
      else
        bind (BinaryEncoder.push ((c .>> 12) .| 224)) (fun _ =>
        bind (BinaryEncoder.push (((c .>> 6) .& 63) .| 128)) (fun _ =>
        bind (BinaryEncoder.push ((c .& 63) .| 128)) (fun _ =>
        BinaryEncoder.writeString_loop rest)))
    else BinaryEncoder.writeString_loop rest.
Proof. destruct rest; reflexivity. Qed.

(** The loop always returns, and what it appends does not depend on what the
    buffer held. *)
Lemma writeString_loop_appends_aux n : forall value,
  (List.length value <= n)%nat ->
  exists bs, forall buf,
    BinaryEncoder.writeString_loop value (BinaryEncoder.mk buf)
    = (Return tt, BinaryEncoder.mk (buf ++ bs)).
Proof.
  induction n as [|n IH]; intros value Hlen.
  - destruct value; [|cbn in Hlen; lia].
    exists []. intros buf. rewrite app_nil_r. reflexivity.
  - destruct value as [|c rest].
    { exists []. intros buf. rewrite app_nil_r. reflexivity. }
    cbn [List.length] in Hlen.
    destruct (IH rest ltac:(lia)) as [bsr Hr].
    rewrite writeString_loop_cons.
    destruct (c <? 128).
    { exists ([c] ++ bsr). intros buf.
      rewrite push_bind, Hr, <- !app_assoc. reflexivity. }
    destruct (c <? 2048).
    { eexists ([_; _] ++ bsr). intros buf.
      rewrite !push_bind, Hr, <- !app_assoc. reflexivity. }
    destruct (c <? 65536); [|exists bsr; exact Hr].
    destruct ((c >=? 55296) && (c <=? 56319)
              && match rest with [] => false | _ :: _ => true end).
    + destruct rest as [|second rest']; [exists bsr; exact Hr|].
      destruct ((second >=? 56320) && (second <=? 57343)); [|exists bsr; exact Hr].
      cbn [List.length] in Hlen.
      destruct (IH rest' ltac:(lia)) as [bsr' Hr'].
      cbv zeta. eexists ([_; _; _; _] ++ bsr'). intros buf.
      rewrite !push_bind, Hr', <- !app_assoc. reflexivity.
    + eexists ([_; _; _] ++ bsr). intros buf.
      rewrite !push_bind, Hr, <- !app_assoc. reflexivity.
Qed.

Lemma writeString_loop_appends value buf :
  BinaryEncoder.writeString_loop value (BinaryEncoder.mk buf)
  = (Return tt, BinaryEncoder.mk (buf ++ writeString_bytes value)).
Proof.
  destruct (writeString_loop_appends_aux (List.length value) value (le_n _))
    as [bs Hbs].
  unfold writeString_bytes. rewrite (Hbs []), Hbs. reflexivity.
Qed.

Lemma isHighSurrogate_range c :
  isHighSurrogate c = true -> 0xd800 <= c <= 0xdbff.
Proof. unfold isHighSurrogate. intros H. bool_to_order. lia. Qed.

Lemma isLowSurrogate_range c :
  isLowSurrogate c = true -> 0xdc00 <= c <= 0xdfff.
Proof. unfold isLowSurrogate. intros H. bool_to_order. lia. Qed.

Lemma utf8_lead4 cp : 0 <= cp < 2 ^ 21 -> (cp .>> 18) .| 240 = 240 + cp / 2 ^ 18.
Proof.
  intros Hcp. rewrite sar_small by (unfold JS.TWO_TO_31; lia).
  change 240 with (15 * 2 ^ 4).
  assert (0 <= cp / 2 ^ 18 < 2 ^ 3).
  { split; [apply Z.div_pos; lia | apply Z.div_lt_upper_bound; lia]. }
  rewrite or_disjoint_add; unfold JS.TWO_TO_31; lia.
Qed.

Lemma utf8_lead3 c : 0 <= c < 2 ^ 16 -> (c .>> 12) .| 224 = 224 + c / 2 ^ 12.
Proof.
  intros Hc. rewrite sar_small by (unfold JS.TWO_TO_31; lia).
  change 224 with (7 * 2 ^ 5).
  assert (0 <= c / 2 ^ 12 < 2 ^ 4).
  { split; [apply Z.div_pos; lia | apply Z.div_lt_upper_bound; lia]. }
  rewrite or_disjoint_add; unfold JS.TWO_TO_31; lia.
Qed.

Lemma utf8_trail x : (x .& 63) .| 128 = 128 + x mod 2 ^ 6.
Proof.
  change 63 with (Z.ones 6). rewrite and_ones by lia.
  change 128 with (1 * 2 ^ 7).
  pose proof (Z.mod_pos_bound x (2 ^ 6) eq_refl).
  rewrite or_disjoint_add; unfold JS.TWO_TO_31; lia.
Qed.

Lemma utf8_trail_shift c n :
  0 <= c < JS.TWO_TO_31 -> 0 <= n < 32 ->
  ((c .>> n) .& 63) .| 128 = 128 + (c / 2 ^ n) mod 2 ^ 6.
Proof. intros Hc Hn. rewrite utf8_trail, sar_small by assumption. reflexivity. Qed.

(** A high surrogate followed by a low surrogate: both units are consumed
    and the four-byte sequence of their code point is appended. *)
Lemma writeString_bytes_pair high low rest :
  isHighSurrogate high = true -> isLowSurrogate low = true ->
  writeString_bytes (high :: low :: rest)
  = utf8Sequence4 (surrogatePairCodePoint high low) ++ writeString_bytes rest.
Proof.
  intros Hh Hl.
  pose proof (isHighSurrogate_range _ Hh) as Rh.
  pose proof (isLowSurrogate_range _ Hl) as Rl.
  unfold writeString_bytes at 1. rewrite writeString_loop_cons.
  destruct (Z.ltb_spec high 128); [lia|].
  destruct (Z.ltb_spec high 2048); [lia|].
  destruct (Z.ltb_spec high 65536); [|lia].
  destruct (Z.geb_spec high 0xd800); [|lia].
  destruct (Z.leb_spec high 0xdbff); [|lia].
  destruct (Z.geb_spec low 0xdc00); [|lia].
  destruct (Z.leb_spec low 0xdfff); [|lia].
  cbn [andb]. cbv zeta.
  replace ((high - 0xd800) * 0x400 + low - 0xdc00 + 0x10000)
    with (surrogatePairCodePoint high low) by (unfold surrogatePairCodePoint; lia).
  assert (Hcp : 0x10000 <= surrogatePairCodePoint high low <= 0x10ffff)
    by (unfold surrogatePairCodePoint; lia).
  rewrite !push_bind, writeString_loop_appends. cbn [snd BinaryEncoder.buffer].
  rewrite utf8_lead4 by lia.
  rewrite !utf8_trail_shift by (unfold JS.TWO_TO_31; lia).
  rewrite utf8_trail. reflexivity.
Qed.

(** A high surrogate followed by a unit that is not a low surrogate appends
    nothing, and the following unit is encoded on its own. *)
Lemma writeString_bytes_unpaired_inner high c rest :
  isHighSurrogate high = true -> isLowSurrogate c = false ->
  writeString_bytes (high :: c :: rest) = writeString_bytes (c :: rest).
Proof.
  intros Hh Hl.
  pose proof (isHighSurrogate_range _ Hh) as Rh.
  unfold writeString_bytes at 1. rewrite writeString_loop_cons.
  destruct (Z.ltb_spec high 128); [lia|].
  destruct (Z.ltb_spec high 2048); [lia|].
  destruct (Z.ltb_spec high 65536); [|lia].
  destruct (Z.geb_spec high 0xd800); [|lia].
  destruct (Z.leb_spec high 0xdbff); [|lia].
  cbn [andb].
  replace ((c >=? 0xdc00) && (c <=? 0xdfff)) with false.
  - rewrite writeString_loop_appends. reflexivity.
  - rewrite <- Hl. unfold isLowSurrogate. rewrite Z.geb_leb. reflexivity.
Qed.

(** A high surrogate at the very end of the string goes through the
    three-byte branch. *)
Lemma writeString_bytes_unpaired_last high :
  isHighSurrogate high = true ->
  writeString_bytes [high] = utf8Sequence3 high.
Proof.
  intros Hh. pose proof (isHighSurrogate_range _ Hh) as Rh.
  unfold writeString_bytes. rewrite writeString_loop_cons.
  destruct (Z.ltb_spec high 128); [lia|].
  destruct (Z.ltb_spec high 2048); [lia|].
  destruct (Z.ltb_spec high 65536); [|lia].
  rewrite andb_false_r.
  rewrite !push_bind. cbn [BinaryEncoder.writeString_loop ret snd BinaryEncoder.buffer].
  rewrite utf8_lead3 by lia.
  rewrite utf8_trail_shift by (unfold JS.TWO_TO_31; lia).
  rewrite utf8_trail. reflexivity.
Qed.

(** Wherever a high surrogate stands in a string, the loop reaches it at the
    start of an iteration: the bytes of what precedes it are fixed, and what
    follows is encoded as if the string began there. *)
Lemma writeString_bytes_at_high n : forall pre high,
  (List.length pre <= n)%nat ->
  isHighSurrogate high = true ->
  exists bs, forall rest,
    writeString_bytes (pre ++ high :: rest) = bs ++ writeString_bytes (high :: rest).
Proof.
  induction n as [|n IH]; intros pre high Hlen Hh.
  - destruct pre; [|cbn in Hlen; lia]. exists []. reflexivity.
  - destruct pre as [|c pre]; [exists []; reflexivity|].
    cbn [List.length] in Hlen.
    destruct (IH pre high ltac:(lia) Hh) as [bs1 H1].
    pose proof (isHighSurrogate_range _ Hh) as Rh.
    assert (Hnl : isLowSurrogate high = false).
    { unfold isLowSurrogate. destruct (Z.leb_spec 0xdc00 high); [lia|reflexivity]. }
    assert (Hstep : forall bsc,
      (forall rest buf,
         BinaryEncoder.writeString_loop (c :: pre ++ high :: rest) (BinaryEncoder.mk buf)
         = BinaryEncoder.writeString_loop (pre ++ high :: rest)
             (BinaryEncoder.mk (buf ++ bsc))) ->
      exists bs, forall rest,
        writeString_bytes ((c :: pre) ++ high :: rest)
        = bs ++ writeString_bytes (high :: rest)).
    { intros bsc Hc. exists (bsc ++ bs1). intros rest.
      unfold writeString_bytes at 1. cbn [app]. rewrite Hc.
      rewrite writeString_loop_appends. cbn [snd BinaryEncoder.buffer app].
      rewrite H1, app_assoc. reflexivity. }
    destruct (Z.ltb_spec c 128) as [H128|H128].
    { apply (Hstep [c]). intros rest buf. rewrite writeString_loop_cons.
      destruct (Z.ltb_spec c 128); [|lia]. rewrite push_bind. reflexivity. }
    destruct (Z.ltb_spec c 2048) as [H2048|H2048].
    { apply (Hstep [(c .>> 6) .| 192; (c .& 63) .| 128]). intros rest buf.
      rewrite writeString_loop_cons.
      destruct (Z.ltb_spec c 128); [lia|]. destruct (Z.ltb_spec c 2048); [|lia].
      rewrite !push_bind, <- app_assoc. reflexivity. }
    destruct (Z.ltb_spec c 65536) as [H64k|H64k].
    2:{ apply (Hstep []). intros rest buf. rewrite writeString_loop_cons.
        destruct (Z.ltb_spec c 128); [lia|]. destruct (Z.ltb_spec c 2048); [lia|].
        destruct (Z.ltb_spec c 65536); [lia|]. rewrite app_nil_r. reflexivity. }
    destruct (isHighSurrogate c) eqn:Hch.
    2:{ apply (Hstep [(c .>> 12) .| 224; ((c .>> 6) .& 63) .| 128; (c .& 63) .| 128]).
        intros rest buf. rewrite writeString_loop_cons.
        destruct (Z.ltb_spec c 128); [lia|]. destruct (Z.ltb_spec c 2048); [lia|].
        destruct (Z.ltb_spec c 65536); [|lia].
        replace ((c >=? 0xd800) && (c <=? 0xdbff)) with false
          by (rewrite <- Hch; unfold isHighSurrogate; rewrite Z.geb_leb; reflexivity).
        cbn [andb]. rewrite !push_bind, <- !app_assoc. reflexivity. }
    assert (Hcond : (c >=? 0xd800) && (c <=? 0xdbff) = true)
      by (rewrite <- Hch; unfold isHighSurrogate; rewrite Z.geb_leb; reflexivity).
    destruct pre as [|second pre'].
    + (* the next unit is [high], which is not a low surrogate *)
      exists []. intros rest. cbn [app].
      apply writeString_bytes_unpaired_inner; assumption.
    + destruct (isLowSurrogate second) eqn:Hsl.
      * cbn [List.length] in Hlen.
        destruct (IH pre' high ltac:(lia) Hh) as [bs2 H2].
        exists (utf8Sequence4 (surrogatePairCodePoint c second) ++ bs2).
        intros rest. cbn [app].
        rewrite writeString_bytes_pair by assumption.
        rewrite H2, app_assoc. reflexivity.
      * exists bs1. intros rest. cbn [app].
        rewrite writeString_bytes_unpaired_inner by assumption.
        apply (H1 rest).
Qed.

Lemma writeString_returns value buf :
  BinaryEncoder.writeString value (BinaryEncoder.mk buf)
  = (Return (Z.of_nat (List.length (writeString_bytes value))),
     BinaryEncoder.mk (buf ++ writeString_bytes value)).
Proof.
  unfold BinaryEncoder.writeString, BinaryEncoder.length.
  unfold bind at 1 2. unfold get at 1. unfold ret at 1.
  cbn [BinaryEncoder.buffer].
  unfold bind at 1. rewrite writeString_loop_appends.
  unfold bind, get, ret. cbn [BinaryEncoder.buffer].
  rewrite List.length_app. do 2 f_equal. lia.
Qed.

(** C6, as stated, fails: a high surrogate that ends the string is not
    followed by a low surrogate, and [writeString] appends three bytes for
    it. *)
Lemma C6_counterexample :
  isHighSurrogate 0xd800 = true
  /\ BinaryEncoder.writeString [0xd800] (BinaryEncoder.mk [])
     = (Return 3, BinaryEncoder.mk [237; 160; 128])
  /\ writeString_bytes [0xd800] <> [].
Proof.
  split; [vm_compute; reflexivity|].
  split; [vm_compute; reflexivity | vm_compute; discriminate].
Qed.

(** C6 (amended): for every input string, [writeString] returns the number
    of bytes it appended.  Each high surrogate (0xd800-0xdbff) is reached at
    the start of an iteration, whatever precedes it.  If a low surrogate
    (0xdc00-0xdfff) follows immediately, the two units are encoded together
    as the four-byte UTF-8 sequence of their code point.  If another code
    unit follows that is not a low surrogate, the high surrogate contributes
    no bytes.  If the high surrogate is the last code unit of the string, it
    is written as a three-byte sequence. *)
Theorem C6_writeString_surrogates (value : jsstring) (buf : list Z) :
  BinaryEncoder.writeString value (BinaryEncoder.mk buf)
  = (Return (Z.of_nat (List.length (writeString_bytes value))),
     BinaryEncoder.mk (buf ++ writeString_bytes value))
  /\ (forall pre high, isHighSurrogate high = true ->
      exists bs, forall rest,
        writeString_bytes (pre ++ high :: rest)
        = bs ++ writeString_bytes (high :: rest))
  /\ (forall high low rest,
      isHighSurrogate high = true -> isLowSurrogate low = true ->
      writeString_bytes (high :: low :: rest)
      = utf8Sequence4 (surrogatePairCodePoint high low) ++ writeString_bytes rest)
  /\ (forall high c rest,
      isHighSurrogate high = true -> isLowSurrogate c = false ->
      writeString_bytes (high :: c :: rest) = writeString_bytes (c :: rest))
  /\ (forall high, isHighSurrogate high = true ->
      writeString_bytes [high] = utf8Sequence3 high).
Proof.
  split; [apply writeString_returns|].
  split.
  { intros pre high Hh.
    exact (writeString_bytes_at_high (List.length pre) pre high (le_n _) Hh). }
  split; [exact writeString_bytes_pair|].
  split; [exact writeString_bytes_unpaired_inner|].
  exact writeString_bytes_unpaired_last.
Qed.

(** ** C7: [UInt64.div] *)

#[local] Hint Rewrite join64_bits using (apply shr_u32; lia) : jsbits.

Lemma uint64_value_range x : UInt64.wf x -> 0 <= UInt64.value x < 2 ^ 64.
Proof.
  unfold UInt64.wf, UInt64.value, join64, u32, JS.TWO_TO_32.
  change (2 ^ 64) with 18446744073709551616. lia.
Qed.

Lemma uint64_mk_wf lo hi : UInt64.wf (UInt64.mk (lo .>>> 0) (hi .>>> 0)).
Proof. split; cbn [UInt64.lo UInt64.hi]; apply shr_u32; lia. Qed.

Lemma leftShift_wf x : UInt64.wf (UInt64.leftShift x).
Proof. apply uint64_mk_wf. Qed.

Lemma rightShift_wf x : UInt64.wf (UInt64.rightShift x).
Proof. apply uint64_mk_wf. Qed.

Lemma add_wf x y : UInt64.wf (UInt64.add x y).
Proof. apply uint64_mk_wf. Qed.

Lemma sub_wf x y : UInt64.wf (UInt64.sub x y).
Proof. apply uint64_mk_wf. Qed.

Lemma leftShift_value x :
  UInt64.wf x ->
  UInt64.value (UInt64.leftShift x) = (UInt64.value x * 2 ^ 1) mod 2 ^ 64.
Proof.
  intros [Hlo Hhi]. unfold UInt64.value, UInt64.leftShift.
  cbn [UInt64.lo UInt64.hi].
  apply Z.bits_inj'. intros i Hi. jsbits.
Qed.

Lemma rightShift_value x :
  UInt64.wf x ->
  UInt64.value (UInt64.rightShift x) = UInt64.value x / 2 ^ 1.
Proof.
  intros [Hlo Hhi]. unfold UInt64.value, UInt64.rightShift.
  cbn [UInt64.lo UInt64.hi]. change 1 with (Z.ones 1) at 2.
  apply Z.bits_inj'. intros i Hi. jsbits.
Qed.

Lemma and_ffffffff_shr0 x : (x .& 0xffffffff) .>>> 0 = x mod 2 ^ 32.
Proof.
  rewrite shr0. unfold JS.and. change (JS.toInt32 0xffffffff) with (-1).
  rewrite Z.land_m1_r, toUint32_toInt32. reflexivity.
Qed.

Lemma shr0_mod x : x .>>> 0 = x mod 2 ^ 32.
Proof. rewrite shr0. reflexivity. Qed.

Lemma add_value x y :
  UInt64.wf x -> UInt64.wf y ->
  UInt64.value (UInt64.add x y) = (UInt64.value x + UInt64.value y) mod 2 ^ 64.
Proof.
  intros [Hxl Hxh] [Hyl Hyh]. unfold UInt64.value, UInt64.add, join64.
  cbn [UInt64.lo UInt64.hi]. rewrite !and_ffffffff_shr0, !shr0_mod.
  unfold u32, JS.TWO_TO_32 in *.
  change (2 ^ 32) with 4294967296. change (2 ^ 64) with 18446744073709551616.
  change 0x100000000 with 4294967296.
  destruct (Z.geb_spec (UInt64.lo x + UInt64.lo y) 4294967296);
    Z.div_mod_to_equations; lia.
Qed.

Lemma sub_value x y :
  UInt64.wf x -> UInt64.wf y ->
  UInt64.value (UInt64.sub x y) = (UInt64.value x - UInt64.value y) mod 2 ^ 64.
Proof.
  intros [Hxl Hxh] [Hyl Hyh]. unfold UInt64.value, UInt64.sub, join64.
  cbn [UInt64.lo UInt64.hi]. rewrite !and_ffffffff_shr0, !shr0_mod.
  unfold u32, JS.TWO_TO_32 in *.
  change (2 ^ 32) with 4294967296. change (2 ^ 64) with 18446744073709551616.
  destruct (Z.ltb_spec (UInt64.lo x - UInt64.lo y) 0);
    Z.div_mod_to_equations; lia.
Qed.

Lemma cmp_value x y :
  UInt64.wf x -> UInt64.wf y ->
  (UInt64.cmp x y <=? 0) = (UInt64.value x <=? UInt64.value y).
Proof.
  intros [Hxl Hxh] [Hyl Hyh]. unfold UInt64.cmp, UInt64.value, join64.
  unfold u32, JS.TWO_TO_32 in *.
  destruct (Z.ltb_spec (UInt64.hi x) (UInt64.hi y)),
    (Z.eqb_spec (UInt64.hi x) (UInt64.hi y)),
    (Z.ltb_spec (UInt64.lo x) (UInt64.lo y)),
    (Z.eqb_spec (UInt64.lo x) (UInt64.lo y));
    cbn [andb orb];
    match goal with
    | |- (?c <=? 0) = _ => change (c <=? 0) with true || change (c <=? 0) with false
    end;
    symmetry; first [apply Z.leb_le | apply Z.leb_gt]; lia.
Qed.

Lemma zero_value x :
  UInt64.wf x -> UInt64.zero x = (UInt64.value x =? 0).
Proof.
  intros [Hl Hh]. unfold UInt64.zero, UInt64.value, join64.
  unfold u32, JS.TWO_TO_32 in *.
  destruct (Z.eqb_spec (UInt64.lo x) 0), (Z.eqb_spec (UInt64.hi x) 0),
    (Z.eqb_spec (UInt64.hi x * 4294967296 + UInt64.lo x) 0);
    cbn [andb]; try reflexivity; lia.
Qed.

Lemma u32_bit31 h : u32 h -> Z.testbit h 31 = (2 ^ 31 <=? h).
Proof.
  unfold u32, JS.TWO_TO_32. intros Hh. rewrite Z.testbit_eqb by lia.
  destruct (Z.leb_spec (2 ^ 31) h).
  - replace (h / 2 ^ 31) with 1; [reflexivity|].
    apply Z.div_unique with (r := h - 2 ^ 31); lia.
  - rewrite Z.div_small by lia. reflexivity.
Qed.

Lemma and_signbit_zero h : (h .& 0x80000000 =? 0) = negb (Z.testbit h 31).
Proof.
  destruct (Z.testbit h 31) eqn:Hb; cbn [negb].
  - apply Z.eqb_neq. intros H0.
    assert (Hc : Z.testbit (h .& 0x80000000) 31 = true).
    { rewrite and_bits. change (Z.min 31 31) with 31. rewrite Hb. reflexivity. }
    rewrite H0, Z.bits_0 in Hc. discriminate.
  - apply Z.eqb_eq. apply Z.bits_inj'. intros i Hi.
    rewrite and_bits, Z.bits_0.
    destruct (Z.min_spec i 31) as [[Hlt ->] | [Hge ->]].
    + replace (Z.testbit 0x80000000 i) with false; [apply andb_false_r|].
      symmetry. change 0x80000000 with (2 ^ 31). apply Z.pow2_bits_false. lia.
    + rewrite Hb. reflexivity.
Qed.

Lemma msb_value x :
  UInt64.wf x -> UInt64.msb x = (2 ^ 63 <=? UInt64.value x).
Proof.
  intros [Hl Hh]. unfold UInt64.msb. rewrite and_signbit_zero, negb_involutive.
  rewrite (u32_bit31 _ Hh). unfold UInt64.value, join64.
  unfold u32, JS.TWO_TO_32 in *.
  destruct (Z.leb_spec (2 ^ 31) (UInt64.hi x)),
    (Z.leb_spec (2 ^ 63) (UInt64.hi x * 4294967296 + UInt64.lo x));
    try reflexivity; lia.
Qed.

Lemma div_align_S fuel divisor unit :
  UInt64.div_align (S fuel) divisor unit
  = if negb (UInt64.msb divisor)
    then UInt64.div_align fuel (UInt64.leftShift divisor) (UInt64.leftShift unit)
    else Return (divisor, unit).
Proof. reflexivity. Qed.

Lemma div_loop_S fuel quotient remainder divisor unit :
  UInt64.div_loop (S fuel) quotient remainder divisor unit
  = if negb (UInt64.zero unit) then
      let '(quotient, remainder) :=
        if UInt64.cmp divisor remainder <=? 0
        then (UInt64.add quotient unit, UInt64.sub remainder divisor)
        else (quotient, remainder) in
      UInt64.div_loop fuel quotient remainder
        (UInt64.rightShift divisor) (UInt64.rightShift unit)
    else Return (quotient, remainder).
Proof. reflexivity. Qed.

(** The first loop aligns the divisor with bit 63; [unit] follows it. *)
Lemma div_align_spec d fuel : forall divisor unit k,
  1 <= d -> 0 <= k ->
  UInt64.wf divisor -> UInt64.wf unit ->
  UInt64.value divisor = d * 2 ^ k -> UInt64.value unit = 2 ^ k ->
  2 ^ 63 <= UInt64.value divisor * 2 ^ Z.of_nat fuel ->
  exists divisor' unit' k',
    UInt64.div_align (S fuel) divisor unit = Return (divisor', unit')
    /\ UInt64.wf divisor' /\ UInt64.wf unit' /\ 0 <= k'
    /\ UInt64.value divisor' = d * 2 ^ k' /\ UInt64.value unit' = 2 ^ k'
    /\ 2 ^ 63 <= UInt64.value divisor'.
Proof.
  induction fuel as [|fuel IH]; intros divisor unit k Hd Hk Hwd Hwu Hvd Hvu Hf;
    rewrite div_align_S, (msb_value _ Hwd);
    pose proof (uint64_value_range _ Hwd) as Rd;
    destruct (Z.leb_spec (2 ^ 63) (UInt64.value divisor)) as [Hge|Hlt];
    cbn [negb];
    try (exists divisor, unit, k; split; [reflexivity|]; tauto).
  - change (2 ^ Z.of_nat 0) with 1 in Hf. lia.
  - assert (Hpk : 0 < 2 ^ k) by (apply Z.pow_pos_nonneg; lia).
    assert (Hul : UInt64.value unit <= UInt64.value divisor) by nia.
    apply (IH _ _ (k + 1)); try assumption; try lia;
      try apply leftShift_wf.
    + rewrite leftShift_value by assumption. rewrite Z.mod_small by lia.
      rewrite Hvd, Z.pow_add_r by lia. lia.
    + rewrite leftShift_value by assumption. rewrite Z.mod_small by lia.
      rewrite Hvu, Z.pow_add_r by lia. lia.
    + rewrite leftShift_value by assumption. rewrite Z.mod_small by lia.
      replace (Z.of_nat (S fuel)) with (1 + Z.of_nat fuel) in Hf by lia.
      rewrite Z.pow_add_r in Hf by lia. lia.
Qed.

(** The second loop: with [unit = 2^j] and [divisor = d * 2^j], the
    remainder stays below [2 * divisor] and [x = quotient * d + remainder]. *)
Lemma div_loop_spec x d j : forall fuel quotient remainder divisor unit,
  (j + 2 <= fuel)%nat -> 1 <= d ->
  UInt64.wf quotient -> UInt64.wf remainder ->
  UInt64.wf divisor -> UInt64.wf unit ->
  UInt64.value unit = 2 ^ Z.of_nat j ->
  UInt64.value divisor = d * 2 ^ Z.of_nat j ->
  x = UInt64.value quotient * d + UInt64.value remainder ->
  UInt64.value remainder < d * 2 ^ (Z.of_nat j + 1) ->
  x < 2 ^ 64 ->
  exists quotient' remainder',
    UInt64.div_loop fuel quotient remainder divisor unit
      = Return (quotient', remainder')
    /\ UInt64.wf quotient' /\ UInt64.wf remainder'
    /\ x = UInt64.value quotient' * d + UInt64.value remainder'
    /\ UInt64.value remainder' < d.
Proof.
  induction j as [|j IH];
    intros fuel q r divisor unit Hfuel Hd Hwq Hwr Hwd Hwu Hvu Hvd Hx Hr Hx64;
    (destruct fuel as [|fuel]; [lia|]);
    rewrite div_loop_S, (zero_value _ Hwu), Hvu;
    pose proof (uint64_value_range _ Hwq) as Rq;
    pose proof (uint64_value_range _ Hwr) as Rr;
    pose proof (uint64_value_range _ Hwd) as Rd.
  - (* last bit: after this iteration [unit] is zero *)
    change (2 ^ Z.of_nat 0) with 1 in *. change (2 ^ (Z.of_nat 0 + 1)) with 2 in *.
    cbn [Z.eqb negb].
    rewrite (cmp_value _ _ Hwd Hwr), Hvd.
    destruct fuel as [|fuel]; [lia|].
    assert (Hz : forall q' r', UInt64.wf q' -> UInt64.wf r' ->
      x = UInt64.value q' * d + UInt64.value r' -> UInt64.value r' < d ->
      exists quotient' remainder',
        UInt64.div_loop (S fuel) q' r' (UInt64.rightShift divisor)
          (UInt64.rightShift unit) = Return (quotient', remainder')
        /\ UInt64.wf quotient' /\ UInt64.wf remainder'
        /\ x = UInt64.value quotient' * d + UInt64.value remainder'
        /\ UInt64.value remainder' < d).
    { intros q' r' Hq' Hr' Hx' Hlt. exists q', r'.
      rewrite div_loop_S, (zero_value _ (rightShift_wf unit)).
      rewrite rightShift_value, Hvu by assumption.
      change (1 / 2 ^ 1 =? 0) with true. cbn [negb].
      split; [reflexivity|]. tauto. }
    destruct (Z.leb_spec (d * 1) (UInt64.value r)) as [Hle|Hgt].
    + apply Hz; [apply add_wf | apply sub_wf | |].
      * rewrite add_value, sub_value, Hvu, Hvd by assumption.
        rewrite !Z.mod_small by nia. lia.
      * rewrite sub_value, Hvd by assumption. rewrite Z.mod_small by lia. lia.
    + apply Hz; try assumption; lia.
  - assert (Hpj : 0 < 2 ^ Z.of_nat j) by (apply Z.pow_pos_nonneg; lia).
    replace (Z.of_nat (S j)) with (Z.of_nat j + 1) in * by lia.
    rewrite !Z.pow_add_r in Hr by lia.
    rewrite Z.pow_add_r in Hvu, Hvd |- * by lia. change (2 ^ 1) with 2 in *.
    destruct (Z.eqb_spec (2 ^ Z.of_nat j * 2) 0) as [|_]; [lia|]. cbn [negb].
    rewrite (cmp_value _ _ Hwd Hwr), Hvd.
    assert (Hsu : UInt64.value (UInt64.rightShift unit) = 2 ^ Z.of_nat j).
    { rewrite rightShift_value, Hvu by assumption. change (2 ^ 1) with 2.
      apply Z.div_mul. lia. }
    assert (Hsd : UInt64.value (UInt64.rightShift divisor) = d * 2 ^ Z.of_nat j).
    { rewrite rightShift_value, Hvd by assumption. change (2 ^ 1) with 2.
      rewrite Z.mul_assoc. apply Z.div_mul. lia. }
    assert (Hnext : forall q' r', UInt64.wf q' -> UInt64.wf r' ->
      x = UInt64.value q' * d + UInt64.value r' ->
      UInt64.value r' < d * (2 ^ Z.of_nat j * 2) ->
      exists quotient' remainder',
        UInt64.div_loop fuel q' r' (UInt64.rightShift divisor)
          (UInt64.rightShift unit) = Return (quotient', remainder')
        /\ UInt64.wf quotient' /\ UInt64.wf remainder'
        /\ x = UInt64.value quotient' * d + UInt64.value remainder'
        /\ UInt64.value remainder' < d).
    { intros q' r' Hq' Hr' Hx' Hlt.
      apply (IH fuel q' r' (UInt64.rightShift divisor) (UInt64.rightShift unit));
        [lia | assumption | assumption | assumption | apply rightShift_wf
        | apply rightShift_wf | exact Hsu | exact Hsd | exact Hx' | | exact Hx64].
      rewrite Z.pow_add_r by lia. change (2 ^ 1) with 2. exact Hlt. }
    destruct (Z.leb_spec (d * (2 ^ Z.of_nat j * 2)) (UInt64.value r)) as [Hle|Hgt].
    + apply Hnext; [apply add_wf | apply sub_wf | |].
      * rewrite add_value, sub_value, Hvu, Hvd by assumption.
        rewrite !Z.mod_small by nia. lia.
      * rewrite sub_value, Hvd by assumption. rewrite Z.mod_small by lia. lia.
    + apply Hnext; try assumption; lia.
Qed.

(** C7: for every [UInt64] x (both halves 32-bit words) and every 32-bit
    divisor d, [x.div(d)] returns the empty array when d = 0, without raising
    anything, and otherwise returns [quotient, remainder] with
    value(x) = value(quotient) * d + value(remainder) and
    value(remainder) < d; the two loops end within their budgets. *)
Theorem C7_UInt64_div (x : UInt64.t) (d : Z) (Hx : UInt64.wf x) (Hd : u32 d) :
  (d = 0 -> UInt64.div x d = Return [])
  /\ (d <> 0 ->
      exists q r,
        UInt64.div x d = Return [q; r]
        /\ UInt64.wf q /\ UInt64.wf r
        /\ UInt64.value x = UInt64.value q * d + UInt64.value r
        /\ UInt64.value r < d).
Proof.
  split.
  - intros ->. reflexivity.
  - intros Hnz. unfold UInt64.div.
    destruct (Z.eqb_spec d 0) as [|_]; [contradiction|].
    assert (Hd1 : 1 <= d) by (unfold u32 in Hd; lia).
    assert (Hwd : UInt64.wf (UInt64.mk d 0))
      by (split; cbn [UInt64.lo UInt64.hi]; unfold u32, JS.TWO_TO_32 in *; lia).
    assert (Hwu : UInt64.wf (UInt64.mk 1 0))
      by (split; cbn [UInt64.lo UInt64.hi]; unfold u32, JS.TWO_TO_32; lia).
    destruct (div_align_spec d 63 (UInt64.mk d 0) (UInt64.mk 1 0) 0)
      as (divisor & unit & k & Hrun & Hwd' & Hwu' & Hk & Hvd & Hvu & Hmsb);
      try assumption; try lia.
    { unfold UInt64.value, join64. cbn [UInt64.lo UInt64.hi]. lia. }
    { reflexivity. }
    { unfold UInt64.value, join64. cbn [UInt64.lo UInt64.hi].
      change (2 ^ Z.of_nat 63) with (2 ^ 63). lia. }
    rewrite Hrun.
    pose proof (uint64_value_range _ Hwd') as Rd.
    pose proof (uint64_value_range _ Hx) as Rx.
    assert (Hk64 : k < 64).
    { apply (Z.pow_lt_mono_r_iff 2); [lia | lia |].
      assert (0 < 2 ^ k) by (apply Z.pow_pos_nonneg; lia). nia. }
    assert (Hw0 : UInt64.wf (UInt64.mk 0 0))
      by (split; cbn [UInt64.lo UInt64.hi]; unfold u32, JS.TWO_TO_32; lia).
    assert (Hwx : UInt64.wf (UInt64.mk (UInt64.lo x) (UInt64.hi x)))
      by (destruct x; exact Hx).
    destruct (div_loop_spec (UInt64.value x) d (Z.to_nat k) 65
                (UInt64.mk 0 0) (UInt64.mk (UInt64.lo x) (UInt64.hi x))
                divisor unit)
      as (q & r & Hloop & Hwq & Hwr & Hval & Hrem);
      try assumption; try lia.
    { rewrite Z2Nat.id by lia. exact Hvu. }
    { rewrite Z2Nat.id by lia. exact Hvd. }
    { destruct x. unfold UInt64.value, join64. cbn [UInt64.lo UInt64.hi]. lia. }
    { rewrite Z2Nat.id by lia. rewrite Z.pow_add_r by lia. change (2 ^ 1) with 2.
      destruct x. unfold UInt64.value in *. cbn [UInt64.lo UInt64.hi] in *. lia. }
    rewrite Hloop. exists q, r. repeat split; try assumption; apply Hwq || apply Hwr.
Qed.

Lemma C7_UInt64_div_witness :
  (10 = 0 -> UInt64.div (UInt64.mk 4294967295 4294967295) 10 = Return [])
  /\ (10 <> 0 ->
      exists q r,
        UInt64.div (UInt64.mk 4294967295 4294967295) 10 = Return [q; r]
        /\ UInt64.wf q /\ UInt64.wf r
        /\ UInt64.value (UInt64.mk 4294967295 4294967295)
           = UInt64.value q * 10 + UInt64.value r
        /\ UInt64.value r < 10).
Proof.
  apply (C7_UInt64_div (UInt64.mk 4294967295 4294967295) 10).
  - split; cbn [UInt64.lo UInt64.hi]; unfold u32, JS.TWO_TO_32; lia.
  - unfold u32, JS.TWO_TO_32; lia.
Defined.

(** ** C3: [joinUnsignedDecimalString] *)



Lemma string_app_cons x (a b : string) :
  (String x a ++ b = String x (a ++ b))%string.
Proof. reflexivity. Qed.

Lemma string_app_nil_l (b : string) : ("" ++ b = b)%string.
Proof. reflexivity. Qed.

Lemma string_app_assoc (a b c : string) :
  ((a ++ b) ++ c = a ++ (b ++ c))%string.
Proof.
  induction a as [|x a IH]; [reflexivity|].
  rewrite !string_app_cons, IH. reflexivity.
Qed.

Lemma string_app_nil_r (a : string) : (a ++ "" = a)%string.
Proof.
  induction a as [|x a IH]; [reflexivity|].
  rewrite string_app_cons, IH. reflexivity.
Qed.

Lemma string_length_app (a b : string) :
  String.length (a ++ b)%string = (String.length a + String.length b)%nat.
Proof.
  induction a as [|x a IH]; [reflexivity|].
  rewrite string_app_cons. cbn [String.length Nat.add]. rewrite IH. reflexivity.
Qed.

Lemma decimalDigits_acc fuel : forall n acc,
  decimalDigits fuel n acc = (decimalDigits fuel n "" ++ acc)%string.
Proof.
  induction fuel as [|fuel IH]; intros n acc; [reflexivity|].
  cbn [decimalDigits]. destruct (n / 10 =? 0); [reflexivity|].
  rewrite (IH (n / 10) (String (digitChar (n mod 10)) acc)).
  rewrite (IH (n / 10) (String (digitChar (n mod 10)) ""%string)).
  rewrite string_app_assoc. reflexivity.
Qed.

(** Any budget that covers the binary length of [n] gives the same digits. *)
Lemma decimalDigits_fuel f1 : forall f2 n acc,
  0 <= n < 2 ^ Z.of_nat (S f1) -> n < 2 ^ Z.of_nat (S f2) ->
  decimalDigits (S f1) n acc = decimalDigits (S f2) n acc.
Proof.
  induction f1 as [|f1 IH]; intros f2 n acc H1 H2.
  - change (2 ^ Z.of_nat 1) with 2 in H1.
    cbn [decimalDigits]. rewrite Z.div_small by lia. reflexivity.
  - cbn [decimalDigits]. destruct (Z.eqb_spec (n / 10) 0) as [|Hnz]; [reflexivity|].
    assert (Hn10 : 10 <= n).
    { destruct (Z.lt_ge_cases n 10); [|assumption].
      rewrite Z.div_small in Hnz by lia. contradiction. }
    assert (Hdiv : 0 <= n / 10 /\ 2 * (n / 10) <= n).
    { pose proof (Z.div_mod n 10 ltac:(lia)).
      pose proof (Z.mod_pos_bound n 10 ltac:(lia)). lia. }
    destruct f2 as [|f2].
    { change (2 ^ Z.of_nat 1) with 2 in H2. lia. }
    apply IH.
    + replace (Z.of_nat (S (S f1))) with (1 + Z.of_nat (S f1)) in H1 by lia.
      rewrite Z.pow_add_r in H1 by lia. change (2 ^ 1) with 2 in H1. lia.
    + replace (Z.of_nat (S (S f2))) with (1 + Z.of_nat (S f2)) in H2 by lia.
      rewrite Z.pow_add_r in H2 by lia. change (2 ^ 1) with 2 in H2. lia.
Qed.

Lemma log2_fuel n : 0 <= n -> n < 2 ^ Z.of_nat (S (Z.to_nat (Z.log2 n))).
Proof.
  intros Hn. pose proof (Z.log2_nonneg n).
  replace (Z.of_nat (S (Z.to_nat (Z.log2 n)))) with (Z.succ (Z.log2 n)) by lia.
  destruct (Z.eq_dec n 0) as [->|]; [reflexivity|].
  apply Z.log2_spec. lia.
Qed.

Lemma Number_toString_nonneg n :
  0 <= n ->
  Number_toString n = decimalDigits (S (Z.to_nat (Z.log2 n))) n ""%string.
Proof.
  intros Hn. unfold Number_toString. rewrite Z.abs_eq by assumption.
  destruct (Z.ltb_spec n 0); [lia | reflexivity].
Qed.

Lemma Number_toString_digit n :
  0 <= n < 10 -> Number_toString n = String (digitChar n) ""%string.
Proof.
  intros Hn. rewrite Number_toString_nonneg by lia.
  cbn [decimalDigits]. rewrite Z.div_small, Z.mod_small by lia. reflexivity.
Qed.

(** [String(n)] digit by digit, from the right. *)
Lemma Number_toString_step n :
  10 <= n ->
  Number_toString n
  = (Number_toString (n / 10) ++ String (digitChar (n mod 10)) "")%string.
Proof.
  intros Hn.
  assert (Hdiv : 1 <= n / 10 /\ 2 * (n / 10) <= n).
  { pose proof (Z.div_mod n 10 ltac:(lia)).
    pose proof (Z.mod_pos_bound n 10 ltac:(lia)). lia. }
  rewrite !Number_toString_nonneg by lia.
  pose proof (log2_fuel n ltac:(lia)) as Hf.
  pose proof (log2_fuel (n / 10) ltac:(lia)) as Hf'.
  cbn [decimalDigits]. destruct (Z.eqb_spec (n / 10) 0); [lia|].
  rewrite decimalDigits_acc. f_equal.
  destruct (Z.to_nat (Z.log2 n)) as [|f] eqn:Hl.
  { change (2 ^ Z.of_nat 1) with 2 in Hf. lia. }
  apply decimalDigits_fuel.
  - replace (Z.of_nat (S (S f))) with (1 + Z.of_nat (S f)) in Hf by lia.
    rewrite Z.pow_add_r in Hf by lia. change (2 ^ 1) with 2 in Hf. lia.
  - exact Hf'.
Qed.

Lemma Number_toString_snoc n d :
  1 <= n -> 0 <= d < 10 ->
  Number_toString (10 * n + d)
  = (Number_toString n ++ String (digitChar d) "")%string.
Proof.
  intros Hn Hd. rewrite Number_toString_step by lia.
  replace ((10 * n + d) / 10) with n.
  - replace ((10 * n + d) mod 10) with d; [reflexivity|].
    apply Z.mod_unique_pos with (q := n); lia.
  - apply Z.div_unique with (r := d); lia.
Qed.

(** Appending [k] zero-padded digits multiplies by [10^k] and adds. *)
Lemma Number_toString_append k : forall n m,
  1 <= n -> 0 <= m < 10 ^ Z.of_nat k ->
  Number_toString (n * 10 ^ Z.of_nat k + m)
  = (Number_toString n ++ lastDigits k m)%string.
Proof.
  induction k as [|k IH]; intros n m Hn Hm.
  - change (10 ^ Z.of_nat 0) with 1 in *. cbn [lastDigits].
    rewrite string_app_nil_r. f_equal. lia.
  - replace (Z.of_nat (S k)) with (1 + Z.of_nat k) in * by lia.
    rewrite Z.pow_add_r in * by lia. change (10 ^ 1) with 10 in *.
    assert (Hp : 0 < 10 ^ Z.of_nat k) by (apply Z.pow_pos_nonneg; lia).
    pose proof (Z.div_mod m 10 ltac:(lia)) as Hdm.
    pose proof (Z.mod_pos_bound m 10 ltac:(lia)) as Hmb.
    assert (Hm10 : 0 <= m / 10 < 10 ^ Z.of_nat k).
    { split; [apply Z.div_pos; lia | apply Z.div_lt_upper_bound; lia]. }
    assert (Hn1 : 1 <= n * 10 ^ Z.of_nat k + m / 10) by nia.
    cbn [lastDigits]. rewrite <- string_app_assoc.
    rewrite <- (IH n (m / 10) Hn Hm10).
    rewrite <- (Number_toString_snoc _ _ Hn1 Hmb).
    f_equal. lia.
Qed.

Lemma lastDigits_length j : forall m, String.length (lastDigits j m) = j.
Proof.
  induction j as [|j IH]; intros m; [reflexivity|].
  cbn [lastDigits]. rewrite string_length_app, IH. cbn [String.length]. lia.
Qed.

(** Digits above the length of [m] are zeros. *)
Lemma lastDigits_pad j : forall i m,
  0 <= m < 10 ^ Z.of_nat j ->
  lastDigits (i + j) m = (lastDigits i 0 ++ lastDigits j m)%string.
Proof.
  induction j as [|j IH]; intros i m Hm.
  - change (10 ^ Z.of_nat 0) with 1 in Hm. assert (m = 0) as -> by lia.
    rewrite Nat.add_0_r. cbn [lastDigits]. rewrite string_app_nil_r. reflexivity.
  - replace (Z.of_nat (S j)) with (1 + Z.of_nat j) in Hm by lia.
    rewrite Z.pow_add_r in Hm by lia. change (10 ^ 1) with 10 in Hm.
    replace (i + S j)%nat with (S (i + j)) by lia.
    cbn [lastDigits]. rewrite IH, string_app_assoc; [reflexivity|].
    split; [apply Z.div_pos; lia | apply Z.div_lt_upper_bound; lia].
Qed.

(** [String(m)] is the digits of [m] without padding. *)
Lemma Number_toString_lastDigits k : forall m,
  1 <= m < 10 ^ Z.of_nat k ->
  exists j, (1 <= j <= k)%nat
    /\ Number_toString m = lastDigits j m /\ m < 10 ^ Z.of_nat j.
Proof.
  induction k as [|k IH]; intros m Hm.
  - change (10 ^ Z.of_nat 0) with 1 in Hm. lia.
  - replace (Z.of_nat (S k)) with (1 + Z.of_nat k) in Hm by lia.
    rewrite Z.pow_add_r in Hm by lia. change (10 ^ 1) with 10 in Hm.
    destruct (Z.lt_ge_cases m 10) as [Hlt|Hge].
    + exists 1%nat. split; [lia|]. split; [|change (10 ^ Z.of_nat 1) with 10; lia].
      rewrite Number_toString_digit by lia. cbn [lastDigits].
      rewrite Z.mod_small by lia. reflexivity.
    + assert (Hm10 : 1 <= m / 10 < 10 ^ Z.of_nat k).
      { split; [apply Z.div_le_lower_bound; lia | apply Z.div_lt_upper_bound; lia]. }
      destruct (IH (m / 10) Hm10) as (j & Hj & Hs & Hb).
      exists (S j). split; [lia|]. split.
      * rewrite Number_toString_step by lia. rewrite Hs. reflexivity.
      * replace (Z.of_nat (S j)) with (1 + Z.of_nat j) by lia.
        rewrite Z.pow_add_r by lia. change (10 ^ 1) with 10.
        pose proof (Z.div_mod m 10 ltac:(lia)).
        pose proof (Z.mod_pos_bound m 10 ltac:(lia)). lia.
Qed.

Lemma slice_zeros j :
  (j <= 7)%nat -> slice "0000000" j = lastDigits (7 - j) 0.
Proof.
  intros Hj.
  do 8 (destruct j as [|j]; [vm_compute; reflexivity|]). lia.
Qed.

(** A base-10^7 digit printed with leading zeros is its seven digits. *)
Lemma decimalFrom1e7_padded m flag :
  0 <= m < 10 ^ 7 -> flag <> 0 -> decimalFrom1e7 m flag = lastDigits 7 m.
Proof.
  intros Hm Hflag. unfold decimalFrom1e7.
  destruct (Z.eqb_spec flag 0) as [|_]; [contradiction|].
  destruct (Z.eqb_spec m 0) as [->|Hnz]; [vm_compute; reflexivity|].
  destruct (Number_toString_lastDigits 7 m ltac:(change (Z.of_nat 7) with 7; lia))
    as (j & Hj & Hs & Hb).
  rewrite Hs, lastDigits_length, slice_zeros by lia.
  rewrite <- lastDigits_pad by lia.
  replace (7 - j + j)%nat with 7%nat by lia. reflexivity.
Qed.

Lemma decimalFrom1e7_leading m :
  1 <= m -> decimalFrom1e7 m 0 = Number_toString m.
Proof.
  intros Hm. unfold decimalFrom1e7. cbn [Z.eqb].
  destruct (Z.eqb_spec m 0); [lia | reflexivity].
Qed.

(** Three base-10^7 digits, the leading one positive, print the number. *)
Lemma three_digits_string digitA digitB digitC :
  1 <= digitC -> 0 <= digitB < 10 ^ 7 -> 0 <= digitA < 10 ^ 7 ->
  (decimalFrom1e7 digitC 0 ++ decimalFrom1e7 digitB digitC
     ++ decimalFrom1e7 digitA 1)%string
  = Number_toString ((digitC * 10 ^ 7 + digitB) * 10 ^ 7 + digitA).
Proof.
  intros HC HB HA.
  rewrite decimalFrom1e7_leading by assumption.
  rewrite !decimalFrom1e7_padded by (assumption || lia).
  rewrite <- string_app_assoc.
  change (10 ^ 7) with (10 ^ Z.of_nat 7) in *.
  rewrite <- Number_toString_append by assumption.
  rewrite <- Number_toString_append by (assumption || nia).
  reflexivity.
Qed.

(** The 16:24:24 split of the 64-bit value. *)
Lemma split24_low lo : lo .& 0xffffff = lo mod 2 ^ 24.
Proof. change 0xffffff with (Z.ones 24). apply and_ones. lia. Qed.

Lemma split24_mid lo hi :
  u32 lo -> u32 hi ->
  (((lo .>>> 24) .| (hi .<< 8)) .>>> 0) .& 0xffffff
  = (join64 lo hi / 2 ^ 24) mod 2 ^ 24.
Proof.
  intros Hlo Hhi. change 0xffffff with (Z.ones 24). rewrite and_ones by lia.
  rewrite shr0. apply Z.bits_inj'. intros i Hi. jsbits.
Qed.

Lemma split24_high lo hi :
  u32 lo -> u32 hi -> (hi .>> 16) .& 0xffff = join64 lo hi / 2 ^ 48.
Proof.
  intros Hlo Hhi. change 0xffff with (Z.ones 16). rewrite and_ones by lia.
  apply Z.bits_inj'. intros i Hi. jsbits.
Qed.

(** A carry out of one base-10^7 digit into the next, taken or not. *)
Lemma carry_step a b :
  0 <= a ->
  (if a >=? 10000000 then (Z.rem a 10000000, b + a / 10000000) else (a, b))
  = (a mod 10000000, b + a / 10000000).
Proof.
  intros Ha. destruct (Z.geb_spec a 10000000).
  - rewrite Z.rem_mod_nonneg by lia. reflexivity.
  - rewrite Z.mod_small, Z.div_small by lia. f_equal. lia.
Qed.

(** The intermediate digits stay below 2^53, where doubles hold every
    integer exactly: on Z the model computes what the source computes. *)
Lemma base1e7_digits_exact low mid high :
  0 <= low < 2 ^ 24 -> 0 <= mid < 2 ^ 24 -> 0 <= high < 2 ^ 16 ->
  let digitA := low + mid * 6777216 + high * 6710656 in
  let digitB := mid + high * 8147497 in
  let digitC := high * 2 in
  0 <= digitA < 2 ^ 53
  /\ 0 <= digitB + digitA / 10000000 < 2 ^ 53
  /\ 0 <= digitC + (digitB + digitA / 10000000) / 10000000 < 2 ^ 53.
Proof.
  intros Hl Hm Hh. cbv zeta.
  change (2 ^ 24) with 16777216 in *. change (2 ^ 16) with 65536 in *.
  change (2 ^ 53) with 9007199254740992.
  Z.div_mod_to_equations. lia.
Qed.

Lemma joinUnsignedDecimalString_spec lo hi :
  u32 lo -> u32 hi ->
  joinUnsignedDecimalString lo hi = Number_toString (join64 lo hi).
Proof.
  intros Hlo Hhi. unfold joinUnsignedDecimalString.
  destruct (Z.leb_spec hi 0x1fffff) as [Hfast|Hslow].
  - f_equal. unfold join64. lia.
  - rewrite split24_low, split24_mid, (split24_high lo hi) by assumption.
    cbv zeta.
    set (v := join64 lo hi).
    assert (Hv : 2 ^ 53 <= v < 2 ^ 64).
    { unfold v, join64, u32, JS.TWO_TO_32 in *. lia. }
    assert (Hlow : lo mod 2 ^ 24 = v mod 2 ^ 24).
    { unfold v, join64, JS.TWO_TO_32.
      replace (hi * 4294967296 + lo) with (lo + (hi * 256) * 2 ^ 24) by lia.
      rewrite Z.mod_add by lia. reflexivity. }
    rewrite Hlow.
    change (2 ^ 24) with 16777216 in *. change (2 ^ 48) with 281474976710656 in *.
    change (2 ^ 53) with 9007199254740992 in *.
    change (2 ^ 64) with 18446744073709551616 in *.
    set (low := v mod 16777216).
    set (mid := (v / 16777216) mod 16777216).
    set (high := v / 281474976710656).
    assert (Hdec : v = low + mid * 16777216 + high * 281474976710656
                   /\ 0 <= low < 16777216 /\ 0 <= mid < 16777216
                   /\ 0 <= high < 65536).
    { unfold low, mid, high. Z.div_mod_to_equations. lia. }
    destruct Hdec as (Hdec & Rlow & Rmid & Rhigh).
    rewrite carry_step by lia. cbv beta iota.
    rewrite carry_step by (Z.div_mod_to_equations; lia). cbv beta iota.
    set (digitA0 := low + mid * 6777216 + high * 6710656).
    set (digitB1 := mid + high * 8147497 + digitA0 / 10000000).
    assert (Hnum : ((high * 2 + digitB1 / 10000000) * 10 ^ 7
                    + digitB1 mod 10000000) * 10 ^ 7 + digitA0 mod 10000000 = v).
    { change (10 ^ 7) with 10000000. unfold digitB1, digitA0.
      Z.div_mod_to_equations. lia. }
    etransitivity; [apply three_digits_string | f_equal; exact Hnum].
    + change (10 ^ 7) with 10000000 in Hnum.
      pose proof (Z.mod_pos_bound digitB1 10000000 ltac:(lia)).
      pose proof (Z.mod_pos_bound digitA0 10000000 ltac:(lia)). lia.
    + apply Z.mod_pos_bound. lia.
    + apply Z.mod_pos_bound. lia.
Qed.

Lemma digitValue_digitChar d : 0 <= d < 10 -> digitValue (digitChar d) = Some d.
Proof.
  intros Hd.
  assert (Hc : d = 0 \/ d = 1 \/ d = 2 \/ d = 3 \/ d = 4 \/ d = 5 \/ d = 6
               \/ d = 7 \/ d = 8 \/ d = 9) by lia.
  repeat (destruct Hc as [-> | Hc]; [reflexivity|]). subst. reflexivity.
Qed.

Lemma digitChar_nonzero d : 1 <= d < 10 -> digitChar d <> "0"%char.
Proof.
  intros Hd.
  assert (Hc : d = 1 \/ d = 2 \/ d = 3 \/ d = 4 \/ d = 5 \/ d = 6
               \/ d = 7 \/ d = 8 \/ d = 9) by lia.
  repeat (destruct Hc as [-> | Hc]; [discriminate|]). subst. discriminate.
Qed.

Lemma parseDecimal_from_snoc s : forall acc c,
  parseDecimal_from (s ++ String c "")%string acc
  = match parseDecimal_from s acc with
    | Some a =>
        match digitValue c with Some d => Some (10 * a + d) | None => None end
    | None => None
    end.
Proof.
  induction s as [|x s IH]; intros acc c.
  - rewrite string_app_nil_l. cbn [parseDecimal_from].
    destruct (digitValue c); reflexivity.
  - rewrite string_app_cons. cbn [parseDecimal_from].
    destruct (digitValue x); [apply IH | reflexivity].
Qed.

(** Reading back what [String(m)] prints gives [m], and the numeral has no
    leading zero. *)
Lemma Number_toString_canonical k : forall m,
  0 <= m < 10 ^ Z.of_nat k ->
  parseDecimal_from (Number_toString m) 0 = Some m
  /\ exists c s', Number_toString m = String c s' /\ (1 <= m -> c <> "0"%char).
Proof.
  induction k as [|k IH]; intros m Hm.
  - change (10 ^ Z.of_nat 0) with 1 in Hm. assert (m = 0) as -> by lia.
    split; [reflexivity|]. eexists _, _. split; [reflexivity | lia].
  - replace (Z.of_nat (S k)) with (1 + Z.of_nat k) in Hm by lia.
    rewrite Z.pow_add_r in Hm by lia. change (10 ^ 1) with 10 in Hm.
    destruct (Z.lt_ge_cases m 10) as [Hlt|Hge].
    + rewrite Number_toString_digit by lia. split.
      * cbn [parseDecimal_from]. rewrite digitValue_digitChar by lia.
        reflexivity.
      * eexists _, _. split; [reflexivity|]. intros H1.
        apply digitChar_nonzero. lia.
    + assert (Hm10 : 0 <= m / 10 < 10 ^ Z.of_nat k).
      { split; [apply Z.div_pos; lia | apply Z.div_lt_upper_bound; lia]. }
      assert (Hq : 1 <= m / 10) by (apply Z.div_le_lower_bound; lia).
      destruct (IH (m / 10) Hm10) as (Hp & c & s' & Hs & Hc).
      rewrite Number_toString_step by lia. split.
      * rewrite parseDecimal_from_snoc, Hp.
        pose proof (Z.mod_pos_bound m 10 ltac:(lia)).
        rewrite digitValue_digitChar by lia. f_equal.
        pose proof (Z.div_mod m 10 ltac:(lia)). lia.
      * rewrite Hs, string_app_cons. eexists _, _. split; [reflexivity|].
        intros _. apply Hc. exact Hq.
Qed.

Lemma Number_toString_reads_back m :
  0 <= m < 2 ^ 64 ->
  parseDecimal (Number_toString m) = Some m /\ noLeadingZero (Number_toString m).
Proof.
  intros Hm.
  destruct (Number_toString_canonical 20 m) as (Hp & c & s' & Hs & Hc).
  { change (10 ^ Z.of_nat 20) with 100000000000000000000.
    change (2 ^ 64) with 18446744073709551616 in Hm. lia. }
  split.
  - unfold parseDecimal. rewrite Hs in *. exact Hp.
  - destruct (Z.eq_dec m 0) as [->|Hnz].
    + left. reflexivity.
    + right. exists c, s'. split; [exact Hs | apply Hc; lia].
Qed.

(** C3: for every pair of 32-bit words, [joinUnsignedDecimalString] returns
    the decimal numeral of hi * 2^32 + lo, on the fast path and on the
    base-10^7 path alike: it is the string that [String] prints for that
    integer, it reads back as a decimal numeral to exactly that integer, and
    it has no leading zero ("0" for zero). *)
Theorem C3_joinUnsignedDecimalString (lo hi : Z) (Hlo : u32 lo) (Hhi : u32 hi) :
  joinUnsignedDecimalString lo hi = Number_toString (join64 lo hi)
  /\ parseDecimal (joinUnsignedDecimalString lo hi) = Some (join64 lo hi)
  /\ noLeadingZero (joinUnsignedDecimalString lo hi)
  /\ (join64 lo hi = 0 -> joinUnsignedDecimalString lo hi = "0"%string).
Proof.
  rewrite (joinUnsignedDecimalString_spec lo hi Hlo Hhi).
  assert (Hv : 0 <= join64 lo hi < 2 ^ 64).
  { unfold join64, u32, JS.TWO_TO_32 in *.
    change (2 ^ 64) with 18446744073709551616. lia. }
  destruct (Number_toString_reads_back _ Hv) as [Hp Hc].
  split; [reflexivity|]. split; [exact Hp|]. split; [exact Hc|].
  intros ->. reflexivity.
Qed.

Lemma C3_joinUnsignedDecimalString_witness :
  joinUnsignedDecimalString 4294967295 4294967295
    = Number_toString (join64 4294967295 4294967295)
  /\ parseDecimal (joinUnsignedDecimalString 4294967295 4294967295)
     = Some (join64 4294967295 4294967295)
  /\ noLeadingZero (joinUnsignedDecimalString 4294967295 4294967295)
  /\ (join64 4294967295 4294967295 = 0 ->
      joinUnsignedDecimalString 4294967295 4294967295 = "0"%string).
Proof.
  apply (C3_joinUnsignedDecimalString 4294967295 4294967295);
    unfold u32, JS.TWO_TO_32; lia.
Defined.

(** Both paths on concrete words: 2^53 - 1 goes through the fast path,
    2^53 and 2^64 - 1 through the base-10^7 digits. *)
Example joinUnsignedDecimalString_examples :
  joinUnsignedDecimalString 4294967295 0x1fffff = "9007199254740991"%string
  /\ joinUnsignedDecimalString 0 0x200000 = "9007199254740992"%string
  /\ joinUnsignedDecimalString 4294967295 4294967295 = "18446744073709551615"%string
  /\ joinUnsignedDecimalString 0 0 = "0"%string.
Proof. repeat split; vm_compute; reflexivity. Qed.

(** * Further properties of the codec *)

(** ** Fixed-width values: sign bits and single bytes *)

(** Bits of a signed value above its width repeat the sign bit. *)
Lemma signed_high_bits x n i :
  - 2 ^ n <= x < 2 ^ n -> 0 <= n <= i -> Z.testbit x i = (x <? 0).
Proof.
  intros Hx Hi. destruct (Z.ltb_spec x 0).
  - rewrite <- (Z.lnot_involutive x), Z.lnot_spec by lia.
    rewrite (small_high_bits (Z.lnot x) n i); [reflexivity | | lia].
    unfold Z.lnot. lia.
  - apply (small_high_bits x n i); lia.
Qed.

Lemma int8_roundtrip v :
  -128 <= v < 128 -> (((v .>>> 0) .& 0xff) .<< 24) .>> 24 = v.
Proof.
  intros Hv. change 0xff with (Z.ones 8).
  apply Z.bits_inj'. intros i Hi. jsbits.
  rewrite !(signed_high_bits v 7) by lia. reflexivity.
Qed.

Lemma int16_roundtrip v :
  -32768 <= v < 32768 ->
  (((((v .>>> 0) .& 0xff) .<< 0) .| (((v .>>> 8) .& 0xff) .<< 8)) .<< 16) .>> 16 = v.
Proof.
  intros Hv. change 0xff with (Z.ones 8).
  apply Z.bits_inj'. intros i Hi. jsbits.
  all: rewrite ?(signed_high_bits v 15) by lia; try reflexivity.
Qed.

Lemma toInt32_signed v : - JS.TWO_TO_31 <= v < JS.TWO_TO_31 -> JS.toInt32 v = v.
Proof.
  intros Hv. apply Z.bits_inj'. intros i Hi. jsbits.
  rewrite !(signed_high_bits v 31) by (rewrite <- ?TWO_TO_31_pow; lia). reflexivity.
Qed.

Lemma uint8_roundtrip v : 0 <= v < 256 -> (v .>>> 0) .& 0xff = v.
Proof.
  intros Hv. change 0xff with (Z.ones 8).
  apply Z.bits_inj'. intros i Hi. jsbits.
  all: rewrite ?(small_high_bits v 8) by lia; try reflexivity.
Qed.

Lemma uint16_roundtrip v :
  0 <= v < 65536 ->
  (((v .>>> 0) .& 0xff) .<< 0) .| (((v .>>> 8) .& 0xff) .<< 8) = v.
Proof.
  intros Hv. change 0xff with (Z.ones 8).
  apply Z.bits_inj'. intros i Hi. jsbits.
  all: rewrite ?(small_high_bits v 16) by lia; try reflexivity.
Qed.

(** ** lib.ts: the split functions, [joinSignedDecimalString] and hash strings *)

Lemma not_u32 x : u32 x -> JS.not x .>>> 0 = 4294967295 - x.
Proof.
  intros Hx. rewrite shr0_mod. unfold JS.not, Z.lnot, JS.toInt32, u32 in *.
  unfold JS.TWO_TO_31, JS.TWO_TO_32 in *. change (2 ^ 32) with 4294967296.
  rewrite (Z.mod_small x) by lia.
  destruct (Z.ltb_spec x 2147483648); Z.div_mod_to_equations; lia.
Qed.

(** The pair a split function leaves in the temporaries, and the split of
    the low 64 bits of an integer. *)
Lemma splitUint64_spec v :
  splitUint64 v = mkSplit64 (v mod 2 ^ 32) ((v / 2 ^ 32) mod 2 ^ 32).
Proof.
  unfold splitUint64. rewrite !shr0_mod. f_equal. f_equal.
  unfold JS.TWO_TO_32. change (2 ^ 32) with 4294967296.
  Z.div_mod_to_equations; lia.
Qed.

Lemma splitInt64_spec v :
  splitInt64 v = mkSplit64 (v mod 2 ^ 32) ((v / 2 ^ 32) mod 2 ^ 32).
Proof.
  unfold splitInt64.
  set (a := Z.abs v).
  assert (Hlo : u32 (a .>>> 0)) by (apply shr_u32; lia).
  assert (Hhi : u32 (((a - a .>>> 0) / JS.TWO_TO_32) .>>> 0)) by (apply shr_u32; lia).
  destruct (Z.ltb_spec v 0) as [Hneg|Hpos].
  - rewrite !not_u32 by assumption. rewrite !shr0_mod in *.
    unfold JS.TWO_TO_32, u32 in *. change (2 ^ 32) with 4294967296 in *.
    change 0xffffffff with 4294967295.
    assert (Ha : a = - v) by (unfold a; lia).
    destruct (Z.gtb_spec (4294967295 - a mod 4294967296 + 1) 4294967295).
    + destruct (Z.gtb_spec
        (4294967295 - ((a - a mod 4294967296) / 4294967296) mod 4294967296 + 1)
        4294967295); f_equal; Z.div_mod_to_equations; lia.
    + f_equal; Z.div_mod_to_equations; lia.
  - rewrite !shr0_mod. unfold JS.TWO_TO_32. change (2 ^ 32) with 4294967296.
    assert (Ha : a = v) by (unfold a; lia). rewrite Ha.
    f_equal. f_equal. Z.div_mod_to_equations; lia.
Qed.


Lemma splitZigzag64_spec v :
  splitZigzag64 v
  = mkSplit64 (zigzag64 v mod 2 ^ 32) ((zigzag64 v / 2 ^ 32) mod 2 ^ 32).
Proof.
  unfold splitZigzag64, zigzag64. rewrite splitUint64_spec.
  cbn [split64Low split64High].
  change (2 ^ 32) with 4294967296. change 0xffffffff with 4294967295.
  destruct (Z.ltb_spec v 0) as [Hneg|Hpos].
  - replace (Z.abs v * 2) with (- 2 * v) by lia.
    destruct (Z.eqb_spec ((- 2 * v) mod 4294967296) 0).
    + destruct (Z.eqb_spec (((- 2 * v) / 4294967296) mod 4294967296) 0);
        f_equal; Z.div_mod_to_equations; lia.
    + f_equal; Z.div_mod_to_equations; lia.
  - replace (Z.abs v * 2) with (2 * v) by lia. reflexivity.
Qed.

Lemma Number_toString_neg n :
  n < 0 -> Number_toString n = String "-" (Number_toString (- n)).
Proof.
  intros Hn. unfold Number_toString.
  destruct (Z.ltb_spec n 0); [|lia]. destruct (Z.ltb_spec (- n) 0); [lia|].
  rewrite Z.abs_opp. reflexivity.
Qed.

Lemma neg_u32 x : u32 x -> (JS.not x + 1) .>>> 0 = (- x) mod 2 ^ 32.
Proof.
  intros Hx. rewrite shr0_mod. unfold JS.not, Z.lnot, JS.toInt32, u32 in *.
  unfold JS.TWO_TO_31, JS.TWO_TO_32 in *. change (2 ^ 32) with 4294967296.
  rewrite (Z.mod_small x) by lia.
  destruct (Z.ltb_spec x 2147483648); Z.div_mod_to_equations; lia.
Qed.

Lemma not_carry_u32 x c : u32 x -> 0 <= c <= 1 ->
  (JS.not x + c) .>>> 0 = (c - 1 - x) mod 2 ^ 32.
Proof.
  intros Hx Hc. rewrite shr0_mod. unfold JS.not, Z.lnot, JS.toInt32, u32 in *.
  unfold JS.TWO_TO_31, JS.TWO_TO_32 in *. change (2 ^ 32) with 4294967296.
  rewrite (Z.mod_small x) by lia.
  destruct (Z.ltb_spec x 2147483648); Z.div_mod_to_equations; lia.
Qed.

(** [joinSignedDecimalString] prints the signed 64-bit integer of a pair of
    32-bit words. *)
Lemma joinSignedDecimalString_spec lo hi :
  u32 lo -> u32 hi ->
  joinSignedDecimalString lo hi = Number_toString (int64_of_split lo hi).
Proof.
  intros Hlo Hhi. unfold joinSignedDecimalString, int64_of_split.
  rewrite !toUint32_id by assumption.
  rewrite and_signbit_zero, (u32_bit31 _ Hhi).
  unfold join64, u32, JS.TWO_TO_32 in *.
  destruct (Z.leb_spec (2 ^ 31) hi) as [Hneg|Hpos]; cbn [negb].
  - destruct (Z.ltb_spec (hi * 4294967296 + lo) (2 ^ 63)); [lia|].
    rewrite Number_toString_neg by lia. f_equal.
    rewrite neg_u32 by (unfold u32, JS.TWO_TO_32; lia).
    set (lo' := (- lo) mod 2 ^ 32).
    rewrite (not_carry_u32 hi) by
      (try destruct (Z.eqb_spec lo' 0); unfold u32, JS.TWO_TO_32; lia).
    rewrite joinUnsignedDecimalString_spec.
    + f_equal. unfold join64, JS.TWO_TO_32, lo'.
      change (2 ^ 32) with 4294967296. change (2 ^ 64) with 18446744073709551616.
      destruct (Z.eqb_spec ((- lo) mod 4294967296) 0);
        Z.div_mod_to_equations; lia.
    + unfold u32, JS.TWO_TO_32, lo'. change (2 ^ 32) with 4294967296.
      apply Z.mod_pos_bound. lia.
    + unfold u32, JS.TWO_TO_32. change (2 ^ 32) with 4294967296.
      apply Z.mod_pos_bound. lia.
  - destruct (Z.ltb_spec (hi * 4294967296 + lo) (2 ^ 63)); [|lia].
    rewrite joinUnsignedDecimalString_spec by (unfold u32, JS.TWO_TO_32; lia).
    reflexivity.
Qed.

Lemma zigzag64_bits v i :
  0 <= i ->
  Z.testbit (zigzag64 v) i = xorb (v <? 0) ((1 <=? i) && Z.testbit v (i - 1)).
Proof.
  intros Hi. unfold zigzag64. destruct (Z.ltb_spec v 0) as [Hneg|Hpos].
  - replace (- 2 * v - 1) with (Z.lnot (v * 2 ^ 1)) by (unfold Z.lnot; lia).
    rewrite Z.lnot_spec by lia. rewrite Z.mul_pow2_bits by lia.
    destruct (Z.leb_spec 1 i); cbn [andb xorb].
    + reflexivity.
    + rewrite Z.testbit_neg_r by lia. reflexivity.
  - replace (2 * v) with (v * 2 ^ 1) by lia.
    rewrite Z.mul_pow2_bits by lia.
    destruct (Z.leb_spec 1 i); cbn [andb xorb].
    + reflexivity.
    + rewrite Z.testbit_neg_r by lia. reflexivity.
Qed.

Lemma toZigzag64_split v :
  - 2 ^ 63 <= v < 2 ^ 63 ->
  toZigzag64 (v mod 2 ^ 32) ((v / 2 ^ 32) mod 2 ^ 32)
    (fun lo hi => mkSplit64 (lo .>>> 0) (hi .>>> 0))
  = splitZigzag64 v.
Proof.
  intros Hv. rewrite splitZigzag64_spec, toZigzag64_eq.
  f_equal; apply Z.bits_inj'; intros i Hi; jsbits.
  all: rewrite ?zigzag64_bits by lia.
  all: rewrite ?(signed_high_bits v 63 63) by lia.
  all: repeat split_bit_case.
  all: norm_bit_index; unify_bit_index.
  all: try (rewrite (Z.testbit_neg_r v) by lia).
  all: try reflexivity; try btauto.
  all: destruct (Z.testbit v _); reflexivity.
Qed.

Lemma byte_of_word x k :
  0 <= k < 32 -> (x .>>> k) .& 0xff = (x mod 2 ^ 32 / 2 ^ k) mod 2 ^ 8.
Proof.
  intros Hk. change 0xff with (Z.ones 8).
  apply Z.bits_inj'. intros i Hi. jsbits.
Qed.

Lemma shl_mod x k :
  0 <= k < 32 -> (x .<< k) mod 2 ^ 32 = (x * 2 ^ k) mod 2 ^ 32.
Proof.
  intros Hk. apply Z.bits_inj'. intros i Hi. jsbits.
Qed.

Lemma shl_byte b k :
  0 <= b < 256 -> 0 <= k <= 16 -> b .<< k = b * 2 ^ k.
Proof.
  intros Hb Hk. apply Z.bits_inj'. intros i Hi. jsbits.
  all: rewrite ?(small_high_bits b 8) by lia; try reflexivity.
Qed.

Lemma fromCharCode_bytes bs :
  Forall (fun b => 0 <= b < 256) bs -> fromCharCode bs = bs.
Proof.
  intros H. unfold fromCharCode. induction H as [|b bs Hb _ IH]; [reflexivity|].
  cbn [map]. rewrite IH, Z.mod_small by lia. reflexivity.
Qed.

(** The four bytes of a word, low byte first, put together again. *)
Lemma word_of_bytes a b c d :
  0 <= a < 256 -> 0 <= b < 256 -> 0 <= c < 256 -> 0 <= d < 256 ->
  (a + (b .<< 8) + (c .<< 16) + (d .<< 24)) .>>> 0
  = a + b * 2 ^ 8 + c * 2 ^ 16 + d * 2 ^ 24.
Proof.
  intros Ha Hb Hc Hd. rewrite shr0_mod.
  rewrite (shl_byte b 8), (shl_byte c 16) by lia.
  pose proof (shl_mod d 24 ltac:(lia)) as Hd24.
  pose proof (toInt32_range (Z.shiftl (JS.toInt32 d) (24 mod 32))) as Hr.
  change (JS.toInt32 (Z.shiftl (JS.toInt32 d) (24 mod 32))) with (d .<< 24) in Hr.
  unfold JS.TWO_TO_31 in Hr.
  change (2 ^ 8) with 256 in *. change (2 ^ 16) with 65536 in *.
  change (2 ^ 24) with 16777216 in *. change (2 ^ 32) with 4294967296 in *.
  Z.div_mod_to_equations; lia.
Qed.

Lemma splitHash64_joinHash64 lo hi :
  splitHash64 (joinHash64 lo hi) = mkSplit64 (JS.toUint32 lo) (JS.toUint32 hi).
Proof.
  unfold joinHash64. cbv zeta.
  rewrite !byte_of_word by lia.
  rewrite fromCharCode_bytes
    by (repeat constructor; apply Z.mod_pos_bound; reflexivity).
  unfold splitHash64, charCodeAt. cbn [nth_error unitOrZero].
  rewrite !word_of_bytes by (apply Z.mod_pos_bound; reflexivity).
  unfold JS.toUint32, JS.TWO_TO_32.
  change (2 ^ 0) with 1. change (2 ^ 8) with 256. change (2 ^ 16) with 65536.
  change (2 ^ 24) with 16777216. change (2 ^ 32) with 4294967296.
  f_equal; Z.div_mod_to_equations; lia.
Qed.

Lemma joinHash64_splitHash64 a b c d e f g h :
  Forall (fun x => 0 <= x < 256) [a; b; c; d; e; f; g; h] ->
  joinHash64 (split64Low (splitHash64 [a; b; c; d; e; f; g; h]))
             (split64High (splitHash64 [a; b; c; d; e; f; g; h]))
  = [a; b; c; d; e; f; g; h].
Proof.
  intros H.
  repeat match goal with
    | H : Forall _ (_ :: _) |- _ => inversion H; subst; clear H
    end.
  unfold splitHash64, charCodeAt. cbn [nth_error unitOrZero split64Low split64High].
  rewrite !word_of_bytes by assumption.
  unfold joinHash64. cbv zeta. rewrite !byte_of_word by lia.
  unfold fromCharCode. cbn [map].
  change (2 ^ 0) with 1. change (2 ^ 8) with 256. change (2 ^ 16) with 65536.
  change (2 ^ 24) with 16777216. change (2 ^ 32) with 4294967296.
  repeat match goal with |- _ :: _ = _ :: _ => f_equal end;
    try reflexivity; Z.div_mod_to_equations; lia.
Qed.

(** ** Writers that append, readers that consume: fixed-width integers *)

Lemma bytesAtCursor_index d bs :
  bytesAtCursor d bs ->
  exists b, BinaryDecoder.bytes d = Some b
    /\ forall k z v, z = Z.of_nat k -> nth_error bs k = Some v ->
         BinaryDecoder.index b (BinaryDecoder.cursor d + z) = Some v.
Proof.
  intros [Hc H]. destruct (BinaryDecoder.bytes d) as [b|]; [|contradiction].
  exists b. split; [reflexivity|]. intros k z v -> Hk.
  unfold BinaryDecoder.index.
  destruct (Z.ltb_spec (BinaryDecoder.cursor d + Z.of_nat k) 0); [lia|].
  replace (Z.to_nat (BinaryDecoder.cursor d + Z.of_nat k))
    with (Z.to_nat (BinaryDecoder.cursor d) + k)%nat by lia.
  rewrite <- H in Hk.
  assert (Hlt : (k < List.length bs)%nat).
  { apply nth_error_Some. rewrite <- H at 1. rewrite Hk. discriminate. }
  rewrite nth_error_firstn in Hk.
  destruct (Nat.ltb_spec k (List.length bs)); [|lia].
  rewrite nth_error_skipn in Hk. exact Hk.
Qed.

(** A decoder on [bs1 ++ bs2] is on [bs1], and on [bs2] once the cursor
    has gone over [bs1]. *)
Lemma bytesAtCursor_app d bs1 bs2 :
  bytesAtCursor d (bs1 ++ bs2) ->
  bytesAtCursor d bs1
  /\ bytesAtCursor
       (BinaryDecoder.set_cursor
          (BinaryDecoder.cursor d + Z.of_nat (List.length bs1)) d) bs2.
Proof.
  intros [Hc H]. unfold bytesAtCursor.
  cbn [BinaryDecoder.cursor BinaryDecoder.bytes BinaryDecoder.set_cursor].
  destruct (BinaryDecoder.bytes d) as [b|]; [|contradiction].
  rewrite length_app in H.
  assert (H1 : firstn (List.length bs1)
                 (skipn (Z.to_nat (BinaryDecoder.cursor d)) b) = bs1).
  { apply (f_equal (firstn (List.length bs1))) in H.
    rewrite firstn_firstn in H.
    replace (Init.Nat.min (List.length bs1) (List.length bs1 + List.length bs2))
      with (List.length bs1) in H by lia.
    rewrite H. rewrite firstn_app, Nat.sub_diag, firstn_all. cbn [firstn].
    apply app_nil_r. }
  split; [split; [lia | exact H1]|]. split; [lia|].
  replace (Z.to_nat (BinaryDecoder.cursor d + Z.of_nat (List.length bs1)))
    with (List.length bs1 + Z.to_nat (BinaryDecoder.cursor d))%nat by lia.
  rewrite <- skipn_skipn.
  apply (f_equal (skipn (List.length bs1))) in H.
  rewrite skipn_firstn_comm in H.
  replace (List.length bs1 + List.length bs2 - List.length bs1)%nat
    with (List.length bs2) in H by lia.
  rewrite H. rewrite skipn_app, Nat.sub_diag, skipn_all. reflexivity.
Qed.

Ltac run_encoder :=
  cbv [bind get ret throw modify assert BinaryEncoder.push];
  cbn [BinaryEncoder.buffer fst snd].

Lemma assert_range lo hi v (k : BinaryEncoder.M unit) e :
  lo <= v < hi ->
  bind (assert ((v >=? lo) && (v <? hi))) (fun _ => k) e = k e.
Proof.
  intros H. unfold bind, assert.
  destruct (Z.geb_spec v lo); [|lia]. destruct (Z.ltb_spec v hi); [|lia].
  reflexivity.
Qed.

Lemma assert_outside lo hi v (k : BinaryEncoder.M unit) e :
  ~ (lo <= v < hi) ->
  bind (assert ((v >=? lo) && (v <? hi))) (fun _ => k) e = (Throw AssertionError, e).
Proof.
  intros H. unfold bind, assert.
  destruct (Z.geb_spec v lo), (Z.ltb_spec v hi); try reflexivity. lia.
Qed.

Lemma appends_bind m1 m2 bs1 bs2 :
  appends m1 bs1 -> appends m2 bs2 -> appends (bind m1 (fun _ => m2)) (bs1 ++ bs2).
Proof.
  intros H1 H2 buf. unfold bind. rewrite H1, H2, app_assoc. reflexivity.
Qed.

Lemma appends_push v : appends (BinaryEncoder.push v) [v].
Proof. intros buf. reflexivity. Qed.

Lemma appends_assert lo hi v m bs :
  lo <= v < hi -> appends m bs ->
  appends (bind (assert ((v >=? lo) && (v <? hi))) (fun _ => m)) bs.
Proof. intros Hv Hm buf. rewrite assert_range by exact Hv. apply Hm. Qed.

Lemma appends_writeUint32 v : u32 v -> appends (BinaryEncoder.writeUint32 v) (le32 v).
Proof.
  intros Hv. unfold BinaryEncoder.writeUint32. apply appends_assert; [exact Hv|].
  repeat apply (appends_bind _ _ [_]); apply appends_push.
Qed.

Lemma appends_writeInt32 v :
  - JS.TWO_TO_31 <= v < JS.TWO_TO_31 -> appends (BinaryEncoder.writeInt32 v) (le32 v).
Proof.
  intros Hv. unfold BinaryEncoder.writeInt32. apply appends_assert; [exact Hv|].
  repeat apply (appends_bind _ _ [_]); apply appends_push.
Qed.

Lemma readUint32_at b0 b1 b2 b3 :
  readsChecked BinaryDecoder.readUint32 [b0; b1; b2; b3]
    (((b0 .<< 0) .| (b1 .<< 8) .| (b2 .<< 16) .| (b3 .<< 24)) .>>> 0).
Proof.
  intros d H. destruct (bytesAtCursor_index d _ H) as (b & Hb & Hi).
  unfold BinaryDecoder.readUint32. unfold bind at 1, get at 1. rewrite Hb.
  rewrite (Hi 0%nat 0 b0 eq_refl eq_refl), (Hi 1%nat 1 b1 eq_refl eq_refl),
    (Hi 2%nat 2 b2 eq_refl eq_refl), (Hi 3%nat 3 b3 eq_refl eq_refl).
  run_decoder. cbn [BinaryDecoder.num].
  change (Z.of_nat (List.length [b0; b1; b2; b3])) with 4.
  destruct (BinaryDecoder.cursor d + 4 <=? BinaryDecoder.end_ d); reflexivity.
Qed.

Lemma readInt32_at b0 b1 b2 b3 :
  readsChecked BinaryDecoder.readInt32 [b0; b1; b2; b3]
    ((b0 .<< 0) .| (b1 .<< 8) .| (b2 .<< 16) .| (b3 .<< 24)).
Proof.
  intros d H. destruct (bytesAtCursor_index d _ H) as (b & Hb & Hi).
  unfold BinaryDecoder.readInt32. unfold bind at 1, get at 1. rewrite Hb.
  rewrite (Hi 0%nat 0 b0 eq_refl eq_refl), (Hi 1%nat 1 b1 eq_refl eq_refl),
    (Hi 2%nat 2 b2 eq_refl eq_refl), (Hi 3%nat 3 b3 eq_refl eq_refl).
  run_decoder. cbn [BinaryDecoder.num].
  change (Z.of_nat (List.length [b0; b1; b2; b3])) with 4.
  destruct (BinaryDecoder.cursor d + 4 <=? BinaryDecoder.end_ d); reflexivity.
Qed.

Lemma le32_word v :
  ((((v .>>> 0) .& 0xff) .<< 0) .| (((v .>>> 8) .& 0xff) .<< 8)
     .| (((v .>>> 16) .& 0xff) .<< 16) .| (((v .>>> 24) .& 0xff) .<< 24))
  = JS.toInt32 v.
Proof.
  change 0xff with (Z.ones 8).
  apply Z.bits_inj'. intros i Hi. jsbits.
Qed.

Lemma readUint32_le32 v : u32 v -> readsChecked BinaryDecoder.readUint32 (le32 v) v.
Proof.
  intros Hv d H. rewrite (readUint32_at _ _ _ _ d H).
  rewrite le32_word, (shr0 (JS.toInt32 v)), toUint32_toInt32, toUint32_id by exact Hv.
  reflexivity.
Qed.

Lemma readInt32_le32 v :
  - JS.TWO_TO_31 <= v < JS.TWO_TO_31 -> readsChecked BinaryDecoder.readInt32 (le32 v) v.
Proof.
  intros Hv d H. rewrite (readInt32_at _ _ _ _ d H).
  rewrite le32_word, toInt32_signed by exact Hv. reflexivity.
Qed.

Lemma readsChecked_within {A} (m : BinaryDecoder.M A) bs v :
  readsChecked m bs v -> readsWithin m bs v.
Proof.
  intros H d Hd He. rewrite (H d Hd).
  destruct (Z.leb_spec (BinaryDecoder.cursor d + Z.of_nat (List.length bs))
              (BinaryDecoder.end_ d)); [reflexivity | lia].
Qed.

Lemma readsUnchecked_within {A} (m : BinaryDecoder.M A) bs v :
  readsUnchecked m bs v -> readsWithin m bs v.
Proof. intros H d Hd _. apply H. exact Hd. Qed.

Lemma readsWithin_bind {A B} (m : BinaryDecoder.M A) (k : A -> BinaryDecoder.M B)
    bs1 bs2 v1 v2 :
  readsWithin m bs1 v1 -> readsWithin (k v1) bs2 v2 ->
  readsWithin (bind m k) (bs1 ++ bs2) v2.
Proof.
  intros H1 H2 d Hd He. rewrite length_app in *.
  destruct (bytesAtCursor_app d bs1 bs2 Hd) as [Hd1 Hd2].
  unfold bind. rewrite (H1 d Hd1) by lia.
  rewrite (H2 _ Hd2)
    by (cbn [BinaryDecoder.cursor BinaryDecoder.end_ BinaryDecoder.set_cursor]; lia).
  rewrite set_cursor_set_cursor.
  cbn [BinaryDecoder.cursor BinaryDecoder.set_cursor]. do 2 f_equal. lia.
Qed.

Lemma readsUnchecked_bind {A B} (m : BinaryDecoder.M A) (k : A -> BinaryDecoder.M B)
    bs1 bs2 v1 v2 :
  readsUnchecked m bs1 v1 -> readsUnchecked (k v1) bs2 v2 ->
  readsUnchecked (bind m k) (bs1 ++ bs2) v2.
Proof.
  intros H1 H2 d Hd. rewrite length_app in *.
  destruct (bytesAtCursor_app d bs1 bs2 Hd) as [Hd1 Hd2].
  unfold bind. rewrite (H1 d Hd1). rewrite (H2 _ Hd2).
  rewrite set_cursor_set_cursor.
  cbn [BinaryDecoder.cursor BinaryDecoder.set_cursor]. do 2 f_equal. lia.
Qed.

Lemma readsWithin_ret {A} (v : A) : readsWithin (ret v) [] v.
Proof.
  intros d _ _. unfold ret. f_equal. destruct d. unfold BinaryDecoder.set_cursor.
  cbn [BinaryDecoder.bytes BinaryDecoder.start BinaryDecoder.end_
         BinaryDecoder.cursor BinaryDecoder.error List.length Z.of_nat].
  rewrite Z.add_0_r. reflexivity.
Qed.

Lemma readsWithin_map {A B} (m : BinaryDecoder.M A) (f : A -> B) bs v :
  readsWithin m bs v -> readsWithin (bind m (fun a => ret (f a))) bs (f v).
Proof.
  intros H. rewrite <- (app_nil_r bs).
  apply (readsWithin_bind m (fun a => ret (f a)) bs [] v (f v) H).
  apply readsWithin_ret.
Qed.

(** Two words written low word first, read back one after the other. *)
Lemma readsWithin_two_words (lo hi : Z) {T} (f : Z -> Z -> T) :
  u32 lo -> u32 hi ->
  readsWithin
    (bind BinaryDecoder.readUint32 (fun bitsLow =>
     bind BinaryDecoder.readUint32 (fun bitsHigh => ret (f bitsLow bitsHigh))))
    (le32 lo ++ le32 hi) (f lo hi).
Proof.
  intros Hlo Hhi.
  apply (readsWithin_bind _ _ (le32 lo) (le32 hi) lo).
  - apply readsChecked_within, readUint32_le32, Hlo.
  - apply (readsWithin_map BinaryDecoder.readUint32 (f lo)).
    apply readsChecked_within, readUint32_le32, Hhi.
Qed.

Lemma appends_writeSplitFixed64 lo hi :
  u32 lo -> u32 hi ->
  appends (BinaryEncoder.writeSplitFixed64 lo hi) (le32 lo ++ le32 hi).
Proof.
  intros Hlo Hhi. unfold BinaryEncoder.writeSplitFixed64.
  apply appends_assert; [exact Hlo|]. apply appends_assert; [exact Hhi|].
  apply appends_bind; apply appends_writeUint32; assumption.
Qed.

Lemma split_join64 v :
  0 <= v < 2 ^ 64 ->
  u32 (v mod 2 ^ 32) /\ u32 ((v / 2 ^ 32) mod 2 ^ 32)
  /\ join64 (v mod 2 ^ 32) ((v / 2 ^ 32) mod 2 ^ 32) = v.
Proof.
  intros Hv. unfold u32, join64, JS.TWO_TO_32.
  change (2 ^ 32) with 4294967296. change (2 ^ 64) with 18446744073709551616 in Hv.
  repeat split; Z.div_mod_to_equations; lia.
Qed.

Lemma split_int64 v :
  - 2 ^ 63 <= v < 2 ^ 63 ->
  u32 (v mod 2 ^ 32) /\ u32 ((v / 2 ^ 32) mod 2 ^ 32)
  /\ int64_of_split (v mod 2 ^ 32) ((v / 2 ^ 32) mod 2 ^ 32) = v.
Proof.
  intros Hv. pose proof (split_of_int64_u32 v) as [H1 H2].
  pose proof (int64_of_split_of_int64 v Hv) as H3.
  unfold split_of_int64 in *. cbn [fst snd] in *. auto.
Qed.

Lemma uint64_fixed_string v :
  0 <= v < 2 ^ 64 ->
  exists bs,
    appends (BinaryEncoder.writeUint64 v) bs
    /\ List.length bs = 8%nat
    /\ readsWithin BinaryDecoder.readUint64String bs (Number_toString v).
Proof.
  intros Hv. destruct (split_join64 v Hv) as (Hlo & Hhi & Hj).
  exists (le32 (v mod 2 ^ 32) ++ le32 ((v / 2 ^ 32) mod 2 ^ 32)).
  split; [|split; [reflexivity|]].
  - unfold BinaryEncoder.writeUint64. apply appends_assert; [exact Hv|].
    rewrite splitUint64_spec. cbn [split64Low split64High].
    apply appends_bind; apply appends_writeUint32; assumption.
  - unfold BinaryDecoder.readUint64String.
    replace (Number_toString v)
      with (joinUnsignedDecimalString (v mod 2 ^ 32) ((v / 2 ^ 32) mod 2 ^ 32))
      by (rewrite joinUnsignedDecimalString_spec by assumption; f_equal; exact Hj).
    apply (readsWithin_two_words _ _ joinUnsignedDecimalString); assumption.
Qed.

Lemma int64_fixed_string v :
  - 2 ^ 63 <= v < 2 ^ 63 ->
  exists bs,
    appends (BinaryEncoder.writeInt64 v) bs
    /\ List.length bs = 8%nat
    /\ readsWithin BinaryDecoder.readInt64String bs (Number_toString v).
Proof.
  intros Hv. destruct (split_int64 v Hv) as (Hlo & Hhi & Hj).
  exists (le32 (v mod 2 ^ 32) ++ le32 ((v / 2 ^ 32) mod 2 ^ 32)).
  split; [|split; [reflexivity|]].
  - unfold BinaryEncoder.writeInt64. apply appends_assert; [exact Hv|].
    rewrite splitInt64_spec. cbn [split64Low split64High].
    apply appends_writeSplitFixed64; assumption.
  - unfold BinaryDecoder.readInt64String.
    replace (Number_toString v)
      with (joinSignedDecimalString (v mod 2 ^ 32) ((v / 2 ^ 32) mod 2 ^ 32))
      by (rewrite joinSignedDecimalString_spec by assumption; f_equal; exact Hj).
    apply (readsWithin_two_words _ _ joinSignedDecimalString); assumption.
Qed.

Lemma readUint8_at b0 : readsChecked BinaryDecoder.readUint8 [b0] (Some b0).
Proof.
  intros d H. destruct (bytesAtCursor_index d _ H) as (b & Hb & Hi).
  unfold BinaryDecoder.readUint8. unfold bind at 1, get at 1. rewrite Hb.
  rewrite (Hi 0%nat 0 b0 eq_refl eq_refl).
  run_decoder. change (Z.of_nat (List.length [b0])) with 1.
  destruct (BinaryDecoder.cursor d + 1 <=? BinaryDecoder.end_ d); reflexivity.
Qed.

Lemma readInt8_at b0 :
  readsChecked BinaryDecoder.readInt8 [b0] ((b0 .<< 24) .>> 24).
Proof.
  intros d H. destruct (bytesAtCursor_index d _ H) as (b & Hb & Hi).
  unfold BinaryDecoder.readInt8. unfold bind at 1, get at 1. rewrite Hb.
  rewrite (Hi 0%nat 0 b0 eq_refl eq_refl).
  run_decoder. cbn [BinaryDecoder.num]. change (Z.of_nat (List.length [b0])) with 1.
  destruct (BinaryDecoder.cursor d + 1 <=? BinaryDecoder.end_ d); reflexivity.
Qed.

Lemma readUint16_at b0 b1 :
  readsChecked BinaryDecoder.readUint16 [b0; b1] ((b0 .<< 0) .| (b1 .<< 8)).
Proof.
  intros d H. destruct (bytesAtCursor_index d _ H) as (b & Hb & Hi).
  unfold BinaryDecoder.readUint16. unfold bind at 1, get at 1. rewrite Hb.
  rewrite (Hi 0%nat 0 b0 eq_refl eq_refl), (Hi 1%nat 1 b1 eq_refl eq_refl).
  run_decoder. cbn [BinaryDecoder.num]. change (Z.of_nat (List.length [b0; b1])) with 2.
  destruct (BinaryDecoder.cursor d + 2 <=? BinaryDecoder.end_ d); reflexivity.
Qed.

Lemma readInt16_at b0 b1 :
  readsChecked BinaryDecoder.readInt16 [b0; b1]
    ((((b0 .<< 0) .| (b1 .<< 8)) .<< 16) .>> 16).
Proof.
  intros d H. destruct (bytesAtCursor_index d _ H) as (b & Hb & Hi).
  unfold BinaryDecoder.readInt16. unfold bind at 1, get at 1. rewrite Hb.
  rewrite (Hi 0%nat 0 b0 eq_refl eq_refl), (Hi 1%nat 1 b1 eq_refl eq_refl).
  run_decoder. cbn [BinaryDecoder.num]. change (Z.of_nat (List.length [b0; b1])) with 2.
  destruct (BinaryDecoder.cursor d + 2 <=? BinaryDecoder.end_ d); reflexivity.
Qed.

Lemma fixed_unsigned :
  (forall v, 0 <= v < 256 ->
     appends (BinaryEncoder.writeUint8 v) (le8 v)
     /\ readsWithin BinaryDecoder.readUint8 (le8 v) (Some v))
  /\ (forall v, 0 <= v < 65536 ->
     appends (BinaryEncoder.writeUint16 v) (le16 v)
     /\ readsWithin BinaryDecoder.readUint16 (le16 v) v)
  /\ (forall v, u32 v ->
     appends (BinaryEncoder.writeUint32 v) (le32 v)
     /\ readsWithin BinaryDecoder.readUint32 (le32 v) v).
Proof.
  split; [|split]; intros v Hv; split.
  - unfold BinaryEncoder.writeUint8. apply appends_assert; [exact Hv|].
    apply appends_push.
  - apply readsChecked_within. intros d H. rewrite (readUint8_at _ d H).
    rewrite uint8_roundtrip by exact Hv. reflexivity.
  - unfold BinaryEncoder.writeUint16. apply appends_assert; [exact Hv|].
    apply (appends_bind _ _ [_]); apply appends_push.
  - apply readsChecked_within. intros d H. rewrite (readUint16_at _ _ d H).
    rewrite uint16_roundtrip by exact Hv. reflexivity.
  - apply appends_writeUint32, Hv.
  - apply readsChecked_within, readUint32_le32, Hv.
Qed.

Lemma fixed_signed :
  (forall v, -128 <= v < 128 ->
     appends (BinaryEncoder.writeInt8 v) (le8 v)
     /\ readsWithin BinaryDecoder.readInt8 (le8 v) v)
  /\ (forall v, -32768 <= v < 32768 ->
     appends (BinaryEncoder.writeInt16 v) (le16 v)
     /\ readsWithin BinaryDecoder.readInt16 (le16 v) v)
  /\ (forall v, - JS.TWO_TO_31 <= v < JS.TWO_TO_31 ->
     appends (BinaryEncoder.writeInt32 v) (le32 v)
     /\ readsWithin BinaryDecoder.readInt32 (le32 v) v).
Proof.
  split; [|split]; intros v Hv; split.
  - unfold BinaryEncoder.writeInt8. apply appends_assert; [exact Hv|].
    apply appends_push.
  - apply readsChecked_within. intros d H. rewrite (readInt8_at _ d H).
    rewrite int8_roundtrip by exact Hv. reflexivity.
  - unfold BinaryEncoder.writeInt16. apply appends_assert; [exact Hv|].
    apply (appends_bind _ _ [_]); apply appends_push.
  - apply readsChecked_within. intros d H. rewrite (readInt16_at _ _ d H).
    rewrite int16_roundtrip by exact Hv. reflexivity.
  - apply appends_writeInt32, Hv.
  - apply readsChecked_within, readInt32_le32, Hv.
Qed.

(** ** [readSplitFixed64] and [readFixedHash64] *)

Lemma readSplitFixed64_loop_8 b c :
  BinaryDecoder.readSplitFixed64_loop b c 8 0 0
  = let x k := BinaryDecoder.num (BinaryDecoder.index b (c + k)) in
    ((((((((0 .<< 8 .| x 7) .<< 8 .| x 6) .<< 8 .| x 5) .<< 8 .| x 4)
          .<< 8 .| x 3) .<< 8 .| x 2) .<< 8 .| x 1) .<< 8 .| x 0,
     (((((((0 .<< 8 .| x 11) .<< 8 .| x 10) .<< 8 .| x 9) .<< 8 .| x 8)
          .<< 8 .| x 7) .<< 8 .| x 6) .<< 8 .| x 5) .<< 8 .| x 4).
Proof.
  cbn [BinaryDecoder.readSplitFixed64_loop].
  change (Z.of_nat 7) with 7. change (Z.of_nat 6) with 6. change (Z.of_nat 5) with 5.
  change (Z.of_nat 4) with 4. change (Z.of_nat 3) with 3. change (Z.of_nat 2) with 2.
  change (Z.of_nat 1) with 1. change (Z.of_nat 0) with 0.
  cbv zeta.
  replace (c + 7 + 4) with (c + 11) by lia. replace (c + 6 + 4) with (c + 10) by lia.
  replace (c + 5 + 4) with (c + 9) by lia. replace (c + 4 + 4) with (c + 8) by lia.
  replace (c + 3 + 4) with (c + 7) by lia. replace (c + 2 + 4) with (c + 6) by lia.
  replace (c + 1 + 4) with (c + 5) by lia. replace (c + 0 + 4) with (c + 4) by lia.
  reflexivity.
Qed.

Lemma fixed64_low_word v x4 x5 x6 x7 :
  ((((((((0 .<< 8 .| x7) .<< 8 .| x6) .<< 8 .| x5) .<< 8 .| x4)
        .<< 8 .| ((v .>>> 24) .& 0xff)) .<< 8 .| ((v .>>> 16) .& 0xff))
        .<< 8 .| ((v .>>> 8) .& 0xff)) .<< 8 .| ((v .>>> 0) .& 0xff))
  = JS.toInt32 v.
Proof.
  change 0xff with (Z.ones 8).
  apply Z.bits_inj'. intros i Hi. jsbits.
Qed.

Lemma readSplitFixed64_le32 {T} (convert : Z -> Z -> T) lo hi :
  readsUnchecked (BinaryDecoder.readSplitFixed64 convert) (le32 lo ++ le32 hi)
    (convert (JS.toInt32 lo) (JS.toInt32 hi)).
Proof.
  intros d H. destruct (bytesAtCursor_index d _ H) as (b & Hb & Hi).
  unfold BinaryDecoder.readSplitFixed64. unfold bind at 1, get at 1. rewrite Hb.
  rewrite readSplitFixed64_loop_8. cbv zeta beta.
  rewrite (Hi 0%nat 0 _ eq_refl eq_refl), (Hi 1%nat 1 _ eq_refl eq_refl),
    (Hi 2%nat 2 _ eq_refl eq_refl), (Hi 3%nat 3 _ eq_refl eq_refl),
    (Hi 4%nat 4 _ eq_refl eq_refl), (Hi 5%nat 5 _ eq_refl eq_refl),
    (Hi 6%nat 6 _ eq_refl eq_refl), (Hi 7%nat 7 _ eq_refl eq_refl).
  cbn [BinaryDecoder.num].
  rewrite !fixed64_low_word.
  run_decoder. reflexivity.
Qed.

Lemma readFixedHash64_at a b c d e f g h :
  readsUnchecked BinaryDecoder.readFixedHash64 [a; b; c; d; e; f; g; h]
    (fromCharCode [a; b; c; d; e; f; g; h]).
Proof.
  intros d0 H. destruct (bytesAtCursor_index d0 _ H) as (b0 & Hb & Hi).
  unfold BinaryDecoder.readFixedHash64. unfold bind at 1, get at 1. rewrite Hb.
  cbv zeta.
  rewrite (Hi 0%nat 0 _ eq_refl eq_refl), (Hi 1%nat 1 _ eq_refl eq_refl),
    (Hi 2%nat 2 _ eq_refl eq_refl), (Hi 3%nat 3 _ eq_refl eq_refl),
    (Hi 4%nat 4 _ eq_refl eq_refl), (Hi 5%nat 5 _ eq_refl eq_refl),
    (Hi 6%nat 6 _ eq_refl eq_refl), (Hi 7%nat 7 _ eq_refl eq_refl).
  run_decoder. reflexivity.
Qed.

(** The eight bytes of a split pair are the code units of its hash. *)
Lemma le32_joinHash64 lo hi : joinHash64 lo hi = le32 lo ++ le32 hi.
Proof.
  unfold joinHash64, le32. cbv zeta. rewrite !byte_of_word by lia.
  apply fromCharCode_bytes. repeat constructor; apply Z.mod_pos_bound; reflexivity.
Qed.

(** ** [readSplitVarint64] on well-formed varints *)

Lemma varint64_low_word b0 b1 b2 b3 b4 r :
  (0 .| ((b0 .& 0x7f) .<< (0 * 7)) .| ((b1 .& 0x7f) .<< ((0 + 1) * 7))
     .| ((b2 .& 0x7f) .<< ((0 + 1 + 1) * 7))
     .| ((b3 .& 0x7f) .<< ((0 + 1 + 1 + 1) * 7))
     .| ((b4 .& 0x7f) .<< 28)) .>>> 0
  = varintValue (b0 :: b1 :: b2 :: b3 :: b4 :: r) mod 2 ^ 32.
Proof.
  cbn [varintValue]. change 0x7f with (Z.ones 7).
  apply Z.bits_inj'. intros i Hi. jsbits.
Qed.

Lemma varint64_high_word b0 b1 b2 b3 b4 b5 b6 b7 b8 b9 r :
  (0 .| ((b4 .& 0x7f) .>> 4) .| ((b5 .& 0x7f) .<< (0 * 7 + 3))
     .| ((b6 .& 0x7f) .<< ((0 + 1) * 7 + 3))
     .| ((b7 .& 0x7f) .<< ((0 + 1 + 1) * 7 + 3))
     .| ((b8 .& 0x7f) .<< ((0 + 1 + 1 + 1) * 7 + 3))
     .| ((b9 .& 0x7f) .<< ((0 + 1 + 1 + 1 + 1) * 7 + 3))) .>>> 0
  = (varintValue (b0 :: b1 :: b2 :: b3 :: b4 :: b5 :: b6 :: b7 :: b8 :: b9 :: r)
       / 2 ^ 32) mod 2 ^ 32.
Proof.
  cbn [varintValue]. change 0x7f with (Z.ones 7).
  apply Z.bits_inj'. intros i Hi. jsbits.
Qed.

Lemma wf_cons_cont b b' rest :
  wellFormedVarint (b :: b' :: rest) = true ->
  128 <= b < 256 /\ wellFormedVarint (b' :: rest) = true.
Proof.
  cbn [wellFormedVarint]. intros H.
  apply andb_prop in H. destruct H as [H Hr].
  apply andb_prop in H. destruct H as [Hb Hc].
  unfold isByte in Hb. apply andb_prop in Hb. destruct Hb as [H0 H1].
  apply Z.leb_le in H0. apply Z.ltb_lt in H1.
  unfold continuationBit in Hc. rewrite byte_bit7 in Hc by lia.
  apply Z.leb_le in Hc. split; [lia | exact Hr].
Qed.

Lemma wf_last b : wellFormedVarint [b] = true -> 0 <= b < 128.
Proof.
  cbn [wellFormedVarint]. intros H.
  apply andb_prop in H. destruct H as [Hb Hc].
  unfold isByte in Hb. apply andb_prop in Hb. destruct Hb as [H0 H1].
  apply Z.leb_le in H0. apply Z.ltb_lt in H1.
  unfold continuationBit in Hc. rewrite byte_bit7 in Hc by lia.
  apply negb_true_iff, Z.leb_gt in Hc. lia.
Qed.

(** Every byte of a well-formed varint, with what the decoder tests of it. *)
Ltac varint_bytes H :=
  repeat match type of H with
    | wellFormedVarint (_ :: _ :: _) = true =>
        let Hb := fresh "Hb" in
        apply wf_cons_cont in H; destruct H as [Hb H]
    | wellFormedVarint [_] = true => apply wf_last in H
    end.

Ltac decide_tests :=
  repeat match goal with
    | |- context [?x >=? 128] =>
        destruct (Z.geb_spec x 128); try (exfalso; lia)
    | |- context [?x <? 128] =>
        destruct (Z.ltb_spec x 128); try (exfalso; lia)
    end.

Lemma readSplitVarint64_low_step b n i temp low d :
  BinaryDecoder.readSplitVarint64_low b (S n) i temp low d
  = if BinaryDecoder.ge128 temp
    then BinaryDecoder.readSplitVarint64_low b n (i + 1)
           (BinaryDecoder.index b (BinaryDecoder.cursor d))
           (low .| ((BinaryDecoder.num (BinaryDecoder.index b (BinaryDecoder.cursor d))
                       .& 0x7f) .<< (i * 7)))
           (BinaryDecoder.set_cursor (BinaryDecoder.cursor d + 1) d)
    else (Return (temp, low), d).
Proof. destruct (BinaryDecoder.ge128 temp) eqn:E; cbn [BinaryDecoder.readSplitVarint64_low]; rewrite E; reflexivity. Qed.

Lemma readSplitVarint64_low_0 b i temp low d :
  BinaryDecoder.readSplitVarint64_low b 0 i temp low d = (Return (temp, low), d).
Proof. reflexivity. Qed.

Lemma readSplitVarint64_high_step b n i temp high d :
  BinaryDecoder.readSplitVarint64_high b (S n) i temp high d
  = if BinaryDecoder.ge128 temp
    then BinaryDecoder.readSplitVarint64_high b n (i + 1)
           (BinaryDecoder.index b (BinaryDecoder.cursor d))
           (high .| ((BinaryDecoder.num (BinaryDecoder.index b (BinaryDecoder.cursor d))
                        .& 0x7f) .<< (i * 7 + 3)))
           (BinaryDecoder.set_cursor (BinaryDecoder.cursor d + 1) d)
    else (Return (temp, high), d).
Proof. destruct (BinaryDecoder.ge128 temp) eqn:E; cbn [BinaryDecoder.readSplitVarint64_high]; rewrite E; reflexivity. Qed.

Lemma readSplitVarint64_high_0 b i temp high d :
  BinaryDecoder.readSplitVarint64_high b 0 i temp high d = (Return (temp, high), d).
Proof. reflexivity. Qed.

Ltac varint_step :=
  first [ rewrite readSplitVarint64_low_step
        | rewrite readSplitVarint64_low_0
        | rewrite readSplitVarint64_high_step
        | rewrite readSplitVarint64_high_0
        | rewrite set_cursor_set_cursor
        | progress (cbn [BinaryDecoder.ge128 BinaryDecoder.lt128 BinaryDecoder.num
                           BinaryDecoder.cursor BinaryDecoder.set_cursor])
        | progress decide_tests
        | progress run_decoder ].

Lemma varintValue_zeros bs k : varintValue (bs ++ repeat 0 k) = varintValue bs.
Proof.
  induction bs as [|b bs IH]; cbn [app varintValue].
  - induction k as [|k IHk]; [reflexivity|]. cbn [repeat varintValue].
    rewrite IHk. reflexivity.
  - rewrite IH. reflexivity.
Qed.

(** A missing byte contributes nothing to the accumulated word. *)
Lemma or_pad_shl a b m k : (a .| b) .| ((0 .& m) .<< k) = a .| b.
Proof.
  replace ((0 .& m) .<< k) with 0.
  - apply Z.bits_inj'. intros i Hi. jsbits.
  - unfold JS.and, JS.shl. change (JS.toInt32 0) with 0.
    rewrite Z.land_0_l. change (JS.toInt32 0) with 0. rewrite Z.shiftl_0_l.
    reflexivity.
Qed.

Lemma or_pad_sar a b m k : (a .| b) .| ((0 .& m) .>> k) = a .| b.
Proof.
  replace ((0 .& m) .>> k) with 0.
  - apply Z.bits_inj'. intros i Hi. jsbits.
  - unfold JS.and, JS.sar. change (JS.toInt32 0) with 0.
    rewrite Z.land_0_l. change (JS.toInt32 0) with 0. rewrite Z.shiftr_0_l.
    reflexivity.
Qed.

Ltac split_list bs n :=
  lazymatch n with
  | O => idtac
  | S ?n' => destruct bs as [|? bs]; [ | split_list bs n' ]
  end.

Ltac cursor_facts Hi :=
  try (pose proof (Hi 0%nat 0 _ eq_refl eq_refl) as F0; rewrite Z.add_0_r in F0);
  try (pose proof (Hi 1%nat 1 _ eq_refl eq_refl) as F1);
  try (pose proof (Hi 2%nat (1 + 1) _ eq_refl eq_refl) as F2);
  try (pose proof (Hi 3%nat (1 + 1 + 1) _ eq_refl eq_refl) as F3);
  try (pose proof (Hi 4%nat (1 + 1 + 1 + 1) _ eq_refl eq_refl) as F4);
  try (pose proof (Hi 5%nat (1 + 1 + 1 + 1 + 1) _ eq_refl eq_refl) as F5);
  try (pose proof (Hi 6%nat (1 + 1 + 1 + 1 + 1 + 1) _ eq_refl eq_refl) as F6);
  try (pose proof (Hi 7%nat (1 + 1 + 1 + 1 + 1 + 1 + 1) _ eq_refl eq_refl) as F7);
  try (pose proof (Hi 8%nat (1 + 1 + 1 + 1 + 1 + 1 + 1 + 1) _ eq_refl eq_refl) as F8);
  try (pose proof (Hi 9%nat (1 + 1 + 1 + 1 + 1 + 1 + 1 + 1 + 1) _ eq_refl eq_refl) as F9);
  rewrite ?Z.add_assoc in *.

Ltac use_cursor_facts :=
  match goal with
  | F : BinaryDecoder.index _ _ = Some _ |- _ => rewrite F
  end.

(** [readSplitVarint64] on a well-formed varint of at most ten bytes: the
    two words of its value modulo 2^64. *)
Lemma readSplitVarint64_decodes {T} (convert : Z -> Z -> T) bs :
  wellFormedVarint bs = true -> (List.length bs <= 10)%nat ->
  readsUnchecked (BinaryDecoder.readSplitVarint64 convert) bs
    (convert (varintValue bs mod 2 ^ 32) ((varintValue bs / 2 ^ 32) mod 2 ^ 32)).
Proof.
  intros Hwf Hlen d H.
  destruct (bytesAtCursor_index d _ H) as (b & Hb' & Hi). clear H.
  unfold BinaryDecoder.readSplitVarint64. unfold bind at 1, get at 1. rewrite Hb'.
  change (BinaryDecoder.ge128 (Some 128)) with true.
  split_list bs 11%nat;
    try discriminate Hwf; try (cbn [List.length] in Hlen; lia);
    varint_bytes Hwf; cursor_facts Hi; clear Hi;
    repeat first [ use_cursor_facts | varint_step ];
    match goal with
    | |- (Return (convert _ _), _) = (Return (convert _ (_ (varintValue ?l / _) _)), _) =>
        rewrite <- (varintValue_zeros l (10 - List.length l));
        cbn [List.length Nat.sub repeat app];
        rewrite <- varint64_low_word, <- varint64_high_word;
        rewrite ?or_pad_shl, ?or_pad_sar
    end.
  all: apply f_equal2;
    [ apply f_equal; apply f_equal2;
      [ reflexivity | first [ reflexivity | vm_compute; reflexivity ] ]
    | apply f_equal2; [ cbn [List.length]; lia | reflexivity ] ].
Qed.

(** ** Varints written and read back; [readUnsignedVarint32] *)

(** What the loop appends does not depend on what the buffer holds. *)
Lemma writeSplitVarint64_loop_frame fuel : forall lo hi buf,
  BinaryEncoder.writeSplitVarint64_loop fuel lo hi (BinaryEncoder.mk buf)
  = (fst (BinaryEncoder.writeSplitVarint64_loop fuel lo hi (BinaryEncoder.mk [])),
     BinaryEncoder.mk
       (buf ++ BinaryEncoder.buffer
                 (snd (BinaryEncoder.writeSplitVarint64_loop fuel lo hi
                         (BinaryEncoder.mk []))))).
Proof.
  induction fuel as [|fuel IH]; intros lo hi buf.
  - cbn [BinaryEncoder.writeSplitVarint64_loop fst snd BinaryEncoder.buffer].
    rewrite app_nil_r. reflexivity.
  - rewrite !writeSplitVarint64_loop_S.
    destruct ((hi >? 0) || (lo >? 127)).
    + rewrite !push_bind. rewrite (IH _ _ (buf ++ _)), (IH _ _ ([] ++ _)).
      cbn [fst snd BinaryEncoder.buffer app]. rewrite <- app_assoc. reflexivity.
    + cbn. reflexivity.
Qed.

Lemma writeSplitVarint64_appends lo hi :
  u32 lo -> u32 hi ->
  exists bs,
    appends (BinaryEncoder.writeSplitVarint64 lo hi) bs
    /\ wellFormedVarint bs = true
    /\ varintValue bs = join64 lo hi
    /\ (List.length bs <= 10)%nat.
Proof.
  intros Hlo Hhi.
  assert (Hv : join64 lo hi < 2 ^ (7 * Z.of_nat 10)).
  { unfold u32, join64, JS.TWO_TO_32 in *.
    change (2 ^ (7 * Z.of_nat 10)) with 1180591620717411303424. lia. }
  destruct (writeSplitVarint64_loop_spec 9 lo hi [] Hlo Hhi Hv)
    as (bs & Hrun & Hwf & Hval & Hlen & _).
  exists bs. split; [|auto].
  intros buf. unfold BinaryEncoder.writeSplitVarint64.
  rewrite assert_range by exact Hlo. rewrite assert_range by exact Hhi.
  rewrite writeSplitVarint64_loop_frame, Hrun. reflexivity.
Qed.

Lemma join64_words lo hi :
  u32 lo -> u32 hi ->
  join64 lo hi mod 2 ^ 32 = lo /\ (join64 lo hi / 2 ^ 32) mod 2 ^ 32 = hi.
Proof.
  unfold u32, join64, JS.TWO_TO_32. change (2 ^ 32) with 4294967296.
  intros Hlo Hhi. split; Z.div_mod_to_equations; lia.
Qed.

Lemma varint64_roundtrip {T} (convert : Z -> Z -> T) lo hi :
  u32 lo -> u32 hi ->
  exists bs,
    appends (BinaryEncoder.writeSplitVarint64 lo hi) bs
    /\ (1 <= List.length bs <= 10)%nat
    /\ readsUnchecked (BinaryDecoder.readSplitVarint64 convert) bs (convert lo hi).
Proof.
  intros Hlo Hhi.
  destruct (writeSplitVarint64_appends lo hi Hlo Hhi) as (bs & Happ & Hwf & Hval & Hlen).
  exists bs. split; [exact Happ|].
  split; [pose proof (wellFormedVarint_nonempty bs Hwf); lia|].
  destruct (join64_words lo hi Hlo Hhi) as [H1 H2].
  replace (convert lo hi)
    with (convert (varintValue bs mod 2 ^ 32) ((varintValue bs / 2 ^ 32) mod 2 ^ 32))
    by (rewrite Hval, H1, H2; reflexivity).
  apply readSplitVarint64_decodes; assumption.
Qed.

Lemma allContinue_step b n d :
  BinaryDecoder.allContinue b (S n) d
  = if BinaryDecoder.ge128 (BinaryDecoder.index b (BinaryDecoder.cursor d))
    then BinaryDecoder.allContinue b n
           (BinaryDecoder.set_cursor (BinaryDecoder.cursor d + 1) d)
    else (Return false, BinaryDecoder.set_cursor (BinaryDecoder.cursor d + 1) d).
Proof.
  cbn [BinaryDecoder.allContinue]. run_decoder.
  destruct (BinaryDecoder.ge128 (BinaryDecoder.index b (BinaryDecoder.cursor d)));
    reflexivity.
Qed.

Lemma allContinue_0 b d : BinaryDecoder.allContinue b 0 d = (Return true, d).
Proof. reflexivity. Qed.

Lemma varint32_tail t0 t1 t2 t3 t4 r :
  varint32Low t0 t1 t2 t3 t4
  = JS.toInt32 (varintValue (t0 :: t1 :: t2 :: t3 :: t4 :: r)).
Proof.
  unfold varint32Low. cbn [varintValue].
  apply Z.bits_inj'. intros i Hi. jsbits.
Qed.

Ltac cursor_facts32 Hi :=
  try (pose proof (Hi 0%nat 0 _ eq_refl eq_refl) as F0);
  try (pose proof (Hi 1%nat 1 _ eq_refl eq_refl) as F1);
  try (pose proof (Hi 2%nat 2 _ eq_refl eq_refl) as F2);
  try (pose proof (Hi 3%nat 3 _ eq_refl eq_refl) as F3);
  try (pose proof (Hi 4%nat 4 _ eq_refl eq_refl) as F4);
  try (pose proof (Hi 5%nat 5 _ eq_refl eq_refl) as F5);
  try (pose proof (Hi 6%nat (5 + 1) _ eq_refl eq_refl) as F6);
  try (pose proof (Hi 7%nat (5 + 1 + 1) _ eq_refl eq_refl) as F7);
  try (pose proof (Hi 8%nat (5 + 1 + 1 + 1) _ eq_refl eq_refl) as F8);
  try (pose proof (Hi 9%nat (5 + 1 + 1 + 1 + 1) _ eq_refl eq_refl) as F9);
  rewrite ?Z.add_assoc in *.

Ltac varint32_step :=
  first [ rewrite allContinue_step
        | rewrite allContinue_0
        | rewrite set_cursor_set_cursor
        | progress (cbn [BinaryDecoder.ge128 BinaryDecoder.lt128 BinaryDecoder.num
                           BinaryDecoder.cursor BinaryDecoder.set_cursor
                           BinaryDecoder.end_])
        | progress decide_tests
        | progress run_decoder ].

Lemma readUnsignedVarint32_decodes bs :
  wellFormedVarint bs = true -> (List.length bs <= 10)%nat ->
  readsChecked BinaryDecoder.readUnsignedVarint32 bs (varint32Result bs).
Proof.
  intros Hwf Hlen d H.
  destruct (bytesAtCursor_index d _ H) as (b & Hb' & Hi). clear H.
  unfold BinaryDecoder.readUnsignedVarint32. unfold bind at 1, get at 1. rewrite Hb'.
  cbv zeta.
  split_list bs 11%nat;
    try discriminate Hwf; try (cbn [List.length] in Hlen; lia);
    varint_bytes Hwf; cursor_facts32 Hi; clear Hi;
    repeat first [ use_cursor_facts | varint32_step ].
  all: cbn [List.length] in *;
    repeat match goal with
      | |- context [?a <=? BinaryDecoder.end_ ?e] =>
          destruct (Z.leb_spec a (BinaryDecoder.end_ e)); try (exfalso; lia)
      end;
    (apply f_equal2; [ | apply f_equal2; [ lia | reflexivity ] ]);
    try reflexivity; apply f_equal;
    unfold varint32Result; cbn [List.length Nat.leb];
    first [ rewrite varint32_accumulate; apply varint32_tail
          | cbn [varintValue]; change 127 with (Z.ones 7); change 15 with (Z.ones 4);
            apply Z.bits_inj'; intros i Hi; jsbits ].
Qed.

Lemma varint32_next v : ((v .>>> 7) .| (0 .<< 25)) .>>> 0 = v .>>> 7.
Proof. apply Z.bits_inj'. intros i Hi. jsbits. Qed.

(** On a 32-bit value the loop of [writeUnsignedVarint32] is the loop of
    [writeSplitVarint64] with a zero high word. *)
Lemma writeUnsignedVarint32_loop_split fuel : forall v e,
  BinaryEncoder.writeUnsignedVarint32_loop fuel v e
  = BinaryEncoder.writeSplitVarint64_loop fuel v 0 e.
Proof.
  induction fuel as [|fuel IH]; intros v e; [reflexivity|].
  cbn [BinaryEncoder.writeUnsignedVarint32_loop BinaryEncoder.writeSplitVarint64_loop].
  change ((0 >? 0) || (v >? 127)) with (v >? 127).
  destruct (v >? 127); [|reflexivity].
  unfold bind. destruct (BinaryEncoder.push _ e) as [[[]|x|] e']; try reflexivity.
  rewrite IH, varint32_next. reflexivity.
Qed.

Lemma writeUnsignedVarint32_appends v :
  u32 v ->
  exists bs,
    appends (BinaryEncoder.writeUnsignedVarint32 v) bs
    /\ wellFormedVarint bs = true
    /\ varintValue bs = v
    /\ (List.length bs <= 5)%nat.
Proof.
  intros Hv.
  assert (H0 : u32 0) by (unfold u32, JS.TWO_TO_32; lia).
  assert (Hj : join64 v 0 < 2 ^ (7 * Z.of_nat 5)).
  { unfold u32, join64, JS.TWO_TO_32 in *.
    change (2 ^ (7 * Z.of_nat 5)) with 34359738368. lia. }
  destruct (writeSplitVarint64_loop_spec 4 v 0 [] Hv H0 Hj)
    as (bs & Hrun & Hwf & Hval & Hlen & _).
  exists bs. split; [|split; [exact Hwf | split; [|exact Hlen]]].
  - intros buf. unfold BinaryEncoder.writeUnsignedVarint32.
    rewrite assert_range by exact Hv.
    rewrite writeUnsignedVarint32_loop_split, writeSplitVarint64_loop_frame, Hrun.
    reflexivity.
  - rewrite Hval. unfold join64. lia.
Qed.

Lemma varint32_roundtrip v :
  u32 v ->
  exists bs,
    appends (BinaryEncoder.writeUnsignedVarint32 v) bs
    /\ (1 <= List.length bs <= 5)%nat
    /\ readsWithin BinaryDecoder.readUnsignedVarint32 bs v.
Proof.
  intros Hv.
  destruct (writeUnsignedVarint32_appends v Hv) as (bs & Happ & Hwf & Hval & Hlen).
  exists bs. split; [exact Happ|].
  split; [pose proof (wellFormedVarint_nonempty bs Hwf); lia|].
  apply readsChecked_within.
  assert (Hr : varint32Result bs = v).
  { unfold varint32Result. destruct (Nat.leb_spec (List.length bs) 5); [|lia].
    rewrite Hval. apply Z.mod_small. exact Hv. }
  rewrite <- Hr. apply readUnsignedVarint32_decodes; [exact Hwf | lia].
Qed.

(** ** Signed and zigzag 32-bit varints *)

Lemma appends_writeSignedVarint32_neg v :
  - JS.TWO_TO_31 <= v < 0 ->
  appends (BinaryEncoder.writeSignedVarint32 v) (signedVarint32Bytes v).
Proof.
  intros Hv. unfold BinaryEncoder.writeSignedVarint32.
  apply appends_assert; [unfold JS.TWO_TO_31 in *; lia|].
  destruct (Z.geb_spec v 0); [lia|].
  cbn [BinaryEncoder.writeSignedVarint32_loop].
  intros buf. run_encoder. rewrite <- !app_assoc. reflexivity.
Qed.

Lemma sar7 x :
  - JS.TWO_TO_31 <= x < JS.TWO_TO_31 ->
  x .>> 7 = x / 128 /\ - JS.TWO_TO_31 <= x / 128 < JS.TWO_TO_31.
Proof.
  intros Hx. unfold JS.sar. rewrite toInt32_signed by exact Hx.
  change (7 mod 32) with 7. rewrite Z.shiftr_div_pow2 by lia. change (2 ^ 7) with 128.
  split; [reflexivity|]. unfold JS.TWO_TO_31 in *. Z.div_mod_to_equations; lia.
Qed.

Lemma signedVarint32Bytes_eq v :
  - JS.TWO_TO_31 <= v < 0 ->
  signedVarint32Bytes v
  = map (fun k => (v / 128 ^ k) mod 128 + 128) [0; 1; 2; 3; 4]
    ++ [255; 255; 255; 255; 1].
Proof.
  intros Hv. unfold signedVarint32Bytes. cbv zeta.
  assert (H0 : - JS.TWO_TO_31 <= v < JS.TWO_TO_31) by (unfold JS.TWO_TO_31 in *; lia).
  destruct (sar7 _ H0) as [E1 H1]. rewrite !E1.
  destruct (sar7 _ H1) as [E2 H2]. rewrite !E2.
  destruct (sar7 _ H2) as [E3 H3]. rewrite !E3.
  destruct (sar7 _ H3) as [E4 H4]. rewrite !E4.
  destruct (sar7 _ H4) as [E5 H5]. rewrite !E5.
  destruct (sar7 _ H5) as [E6 H6]. rewrite !E6.
  destruct (sar7 _ H6) as [E7 H7]. rewrite !E7.
  destruct (sar7 _ H7) as [E8 H8]. rewrite !E8.
  rewrite !varint_cont_byte. rewrite !Z.div_div by lia.
  cbn [map app]. change (2 ^ 7) with 128.
  repeat match goal with
    | |- context [128 * ?k] =>
        let r := eval vm_compute in (128 * k) in change (128 * k) with r
    | |- context [128 ^ ?k] =>
        let r := eval vm_compute in (128 ^ k) in change (128 ^ k) with r
    end.
  rewrite Z.div_1_r. unfold JS.TWO_TO_31 in Hv.
  repeat match goal with |- _ :: _ = _ :: _ => f_equal end;
    Z.div_mod_to_equations; lia.
Qed.

Lemma signedVarint32Bytes_value v :
  - JS.TWO_TO_31 <= v < 0 ->
  varintValue (signedVarint32Bytes v) = v mod 2 ^ 64.
Proof.
  intros Hv. rewrite signedVarint32Bytes_eq by exact Hv.
  cbn [map app varintValue]. unfold JS.TWO_TO_31 in Hv.
  change (2 ^ 7) with 128. change (2 ^ 64) with 18446744073709551616.
  repeat match goal with
    | |- context [128 ^ ?k] =>
        let r := eval vm_compute in (128 ^ k) in change (128 ^ k) with r
    end.
  Z.div_mod_to_equations; lia.
Qed.

Lemma wellFormedVarint_cons b rest :
  128 <= b < 256 -> wellFormedVarint rest = true ->
  wellFormedVarint (b :: rest) = true.
Proof.
  intros Hb Hr. destruct rest as [|b' rest]; [discriminate|].
  cbn [wellFormedVarint] in *. rewrite Hr.
  unfold isByte, continuationBit. rewrite byte_bit7 by lia.
  destruct (Z.leb_spec 0 b), (Z.ltb_spec b 256), (Z.leb_spec 128 b);
    try lia; reflexivity.
Qed.

Lemma signedVarint32Bytes_wf v :
  - JS.TWO_TO_31 <= v < 0 -> wellFormedVarint (signedVarint32Bytes v) = true.
Proof.
  intros Hv. rewrite signedVarint32Bytes_eq by exact Hv. cbn [map app].
  repeat (apply wellFormedVarint_cons;
          [first [lia | pose proof (Z.mod_pos_bound (v / 128 ^ 0) 128 eq_refl);
                        pose proof (Z.mod_pos_bound (v / 128 ^ 1) 128 eq_refl);
                        pose proof (Z.mod_pos_bound (v / 128 ^ 2) 128 eq_refl);
                        pose proof (Z.mod_pos_bound (v / 128 ^ 3) 128 eq_refl);
                        pose proof (Z.mod_pos_bound (v / 128 ^ 4) 128 eq_refl); lia]|]).
  reflexivity.
Qed.

Lemma toInt32_mod64 v : JS.toInt32 (v mod 2 ^ 64) = JS.toInt32 v.
Proof. apply Z.bits_inj'. intros i Hi. jsbits. Qed.

Lemma split_mod64 v :
  (v mod 2 ^ 64) mod 2 ^ 32 = v mod 2 ^ 32
  /\ ((v mod 2 ^ 64) / 2 ^ 32) mod 2 ^ 32 = (v / 2 ^ 32) mod 2 ^ 32.
Proof.
  change (2 ^ 64) with 18446744073709551616. change (2 ^ 32) with 4294967296.
  split; Z.div_mod_to_equations; lia.
Qed.

(** The bytes of a signed 32-bit varint, read as a 32-bit and as a 64-bit
    value. *)
Lemma signedVarint32_roundtrip v :
  - JS.TWO_TO_31 <= v < JS.TWO_TO_31 ->
  exists bs,
    appends (BinaryEncoder.writeSignedVarint32 v) bs
    /\ (if v <? 0 then List.length bs = 10%nat else (1 <= List.length bs <= 5)%nat)
    /\ readsWithin BinaryDecoder.readSignedVarint32 bs v
    /\ readsUnchecked BinaryDecoder.readSignedVarint64String bs (Number_toString v).
Proof.
  intros Hv.
  assert (Hsplit : joinSignedDecimalString (v mod 2 ^ 32) ((v / 2 ^ 32) mod 2 ^ 32)
                   = Number_toString v).
  { destruct (split_int64 v) as (Hlo & Hhi & Hj);
      [unfold JS.TWO_TO_31 in Hv; lia|].
    rewrite joinSignedDecimalString_spec by assumption. f_equal. exact Hj. }
  destruct (Z.ltb_spec v 0) as [Hneg|Hpos].
  - exists (signedVarint32Bytes v).
    assert (Hwf := signedVarint32Bytes_wf v ltac:(lia)).
    assert (Hval := signedVarint32Bytes_value v ltac:(lia)).
    split; [apply appends_writeSignedVarint32_neg; lia|].
    split; [reflexivity|]. split.
    + apply readsChecked_within.
      replace v with (varint32Result (signedVarint32Bytes v)) at 2.
      * apply readUnsignedVarint32_decodes; [exact Hwf | cbn; lia].
      * unfold varint32Result. cbn [List.length signedVarint32Bytes Nat.leb].
        change (varintValue _) with (varintValue (signedVarint32Bytes v)).
        rewrite Hval, toInt32_mod64. apply toInt32_signed. exact Hv.
    + rewrite <- Hsplit. destruct (split_mod64 v) as [E1 E2].
      rewrite <- E1, <- E2, <- Hval.
      apply readSplitVarint64_decodes; [exact Hwf | cbn; lia].
  - assert (Hu : u32 v) by (unfold u32, JS.TWO_TO_31, JS.TWO_TO_32 in *; lia).
    destruct (writeUnsignedVarint32_appends v Hu) as (bs & Happ & Hwf & Hval & Hlen).
    exists bs. split.
    { intros buf. unfold BinaryEncoder.writeSignedVarint32.
      rewrite assert_range by exact Hv.
      destruct (Z.geb_spec v 0); [|lia]. apply Happ. }
    split; [pose proof (wellFormedVarint_nonempty bs Hwf); lia|]. split.
    + apply readsChecked_within.
      assert (Hr : varint32Result bs = v).
      { unfold varint32Result. destruct (Nat.leb_spec (List.length bs) 5); [|lia].
        rewrite Hval. apply Z.mod_small. exact Hu. }
      rewrite <- Hr. apply readUnsignedVarint32_decodes; [exact Hwf | lia].
    + rewrite <- Hsplit. rewrite <- Hval.
      apply readSplitVarint64_decodes; [exact Hwf | lia].
Qed.

Lemma zigzag32_word v :
  - JS.TWO_TO_31 <= v < JS.TWO_TO_31 ->
  let z := ((v .<< 1) .^ (v .>> 31)) .>>> 0 in
  (z .>>> 1) .^ (- (z .& 1)) = v.
Proof.
  intros Hv z. subst z. apply Z.bits_inj'. intros i Hi. jsbits.
  all: rewrite ?(signed_high_bits v 31) by (unfold JS.TWO_TO_31 in *; lia).
  all: try reflexivity; try btauto.
Qed.

Lemma zigzag32_roundtrip v :
  - JS.TWO_TO_31 <= v < JS.TWO_TO_31 ->
  exists bs,
    appends (BinaryEncoder.writeZigzagVarint32 v) bs
    /\ (1 <= List.length bs <= 5)%nat
    /\ readsWithin BinaryDecoder.readZigzagVarint32 bs v.
Proof.
  intros Hv.
  set (z := ((v .<< 1) .^ (v .>> 31)) .>>> 0).
  assert (Hz : u32 z) by (apply shr_u32; lia).
  destruct (varint32_roundtrip z Hz) as (bs & Happ & Hlen & Hread).
  exists bs. split; [|split; [exact Hlen|]].
  - intros buf. unfold BinaryEncoder.writeZigzagVarint32.
    rewrite assert_range by exact Hv. apply Happ.
  - unfold BinaryDecoder.readZigzagVarint32.
    pose proof (zigzag32_word v Hv) as Hw. cbv zeta in Hw. fold z in Hw.
    rewrite <- Hw.
    apply (readsWithin_map BinaryDecoder.readUnsignedVarint32
             (fun result => (result .>>> 1) .^ (- (result .& 1)))).
    exact Hread.
Qed.

(** ** 64-bit varints as decimal strings; hash strings on the wire *)

Lemma unsignedVarint64_string v :
  0 <= v < 2 ^ 64 ->
  exists bs,
    appends (BinaryEncoder.writeUnsignedVarint64 v) bs
    /\ (1 <= List.length bs <= 10)%nat
    /\ readsUnchecked BinaryDecoder.readUnsignedVarint64String bs (Number_toString v).
Proof.
  intros Hv. destruct (split_join64 v Hv) as (Hlo & Hhi & Hj).
  destruct (varint64_roundtrip joinUnsignedDecimalString _ _ Hlo Hhi)
    as (bs & Happ & Hlen & Hread).
  exists bs. split; [|split; [exact Hlen|]].
  - intros buf. unfold BinaryEncoder.writeUnsignedVarint64.
    rewrite assert_range by exact Hv. rewrite splitInt64_spec.
    cbn [split64Low split64High]. apply Happ.
  - rewrite joinUnsignedDecimalString_spec, Hj in Hread by assumption.
    exact Hread.
Qed.

Lemma signedVarint64_string v :
  - 2 ^ 63 <= v < 2 ^ 63 ->
  exists bs,
    appends (BinaryEncoder.writeSignedVarint64 v) bs
    /\ (1 <= List.length bs <= 10)%nat
    /\ (v < 0 -> List.length bs = 10%nat)
    /\ readsUnchecked BinaryDecoder.readSignedVarint64String bs (Number_toString v).
Proof.
  intros Hv. destruct (split_int64 v Hv) as (Hlo & Hhi & Hj).
  destruct (writeSplitVarint64_appends _ _ Hlo Hhi) as (bs & Happ & Hwf & Hval & Hlen).
  exists bs. split; [|split; [|split]].
  - intros buf. unfold BinaryEncoder.writeSignedVarint64.
    rewrite assert_range by exact Hv. rewrite splitInt64_spec.
    cbn [split64Low split64High]. apply Happ.
  - pose proof (wellFormedVarint_nonempty bs Hwf). lia.
  - intros Hneg. pose proof (wellFormedVarint_bound bs Hwf) as Hb.
    rewrite Hval in Hb.
    assert (Hbig : 2 ^ 63 <= join64 (v mod 2 ^ 32) ((v / 2 ^ 32) mod 2 ^ 32)).
    { unfold join64, JS.TWO_TO_32. change (2 ^ 32) with 4294967296.
      change (2 ^ 63) with 9223372036854775808 in *.
      Z.div_mod_to_equations; lia. }
    destruct (Nat.eq_dec (List.length bs) 10) as [|Hne]; [assumption|exfalso].
    assert (2 ^ (7 * Z.of_nat (List.length bs)) <= 2 ^ 63)
      by (apply Z.pow_le_mono_r; lia).
    lia.
  - destruct (join64_words _ _ Hlo Hhi) as [H1 H2].
    replace (Number_toString v)
      with (joinSignedDecimalString (varintValue bs mod 2 ^ 32)
              ((varintValue bs / 2 ^ 32) mod 2 ^ 32)).
    + apply readSplitVarint64_decodes; assumption.
    + rewrite Hval, H1, H2, joinSignedDecimalString_spec by assumption.
      f_equal. exact Hj.
Qed.

Lemma toInt32_idem x : JS.toInt32 (JS.toInt32 x) = JS.toInt32 x.
Proof. apply Z.bits_inj'. intros i Hi. jsbits. Qed.

Lemma and_toInt32_l x y : JS.toInt32 x .& y = x .& y.
Proof. unfold JS.and. rewrite toInt32_idem. reflexivity. Qed.

Lemma not_toInt32 x : JS.not (JS.toInt32 x) = JS.not x.
Proof. unfold JS.not. rewrite toInt32_idem. reflexivity. Qed.

Lemma shr_toInt32 x n : JS.toInt32 x .>>> n = x .>>> n.
Proof. unfold JS.shr. rewrite toUint32_toInt32. reflexivity. Qed.

Lemma shl_toInt32 x n : JS.toInt32 x .<< n = x .<< n.
Proof. unfold JS.shl. rewrite toInt32_idem. reflexivity. Qed.

Lemma sar_toInt32 x n : JS.toInt32 x .>> n = x .>> n.
Proof. unfold JS.sar. rewrite toInt32_idem. reflexivity. Qed.

(** On words in signed reading, as [fromZigzag64] hands them over, the
    sign test and the negation of [joinSignedDecimalString] see the same
    bits; only the addition of the fast path of
    [joinUnsignedDecimalString] takes the low word as a number. *)
Lemma joinSignedDecimalString_signed lo hi :
  u32 lo -> u32 hi ->
  joinSignedDecimalString (JS.toInt32 lo) (JS.toInt32 hi)
  = if (hi <=? 0x1fffff) && (2 ^ 31 <=? lo)
    then Number_toString (join64 lo hi - 2 ^ 32)
    else Number_toString (int64_of_split lo hi).
Proof.
  intros Hlo Hhi.
  rewrite <- (joinSignedDecimalString_spec lo hi Hlo Hhi).
  unfold joinSignedDecimalString.
  rewrite !and_toInt32_l, !not_toInt32.
  rewrite and_signbit_zero, (u32_bit31 _ Hhi).
  change (2 ^ 31) with 2147483648.
  destruct (Z.leb_spec 2147483648 hi) as [Hneg|Hpos]; cbn [negb].
  - destruct (Z.leb_spec hi 0x1fffff); [lia|]. reflexivity.
  - assert (Hh : JS.toInt32 hi = hi)
      by (apply toInt32_small; unfold u32, JS.TWO_TO_31 in *; lia).
    rewrite Hh. unfold joinUnsignedDecimalString.
    destruct (Z.leb_spec hi 0x1fffff) as [Hfast|Hslow]; cbn [andb].
    + unfold JS.toInt32, join64. unfold u32 in Hlo.
      rewrite (Z.mod_small lo) by exact Hlo. unfold JS.TWO_TO_31, JS.TWO_TO_32.
      change (2 ^ 32) with 4294967296.
      destruct (Z.ltb_spec lo 2147483648), (Z.leb_spec 2147483648 lo); try lia;
        f_equal; lia.
    + rewrite !and_toInt32_l, !shr_toInt32. reflexivity.
Qed.

Lemma zigzagVarint64_string v :
  - 2 ^ 63 <= v < 2 ^ 63 ->
  exists bs,
    appends (BinaryEncoder.writeZigzagVarint64 v) bs
    /\ (1 <= List.length bs <= 10)%nat
    /\ readsUnchecked BinaryDecoder.readZigzagVarint64String bs
         (Number_toString (zigzagStringValue v)).
Proof.
  intros Hv. destruct (split_int64 v Hv) as (Hlo & Hhi & Hj).
  set (lo := v mod 2 ^ 32) in *. set (hi := (v / 2 ^ 32) mod 2 ^ 32) in *.
  pose proof (toZigzag64_split v Hv) as Hz. fold lo hi in Hz.
  rewrite toZigzag64_eq in Hz.
  set (zl := (lo .<< 1) .^ (hi .>> 31)) in *.
  set (zh := ((hi .<< 1) .| (lo .>>> 31)) .^ (hi .>> 31)) in *.
  assert (Hzl : u32 (zl .>>> 0)) by (apply shr_u32; lia).
  assert (Hzh : u32 (zh .>>> 0)) by (apply shr_u32; lia).
  destruct (varint64_roundtrip
              (fun l h => fromZigzag64 l h joinSignedDecimalString) _ _ Hzl Hzh)
    as (bs & Happ & Hlen & Hread).
  exists bs. split; [|split; [exact Hlen|]].
  - intros buf. unfold BinaryEncoder.writeZigzagVarint64.
    rewrite assert_range by exact Hv. rewrite <- Hz.
    cbn [split64Low split64High]. apply Happ.
  - unfold BinaryDecoder.readZigzagVarint64String,
      BinaryDecoder.readSplitZigzagVarint64.
    replace (Number_toString (zigzagStringValue v))
      with (fromZigzag64 (zl .>>> 0) (zh .>>> 0) joinSignedDecimalString);
      [exact Hread|].
    rewrite fromZigzag64_unsigned.
    pose proof (zigzag_roundtrip_gen joinSignedDecimalString lo hi) as Hrt.
    rewrite toZigzag64_eq in Hrt. fold zl zh in Hrt. rewrite Hrt.
    rewrite joinSignedDecimalString_signed by assumption.
    unfold zigzagStringValue. fold lo.
    assert (Hcase : (hi <=? 0x1fffff) = (0 <=? v) && (v <? 2 ^ 53)).
    { subst hi. change (2 ^ 32) with 4294967296. change (2 ^ 53) with 9007199254740992.
      change (2 ^ 63) with 9223372036854775808 in Hv.
      destruct (Z.leb_spec ((v / 4294967296) mod 4294967296) 0x1fffff),
        (Z.leb_spec 0 v), (Z.ltb_spec v 9007199254740992); cbn [andb];
        try reflexivity; exfalso; Z.div_mod_to_equations; lia. }
    rewrite Hcase.
    destruct ((0 <=? v) && (v <? 2 ^ 53)) eqn:Hc; cbn [andb].
    + destruct (2 ^ 31 <=? lo); [|rewrite Hj; reflexivity].
      f_equal. apply andb_prop in Hc. destruct Hc as [Hc1 Hc2].
      apply Z.leb_le in Hc1. apply Z.ltb_lt in Hc2.
      unfold join64, JS.TWO_TO_32. subst lo hi. change (2 ^ 32) with 4294967296.
      change (2 ^ 53) with 9007199254740992 in Hc2.
      Z.div_mod_to_equations; lia.
    + rewrite Hj. reflexivity.
Qed.

Lemma splitHash64_u32 h :
  u32 (split64Low (splitHash64 h)) /\ u32 (split64High (splitHash64 h)).
Proof.
  unfold splitHash64. cbn [split64Low split64High].
  split; match goal with |- u32 (match ?x with _ => _ end) => destruct x end;
    first [apply shr_u32; lia | unfold u32, JS.TWO_TO_32; lia].
Qed.

Lemma joinHash64_toInt32 lo hi :
  joinHash64 (JS.toInt32 lo) (JS.toInt32 hi) = joinHash64 lo hi.
Proof. unfold joinHash64. rewrite !shr_toInt32. reflexivity. Qed.

Lemma hash64_wire h :
  let n := normalizedHash h in
  (appends (BinaryEncoder.writeFixedHash64 h) n
   /\ readsUnchecked BinaryDecoder.readFixedHash64 n n)
  /\ (exists bs,
        appends (BinaryEncoder.writeVarintHash64 h) bs
        /\ readsUnchecked BinaryDecoder.readVarintHash64 bs n)
  /\ (exists bs,
        appends (BinaryEncoder.writeZigzagVarintHash64 h) bs
        /\ readsUnchecked BinaryDecoder.readZigzagVarintHash64 bs n).
Proof.
  intros n. subst n. unfold normalizedHash.
  destruct (splitHash64_u32 h) as [Hlo Hhi].
  set (lo := split64Low (splitHash64 h)) in *.
  set (hi := split64High (splitHash64 h)) in *.
  split; [split|split].
  - rewrite le32_joinHash64. unfold BinaryEncoder.writeFixedHash64. fold lo hi.
    apply appends_bind; apply appends_writeUint32; assumption.
  - pose proof (le32_joinHash64 lo hi) as E.
    rewrite le32_joinHash64. unfold joinHash64, le32 in *. cbv zeta in E.
    cbn [app] in *. intros d Hd.
    rewrite (readFixedHash64_at _ _ _ _ _ _ _ _ d Hd), E. reflexivity.
  - destruct (varint64_roundtrip joinHash64 lo hi Hlo Hhi) as (bs & Happ & _ & Hread).
    exists bs. split; [|exact Hread].
    unfold BinaryEncoder.writeVarintHash64. fold lo hi. exact Happ.
  - set (zl := (lo .<< 1) .^ (hi .>> 31)).
    set (zh := ((hi .<< 1) .| (lo .>>> 31)) .^ (hi .>> 31)).
    assert (Hzl : u32 (zl .>>> 0)) by (apply shr_u32; lia).
    assert (Hzh : u32 (zh .>>> 0)) by (apply shr_u32; lia).
    destruct (varint64_roundtrip
                (fun l h => fromZigzag64 l h joinHash64) _ _ Hzl Hzh)
      as (bs & Happ & _ & Hread).
    exists bs. split.
    + unfold BinaryEncoder.writeZigzagVarintHash64. fold lo hi.
      rewrite toZigzag64_eq. fold zl zh. exact Happ.
    + unfold BinaryDecoder.readZigzagVarintHash64,
        BinaryDecoder.readSplitZigzagVarint64.
      replace (joinHash64 lo hi)
        with (fromZigzag64 (zl .>>> 0) (zh .>>> 0) joinHash64); [exact Hread|].
      rewrite fromZigzag64_unsigned.
      pose proof (zigzag_roundtrip_gen joinHash64 lo hi) as Hrt.
      rewrite toZigzag64_eq in Hrt. fold zl zh in Hrt. rewrite Hrt.
      apply joinHash64_toInt32.
Qed.

(** ** [writeString] and [readString] *)

Lemma writeString_bytes_1 c rest :
  c < 128 -> writeString_bytes (c :: rest) = [c] ++ writeString_bytes rest.
Proof.
  intros Hc. unfold writeString_bytes at 1. rewrite writeString_loop_cons.
  destruct (Z.ltb_spec c 128); [|lia].
  rewrite push_bind, writeString_loop_appends. reflexivity.
Qed.

Lemma writeString_bytes_2 c rest :
  128 <= c < 2048 ->
  writeString_bytes (c :: rest)
  = [(c .>> 6) .| 192; (c .& 63) .| 128] ++ writeString_bytes rest.
Proof.
  intros Hc. unfold writeString_bytes at 1. rewrite writeString_loop_cons.
  destruct (Z.ltb_spec c 128); [lia|]. destruct (Z.ltb_spec c 2048); [|lia].
  rewrite !push_bind, writeString_loop_appends. reflexivity.
Qed.

Lemma writeString_bytes_3 c rest :
  2048 <= c < 65536 -> isHighSurrogate c && match rest with [] => false | _ :: _ => true end = false ->
  writeString_bytes (c :: rest)
  = [(c .>> 12) .| 224; ((c .>> 6) .& 63) .| 128; (c .& 63) .| 128]
      ++ writeString_bytes rest.
Proof.
  intros Hc Hh. unfold writeString_bytes at 1. rewrite writeString_loop_cons.
  destruct (Z.ltb_spec c 128); [lia|]. destruct (Z.ltb_spec c 2048); [lia|].
  destruct (Z.ltb_spec c 65536); [|lia].
  replace ((c >=? 0xd800) && (c <=? 0xdbff)
           && match rest with [] => false | _ :: _ => true end) with false.
  - rewrite !push_bind, writeString_loop_appends. reflexivity.
  - symmetry. unfold isHighSurrogate in Hh. rewrite Z.geb_leb. exact Hh.
Qed.

Lemma writeString_bytes_4 high low rest :
  isHighSurrogate high = true -> isLowSurrogate low = true ->
  let cp := (high - 0xd800) * 0x400 + low - 0xdc00 + 0x10000 in
  writeString_bytes (high :: low :: rest)
  = [(cp .>> 18) .| 240; ((cp .>> 12) .& 63) .| 128;
     ((cp .>> 6) .& 63) .| 128; (cp .& 63) .| 128] ++ writeString_bytes rest.
Proof.
  intros Hh Hl cp.
  pose proof (isHighSurrogate_range _ Hh) as Rh.
  pose proof (isLowSurrogate_range _ Hl) as Rl.
  unfold writeString_bytes at 1. rewrite writeString_loop_cons.
  destruct (Z.ltb_spec high 128); [lia|].
  destruct (Z.ltb_spec high 2048); [lia|].
  destruct (Z.ltb_spec high 65536); [|lia].
  destruct (Z.geb_spec high 0xd800); [|lia].
  destruct (Z.leb_spec high 0xdbff); [|lia].
  destruct (Z.geb_spec low 0xdc00); [|lia].
  destruct (Z.leb_spec low 0xdfff); [|lia].
  cbn [andb]. cbv zeta.
  rewrite !push_bind, writeString_loop_appends. reflexivity.
Qed.

Lemma low_bits_zero K n j :
  0 <= j < n -> K mod 2 ^ n = 0 -> Z.testbit K j = false.
Proof.
  intros Hj HK. rewrite <- (Z.mod_pow2_bits_low K n j) by lia.
  rewrite HK. apply Z.bits_0.
Qed.

(** What the decoder makes of each sequence. *)
Lemma utf8_decode2 c :
  128 <= c < 2048 ->
  let b1 := (c .>> 6) .| 192 in
  let b2 := (c .& 63) .| 128 in
  192 <= b1 < 224 /\ ((b1 .& 31) .<< 6) .| (b2 .& 63) = c.
Proof.
  intros Hc b1 b2. subst b1 b2. split.
  - rewrite sar_small by (unfold JS.TWO_TO_31; lia).
    assert (2 <= c / 2 ^ 6 < 2 ^ 5)
      by (change (2 ^ 6) with 64; change (2 ^ 5) with 32;
          Z.div_mod_to_equations; lia).
    change 192 with (6 * 2 ^ 5).
    rewrite or_disjoint_add; unfold JS.TWO_TO_31; lia.
  - change 31 with (Z.ones 5). change 63 with (Z.ones 6).
    apply Z.bits_inj'. intros i Hi. jsbits.
    all: rewrite ?(small_high_bits c 11) by lia.
    all: rewrite ?(low_bits_zero 192 6) by (lia || reflexivity).
    all: rewrite ?(low_bits_zero 128 7) by (lia || reflexivity).
    all: rewrite ?orb_false_r; try reflexivity.
Qed.

Lemma utf8_decode3 c :
  2048 <= c < 65536 ->
  let b1 := (c .>> 12) .| 224 in
  let b2 := ((c .>> 6) .& 63) .| 128 in
  let b3 := (c .& 63) .| 128 in
  224 <= b1 < 240
  /\ ((b1 .& 15) .<< 12) .| ((b2 .& 63) .<< 6) .| (b3 .& 63) = c.
Proof.
  intros Hc b1 b2 b3. subst b1 b2 b3. split.
  - rewrite utf8_lead3 by lia.
    change (2 ^ 12) with 4096. Z.div_mod_to_equations; lia.
  - change 15 with (Z.ones 4). change 63 with (Z.ones 6).
    apply Z.bits_inj'. intros i Hi. jsbits.
    all: rewrite ?(small_high_bits c 16) by lia.
    all: rewrite ?(low_bits_zero 224 5) by (lia || reflexivity).
    all: rewrite ?(low_bits_zero 128 7) by (lia || reflexivity).
    all: rewrite ?orb_false_r; try reflexivity.
Qed.

Lemma utf8_decode4 cp :
  0x10000 <= cp <= 0x10ffff ->
  let b1 := (cp .>> 18) .| 240 in
  let b2 := ((cp .>> 12) .& 63) .| 128 in
  let b3 := ((cp .>> 6) .& 63) .| 128 in
  let b4 := (cp .& 63) .| 128 in
  240 <= b1 < 248
  /\ ((b1 .& 7) .<< 18) .| ((b2 .& 63) .<< 12) .| ((b3 .& 63) .<< 6)
        .| (b4 .& 63) = cp.
Proof.
  intros Hc b1 b2 b3 b4. subst b1 b2 b3 b4. split.
  - rewrite utf8_lead4 by lia.
    change (2 ^ 18) with 262144. Z.div_mod_to_equations; lia.
  - change 7 with (Z.ones 3). change 63 with (Z.ones 6).
    apply Z.bits_inj'. intros i Hi. jsbits.
    all: rewrite ?(small_high_bits cp 21) by lia.
    all: rewrite ?(low_bits_zero 240 4) by (lia || reflexivity).
    all: rewrite ?(low_bits_zero 128 7) by (lia || reflexivity).
    all: rewrite ?orb_false_r; try reflexivity.
Qed.

(** The surrogates recovered from the code point of a pair. *)
Lemma surrogates_of_codepoint high low :
  isHighSurrogate high = true -> isLowSurrogate low = true ->
  let cp := (high - 0xd800) * 0x400 + low - 0xdc00 + 0x10000 in
  0x10000 <= cp <= 0x10ffff
  /\ (((cp - 0x10000) .>> 10) .& 1023) + 0xd800 = high
  /\ ((cp - 0x10000) .& 1023) + 0xdc00 = low.
Proof.
  intros Hh Hl cp. subst cp.
  pose proof (isHighSurrogate_range _ Hh) as Rh.
  pose proof (isLowSurrogate_range _ Hl) as Rl.
  split; [lia|].
  replace ((high - 0xd800) * 0x400 + low - 0xdc00 + 0x10000 - 0x10000)
    with ((high - 0xd800) * 0x400 + (low - 0xdc00)) by lia.
  set (m := (high - 0xd800) * 0x400 + (low - 0xdc00)).
  assert (Hm : 0 <= m < 2 ^ 20) by (unfold m; lia).
  change 1023 with (Z.ones 10).
  rewrite !and_ones by lia.
  rewrite sar_small by (unfold JS.TWO_TO_31; lia).
  unfold m. change (2 ^ 10) with 1024.
  split; Z.div_mod_to_equations; lia.
Qed.

(** One iteration of the loop of [readString] on each kind of sequence. *)
Lemma readString_iter1 b end' fuel c acc res x :
  c < end' -> BinaryDecoder.index b c = Some x -> x < 128 ->
  BinaryDecoder.readString_loop b end' (S fuel) c acc res
  = let '(cu, r) := BinaryDecoder.readString_flush (acc ++ [x]) res in
    BinaryDecoder.readString_loop b end' fuel (c + 1) cu r.
Proof.
  intros Hc Hx Hr. cbn [BinaryDecoder.readString_loop].
  destruct (Z.ltb_spec c end'); [|lia]. cbv zeta. rewrite Hx.
  cbn [BinaryDecoder.lt BinaryDecoder.num].
  destruct (Z.ltb_spec x 128); [|lia]. reflexivity.
Qed.

Lemma readString_iter2 b end' fuel c acc res x1 x2 :
  c < end' -> BinaryDecoder.index b c = Some x1 ->
  BinaryDecoder.index b (c + 1) = Some x2 -> 192 <= x1 < 224 ->
  BinaryDecoder.readString_loop b end' (S fuel) c acc res
  = let '(cu, r) :=
      BinaryDecoder.readString_flush
        (acc ++ [((x1 .& 31) .<< 6) .| (x2 .& 63)]) res in
    BinaryDecoder.readString_loop b end' fuel (c + 1 + 1) cu r.
Proof.
  intros Hc H1 H2 Hr. cbn [BinaryDecoder.readString_loop].
  destruct (Z.ltb_spec c end'); [|lia]. cbv zeta. rewrite H1, H2.
  cbn [BinaryDecoder.lt BinaryDecoder.num].
  destruct (Z.ltb_spec x1 128); [lia|]. destruct (Z.ltb_spec x1 192); [lia|].
  destruct (Z.ltb_spec x1 224); [|lia]. reflexivity.
Qed.

Lemma readString_iter3 b end' fuel c acc res x1 x2 x3 :
  c < end' -> BinaryDecoder.index b c = Some x1 ->
  BinaryDecoder.index b (c + 1) = Some x2 ->
  BinaryDecoder.index b (c + 1 + 1) = Some x3 -> 224 <= x1 < 240 ->
  BinaryDecoder.readString_loop b end' (S fuel) c acc res
  = let '(cu, r) :=
      BinaryDecoder.readString_flush
        (acc ++ [((x1 .& 15) .<< 12) .| ((x2 .& 63) .<< 6) .| (x3 .& 63)]) res in
    BinaryDecoder.readString_loop b end' fuel (c + 1 + 1 + 1) cu r.
Proof.
  intros Hc H1 H2 H3 Hr. cbn [BinaryDecoder.readString_loop].
  destruct (Z.ltb_spec c end'); [|lia]. cbv zeta. rewrite H1, H2, H3.
  cbn [BinaryDecoder.lt BinaryDecoder.num].
  destruct (Z.ltb_spec x1 128); [lia|]. destruct (Z.ltb_spec x1 192); [lia|].
  destruct (Z.ltb_spec x1 224); [lia|]. destruct (Z.ltb_spec x1 240); [|lia].
  reflexivity.
Qed.

Lemma readString_iter4 b end' fuel c acc res x1 x2 x3 x4 :
  c < end' -> BinaryDecoder.index b c = Some x1 ->
  BinaryDecoder.index b (c + 1) = Some x2 ->
  BinaryDecoder.index b (c + 1 + 1) = Some x3 ->
  BinaryDecoder.index b (c + 1 + 1 + 1) = Some x4 -> 240 <= x1 < 248 ->
  BinaryDecoder.readString_loop b end' (S fuel) c acc res
  = let codepoint :=
      ((x1 .& 7) .<< 18) .| ((x2 .& 63) .<< 12) .| ((x3 .& 63) .<< 6)
        .| (x4 .& 63) in
    let '(cu, r) :=
      BinaryDecoder.readString_flush
        (acc ++ [(((codepoint - 0x10000) .>> 10) .& 1023) + 0xd800;
                 ((codepoint - 0x10000) .& 1023) + 0xdc00]) res in
    BinaryDecoder.readString_loop b end' fuel (c + 1 + 1 + 1 + 1) cu r.
Proof.
  intros Hc H1 H2 H3 H4 Hr. cbn [BinaryDecoder.readString_loop].
  destruct (Z.ltb_spec c end'); [|lia]. cbv zeta. rewrite H1, H2, H3, H4.
  cbn [BinaryDecoder.lt BinaryDecoder.num].
  destruct (Z.ltb_spec x1 128); [lia|]. destruct (Z.ltb_spec x1 192); [lia|].
  destruct (Z.ltb_spec x1 224); [lia|]. destruct (Z.ltb_spec x1 240); [lia|].
  destruct (Z.ltb_spec x1 248); [|lia]. reflexivity.
Qed.

Lemma fromCharCode_app a b : fromCharCode (a ++ b) = fromCharCode a ++ fromCharCode b.
Proof. unfold fromCharCode. apply map_app. Qed.

Lemma readString_flush_keeps cu res :
  let '(cu', res') := BinaryDecoder.readString_flush cu res in
  res' ++ fromCharCode cu' = res ++ fromCharCode cu.
Proof.
  unfold BinaryDecoder.readString_flush.
  destruct (Z.of_nat (List.length cu) >=? 8192); [|reflexivity].
  cbn [fromCharCode map]. apply app_nil_r.
Qed.

Lemma holds_app b c ws1 ws2 :
  holds b c (ws1 ++ ws2) -> holds b (c + Z.of_nat (List.length ws1)) ws2.
Proof.
  intros H k v Hk.
  replace (c + Z.of_nat (List.length ws1) + Z.of_nat k)
    with (c + Z.of_nat (List.length ws1 + k)) by lia.
  apply H. rewrite nth_error_app2 by lia.
  replace (List.length ws1 + k - List.length ws1)%nat with k by lia. exact Hk.
Qed.

Lemma holds_nth b c ws k z v :
  holds b c ws -> nth_error ws k = Some v -> z = c + Z.of_nat k ->
  BinaryDecoder.index b z = Some v.
Proof. intros H Hk ->. apply H, Hk. Qed.

Lemma isUnit_range c : isUnit c = true -> 0 <= c < 65536.
Proof. unfold isUnit. intros H. bool_to_order. lia. Qed.

Ltac close_step Hf Hres :=
  rewrite Hres, app_assoc, Hf, fromCharCode_app, <- !app_assoc;
  do 2 f_equal; cbn [fromCharCode map app];
  rewrite ?Z.mod_small by lia; reflexivity.

Lemma readString_loop_decodes n : forall value,
  (List.length value <= n)%nat -> forallb isUnit value = true ->
  forall b end' fuel c acc res,
    holds b c (writeString_bytes value) ->
    end' = c + Z.of_nat (List.length (writeString_bytes value)) ->
    (List.length (writeString_bytes value) < fuel)%nat ->
    exists acc' res',
      BinaryDecoder.readString_loop b end' fuel c acc res = Some (end', acc', res')
      /\ res' ++ fromCharCode acc' = res ++ fromCharCode acc ++ survivors value.
Proof.
  induction n as [|n IH]; intros value Hlen Hu b end' fuel c acc res Hb He Hf.
  { destruct value; [|cbn in Hlen; lia].
    change (writeString_bytes []) with (@nil Z) in *. cbn [List.length] in *.
    destruct fuel as [|fuel]; [lia|]. exists acc, res.
    cbn [BinaryDecoder.readString_loop survivors].
    destruct (Z.ltb_spec c end'); [lia|]. rewrite app_nil_r.
    split; [do 3 f_equal; lia | reflexivity]. }
  destruct value as [|c0 rest].
  { change (writeString_bytes []) with (@nil Z) in *. cbn [List.length] in *.
    destruct fuel as [|fuel]; [lia|]. exists acc, res.
    cbn [BinaryDecoder.readString_loop survivors].
    destruct (Z.ltb_spec c end'); [lia|]. rewrite app_nil_r.
    split; [do 3 f_equal; lia | reflexivity]. }
  cbn [List.length forallb] in Hlen, Hu.
  apply andb_prop in Hu. destruct Hu as [Hc0 Hu].
  pose proof (isUnit_range _ Hc0) as Rc0.
  assert (Hstep : forall first units k,
    writeString_bytes (c0 :: rest) = first ++ writeString_bytes rest ->
    k = Z.of_nat (List.length first) -> 0 < k ->
    (forall f,
       BinaryDecoder.readString_loop b end' (S f) c acc res
       = let '(cu1, r1) := BinaryDecoder.readString_flush (acc ++ units) res in
         BinaryDecoder.readString_loop b end' f (c + k) cu1 r1) ->
    exists acc' res',
      BinaryDecoder.readString_loop b end' fuel c acc res = Some (end', acc', res')
      /\ res' ++ fromCharCode acc' = res ++ fromCharCode (acc ++ units) ++ survivors rest).
  { intros first units k Hw Hk Hk0 Hiter.
    rewrite Hw in Hb, He, Hf. rewrite length_app in He, Hf.
    destruct fuel as [|fuel]; [lia|]. rewrite (Hiter fuel).
    pose proof (readString_flush_keeps (acc ++ units) res) as Hfl.
    destruct (BinaryDecoder.readString_flush (acc ++ units) res) as [cu1 r1].
    destruct (IH rest ltac:(lia) Hu b end' fuel (c + k) cu1 r1)
      as (acc' & res' & Hrun & Hres).
    - subst k. apply holds_app. exact Hb.
    - lia.
    - lia.
    - exists acc', res'. split; [exact Hrun|].
      rewrite Hres, app_assoc, Hfl, <- app_assoc. reflexivity. }
  assert (Hend : forall first, writeString_bytes (c0 :: rest)
                               = first ++ writeString_bytes rest ->
                 first <> [] -> c < end').
  { intros first Hw Hne. rewrite Hw, length_app in He.
    destruct first; [congruence|]. cbn [List.length] in He. lia. }
  destruct (Z.ltb_spec c0 128) as [H128|H128].
  { pose proof (writeString_bytes_1 c0 rest H128) as Hw.
    destruct (Hstep [c0] [c0] 1 Hw eq_refl ltac:(lia)) as (acc' & res' & Hrun & Hres).
    - intros f. apply readString_iter1; [| |lia].
      + apply (Hend _ Hw). discriminate.
      + apply (holds_nth b c _ 0%nat c c0 Hb); [rewrite Hw; reflexivity | lia].
    - exists acc', res'. split; [exact Hrun|].
      assert (Hs : survivors (c0 :: rest) = c0 :: survivors rest).
      { cbn [survivors]. unfold isHighSurrogate.
        destruct (Z.leb_spec 0xd800 c0); [lia | reflexivity]. }
      rewrite Hres, Hs, fromCharCode_app, <- !app_assoc.
      do 2 f_equal. cbn [fromCharCode map app]. rewrite Z.mod_small by lia.
      reflexivity. }
  destruct (Z.ltb_spec c0 2048) as [H2048|H2048].
  { pose proof (writeString_bytes_2 c0 rest ltac:(lia)) as Hw.
    destruct (utf8_decode2 c0 ltac:(lia)) as [Hr1 Hd].
    destruct (Hstep _ [c0] 2 Hw eq_refl ltac:(lia)) as (acc' & res' & Hrun & Hres).
    - intros f. rewrite <- Hd at 1. replace (c + 2) with (c + 1 + 1) by lia.
      apply readString_iter2; [| | |exact Hr1].
      + apply (Hend _ Hw). discriminate.
      + apply (holds_nth b c _ 0%nat c _ Hb); [rewrite Hw; reflexivity | lia].
      + apply (holds_nth b c _ 1%nat (c + 1) _ Hb); [rewrite Hw; reflexivity | lia].
    - exists acc', res'. split; [exact Hrun|].
      assert (Hs : survivors (c0 :: rest) = c0 :: survivors rest).
      { cbn [survivors]. unfold isHighSurrogate.
        destruct (Z.leb_spec 0xd800 c0); [lia | reflexivity]. }
      rewrite Hres, Hs, fromCharCode_app, <- !app_assoc.
      do 2 f_equal. cbn [fromCharCode map app]. rewrite Z.mod_small by lia.
      reflexivity. }
  assert (Hthree : isHighSurrogate c0
                   && match rest with [] => false | _ :: _ => true end = false ->
    exists acc' res',
      BinaryDecoder.readString_loop b end' fuel c acc res = Some (end', acc', res')
      /\ res' ++ fromCharCode acc' = res ++ fromCharCode acc ++ c0 :: survivors rest).
  { intros Hh.
    pose proof (writeString_bytes_3 c0 rest ltac:(lia) Hh) as Hw.
    destruct (utf8_decode3 c0 ltac:(lia)) as [Hr1 Hd].
    destruct (Hstep _ [c0] 3 Hw eq_refl ltac:(lia)) as (acc' & res' & Hrun & Hres).
    - intros f. rewrite <- Hd at 1. replace (c + 3) with (c + 1 + 1 + 1) by lia.
      apply readString_iter3; [| | | |exact Hr1].
      + apply (Hend _ Hw). discriminate.
      + apply (holds_nth b c _ 0%nat c _ Hb); [rewrite Hw; reflexivity | lia].
      + apply (holds_nth b c _ 1%nat (c + 1) _ Hb); [rewrite Hw; reflexivity | lia].
      + apply (holds_nth b c _ 2%nat (c + 1 + 1) _ Hb); [rewrite Hw; reflexivity | lia].
    - exists acc', res'. split; [exact Hrun|].
      rewrite Hres, fromCharCode_app, <- !app_assoc.
      do 2 f_equal. cbn [fromCharCode map app]. rewrite Z.mod_small by lia.
      reflexivity. }
  destruct (isHighSurrogate c0) eqn:Hhigh.
  2:{ destruct (Hthree eq_refl) as (acc' & res' & Hrun & Hres).
      exists acc', res'. split; [exact Hrun|].
      rewrite Hres. cbn [survivors]. rewrite Hhigh. reflexivity. }
  destruct rest as [|second rest'].
  { destruct (Hthree eq_refl) as (acc' & res' & Hrun & Hres).
    exists acc', res'. split; [exact Hrun|].
    rewrite Hres. cbn [survivors]. rewrite Hhigh. reflexivity. }
  destruct (isLowSurrogate second) eqn:Hlow.
  - cbn [forallb List.length] in Hu, Hlen.
    apply andb_prop in Hu. destruct Hu as [Hs0 Hu'].
    pose proof (isUnit_range _ Hs0) as Rs0.
    pose proof (writeString_bytes_4 c0 second rest' Hhigh Hlow) as Hw. cbv zeta in Hw.
    destruct (surrogates_of_codepoint c0 second Hhigh Hlow) as (Rcp & Eh & El).
    destruct (utf8_decode4 _ Rcp) as [Hr1 Hd].
    set (cp := (c0 - 0xd800) * 0x400 + second - 0xdc00 + 0x10000) in *.
    rewrite Hw in Hb, He, Hf. rewrite length_app in He, Hf.
    cbn [List.length] in He, Hf.
    destruct fuel as [|fuel]; [lia|].
    rewrite (readString_iter4 b end' fuel c acc res _ _ _ _ ltac:(lia)
               (holds_nth b c _ 0%nat c _ Hb eq_refl ltac:(lia))
               (holds_nth b c _ 1%nat (c + 1) _ Hb eq_refl ltac:(lia))
               (holds_nth b c _ 2%nat (c + 1 + 1) _ Hb eq_refl ltac:(lia))
               (holds_nth b c _ 3%nat (c + 1 + 1 + 1) _ Hb eq_refl ltac:(lia))
               Hr1).
    cbv zeta. rewrite Hd, Eh, El.
    pose proof (readString_flush_keeps (acc ++ [c0; second]) res) as Hfl.
    destruct (BinaryDecoder.readString_flush (acc ++ [c0; second]) res) as [cu1 r1].
    destruct (IH rest' ltac:(lia) Hu' b end' fuel (c + 1 + 1 + 1 + 1) cu1 r1)
      as (acc' & res' & Hrun & Hres).
    + replace (c + 1 + 1 + 1 + 1) with (c + Z.of_nat (List.length
        [(cp .>> 18) .| 240; ((cp .>> 12) .& 63) .| 128;
         ((cp .>> 6) .& 63) .| 128; (cp .& 63) .| 128])) by (cbn [List.length]; lia).
      apply holds_app. exact Hb.
    + lia.
    + lia.
    + exists acc', res'. split; [exact Hrun|].
      rewrite Hres, app_assoc, Hfl, fromCharCode_app, <- !app_assoc.
      do 2 f_equal. cbn [survivors]. rewrite Hhigh, Hlow.
      cbn [fromCharCode map app]. rewrite !Z.mod_small by lia. reflexivity.
  - pose proof (writeString_bytes_unpaired_inner c0 second rest' Hhigh Hlow) as Hw.
    rewrite Hw in Hb, He, Hf.
    destruct (IH (second :: rest') ltac:(cbn [List.length] in *; lia) Hu
                b end' fuel c acc res Hb He Hf) as (acc' & res' & Hrun & Hres).
    exists acc', res'. split; [exact Hrun|].
    rewrite Hres. cbn [survivors]. rewrite Hhigh, Hlow. reflexivity.
Qed.

Lemma survivors_all n : forall value,
  (List.length value <= n)%nat -> noLoneHigh value = true -> survivors value = value.
Proof.
  induction n as [|n IH]; intros value Hlen Hv.
  - destruct value; [reflexivity | cbn in Hlen; lia].
  - destruct value as [|c rest]; [reflexivity|].
    cbn [noLoneHigh survivors List.length] in *.
    apply andb_prop in Hv. destruct Hv as [Hc Hr].
    destruct (isHighSurrogate c).
    + destruct rest as [|second rest']; [reflexivity|].
      rewrite Hc. cbn [noLoneHigh List.length] in *.
      apply andb_prop in Hr. destruct Hr as [_ Hr'].
      rewrite (IH rest') by (assumption || lia). reflexivity.
    + rewrite (IH rest) by (assumption || lia). reflexivity.
Qed.

Lemma string_roundtrip value :
  forallb isUnit value = true ->
  let ws := writeString_bytes value in
  (forall buf,
     BinaryEncoder.writeString value (BinaryEncoder.mk buf)
     = (Return (Z.of_nat (List.length ws)), BinaryEncoder.mk (buf ++ ws)))
  /\ readsUnchecked (BinaryDecoder.readString (Z.of_nat (List.length ws))) ws
       (survivors value)
  /\ (noLoneHigh value = true -> survivors value = value).
Proof.
  intros Hu ws. split; [intros buf; apply writeString_returns|].
  split; [|apply (survivors_all (List.length value)); lia].
  intros d Hd. destruct (bytesAtCursor_index d _ Hd) as (b & Hb & Hi).
  unfold BinaryDecoder.readString. unfold bind at 1, get at 1. rewrite Hb.
  destruct (readString_loop_decodes (List.length value) value (le_n _) Hu b
              (BinaryDecoder.cursor d + Z.of_nat (List.length ws))
              (S (Z.to_nat (Z.of_nat (List.length ws))))
              (BinaryDecoder.cursor d) [] [])
    as (acc' & res' & Hrun & Hres).
  - intros k v Hk. apply (Hi k (Z.of_nat k) v eq_refl Hk).
  - reflexivity.
  - fold ws. lia.
  - rewrite Hrun. run_decoder. rewrite Hres. reflexivity.
Qed.

(** ** lib.ts: [decimalStringToHash64] and [byteArrayToString] *)

Lemma and_ff r : r .& 0xff = r mod 2 ^ 8.
Proof. change 0xff with (Z.ones 8). apply and_ones. lia. Qed.

Lemma shr8 r : 0 <= r < JS.TWO_TO_32 -> r .>>> 8 = r / 2 ^ 8.
Proof.
  intros Hr. unfold JS.shr. rewrite toUint32_id by exact Hr.
  change (8 mod 32) with 8. apply Z.shiftr_div_pow2. lia.
Qed.

(** One step of [muladd]: a byte and the carry into the next. *)
Lemma muladd_step m b c :
  0 <= m <= 10 -> 0 <= b < 256 -> 0 <= c < 65536 ->
  let r := m * b + c in
  r .& 0xff = r mod 256 /\ r .>>> 8 = r / 256
  /\ 0 <= r mod 256 < 256 /\ 0 <= r / 256 < 65536
  /\ r mod 256 + 256 * (r / 256) = m * b + c.
Proof.
  intros Hm Hb Hc r. subst r.
  rewrite and_ff, shr8 by (unfold JS.TWO_TO_32; nia).
  change (2 ^ 8) with 256.
  assert (0 <= m * b + c < 70000) by nia.
  repeat split; try reflexivity; Z.div_mod_to_equations; lia.
Qed.

Lemma bytesValue_bound bs :
  isByteList bs -> 0 <= bytesValue bs < 256 ^ Z.of_nat (List.length bs).
Proof.
  induction 1 as [|b bs Hb _ IH]; cbn [bytesValue fold_right List.length].
  - change (256 ^ Z.of_nat 0) with 1. lia.
  - fold (bytesValue bs).
    replace (Z.of_nat (S (List.length bs))) with (1 + Z.of_nat (List.length bs)) by lia.
    rewrite Z.pow_add_r by lia. change (256 ^ 1) with 256. nia.
Qed.

Lemma muladd_loop_S n i m c bs :
  muladd_loop (S n) i m c bs
  = if negb (m =? 1) || (c >? 0) then
      muladd_loop n (S i) m ((m * unitOrZero (bs !! i) + c) .>>> 8)
        (<[i := (m * unitOrZero (bs !! i) + c) .& 0xff]> bs)
    else bs.
Proof. reflexivity. Qed.

(** [muladd] on the elements from index [length pre] on: they become the
    bytes of [m * value + c], the rest going out as the carry. *)
Lemma muladd_loop_spec n : forall pre suf m c,
  List.length suf = n -> 0 <= m <= 10 -> 0 <= c < 65536 -> isByteList suf ->
  exists suf' carry,
    muladd_loop n (List.length pre) m c (pre ++ suf) = pre ++ suf'
    /\ List.length suf' = n /\ isByteList suf' /\ 0 <= carry
    /\ bytesValue suf' + 256 ^ Z.of_nat n * carry = m * bytesValue suf + c.
Proof.
  induction n as [|n IH]; intros pre suf m c Hlen Hm Hc Hb.
  - destruct suf; [|discriminate]. exists [], c. cbn [muladd_loop bytesValue fold_right].
    repeat split; try constructor; lia.
  - destruct suf as [|b suf0]; [discriminate|]. injection Hlen as Hlen.
    inversion Hb as [|? ? Hb0 Hb1]; subst.
    rewrite muladd_loop_S.
    destruct (negb (m =? 1) || (c >? 0)) eqn:Hgo.
    + rewrite (list_lookup_middle pre suf0 b (List.length pre) eq_refl).
      cbn [unitOrZero].
      rewrite (insert_app_r_alt pre (b :: suf0) (List.length pre)) by lia.
      rewrite Nat.sub_diag. cbn [insert list_insert].
      destruct (muladd_step m b c Hm Hb0 Hc) as (E1 & E2 & R1 & R2 & E3).
      rewrite E1, E2.
      destruct (IH (pre ++ [(m * b + c) mod 256]) suf0 m ((m * b + c) / 256)
                  eq_refl Hm R2 Hb1) as (suf' & carry & Hrun & Hl & Hbs & Hcar & Hv).
      rewrite length_app in Hrun. cbn [List.length] in Hrun.
      replace (List.length pre + 1)%nat with (S (List.length pre)) in Hrun by lia.
      rewrite <- app_assoc in Hrun. cbn [app] in Hrun.
      exists ((m * b + c) mod 256 :: suf'), carry.
      split; [rewrite Hrun, <- app_assoc; reflexivity|].
      split; [cbn [List.length]; lia|].
      split; [constructor; assumption|]. split; [exact Hcar|].
      cbn [bytesValue fold_right]. fold (bytesValue suf') (bytesValue suf0).
      replace (Z.of_nat (S (List.length suf0)))
        with (1 + Z.of_nat (List.length suf0)) by lia.
      rewrite Z.pow_add_r by lia. change (256 ^ 1) with 256. nia.
    + assert (m = 1 /\ c = 0) as [-> ->].
      { apply orb_false_elim in Hgo. destruct Hgo as [H1 H2].
        apply negb_false_iff, Z.eqb_eq in H1. rewrite Z.gtb_ltb in H2.
        apply Z.ltb_ge in H2. lia. }
      exists (b :: suf0), 0. repeat split; try assumption; cbn [List.length]; lia.
Qed.

Lemma muladd_spec m c bs :
  List.length bs = 8%nat -> 0 <= m <= 10 -> 0 <= c < 65536 -> isByteList bs ->
  List.length (muladd m c bs) = 8%nat /\ isByteList (muladd m c bs)
  /\ bytesValue (muladd m c bs) = (m * bytesValue bs + c) mod 2 ^ 64.
Proof.
  intros Hl Hm Hc Hb.
  destruct (muladd_loop_spec 8 [] bs m c Hl Hm Hc Hb)
    as (suf' & carry & Hrun & Hl' & Hb' & Hcar & Hv).
  unfold muladd. cbn [List.length app] in Hrun. rewrite Hrun.
  split; [exact Hl'|]. split; [exact Hb'|].
  pose proof (bytesValue_bound suf' Hb') as Hbound. rewrite Hl' in Hbound.
  change (256 ^ Z.of_nat 8) with (2 ^ 64) in *.
  apply Z.mod_unique_pos with (q := carry); lia.
Qed.

Lemma not_byte b : 0 <= b < 256 -> JS.not b .& 0xff = 255 - b.
Proof.
  intros Hb. rewrite and_ff. unfold JS.not, Z.lnot.
  rewrite toInt32_small by (unfold JS.TWO_TO_31; lia).
  change (2 ^ 8) with 256. Z.div_mod_to_equations; lia.
Qed.

Lemma eight_elements (bs : list Z) :
  List.length bs = 8%nat ->
  exists b0 b1 b2 b3 b4 b5 b6 b7, bs = [b0; b1; b2; b3; b4; b5; b6; b7].
Proof.
  intros H. do 8 (destruct bs as [|? bs]; [discriminate|]).
  destruct bs; [|discriminate]. eexists _, _, _, _, _, _, _, _. reflexivity.
Qed.

Lemma neg_spec bs :
  List.length bs = 8%nat -> isByteList bs ->
  List.length (neg bs) = 8%nat /\ isByteList (neg bs)
  /\ bytesValue (neg bs) = 2 ^ 64 - 1 - bytesValue bs.
Proof.
  intros Hl Hb. destruct (eight_elements bs Hl) as (b0 & b1 & b2 & b3 & b4 & b5 & b6 & b7 & ->).
  unfold isByteList in Hb.
  repeat match goal with
    | H : Forall _ (_ :: _) |- _ => inversion H; subst; clear H
    end.
  cbv [neg fold_left seq insert list_insert lookup list_lookup unitOrZero].
  rewrite !not_byte by assumption.
  split; [reflexivity|]. split.
  - repeat constructor; lia.
  - cbn [bytesValue fold_right]. change (2 ^ 64) with 18446744073709551616. lia.
Qed.

Lemma byteArrayToString_loop_spec bytes fuel : forall i str,
  0 <= i -> (Z.to_nat (Z.of_nat (List.length bytes) - i) < fuel)%nat ->
  byteArrayToString_loop fuel bytes i str
  = Return (str ++ fromCharCode (skipn (Z.to_nat i) bytes)).
Proof.
  induction fuel as [|fuel IH]; intros i str Hi Hf; [lia|].
  cbn [byteArrayToString_loop].
  destruct (Z.ltb_spec i (Z.of_nat (List.length bytes))) as [Hlt|Hge].
  - cbv zeta. rewrite IH by (unfold CHUNK_SIZE; lia).
    f_equal. rewrite <- app_assoc. f_equal.
    unfold arraySlice.
    replace (Z.to_nat (i + CHUNK_SIZE - i)) with (Z.to_nat CHUNK_SIZE) by lia.
    rewrite <- fromCharCode_app. f_equal.
    replace (Z.to_nat (i + CHUNK_SIZE)) with (Z.to_nat CHUNK_SIZE + Z.to_nat i)%nat
      by (unfold CHUNK_SIZE; lia).
    rewrite <- skipn_skipn. apply firstn_skipn.
  - rewrite skipn_all2 by lia. cbn [fromCharCode map]. rewrite app_nil_r.
    reflexivity.
Qed.

(** Chunk by chunk or at once, [byteArrayToString] is [String.fromCharCode]
    of all the elements. *)
Lemma byteArrayToString_spec bytes :
  byteArrayToString bytes = Return (fromCharCode bytes).
Proof.
  unfold byteArrayToString.
  destruct (Z.of_nat (List.length bytes) <=? CHUNK_SIZE); [reflexivity|].
  rewrite byteArrayToString_loop_spec by lia. reflexivity.
Qed.

(** Eight bytes, low byte first, are the hash string of their value. *)
Lemma bytes_joinHash64 bs :
  List.length bs = 8%nat -> isByteList bs ->
  bs = joinHash64 (bytesValue bs mod 2 ^ 32) ((bytesValue bs / 2 ^ 32) mod 2 ^ 32).
Proof.
  intros Hl Hb. destruct (eight_elements bs Hl) as (b0 & b1 & b2 & b3 & b4 & b5 & b6 & b7 & ->).
  unfold isByteList in Hb.
  repeat match goal with
    | H : Forall _ (_ :: _) |- _ => inversion H; subst; clear H
    end.
  rewrite le32_joinHash64. unfold le32. rewrite !byte_of_word by lia.
  cbn [bytesValue fold_right app].
  change (2 ^ 0) with 1. change (2 ^ 8) with 256. change (2 ^ 16) with 65536.
  change (2 ^ 24) with 16777216. change (2 ^ 32) with 4294967296.
  repeat match goal with |- _ :: _ = _ :: _ => f_equal end;
    try reflexivity; Z.div_mod_to_equations; lia.
Qed.

Lemma digitValue_charCode c d :
  digitValue c = Some d -> charCode c - ZERO_CHAR_CODE_ = d /\ 0 <= d <= 9.
Proof.
  unfold digitValue, charCode, ZERO_CHAR_CODE_.
  destruct ((48 <=? Z.of_nat (nat_of_ascii c)) && (Z.of_nat (nat_of_ascii c) <=? 57))
    eqn:E; [|discriminate].
  intros H. injection H as <-. bool_to_order. lia.
Qed.

Lemma mod64_step acc d :
  (10 * (acc mod 2 ^ 64) + d) mod 2 ^ 64 = (10 * acc + d) mod 2 ^ 64.
Proof.
  change (2 ^ 64) with 18446744073709551616. Z.div_mod_to_equations; lia.
Qed.

(** The digit loop of [decimalStringToHash64] keeps the value read so far,
    modulo 2^64, in the eight bytes. *)
Lemma digits_fold s : forall acc bytes v,
  List.length bytes = 8%nat -> isByteList bytes ->
  bytesValue bytes = acc mod 2 ^ 64 ->
  parseDecimal_from s acc = Some v ->
  let bytes' :=
    fold_left (fun bytes ch => muladd 10 (charCode ch - ZERO_CHAR_CODE_) bytes)
      (list_ascii_of_string s) bytes in
  List.length bytes' = 8%nat /\ isByteList bytes'
  /\ bytesValue bytes' = v mod 2 ^ 64.
Proof.
  induction s as [|c s IH]; intros acc bytes v Hl Hb Hv Hp.
  - cbn in Hp. injection Hp as <-. cbn [list_ascii_of_string fold_left]. auto.
  - cbn [parseDecimal_from] in Hp. destruct (digitValue c) as [d|] eqn:Hd; [|discriminate].
    destruct (digitValue_charCode c d Hd) as [Hc Rd].
    cbn [list_ascii_of_string fold_left]. rewrite Hc.
    destruct (muladd_spec 10 d bytes Hl ltac:(lia) ltac:(lia) Hb) as (Hl' & Hb' & Hv').
    apply (IH (10 * acc + d) _ v Hl' Hb'); [|exact Hp].
    rewrite Hv', Hv. apply mod64_step.
Qed.

Lemma minus_match {A} (c : ascii) (rest : string) (yes no : A) :
  match String c rest with
  | String "-" r => yes
  | _ => no
  end = if Ascii.eqb c "-" then yes else no.
Proof.
  destruct c as [[] [] [] [] [] [] [] []]; reflexivity.
Qed.

Lemma zero_bytes :
  List.length [0; 0; 0; 0; 0; 0; 0; 0] = 8%nat
  /\ isByteList [0; 0; 0; 0; 0; 0; 0; 0]
  /\ bytesValue [0; 0; 0; 0; 0; 0; 0; 0] = 0 mod 2 ^ 64.
Proof. split; [reflexivity|]. split; [repeat constructor; lia | reflexivity]. Qed.


Lemma hash_of_bytes bytes v :
  List.length bytes = 8%nat -> isByteList bytes ->
  bytesValue bytes = v mod 2 ^ 64 ->
  byteArrayToString bytes = Return (hashOf v).
Proof.
  intros Hl Hb Hv. rewrite byteArrayToString_spec.
  rewrite fromCharCode_bytes by exact Hb. f_equal.
  rewrite (bytes_joinHash64 bytes Hl Hb) at 1. rewrite Hv. unfold hashOf.
  destruct (split_mod64 v) as [E1 E2]. rewrite E1, E2. reflexivity.
Qed.

Lemma decimalStringToHash64_digits s v :
  s <> EmptyString -> parseDecimal_from s 0 = Some v ->
  decimalStringToHash64 s = Return (hashOf v).
Proof.
  intros Hne Hp. destruct s as [|c s0]; [congruence|].
  unfold decimalStringToHash64.
  change (Z.of_nat (String.length (String c s0)) >? 0) with
    (Z.pos (Pos.of_succ_nat (String.length s0)) >? 0).
  change (Z.pos (Pos.of_succ_nat (String.length s0)) >? 0) with true. cbv iota.
  rewrite (minus_match c s0).
  assert (Hc : Ascii.eqb c "-" = false).
  { destruct (Ascii.eqb_spec c "-") as [->|]; [|reflexivity].
    cbn in Hp. discriminate. }
  rewrite Hc.
  destruct zero_bytes as (Hl & Hb & Hv).
  destruct (digits_fold (String c s0) 0 _ v Hl Hb Hv Hp) as (Hl' & Hb' & Hv').
  apply hash_of_bytes; assumption.
Qed.

Lemma decimalStringToHash64_minus s v :
  parseDecimal_from s 0 = Some v ->
  decimalStringToHash64 (String "-" s) = Return (hashOf (- v)).
Proof.
  intros Hp. unfold decimalStringToHash64.
  change (Z.of_nat (String.length (String "-" s)) >? 0) with
    (Z.pos (Pos.of_succ_nat (String.length s)) >? 0).
  change (Z.pos (Pos.of_succ_nat (String.length s)) >? 0) with true. cbv iota.
  destruct zero_bytes as (Hl & Hb & Hv).
  destruct (digits_fold s 0 _ v Hl Hb Hv Hp) as (Hl' & Hb' & Hv').
  cbv zeta in *.
  set (bytes := fold_left _ (list_ascii_of_string s) _) in *.
  destruct (neg_spec bytes Hl' Hb') as (Hl2 & Hb2 & Hv2).
  destruct (muladd_spec 1 1 (neg bytes) Hl2 ltac:(lia) ltac:(lia) Hb2)
    as (Hl3 & Hb3 & Hv3).
  apply hash_of_bytes; [exact Hl3 | exact Hb3 |].
  rewrite Hv3, Hv2, Hv'. change (2 ^ 64) with 18446744073709551616.
  Z.div_mod_to_equations; lia.
Qed.

(** ** Decimal strings and hash strings *)

Lemma decimalStringToHash64_empty :
  decimalStringToHash64 EmptyString = Throw AssertionError.
Proof. reflexivity. Qed.

Lemma decimalStringToHash64_number v :
  - 2 ^ 63 <= v < 2 ^ 64 ->
  decimalStringToHash64 (Number_toString v) = Return (hashOf v).
Proof.
  intros Hv. destruct (Z.lt_ge_cases v 0) as [Hneg|Hpos].
  - rewrite Number_toString_neg by exact Hneg.
    destruct (Number_toString_canonical 20 (- v)) as (Hp & _).
    { change (10 ^ Z.of_nat 20) with 100000000000000000000.
      change (2 ^ 63) with 9223372036854775808 in Hv. lia. }
    rewrite (decimalStringToHash64_minus _ _ Hp). rewrite Z.opp_involutive.
    reflexivity.
  - destruct (Number_toString_canonical 20 v) as (Hp & c & s' & Hs & _).
    { change (10 ^ Z.of_nat 20) with 100000000000000000000.
      change (2 ^ 64) with 18446744073709551616 in Hv. lia. }
    apply decimalStringToHash64_digits; [|exact Hp]. rewrite Hs. discriminate.
Qed.

Lemma decimalStringToHash64_joinUnsigned lo hi :
  u32 lo -> u32 hi ->
  decimalStringToHash64 (joinUnsignedDecimalString lo hi) = Return (joinHash64 lo hi).
Proof.
  intros Hlo Hhi. rewrite joinUnsignedDecimalString_spec by assumption.
  rewrite decimalStringToHash64_number.
  - unfold hashOf. destruct (join64_words lo hi Hlo Hhi) as [-> ->]. reflexivity.
  - unfold u32, join64, JS.TWO_TO_32 in *.
    change (2 ^ 63) with 9223372036854775808.
    change (2 ^ 64) with 18446744073709551616. lia.
Qed.

Lemma int64_of_split_words lo hi :
  u32 lo -> u32 hi ->
  - 2 ^ 63 <= int64_of_split lo hi < 2 ^ 63
  /\ int64_of_split lo hi mod 2 ^ 32 = lo
  /\ (int64_of_split lo hi / 2 ^ 32) mod 2 ^ 32 = hi.
Proof.
  intros Hlo Hhi. unfold int64_of_split.
  rewrite !toUint32_id by assumption.
  unfold u32, join64, JS.TWO_TO_32 in *.
  change (2 ^ 63) with 9223372036854775808.
  change (2 ^ 64) with 18446744073709551616. change (2 ^ 32) with 4294967296 in *.
  destruct (Z.ltb_spec (hi * 4294967296 + lo) 9223372036854775808);
    repeat split; try lia; Z.div_mod_to_equations; lia.
Qed.

Lemma decimalStringToHash64_joinSigned lo hi :
  u32 lo -> u32 hi ->
  decimalStringToHash64 (joinSignedDecimalString lo hi) = Return (joinHash64 lo hi).
Proof.
  intros Hlo Hhi. rewrite joinSignedDecimalString_spec by assumption.
  destruct (int64_of_split_words lo hi Hlo Hhi) as (Hr & E1 & E2).
  rewrite decimalStringToHash64_number.
  - unfold hashOf. rewrite E1, E2. reflexivity.
  - change (2 ^ 63) with 9223372036854775808 in *.
    change (2 ^ 64) with 18446744073709551616. lia.
Qed.

(** Writing the numeral of a signed 64-bit integer as a zigzag varint does
    what writing the integer itself does. *)
Lemma writeZigzagVarint64String_number v :
  - 2 ^ 63 <= v < 2 ^ 63 ->
  forall e,
    BinaryEncoder.writeZigzagVarint64String (Number_toString v) e
    = BinaryEncoder.writeZigzagVarint64 v e.
Proof.
  intros Hv e. unfold BinaryEncoder.writeZigzagVarint64String.
  rewrite decimalStringToHash64_number
    by (change (2 ^ 63) with 9223372036854775808 in *;
        change (2 ^ 64) with 18446744073709551616; lia).
  unfold BinaryEncoder.writeZigzagVarintHash64, hashOf.
  rewrite splitHash64_joinHash64. cbn [split64Low split64High].
  destruct (split_int64 v Hv) as (Hlo & Hhi & _).
  rewrite !toUint32_id by assumption.
  pose proof (toZigzag64_split v Hv) as Hz.
  rewrite toZigzag64_eq in Hz. rewrite toZigzag64_eq.
  unfold BinaryEncoder.writeZigzagVarint64.
  rewrite assert_range
    by (unfold BinaryEncoder.TWO_TO_63; change (2 ^ 63) with 9223372036854775808 in Hv; lia).
  destruct (splitZigzag64 v) as [a b]. cbn [split64Low split64High].
  injection Hz as Ha Hb. rewrite Ha, Hb. reflexivity.
Qed.

(** ** Classes [UInt64] and [Int64]: multiplication and decimal strings *)

Lemma shr_div x n : u32 x -> 0 <= n < 32 -> x .>>> n = x / 2 ^ n.
Proof.
  intros Hx Hn. unfold JS.shr. rewrite toUint32_id by exact Hx.
  rewrite (Z.mod_small n 32) by lia. apply Z.shiftr_div_pow2. lia.
Qed.

Lemma mul32x32_carry_spec productLow productHigh :
  0 <= productLow < 3 * 2 ^ 32 ->
  UInt64.mul32x32_carry 3 productLow productHigh
  = Return (productLow mod 2 ^ 32, productHigh + productLow / 2 ^ 32).
Proof.
  change (2 ^ 32) with 4294967296. intros H. cbn [UInt64.mul32x32_carry].
  change 0x100000000 with 4294967296.
  destruct (Z.geb_spec productLow 4294967296);
    [destruct (Z.geb_spec (productLow - 4294967296) 4294967296);
       [destruct (Z.geb_spec (productLow - 4294967296 - 4294967296) 4294967296);
          [lia|]|]|];
    f_equal; f_equal; Z.div_mod_to_equations; lia.
Qed.

Lemma halves16 a :
  u32 a ->
  0 <= a mod 2 ^ 16 < 2 ^ 16 /\ 0 <= a / 2 ^ 16 < 2 ^ 16
  /\ a = a mod 2 ^ 16 + 2 ^ 16 * (a / 2 ^ 16).
Proof.
  unfold u32, JS.TWO_TO_32. change (2 ^ 16) with 65536. intros H.
  repeat split; Z.div_mod_to_equations; lia.
Qed.

Lemma product16 x y :
  0 <= x < 2 ^ 16 -> 0 <= y < 2 ^ 16 -> 0 <= x * y <= 65535 * 65535.
Proof. change (2 ^ 16) with 65536. intros Hx Hy. nia. Qed.

(** [mul32x32] is the exact product of two 32-bit words; two carries
    suffice. *)
Lemma mul32x32_spec a b :
  u32 a -> u32 b ->
  exists p, UInt64.mul32x32 a b = Return p
            /\ UInt64.wf p /\ UInt64.value p = a * b.
Proof.
  intros Ha Hb. unfold UInt64.mul32x32. cbv zeta.
  change 0xffff with (Z.ones 16). rewrite !(and_ones a), !(and_ones b) by lia.
  rewrite (shr_div a), (shr_div b) by (assumption || lia).
  destruct (halves16 a Ha) as (HaL & HaH & Ea).
  destruct (halves16 b Hb) as (HbL & HbH & Eb).
  set (aL := a mod 2 ^ 16) in *. set (aH := a / 2 ^ 16) in *.
  set (bL := b mod 2 ^ 16) in *. set (bH := b / 2 ^ 16) in *.
  clearbody aL aH bL bH. subst a b.
  pose proof (product16 aL bL HaL HbL) as P1.
  pose proof (product16 aL bH HaL HbH) as P2.
  pose proof (product16 aH bL HaH HbL) as P3.
  pose proof (product16 aH bH HaH HbH) as P4.
  replace ((aL + 2 ^ 16 * aH) * (bL + 2 ^ 16 * bH))
    with (aL * bL + 2 ^ 16 * (aL * bH + aH * bL) + 2 ^ 32 * (aH * bH)) by ring.
  set (p1 := aL * bL) in *. set (p2 := aL * bH) in *.
  set (p3 := aH * bL) in *. set (p4 := aH * bH) in *.
  clearbody p1 p2 p3 p4.
  rewrite !and_ones by lia.
  rewrite (shr_div p2), (shr_div p3) by (unfold u32, JS.TWO_TO_32; lia).
  change 0x10000 with 65536.
  rewrite mul32x32_carry_spec
    by (change (2 ^ 32) with 4294967296; change (2 ^ 16) with 65536;
        Z.div_mod_to_equations; lia).
  cbn [UInt64.andThen]. eexists. split; [reflexivity|]. split.
  - apply uint64_mk_wf.
  - unfold UInt64.value, join64, JS.TWO_TO_32. cbn [UInt64.lo UInt64.hi].
    rewrite !shr0_mod.
    change (2 ^ 32) with 4294967296. change (2 ^ 16) with 65536.
    Z.div_mod_to_equations; lia.
Qed.

(** [mul] multiplies modulo 2^64. *)
Lemma mul_spec x a :
  UInt64.wf x -> u32 a ->
  exists r, UInt64.mul x a = Return r
            /\ UInt64.wf r /\ UInt64.value r = (UInt64.value x * a) mod 2 ^ 64.
Proof.
  intros [Hl Hh] Ha. unfold UInt64.mul.
  destruct (mul32x32_spec (UInt64.lo x) a Hl Ha) as (pl & -> & Wl & Vl).
  destruct (mul32x32_spec (UInt64.hi x) a Hh Ha) as (ph & -> & Wh & Vh).
  cbn [UInt64.andThen]. eexists. split; [reflexivity|]. split; [apply add_wf|].
  assert (Wh' : UInt64.wf (UInt64.mk 0 (UInt64.lo ph))).
  { split; cbn [UInt64.lo UInt64.hi]; [unfold u32, JS.TWO_TO_32; lia | apply Wh]. }
  rewrite add_value by assumption. rewrite Vl.
  destruct Wh as [Whl Whh].
  unfold UInt64.value, join64, JS.TWO_TO_32 in *. cbn [UInt64.lo UInt64.hi].
  replace ((UInt64.hi x * 4294967296 + UInt64.lo x) * a)
    with (UInt64.hi x * a * 4294967296 + UInt64.lo x * a) by ring.
  rewrite <- Vh. unfold u32, JS.TWO_TO_32 in *.
  set (m := UInt64.lo x * a). clearbody m.
  change (2 ^ 64) with 18446744073709551616.
  Z.div_mod_to_equations; lia.
Qed.

Lemma zero64_wf : UInt64.wf (UInt64.mk 0 0).
Proof. split; cbn [UInt64.lo UInt64.hi]; unfold u32, JS.TWO_TO_32; lia. Qed.

Lemma digit_test c :
  (charCode c <? charCode "0") || (charCode c >? charCode "9")
  = match digitValue c with Some _ => false | None => true end.
Proof.
  change (charCode "0") with 48. change (charCode "9") with 57.
  unfold digitValue, charCode.
  destruct (Z.ltb_spec (Z.of_nat (nat_of_ascii c)) 48),
    (Z.gtb_spec (Z.of_nat (nat_of_ascii c)) 57),
    (Z.leb_spec 48 (Z.of_nat (nat_of_ascii c))),
    (Z.leb_spec (Z.of_nat (nat_of_ascii c)) 57); cbn [orb andb];
    try reflexivity; lia.
Qed.

(** The digit loop of [UInt64.fromString] holds the value read so far modulo
    2^64, and stops with [null] at the first character that is no digit. *)
Lemma fromString_loop_spec s : forall acc result,
  UInt64.wf result -> UInt64.value result = acc mod 2 ^ 64 ->
  match parseDecimal_from s acc with
  | Some v => exists x, UInt64.fromString_loop s result = Return (Some x)
                        /\ UInt64.wf x /\ UInt64.value x = v mod 2 ^ 64
  | None => UInt64.fromString_loop s result = Return None
  end.
Proof.
  induction s as [|c s IH]; intros acc result Hw Hv.
  - cbn [parseDecimal_from UInt64.fromString_loop]. exists result. auto.
  - cbn [parseDecimal_from UInt64.fromString_loop]. rewrite digit_test.
    destruct (digitValue c) as [d|] eqn:Hd; [|reflexivity].
    destruct (digitValue_charCode c d Hd) as [Hc Rd].
    unfold ZERO_CHAR_CODE_ in Hc. rewrite Hc.
    destruct (mul_spec result 10 Hw ltac:(unfold u32, JS.TWO_TO_32; lia))
      as (r & -> & Wr & Vr).
    cbn [UInt64.andThen].
    apply IH; [apply add_wf|].
    assert (Wd : UInt64.wf (UInt64.mk d 0))
      by (split; cbn [UInt64.lo UInt64.hi]; unfold u32, JS.TWO_TO_32; lia).
    rewrite add_value by assumption. rewrite Vr, Hv.
    unfold UInt64.value, join64. cbn [UInt64.lo UInt64.hi].
    change (2 ^ 64) with 18446744073709551616.
    Z.div_mod_to_equations; lia.
Qed.

(** Division by a non-zero 32-bit word: quotient and remainder. *)
Lemma div_nonzero x d :
  UInt64.wf x -> u32 d -> d <> 0 ->
  exists q r,
    UInt64.div x d = Return [q; r]
    /\ UInt64.wf q /\ UInt64.wf r
    /\ UInt64.value x = UInt64.value q * d + UInt64.value r
    /\ UInt64.value r < d.
Proof.
  intros Hx Hd Hnz. unfold UInt64.div.
  destruct (Z.eqb_spec d 0) as [|_]; [contradiction|].
  assert (Hd1 : 1 <= d) by (unfold u32 in Hd; lia).
  assert (Hwd : UInt64.wf (UInt64.mk d 0))
    by (split; cbn [UInt64.lo UInt64.hi]; unfold u32, JS.TWO_TO_32 in *; lia).
  assert (Hwu : UInt64.wf (UInt64.mk 1 0))
    by (split; cbn [UInt64.lo UInt64.hi]; unfold u32, JS.TWO_TO_32; lia).
  destruct (div_align_spec d 63 (UInt64.mk d 0) (UInt64.mk 1 0) 0)
    as (divisor & unit & k & Hrun & Hwd' & Hwu' & Hk & Hvd & Hvu & Hmsb);
    try assumption; try lia.
  { unfold UInt64.value, join64. cbn [UInt64.lo UInt64.hi]. lia. }
  { reflexivity. }
  { unfold UInt64.value, join64. cbn [UInt64.lo UInt64.hi].
    change (2 ^ Z.of_nat 63) with (2 ^ 63). lia. }
  rewrite Hrun.
  pose proof (uint64_value_range _ Hwd') as Rd.
  pose proof (uint64_value_range _ Hx) as Rx.
  assert (Hk64 : k < 64).
  { apply (Z.pow_lt_mono_r_iff 2); [lia | lia |].
    assert (0 < 2 ^ k) by (apply Z.pow_pos_nonneg; lia). nia. }
  assert (Hwx : UInt64.wf (UInt64.mk (UInt64.lo x) (UInt64.hi x)))
    by (destruct x; exact Hx).
  destruct (div_loop_spec (UInt64.value x) d (Z.to_nat k) 65
              (UInt64.mk 0 0) (UInt64.mk (UInt64.lo x) (UInt64.hi x))
              divisor unit)
    as (q & r & Hloop & Hwq & Hwr & Hval & Hrem);
    try assumption; try lia; try apply zero64_wf.
  { rewrite Z2Nat.id by lia. exact Hvu. }
  { rewrite Z2Nat.id by lia. exact Hvd. }
  { destruct x. unfold UInt64.value, join64. cbn [UInt64.lo UInt64.hi]. lia. }
  { rewrite Z2Nat.id by lia. rewrite Z.pow_add_r by lia. change (2 ^ 1) with 2.
    destruct x. unfold UInt64.value in *. cbn [UInt64.lo UInt64.hi] in *. lia. }
  rewrite Hloop. exists q, r. repeat split; try assumption; apply Hwq || apply Hwr.
Qed.

Lemma toString_loop_S fuel num result :
  UInt64.toString_loop (S fuel) num result
  = if negb (UInt64.zero num) then
      UInt64.andThen (UInt64.div num 10) (fun divResult =>
        match divResult with
        | [quotient; remainder] =>
            UInt64.toString_loop fuel quotient
              (Number_toString (UInt64.lo remainder) ++ result)%string
        | _ => Throw TypeError
        end)
    else Return result.
Proof. reflexivity. Qed.


(** The digit loop of [UInt64.toString] puts the numeral of a positive number
    in front of what it has. *)
Lemma toString_loop_spec fuel : forall num result,
  UInt64.wf num -> UInt64.value num < 10 ^ Z.of_nat fuel ->
  UInt64.toString_loop (S fuel) num result
  = Return (if UInt64.value num =? 0 then result
            else (Number_toString (UInt64.value num) ++ result)%string).
Proof.
  induction fuel as [|fuel IH]; intros num result Hw Hv;
    pose proof (uint64_value_range _ Hw) as Rn;
    rewrite toString_loop_S, (zero_value _ Hw);
    destruct (Z.eqb_spec (UInt64.value num) 0) as [Hz|Hnz]; cbn [negb];
    try reflexivity.
  - change (10 ^ Z.of_nat 0) with 1 in Hv. lia.
  - destruct (div_nonzero num 10 Hw ltac:(unfold u32, JS.TWO_TO_32; lia) ltac:(lia))
      as (q & r & -> & Wq & Wr & Hval & Hrem).
    cbn [UInt64.andThen].
    pose proof (uint64_value_range _ Wq) as Rq.
    pose proof (uint64_value_range _ Wr) as Rr.
    assert (Hq : UInt64.value q = UInt64.value num / 10)
      by (Z.div_mod_to_equations; lia).
    assert (Hr : UInt64.lo r = UInt64.value num mod 10).
    { destruct Wr as [Wrl Wrh]. unfold UInt64.value, join64, u32, JS.TWO_TO_32 in *.
      Z.div_mod_to_equations; lia. }
    rewrite IH; [|exact Wq|].
    2:{ replace (Z.of_nat (S fuel)) with (1 + Z.of_nat fuel) in Hv by lia.
        rewrite Z.pow_add_r in Hv by lia. change (10 ^ 1) with 10 in Hv.
        rewrite Hq. apply Z.div_lt_upper_bound; lia. }
    f_equal. rewrite Hq, Hr.
    pose proof (Z.mod_pos_bound (UInt64.value num) 10 ltac:(lia)) as Rm.
    rewrite (Number_toString_digit (UInt64.value num mod 10)) by lia.
    destruct (Z.eqb_spec (UInt64.value num / 10) 0) as [Hq0|Hq0].
    + rewrite Number_toString_digit by (Z.div_mod_to_equations; lia).
      rewrite Z.mod_small by (Z.div_mod_to_equations; lia). reflexivity.
    + rewrite (Number_toString_step (UInt64.value num))
        by (Z.div_mod_to_equations; lia).
      rewrite string_app_assoc. reflexivity.
Qed.

Lemma toString_spec x :
  UInt64.wf x -> UInt64.toString x = Return (Number_toString (UInt64.value x)).
Proof.
  intros Hw. unfold UInt64.toString.
  pose proof (uint64_value_range _ Hw) as Rn.
  rewrite toString_loop_spec;
    [|exact Hw
     |change (10 ^ Z.of_nat 20) with 100000000000000000000;
      change (2 ^ 64) with 18446744073709551616 in Rn; lia].
  cbn [UInt64.andThen]. f_equal.
  destruct (Z.eqb_spec (UInt64.value x) 0) as [->|Hnz]; [reflexivity|].
  destruct (Number_toString_canonical 20 (UInt64.value x)) as (_ & c & s' & -> & _).
  { change (10 ^ Z.of_nat 20) with 100000000000000000000.
    change (2 ^ 64) with 18446744073709551616 in Rn. lia. }
  rewrite string_app_cons. f_equal.
  clear. induction s' as [|y s' IH]; [reflexivity|].
  rewrite string_app_cons, IH. reflexivity.
Qed.

Lemma uint64_value_inj x y :
  UInt64.wf x -> UInt64.wf y -> UInt64.value x = UInt64.value y -> x = y.
Proof.
  destruct x as [xl xh], y as [yl yh]. intros [Hxl Hxh] [Hyl Hyh].
  unfold UInt64.value, join64, u32, JS.TWO_TO_32 in *.
  cbn [UInt64.lo UInt64.hi] in *. intros H.
  assert (xh = yh) by lia. assert (xl = yl) by lia. congruence.
Qed.

Lemma fromString_digits s v :
  parseDecimal_from s 0 = Some v ->
  exists x, UInt64.fromString s = Return (Some x)
            /\ UInt64.wf x /\ UInt64.value x = v mod 2 ^ 64.
Proof.
  intros Hp. unfold UInt64.fromString.
  pose proof (fromString_loop_spec s 0 (UInt64.mk 0 0) zero64_wf eq_refl) as H.
  rewrite Hp in H. exact H.
Qed.

Lemma fromString_not_digits s :
  parseDecimal_from s 0 = None -> UInt64.fromString s = Return None.
Proof.
  intros Hp. unfold UInt64.fromString.
  pose proof (fromString_loop_spec s 0 (UInt64.mk 0 0) zero64_wf eq_refl) as H.
  rewrite Hp in H. exact H.
Qed.

Lemma parse_numeral v :
  0 <= v < 2 ^ 64 -> parseDecimal_from (Number_toString v) 0 = Some v.
Proof.
  intros Hv. apply (Number_toString_canonical 20).
  change (10 ^ Z.of_nat 20) with 100000000000000000000.
  change (2 ^ 64) with 18446744073709551616 in Hv. lia.
Qed.

Lemma uint64_string_roundtrip x :
  UInt64.wf x ->
  UInt64.toString x = Return (Number_toString (UInt64.value x))
  /\ UInt64.fromString (Number_toString (UInt64.value x)) = Return (Some x).
Proof.
  intros Hw. split; [apply toString_spec; exact Hw|].
  pose proof (uint64_value_range _ Hw) as Rn.
  destruct (fromString_digits _ _ (parse_numeral _ Rn)) as (y & -> & Wy & Vy).
  rewrite Z.mod_small in Vy by exact Rn.
  rewrite (uint64_value_inj y x Wy Hw Vy). reflexivity.
Qed.

Lemma numeral_not_minus v c s :
  0 <= v < 2 ^ 64 -> Number_toString v = String c s -> Ascii.eqb c "-" = false.
Proof.
  intros Hv Hs. pose proof (parse_numeral v Hv) as Hp. rewrite Hs in Hp.
  destruct (Ascii.eqb_spec c "-") as [->|]; [|reflexivity].
  cbn in Hp. discriminate.
Qed.

Lemma int64_toString_spec lo hi :
  u32 lo -> u32 hi ->
  Int64.toString (Int64.mk lo hi) = Return (Number_toString (int64_of_split lo hi)).
Proof.
  intros Hlo Hhi. unfold Int64.toString. cbn [Int64.lo Int64.hi].
  rewrite and_signbit_zero, negb_involutive, (u32_bit31 hi Hhi).
  assert (Hw : UInt64.wf (UInt64.mk lo hi)) by (split; assumption).
  unfold int64_of_split. rewrite !toUint32_id by assumption.
  pose proof (uint64_value_range _ Hw) as Rn.
  unfold UInt64.value in Rn. cbn [UInt64.lo UInt64.hi] in Rn.
  destruct (Z.leb_spec (2 ^ 31) hi) as [Hneg|Hpos].
  - rewrite toString_spec by apply sub_wf.
    rewrite sub_value by (apply zero64_wf || exact Hw).
    cbn [UInt64.andThen]. f_equal.
    unfold UInt64.value at 1 2. cbn [UInt64.lo UInt64.hi].
    change (join64 0 0) with 0.
    unfold u32, join64, JS.TWO_TO_32 in *.
    change (2 ^ 31) with 2147483648 in Hneg.
    change (2 ^ 63) with 9223372036854775808.
    change (2 ^ 64) with 18446744073709551616 in *.
    destruct (Z.ltb_spec (hi * 4294967296 + lo) 9223372036854775808); [lia|].
    rewrite (Number_toString_neg (hi * 4294967296 + lo - 18446744073709551616)) by lia.
    rewrite string_app_cons, string_app_nil_l.
    f_equal. f_equal. Z.div_mod_to_equations; lia.
  - rewrite toString_spec by exact Hw. cbn [UInt64.andThen]. f_equal.
    rewrite string_app_nil_l. f_equal.
    unfold UInt64.value. cbn [UInt64.lo UInt64.hi].
    unfold u32, join64, JS.TWO_TO_32 in *.
    change (2 ^ 31) with 2147483648 in Hpos.
    change (2 ^ 63) with 9223372036854775808.
    destruct (Z.ltb_spec (hi * 4294967296 + lo) 9223372036854775808); [reflexivity|lia].
Qed.

Lemma int64_fromString_numeral v :
  - 2 ^ 63 <= v < 2 ^ 64 ->
  Int64.fromString (Number_toString v)
  = Return (Some (Int64.mk (v mod 2 ^ 32) ((v / 2 ^ 32) mod 2 ^ 32))).
Proof.
  intros Hv. unfold Int64.fromString.
  assert (Hsplit : forall x w, UInt64.wf x -> UInt64.value x = w mod 2 ^ 64 ->
            Int64.mk (UInt64.lo x) (UInt64.hi x)
            = Int64.mk (w mod 2 ^ 32) ((w / 2 ^ 32) mod 2 ^ 32)).
  { intros x w [Hl Hh] Hx. unfold UInt64.value, join64, u32, JS.TWO_TO_32 in *.
    change (2 ^ 64) with 18446744073709551616 in Hx.
    change (2 ^ 32) with 4294967296.
    f_equal; Z.div_mod_to_equations; lia. }
  destruct (Z.lt_ge_cases v 0) as [Hneg|Hpos].
  - rewrite Number_toString_neg by exact Hneg.
    assert (Rv : 0 <= - v < 2 ^ 64)
      by (change (2 ^ 63) with 9223372036854775808 in Hv;
          change (2 ^ 64) with 18446744073709551616; lia).
    destruct (fromString_digits _ _ (parse_numeral _ Rv)) as (y & -> & Wy & Vy).
    cbn [UInt64.andThen]. f_equal. f_equal.
    apply Hsplit; [apply sub_wf|].
    rewrite sub_value by (apply zero64_wf || exact Wy). rewrite Vy.
    unfold UInt64.value, join64. cbn [UInt64.lo UInt64.hi].
    change (2 ^ 64) with 18446744073709551616.
    Z.div_mod_to_equations; lia.
  - assert (Rv : 0 <= v < 2 ^ 64) by lia.
    destruct (Number_toString_canonical 20 v) as (_ & c & s' & Hs & _).
    { change (10 ^ Z.of_nat 20) with 100000000000000000000.
      change (2 ^ 64) with 18446744073709551616 in Hv. lia. }
    pose proof (numeral_not_minus v c s' Rv Hs) as Hc.
    pose proof (parse_numeral v Rv) as Hp.
    rewrite Hs in *. rewrite (minus_match c s'), Hc.
    destruct (fromString_digits _ _ Hp) as (y & -> & Wy & Vy).
    cbn [UInt64.andThen]. f_equal. f_equal. apply Hsplit; assumption.
Qed.

Lemma int64_string_roundtrip lo hi :
  u32 lo -> u32 hi ->
  Int64.toString (Int64.mk lo hi) = Return (Number_toString (int64_of_split lo hi))
  /\ Int64.fromString (Number_toString (int64_of_split lo hi))
     = Return (Some (Int64.mk lo hi)).
Proof.
  intros Hlo Hhi. split; [apply int64_toString_spec; assumption|].
  destruct (int64_of_split_words lo hi Hlo Hhi) as (Hr & E1 & E2).
  rewrite int64_fromString_numeral
    by (change (2 ^ 63) with 9223372036854775808 in *;
        change (2 ^ 64) with 18446744073709551616; lia).
  rewrite E1, E2. reflexivity.
Qed.

(** ** [skipVarint] and [unskipVarint] *)

Lemma and_pow2_zero h k :
  0 <= k < 32 -> (h .& 2 ^ k =? 0) = negb (Z.testbit h k).
Proof.
  intros Hk. destruct (Z.testbit h k) eqn:Hb; cbn [negb].
  - apply Z.eqb_neq. intros H0.
    assert (Hc : Z.testbit (h .& 2 ^ k) k = true).
    { rewrite and_bits. rewrite Z.min_l by lia. rewrite Hb.
      rewrite Z.pow2_bits_true by lia. reflexivity. }
    rewrite H0, Z.bits_0 in Hc. discriminate.
  - apply Z.eqb_eq. apply Z.bits_inj'. intros i Hi.
    rewrite and_bits, Z.bits_0.
    destruct (Z.eq_dec (Z.min i 31) k) as [->|Hne].
    + rewrite Hb. reflexivity.
    + rewrite (Z.pow2_bits_false k) by lia. apply andb_false_r.
Qed.

Lemma continuation_test b :
  0 <= b < 256 -> negb (b .& 0x80 =? 0) = (128 <=? b).
Proof.
  intros Hb. change 0x80 with (2 ^ 7). rewrite and_pow2_zero by lia.
  rewrite negb_involutive. apply byte_bit7. exact Hb.
Qed.

Lemma bytesAtCursor_length d bs :
  bytesAtCursor d bs ->
  exists b, BinaryDecoder.bytes d = Some b /\ (List.length bs <= List.length b)%nat.
Proof.
  intros [Hc H]. destruct (BinaryDecoder.bytes d) as [b|]; [|contradiction].
  exists b. split; [reflexivity|]. rewrite <- H at 1.
  rewrite length_firstn, length_skipn. lia.
Qed.

Lemma set_cursor_same d : BinaryDecoder.set_cursor (BinaryDecoder.cursor d) d = d.
Proof. destruct d. reflexivity. Qed.

Lemma skipVarint_loop_S b fuel d :
  BinaryDecoder.skipVarint_loop b (S fuel) d
  = if negb (BinaryDecoder.num (BinaryDecoder.index b (BinaryDecoder.cursor d))
             .& 0x80 =? 0)
    then BinaryDecoder.skipVarint_loop b fuel
           (BinaryDecoder.set_cursor (BinaryDecoder.cursor d + 1) d)
    else (Return tt, d).
Proof.
  cbn [BinaryDecoder.skipVarint_loop]. unfold bind, get, BinaryDecoder.addCursor, modify, ret.
  destruct (negb _); reflexivity.
Qed.

(** The loop of [skipVarint] stops on the last byte of a well-formed
    varint. *)
Lemma skipVarint_loop_spec b : forall bs fuel d,
  BinaryDecoder.bytes d = Some b -> bytesAtCursor d bs ->
  wellFormedVarint bs = true -> (List.length bs <= fuel)%nat ->
  BinaryDecoder.skipVarint_loop b fuel d
  = (Return tt,
     BinaryDecoder.set_cursor
       (BinaryDecoder.cursor d + Z.of_nat (List.length bs) - 1) d).
Proof.
  induction bs as [|b0 rest IH]; intros fuel d Hb Hd Hwf Hf; [discriminate|].
  destruct fuel as [|fuel]; [cbn [List.length] in Hf; lia|].
  rewrite skipVarint_loop_S.
  destruct (bytesAtCursor_index d _ Hd) as (b' & Hb' & Hi).
  rewrite Hb in Hb'. injection Hb' as <-.
  pose proof (Hi 0%nat 0 b0 eq_refl eq_refl) as H0. rewrite Z.add_0_r in H0.
  rewrite H0. cbn [BinaryDecoder.num].
  destruct rest as [|b1 rest].
  - pose proof (wf_last b0 Hwf) as Rb.
    rewrite continuation_test by lia.
    destruct (Z.leb_spec 128 b0); [lia|].
    cbn [List.length]. replace (BinaryDecoder.cursor d + Z.of_nat 1 - 1)
      with (BinaryDecoder.cursor d) by lia.
    rewrite set_cursor_same. reflexivity.
  - destruct (wf_cons_cont b0 b1 rest Hwf) as [Rb Hwf'].
    rewrite continuation_test by lia.
    destruct (Z.leb_spec 128 b0); [|lia].
    destruct (bytesAtCursor_app d [b0] (b1 :: rest) Hd) as [_ Hd'].
    change (Z.of_nat (List.length [b0])) with 1 in Hd'.
    rewrite (IH fuel (BinaryDecoder.set_cursor (BinaryDecoder.cursor d + 1) d)
               Hb Hd' Hwf' ltac:(cbn [List.length] in *; lia)).
    rewrite set_cursor_set_cursor.
    cbn [BinaryDecoder.cursor BinaryDecoder.set_cursor]. do 2 f_equal.
    cbn [List.length]. lia.
Qed.

(** [skipVarint] steps over a well-formed varint of any length and never
    looks at the end of the block. *)
Lemma skipVarint_spec bs :
  wellFormedVarint bs = true -> readsUnchecked BinaryDecoder.skipVarint bs tt.
Proof.
  intros Hwf d Hd. destruct (bytesAtCursor_length d bs Hd) as (b & Hb & Hl).
  unfold BinaryDecoder.skipVarint, bind at 1, get. rewrite Hb.
  unfold bind. rewrite (skipVarint_loop_spec b bs (S (List.length b)) d Hb Hd Hwf ltac:(lia)).
  unfold BinaryDecoder.addCursor, modify.
  rewrite set_cursor_set_cursor.
  cbn [BinaryDecoder.cursor BinaryDecoder.set_cursor]. do 2 f_equal. lia.
Qed.

(** Without bytes [skipVarint] does nothing. *)
Lemma skipVarint_no_bytes d :
  BinaryDecoder.bytes d = None -> BinaryDecoder.skipVarint d = (Return tt, d).
Proof.
  intros Hb. unfold BinaryDecoder.skipVarint, bind, get. rewrite Hb. reflexivity.
Qed.

Lemma writeUnsignedVarint32_length v :
  u32 v ->
  exists bs,
    appends (BinaryEncoder.writeUnsignedVarint32 v) bs
    /\ Z.of_nat (List.length bs) = varintLength v.
Proof.
  intros Hv.
  assert (H0 : u32 0) by (unfold u32, JS.TWO_TO_32; lia).
  assert (Hj : join64 v 0 < 2 ^ (7 * Z.of_nat 5)).
  { unfold u32, join64, JS.TWO_TO_32 in *.
    change (2 ^ (7 * Z.of_nat 5)) with 34359738368. lia. }
  destruct (writeSplitVarint64_loop_spec 4 v 0 [] Hv H0 Hj)
    as (bs & Hrun & Hwf & Hval & Hlen & Hmin).
  exists bs. split.
  - intros buf. unfold BinaryEncoder.writeUnsignedVarint32.
    rewrite assert_range by exact Hv.
    rewrite writeUnsignedVarint32_loop_split, writeSplitVarint64_loop_frame, Hrun.
    reflexivity.
  - pose proof (wellFormedVarint_bound bs Hwf) as Hb.
    pose proof (wellFormedVarint_nonempty bs Hwf) as Hne.
    rewrite Hval in Hb. unfold join64 in Hb, Hmin.
    replace (0 * JS.TWO_TO_32 + v) with v in * by lia.
    unfold varintLength.
    assert (Hcases : List.length bs = 1%nat \/ List.length bs = 2%nat
                     \/ List.length bs = 3%nat \/ List.length bs = 4%nat
                     \/ List.length bs = 5%nat) by lia.
    destruct Hcases as [E|[E|[E|[E|E]]]]; rewrite E in *;
      cbn in Hb; destruct Hmin as [Hm|Hm]; try discriminate Hm; cbn in Hm;
      repeat match goal with
        | |- context [?a <? ?b] => destruct (Z.ltb_spec a b); try lia
        end.
Qed.

Lemma unskipVarint_loop_S fuel v d :
  BinaryDecoder.unskipVarint_loop (S fuel) v d
  = if v >? 128
    then BinaryDecoder.unskipVarint_loop fuel (v .>>> 7)
           (BinaryDecoder.set_cursor (BinaryDecoder.cursor d + -1) d)
    else (Return tt, BinaryDecoder.set_cursor (BinaryDecoder.cursor d + -1) d).
Proof.
  cbn [BinaryDecoder.unskipVarint_loop].
  unfold bind, BinaryDecoder.addCursor, modify. destruct (v >? 128); reflexivity.
Qed.

Lemma unskipSteps_S fuel v :
  unskipSteps (S fuel) v = if v >? 128 then 1 + unskipSteps fuel (v / 128) else 1.
Proof. reflexivity. Qed.

Lemma unskipVarint_loop_spec : forall fuel v d,
  u32 v -> v < 128 ^ Z.of_nat (S fuel) ->
  BinaryDecoder.unskipVarint_loop (S fuel) v d
  = (Return tt,
     BinaryDecoder.set_cursor
       (BinaryDecoder.cursor d - unskipSteps (S fuel) v) d).
Proof.
  induction fuel as [|fuel IH]; intros v d Hv Hf;
    rewrite unskipVarint_loop_S, (unskipSteps_S _ v);
    destruct (Z.gtb_spec v 128) as [Hgt|Hle];
    try (do 2 f_equal; lia).
  rewrite (shr_div v 7) by (assumption || lia). change (2 ^ 7) with 128.
  assert (Hq : u32 (v / 128))
    by (unfold u32, JS.TWO_TO_32 in *; Z.div_mod_to_equations; lia).
  rewrite IH; [rewrite set_cursor_set_cursor|exact Hq|].
  - cbn [BinaryDecoder.cursor BinaryDecoder.set_cursor]. do 2 f_equal. lia.
  - replace (Z.of_nat (S (S fuel))) with (1 + Z.of_nat (S fuel)) in Hf by lia.
    rewrite Z.pow_add_r in Hf by lia. change (128 ^ 1) with 128 in Hf.
    apply Z.div_lt_upper_bound; lia.
Qed.

Ltac decide_comparisons :=
  repeat match goal with
    | |- context [?a >? ?b] =>
        destruct (Z.gtb_spec a b); try (exfalso; Z.div_mod_to_equations; lia)
    | |- context [?a <? ?b] =>
        destruct (Z.ltb_spec a b); try (exfalso; Z.div_mod_to_equations; lia)
    | |- context [?a <=? ?b] =>
        destruct (Z.leb_spec a b); try (exfalso; Z.div_mod_to_equations; lia)
    end.

Lemma unskipSteps_count v :
  u32 v -> unskipSteps 6 v = varintLength v - unskipShortfall v.
Proof.
  unfold u32, JS.TWO_TO_32. intros Hv.
  assert (Hcases :
    v < 128 \/ v = 128 \/ 129 <= v < 16384 \/ 16384 <= v < 16512
    \/ 16512 <= v < 2097152 \/ 2097152 <= v < 2113536
    \/ 2113536 <= v < 268435456 \/ 268435456 <= v < 270532608
    \/ 270532608 <= v) by lia.
  unfold varintLength, unskipShortfall. cbn [unskipSteps].
  destruct Hcases as [H|[H|[H|[H|[H|[H|[H|[H|H]]]]]]]];
    decide_comparisons; reflexivity.
Qed.

(** [unskipVarint(value)] moves the cursor back by the length of the varint
    of [value], less one when some [value >>> 7k] is exactly 128. *)
Lemma unskipVarint_spec v d :
  u32 v ->
  BinaryDecoder.unskipVarint v d
  = (Return tt,
     BinaryDecoder.set_cursor
       (BinaryDecoder.cursor d - (varintLength v - unskipShortfall v)) d).
Proof.
  intros Hv. unfold BinaryDecoder.unskipVarint.
  rewrite unskipVarint_loop_spec;
    [|exact Hv
     |unfold u32, JS.TWO_TO_32 in Hv; change (128 ^ Z.of_nat 6) with 4398046511104; lia].
  rewrite unskipSteps_count by exact Hv. reflexivity.
Qed.

(** ** Malformed varints, byte blocks, booleans and range checks *)

Ltac continuation_bytes H :=
  repeat match type of H with
    | forallb _ (_ :: _) = true =>
        let Hb := fresh "Hb" in
        cbn [forallb] in H; apply andb_prop in H; destruct H as [Hb H];
        apply andb_prop in Hb; destruct Hb as [?Hl ?Hu];
        apply Z.leb_le in Hl; apply Z.ltb_lt in Hu
    end.

(** Ten bytes with the continuation bit: [readSplitVarint64] gives up with
    an assertion error after the tenth, and the error flag stays as it
    was. *)
Lemma readSplitVarint64_overlong {T} (convert : Z -> Z -> T) bs d :
  List.length bs = 10%nat -> allContinuation bs = true ->
  bytesAtCursor d bs ->
  BinaryDecoder.readSplitVarint64 convert d
  = (Throw AssertionError,
     BinaryDecoder.set_cursor (BinaryDecoder.cursor d + 10) d).
Proof.
  intros Hlen Hc H.
  destruct (bytesAtCursor_index d _ H) as (b & Hb' & Hi). clear H.
  unfold BinaryDecoder.readSplitVarint64. unfold bind at 1, get at 1. rewrite Hb'.
  change (BinaryDecoder.ge128 (Some 128)) with true.
  unfold allContinuation in Hc.
  split_list bs 11%nat; try discriminate Hlen.
  continuation_bytes Hc. cursor_facts Hi. clear Hi.
  repeat first [ use_cursor_facts | varint_step ].
  apply f_equal2; [reflexivity|]. apply f_equal2; [lia | reflexivity].
Qed.

Lemma bytesToArrayEnd_index d bs :
  bytesToArrayEnd d bs ->
  exists b, BinaryDecoder.bytes d = Some b
    /\ forall k z, z = Z.of_nat k ->
         BinaryDecoder.index b (BinaryDecoder.cursor d + z) = nth_error bs k.
Proof.
  intros [Hc H]. destruct (BinaryDecoder.bytes d) as [b|]; [|contradiction].
  exists b. split; [reflexivity|]. intros k z ->.
  unfold BinaryDecoder.index.
  destruct (Z.ltb_spec (BinaryDecoder.cursor d + Z.of_nat k) 0); [lia|].
  replace (Z.to_nat (BinaryDecoder.cursor d + Z.of_nat k))
    with (Z.to_nat (BinaryDecoder.cursor d) + k)%nat by lia.
  rewrite <- H, nth_error_skipn. reflexivity.
Qed.

Ltac end_facts Hi :=
  pose proof (Hi 0%nat 0 eq_refl) as F0; rewrite Z.add_0_r in F0;
  pose proof (Hi 1%nat 1 eq_refl) as F1;
  pose proof (Hi 2%nat (1 + 1) eq_refl) as F2;
  pose proof (Hi 3%nat (1 + 1 + 1) eq_refl) as F3;
  pose proof (Hi 4%nat (1 + 1 + 1 + 1) eq_refl) as F4;
  pose proof (Hi 5%nat (1 + 1 + 1 + 1 + 1) eq_refl) as F5;
  pose proof (Hi 6%nat (1 + 1 + 1 + 1 + 1 + 1) eq_refl) as F6;
  pose proof (Hi 7%nat (1 + 1 + 1 + 1 + 1 + 1 + 1) eq_refl) as F7;
  pose proof (Hi 8%nat (1 + 1 + 1 + 1 + 1 + 1 + 1 + 1) eq_refl) as F8;
  pose proof (Hi 9%nat (1 + 1 + 1 + 1 + 1 + 1 + 1 + 1 + 1) eq_refl) as F9;
  cbn [nth_error] in *;
  rewrite ?Z.add_assoc in *.

Ltac use_end_facts :=
  match goal with
  | F : BinaryDecoder.index _ _ = _ |- _ => rewrite F
  end.

(** A varint that the end of the array cuts short, or that is not there at
    all: [readSplitVarint64] reads one element past the array and gives up
    with an assertion error. *)
Lemma readSplitVarint64_truncated {T} (convert : Z -> Z -> T) bs d :
  (List.length bs < 10)%nat -> allContinuation bs = true ->
  bytesToArrayEnd d bs ->
  BinaryDecoder.readSplitVarint64 convert d
  = (Throw AssertionError,
     BinaryDecoder.set_cursor
       (BinaryDecoder.cursor d + Z.of_nat (List.length bs) + 1) d).
Proof.
  intros Hlen Hc H.
  destruct (bytesToArrayEnd_index d _ H) as (b & Hb' & Hi). clear H.
  unfold BinaryDecoder.readSplitVarint64. unfold bind at 1, get at 1. rewrite Hb'.
  change (BinaryDecoder.ge128 (Some 128)) with true.
  unfold allContinuation in Hc.
  split_list bs 10%nat; try (cbn [List.length] in Hlen; lia);
    continuation_bytes Hc; end_facts Hi; clear Hi;
    repeat first [ use_end_facts | varint_step ];
    (apply f_equal2; [reflexivity|]);
    (apply f_equal2; [cbn [List.length]; lia | reflexivity]).
Qed.





Lemma bool_roundtrip value :
  appends (BinaryEncoder.writeBool value) [if value then 1 else 0]
  /\ readsUnchecked BinaryDecoder.readBool [if value then 1 else 0] value.
Proof.
  split; [intros buf; reflexivity|].
  intros d Hd. destruct (bytesAtCursor_index d _ Hd) as (b & Hb & Hi).
  pose proof (Hi 0%nat 0 _ eq_refl eq_refl) as F0. rewrite Z.add_0_r in F0.
  unfold BinaryDecoder.readBool, bind at 1, get at 1. rewrite Hb.
  cbv [bind get ret modify BinaryDecoder.nextByte BinaryDecoder.addCursor].
  rewrite F0. destruct value; reflexivity.
Qed.

Lemma writesSome_of_length m bs :
  appends m bs -> (1 <= List.length bs)%nat -> writesSome m.
Proof.
  intros Ha Hl. exists bs. split; [|exact Ha].
  intros ->. cbn [List.length] in Hl. lia.
Qed.

Lemma writers_accept w lo hi v :
  In (w, lo, hi) rangeChecked -> lo <= v < hi -> writesSome (w v).
Proof.
  unfold rangeChecked. cbn [In]. unfold JS.TWO_TO_64, BinaryEncoder.TWO_TO_63.
  intros H Hv.
  repeat (destruct H as [H|H]; [injection H as <- <- <-|]); try contradiction.
  - destruct fixed_unsigned as (F & _ & _). destruct (F v Hv) as [Ha _].
    apply (writesSome_of_length _ _ Ha). cbn. lia.
  - destruct fixed_unsigned as (_ & F & _). destruct (F v Hv) as [Ha _].
    apply (writesSome_of_length _ _ Ha). cbn. lia.
  - destruct fixed_unsigned as (_ & _ & F). destruct (F v Hv) as [Ha _].
    apply (writesSome_of_length _ _ Ha). cbn. lia.
  - destruct (uint64_fixed_string v Hv) as (bs & Ha & Hl & _).
    apply (writesSome_of_length _ _ Ha). lia.
  - destruct fixed_signed as (F & _ & _). destruct (F v Hv) as [Ha _].
    apply (writesSome_of_length _ _ Ha). cbn. lia.
  - destruct fixed_signed as (_ & F & _). destruct (F v Hv) as [Ha _].
    apply (writesSome_of_length _ _ Ha). cbn. lia.
  - destruct fixed_signed as (_ & _ & F). destruct (F v Hv) as [Ha _].
    apply (writesSome_of_length _ _ Ha). cbn. lia.
  - destruct (int64_fixed_string v Hv) as (bs & Ha & Hl & _).
    apply (writesSome_of_length _ _ Ha). lia.
  - destruct (varint32_roundtrip v Hv) as (bs & Ha & Hl & _).
    apply (writesSome_of_length _ _ Ha). lia.
  - destruct (signedVarint32_roundtrip v Hv) as (bs & Ha & Hl & _).
    apply (writesSome_of_length _ _ Ha). destruct (v <? 0); lia.
  - destruct (signedVarint32_roundtrip v Hv) as (bs & Ha & Hl & _).
    apply (writesSome_of_length (BinaryEncoder.writeEnum v) bs);
      [|destruct (v <? 0); lia].
    intros buf. unfold BinaryEncoder.writeEnum.
    rewrite assert_range by exact Hv. apply Ha.
  - destruct (zigzag32_roundtrip v Hv) as (bs & Ha & Hl & _).
    apply (writesSome_of_length _ _ Ha). lia.
  - destruct (unsignedVarint64_string v Hv) as (bs & Ha & Hl & _).
    apply (writesSome_of_length _ _ Ha). lia.
  - destruct (signedVarint64_string v Hv) as (bs & Ha & Hl & _).
    apply (writesSome_of_length _ _ Ha). lia.
  - destruct (zigzagVarint64_string v Hv) as (bs & Ha & Hl & _).
    apply (writesSome_of_length _ _ Ha). lia.
Qed.

Lemma writers_reject w lo hi v :
  In (w, lo, hi) rangeChecked -> ~ lo <= v < hi -> rejects (w v).
Proof.
  unfold rangeChecked. cbn [In]. intros H Hv e.
  repeat (destruct H as [H|H]; [injection H as <- <- <-|]); try contradiction;
    apply assert_outside; exact Hv.
Qed.

(** * Properties of the functions around the claims *)

(** The framing notions are about real decoder states: a decoder whose
    block is [bs], with the cursor at its start, is on [bs]. *)
Lemma bytesAtCursor_whole bs err :
  bytesAtCursor
    (BinaryDecoder.mk (Some bs) 0 (Z.of_nat (List.length bs)) 0 err) bs.
Proof.
  split; cbn [BinaryDecoder.cursor BinaryDecoder.bytes]; [lia|].
  change (Z.to_nat 0) with 0%nat. cbn [skipn]. apply firstn_all.
Qed.

(** ** encoder.ts and the decoder: fixed-width integers *)

(** X1: [writeUint8], [writeUint16], [writeUint32], [writeInt8],
    [writeInt16] and [writeInt32] append the one, two or four little-endian
    bytes of a value of their range, and the reader of the same name gives
    the value back from these bytes when they lie before [end]
    ([readUint8] gives the array element, which is the value). *)
Theorem X1_fixed_width_roundtrip (v : Z) :
  (0 <= v < 256 ->
     appends (BinaryEncoder.writeUint8 v) (le8 v)
     /\ readsWithin BinaryDecoder.readUint8 (le8 v) (Some v))
  /\ (0 <= v < 65536 ->
     appends (BinaryEncoder.writeUint16 v) (le16 v)
     /\ readsWithin BinaryDecoder.readUint16 (le16 v) v)
  /\ (u32 v ->
     appends (BinaryEncoder.writeUint32 v) (le32 v)
     /\ readsWithin BinaryDecoder.readUint32 (le32 v) v)
  /\ (-128 <= v < 128 ->
     appends (BinaryEncoder.writeInt8 v) (le8 v)
     /\ readsWithin BinaryDecoder.readInt8 (le8 v) v)
  /\ (-32768 <= v < 32768 ->
     appends (BinaryEncoder.writeInt16 v) (le16 v)
     /\ readsWithin BinaryDecoder.readInt16 (le16 v) v)
  /\ (- JS.TWO_TO_31 <= v < JS.TWO_TO_31 ->
     appends (BinaryEncoder.writeInt32 v) (le32 v)
     /\ readsWithin BinaryDecoder.readInt32 (le32 v) v).
Proof.
  destruct fixed_unsigned as (U8 & U16 & U32).
  destruct fixed_signed as (I8 & I16 & I32).
  repeat split; first [ apply U8 | apply U16 | apply U32
                      | apply I8 | apply I16 | apply I32 ]; assumption.
Qed.

Lemma X1_fixed_width_roundtrip_witness :
  (appends (BinaryEncoder.writeUint8 100) (le8 100)
   /\ readsWithin BinaryDecoder.readUint8 (le8 100) (Some 100))
  /\ (appends (BinaryEncoder.writeInt32 100) (le32 100)
      /\ readsWithin BinaryDecoder.readInt32 (le32 100) 100)
  /\ BinaryDecoder.readInt32
       (BinaryDecoder.mk (Some (le32 100)) 0 4 0 false)
     = (Return 100, BinaryDecoder.mk (Some (le32 100)) 0 4 4 false).
Proof.
  pose proof (X1_fixed_width_roundtrip 100) as (U8 & _ & _ & _ & _ & I32).
  split; [apply U8; lia|].
  assert (H : - JS.TWO_TO_31 <= 100 < JS.TWO_TO_31)
    by (unfold JS.TWO_TO_31; lia).
  split; [apply I32; exact H|].
  destruct (I32 H) as [_ R].
  apply (R _ (bytesAtCursor_whole (le32 100) false)).
  cbn [BinaryDecoder.cursor BinaryDecoder.end_ List.length le32]. lia.
Defined.

(** X2: [writeUint64] and [writeInt64] append eight bytes for a value of
    their range, from which [readUint64String] and [readInt64String] give
    the decimal numeral of the value. *)
Theorem X2_fixed64_decimal_strings (v : Z) :
  (0 <= v < 2 ^ 64 ->
     exists bs,
       appends (BinaryEncoder.writeUint64 v) bs
       /\ List.length bs = 8%nat
       /\ readsWithin BinaryDecoder.readUint64String bs (Number_toString v))
  /\ (- 2 ^ 63 <= v < 2 ^ 63 ->
     exists bs,
       appends (BinaryEncoder.writeInt64 v) bs
       /\ List.length bs = 8%nat
       /\ readsWithin BinaryDecoder.readInt64String bs (Number_toString v)).
Proof.
  split; [apply uint64_fixed_string | apply int64_fixed_string].
Qed.

Lemma X2_fixed64_decimal_strings_witness :
  (exists bs,
     appends (BinaryEncoder.writeUint64 18446744073709551615) bs
     /\ List.length bs = 8%nat
     /\ readsWithin BinaryDecoder.readUint64String bs
          (Number_toString 18446744073709551615))
  /\ (exists bs,
        appends (BinaryEncoder.writeInt64 (-5)) bs
        /\ List.length bs = 8%nat
        /\ readsWithin BinaryDecoder.readInt64String bs (Number_toString (-5))).
Proof.
  split.
  - apply (X2_fixed64_decimal_strings 18446744073709551615).
    change (2 ^ 64) with 18446744073709551616. lia.
  - apply (X2_fixed64_decimal_strings (-5)).
    change (2 ^ 63) with 9223372036854775808. lia.
Defined.

(** X3: [writeSplitFixed64] appends the four little-endian bytes of the
    low word and then those of the high word; [readSplitFixed64] hands the
    two words to [convert] in signed reading (a word from 2^31 on comes back
    less 2^32), and does not look at [end]. *)
Theorem X3_splitFixed64_words {T} (convert : Z -> Z -> T) (lo hi : Z)
    (Hlo : u32 lo) (Hhi : u32 hi) :
  appends (BinaryEncoder.writeSplitFixed64 lo hi) (le32 lo ++ le32 hi)
  /\ readsUnchecked (BinaryDecoder.readSplitFixed64 convert) (le32 lo ++ le32 hi)
       (convert (JS.toInt32 lo) (JS.toInt32 hi)).
Proof.
  split; [apply appends_writeSplitFixed64; assumption
         | apply readSplitFixed64_le32].
Qed.

Lemma X3_splitFixed64_words_witness :
  appends (BinaryEncoder.writeSplitFixed64 4294967295 1)
    (le32 4294967295 ++ le32 1)
  /\ readsUnchecked (BinaryDecoder.readSplitFixed64 (@pair Z Z))
       (le32 4294967295 ++ le32 1) (JS.toInt32 4294967295, JS.toInt32 1).
Proof.
  apply (X3_splitFixed64_words (@pair Z Z) 4294967295 1);
    unfold u32, JS.TWO_TO_32; lia.
Defined.

(** ** lib.ts: the split functions and the signed decimal string *)

(** X4: for every integer, [splitUint64] and [splitInt64] both return the
    two 32-bit words of the value modulo 2^64 (for a negative value its
    two's complement). *)
Theorem X4_split64_words (v : Z) :
  splitUint64 v = mkSplit64 (v mod 2 ^ 32) ((v / 2 ^ 32) mod 2 ^ 32)
  /\ splitInt64 v = mkSplit64 (v mod 2 ^ 32) ((v / 2 ^ 32) mod 2 ^ 32).
Proof. split; [apply splitUint64_spec | apply splitInt64_spec]. Qed.

(** X5: [splitZigzag64] returns the two words of the zigzag code of its
    argument, -2v - 1 for a negative v and 2v otherwise; on a signed
    64-bit value this is what [toZigzag64] makes of the two words of the
    value. *)
Theorem X5_splitZigzag64 (v : Z) (Hv : - 2 ^ 63 <= v < 2 ^ 63) :
  splitZigzag64 v
  = mkSplit64 (zigzag64 v mod 2 ^ 32) ((zigzag64 v / 2 ^ 32) mod 2 ^ 32)
  /\ toZigzag64 (v mod 2 ^ 32) ((v / 2 ^ 32) mod 2 ^ 32)
       (fun lo hi => mkSplit64 (lo .>>> 0) (hi .>>> 0))
     = splitZigzag64 v.
Proof. split; [apply splitZigzag64_spec | apply toZigzag64_split; exact Hv]. Qed.

Lemma X5_splitZigzag64_witness :
  splitZigzag64 (-3)
  = mkSplit64 (zigzag64 (-3) mod 2 ^ 32) ((zigzag64 (-3) / 2 ^ 32) mod 2 ^ 32)
  /\ toZigzag64 ((-3) mod 2 ^ 32) (((-3) / 2 ^ 32) mod 2 ^ 32)
       (fun lo hi => mkSplit64 (lo .>>> 0) (hi .>>> 0))
     = splitZigzag64 (-3).
Proof.
  apply (X5_splitZigzag64 (-3)).
  change (2 ^ 63) with 9223372036854775808. lia.
Defined.

(** X6: for every pair of 32-bit words, [joinSignedDecimalString] returns
    the decimal numeral of the signed 64-bit integer the pair holds. *)
Theorem X6_joinSignedDecimalString (lo hi : Z) (Hlo : u32 lo) (Hhi : u32 hi) :
  joinSignedDecimalString lo hi = Number_toString (int64_of_split lo hi).
Proof. apply joinSignedDecimalString_spec; assumption. Qed.

Lemma X6_joinSignedDecimalString_witness :
  joinSignedDecimalString 4294967295 4294967295
  = Number_toString (int64_of_split 4294967295 4294967295).
Proof.
  apply (X6_joinSignedDecimalString 4294967295 4294967295);
    unfold u32, JS.TWO_TO_32; lia.
Defined.

(** X7: [splitHash64] gives back the two words [joinHash64] was made of
    (reduced modulo 2^32), and [joinHash64] gives back a hash string of
    eight code units below 256 from its two words. *)
Theorem X7_hash64_split_join (lo hi a b c d e f g h : Z)
    (Hbytes : Forall (fun x => 0 <= x < 256) [a; b; c; d; e; f; g; h]) :
  splitHash64 (joinHash64 lo hi) = mkSplit64 (JS.toUint32 lo) (JS.toUint32 hi)
  /\ joinHash64 (split64Low (splitHash64 [a; b; c; d; e; f; g; h]))
                (split64High (splitHash64 [a; b; c; d; e; f; g; h]))
     = [a; b; c; d; e; f; g; h].
Proof.
  split; [apply splitHash64_joinHash64 | apply joinHash64_splitHash64; exact Hbytes].
Qed.

Lemma X7_hash64_split_join_witness :
  splitHash64 (joinHash64 1 2) = mkSplit64 (JS.toUint32 1) (JS.toUint32 2)
  /\ joinHash64 (split64Low (splitHash64 [1; 2; 3; 4; 5; 6; 7; 255]))
                (split64High (splitHash64 [1; 2; 3; 4; 5; 6; 7; 255]))
     = [1; 2; 3; 4; 5; 6; 7; 255].
Proof.
  apply (X7_hash64_split_join 1 2 1 2 3 4 5 6 7 255).
  repeat constructor; lia.
Defined.

(** ** The decoder: varints *)

(** X8: on a well-formed varint of at most ten bytes [readSplitVarint64]
    returns normally, whatever [end] is, hands [convert] the low and the
    high 32 bits of the encoded value (bits from 64 on are dropped), and
    leaves the cursor behind the varint. *)
Theorem X8_readSplitVarint64_decodes {T} (convert : Z -> Z -> T) (bs : list Z)
    (Hwf : wellFormedVarint bs = true) (Hlen : (List.length bs <= 10)%nat) :
  readsUnchecked (BinaryDecoder.readSplitVarint64 convert) bs
    (convert (varintValue bs mod 2 ^ 32) ((varintValue bs / 2 ^ 32) mod 2 ^ 32)).
Proof. apply readSplitVarint64_decodes; assumption. Qed.

Lemma X8_readSplitVarint64_decodes_witness :
  readsUnchecked (BinaryDecoder.readSplitVarint64 (@pair Z Z)) [0xac; 0x02]
    (varintValue [0xac; 0x02] mod 2 ^ 32,
     (varintValue [0xac; 0x02] / 2 ^ 32) mod 2 ^ 32)
  /\ BinaryDecoder.readSplitVarint64 (@pair Z Z)
       (BinaryDecoder.mk (Some [0xac; 0x02]) 0 2 0 false)
     = (Return (300, 0), BinaryDecoder.mk (Some [0xac; 0x02]) 0 2 2 false).
Proof.
  assert (R : readsUnchecked (BinaryDecoder.readSplitVarint64 (@pair Z Z)) [0xac; 0x02]
                (varintValue [0xac; 0x02] mod 2 ^ 32,
                 (varintValue [0xac; 0x02] / 2 ^ 32) mod 2 ^ 32)).
  { apply (X8_readSplitVarint64_decodes (@pair Z Z) [0xac; 0x02]);
      [reflexivity | cbn [List.length]; lia]. }
  split; [exact R|].
  apply (R _ (bytesAtCursor_whole [0xac; 0x02] false)).
Defined.

(** X9: [readSplitVarint64] gives up with an [AssertionError] when ten
    bytes in a row have the continuation bit, with the cursor behind the
    tenth, and when the array ends before a byte without the continuation
    bit (also when no byte is left), with the cursor one past the array; the
    error flag stays as it was in both cases. *)
Theorem X9_readSplitVarint64_malformed {T} (convert : Z -> Z -> T)
    (bs : list Z) (d : BinaryDecoder.t) (Hc : allContinuation bs = true) :
  (List.length bs = 10%nat -> bytesAtCursor d bs ->
     BinaryDecoder.readSplitVarint64 convert d
     = (Throw AssertionError,
        BinaryDecoder.set_cursor (BinaryDecoder.cursor d + 10) d))
  /\ ((List.length bs < 10)%nat -> bytesToArrayEnd d bs ->
     BinaryDecoder.readSplitVarint64 convert d
     = (Throw AssertionError,
        BinaryDecoder.set_cursor
          (BinaryDecoder.cursor d + Z.of_nat (List.length bs) + 1) d)).
Proof.
  split; intros Hl Hd;
    [apply (readSplitVarint64_overlong convert bs)
    | apply (readSplitVarint64_truncated convert bs)]; assumption.
Qed.

Lemma X9_readSplitVarint64_malformed_witness :
  BinaryDecoder.readSplitVarint64 (@pair Z Z)
    (BinaryDecoder.mk (Some (repeat 255 10 ++ [1])) 0 11 0 false)
  = (Throw AssertionError,
     BinaryDecoder.mk (Some (repeat 255 10 ++ [1])) 0 11 10 false)
  /\ BinaryDecoder.readSplitVarint64 (@pair Z Z)
       (BinaryDecoder.mk (Some [7; 128; 129]) 0 3 1 false)
     = (Throw AssertionError,
        BinaryDecoder.mk (Some [7; 128; 129]) 0 3 4 false).
Proof.
  split.
  - apply (X9_readSplitVarint64_malformed (@pair Z Z) (repeat 255 10)
             (BinaryDecoder.mk (Some (repeat 255 10 ++ [1])) 0 11 0 false)).
    + reflexivity.
    + reflexivity.
    + split; [cbn [BinaryDecoder.cursor]; lia | reflexivity].
  - apply (X9_readSplitVarint64_malformed (@pair Z Z) [128; 129]
             (BinaryDecoder.mk (Some [7; 128; 129]) 0 3 1 false)).
    + reflexivity.
    + cbn [List.length]. lia.
    + split; [cbn [BinaryDecoder.cursor]; lia | reflexivity].
Defined.

(** X10: what [writeSplitVarint64] appends for a pair of 32-bit words, one
    to ten bytes, [readSplitVarint64] reads back as the same pair. *)
Theorem X10_varint64_roundtrip {T} (convert : Z -> Z -> T) (lo hi : Z)
    (Hlo : u32 lo) (Hhi : u32 hi) :
  exists bs,
    appends (BinaryEncoder.writeSplitVarint64 lo hi) bs
    /\ (1 <= List.length bs <= 10)%nat
    /\ readsUnchecked (BinaryDecoder.readSplitVarint64 convert) bs (convert lo hi).
Proof. apply varint64_roundtrip; assumption. Qed.

Lemma X10_varint64_roundtrip_witness :
  exists bs,
    appends (BinaryEncoder.writeSplitVarint64 300 4294967295) bs
    /\ (1 <= List.length bs <= 10)%nat
    /\ readsUnchecked (BinaryDecoder.readSplitVarint64 (@pair Z Z)) bs
         (300, 4294967295).
Proof.
  apply (X10_varint64_roundtrip (@pair Z Z) 300 4294967295);
    unfold u32, JS.TWO_TO_32; lia.
Defined.

(** X11: on a well-formed varint of at most ten bytes [readUnsignedVarint32]
    returns the encoded value modulo 2^32 when the varint has up to five
    bytes, and the low 32 bits of the value in signed reading when it has
    six to ten; the cursor ends behind the varint, and the read fails with
    an assertion error exactly when that is beyond [end]. *)
Theorem X11_readUnsignedVarint32_decodes (bs : list Z)
    (Hwf : wellFormedVarint bs = true) (Hlen : (List.length bs <= 10)%nat) :
  readsChecked BinaryDecoder.readUnsignedVarint32 bs (varint32Result bs).
Proof. apply readUnsignedVarint32_decodes; assumption. Qed.

Lemma X11_readUnsignedVarint32_decodes_witness :
  readsChecked BinaryDecoder.readUnsignedVarint32 [255; 255; 255; 255; 255; 1]
    (varint32Result [255; 255; 255; 255; 255; 1])
  /\ varint32Result [255; 255; 255; 255; 255; 1] = -1
  /\ varint32Result [255; 255; 255; 255; 15] = 4294967295.
Proof.
  split; [|split; reflexivity].
  apply (X11_readUnsignedVarint32_decodes [255; 255; 255; 255; 255; 1]);
    [reflexivity | cbn [List.length]; lia].
Defined.

(** X12: [writeUnsignedVarint32] appends one to five bytes for a 32-bit
    value, and [readUnsignedVarint32] reads the value back from them when
    they lie before [end]. *)
Theorem X12_varint32_roundtrip (v : Z) (Hv : u32 v) :
  exists bs,
    appends (BinaryEncoder.writeUnsignedVarint32 v) bs
    /\ (1 <= List.length bs <= 5)%nat
    /\ readsWithin BinaryDecoder.readUnsignedVarint32 bs v.
Proof. apply varint32_roundtrip; exact Hv. Qed.

Lemma X12_varint32_roundtrip_witness :
  exists bs,
    appends (BinaryEncoder.writeUnsignedVarint32 4294967295) bs
    /\ (1 <= List.length bs <= 5)%nat
    /\ readsWithin BinaryDecoder.readUnsignedVarint32 bs 4294967295.
Proof.
  apply (X12_varint32_roundtrip 4294967295). unfold u32, JS.TWO_TO_32; lia.
Defined.

(** X13: [writeSignedVarint32] appends ten bytes for a negative 32-bit value
    and one to five bytes otherwise; [readSignedVarint32] reads the value
    back from them, and [readSignedVarint64String] its decimal numeral. *)
Theorem X13_signedVarint32_roundtrip (v : Z)
    (Hv : - JS.TWO_TO_31 <= v < JS.TWO_TO_31) :
  exists bs,
    appends (BinaryEncoder.writeSignedVarint32 v) bs
    /\ (if v <? 0 then List.length bs = 10%nat else (1 <= List.length bs <= 5)%nat)
    /\ readsWithin BinaryDecoder.readSignedVarint32 bs v
    /\ readsUnchecked BinaryDecoder.readSignedVarint64String bs (Number_toString v).
Proof. apply signedVarint32_roundtrip; exact Hv. Qed.

Lemma X13_signedVarint32_roundtrip_witness :
  exists bs,
    appends (BinaryEncoder.writeSignedVarint32 (-2)) bs
    /\ (if -2 <? 0 then List.length bs = 10%nat else (1 <= List.length bs <= 5)%nat)
    /\ readsWithin BinaryDecoder.readSignedVarint32 bs (-2)
    /\ readsUnchecked BinaryDecoder.readSignedVarint64String bs (Number_toString (-2)).
Proof.
  apply (X13_signedVarint32_roundtrip (-2)). unfold JS.TWO_TO_31; lia.
Defined.

(** X14: [writeZigzagVarint32] appends one to five bytes for a signed
    32-bit value, and [readZigzagVarint32] reads the value back. *)
Theorem X14_zigzag32_roundtrip (v : Z)
    (Hv : - JS.TWO_TO_31 <= v < JS.TWO_TO_31) :
  exists bs,
    appends (BinaryEncoder.writeZigzagVarint32 v) bs
    /\ (1 <= List.length bs <= 5)%nat
    /\ readsWithin BinaryDecoder.readZigzagVarint32 bs v.
Proof. apply zigzag32_roundtrip; exact Hv. Qed.

Lemma X14_zigzag32_roundtrip_witness :
  exists bs,
    appends (BinaryEncoder.writeZigzagVarint32 (-2147483648)) bs
    /\ (1 <= List.length bs <= 5)%nat
    /\ readsWithin BinaryDecoder.readZigzagVarint32 bs (-2147483648).
Proof.
  apply (X14_zigzag32_roundtrip (-2147483648)). unfold JS.TWO_TO_31; lia.
Defined.

(** X15: [writeUnsignedVarint64] and [writeSignedVarint64] append one to
    ten bytes for a value of their range (ten for a negative one), from
    which [readUnsignedVarint64String] and [readSignedVarint64String] give
    the decimal numeral of the value. *)
Theorem X15_varint64_decimal_strings (v : Z) :
  (0 <= v < 2 ^ 64 ->
     exists bs,
       appends (BinaryEncoder.writeUnsignedVarint64 v) bs
       /\ (1 <= List.length bs <= 10)%nat
       /\ readsUnchecked BinaryDecoder.readUnsignedVarint64String bs
            (Number_toString v))
  /\ (- 2 ^ 63 <= v < 2 ^ 63 ->
     exists bs,
       appends (BinaryEncoder.writeSignedVarint64 v) bs
       /\ (1 <= List.length bs <= 10)%nat
       /\ (v < 0 -> List.length bs = 10%nat)
       /\ readsUnchecked BinaryDecoder.readSignedVarint64String bs
            (Number_toString v)).
Proof.
  split; [apply unsignedVarint64_string | apply signedVarint64_string].
Qed.

Lemma X15_varint64_decimal_strings_witness :
  (exists bs,
     appends (BinaryEncoder.writeUnsignedVarint64 18446744073709551615) bs
     /\ (1 <= List.length bs <= 10)%nat
     /\ readsUnchecked BinaryDecoder.readUnsignedVarint64String bs
          (Number_toString 18446744073709551615))
  /\ (exists bs,
        appends (BinaryEncoder.writeSignedVarint64 (-1)) bs
        /\ (1 <= List.length bs <= 10)%nat
        /\ (-1 < 0 -> List.length bs = 10%nat)
        /\ readsUnchecked BinaryDecoder.readSignedVarint64String bs
             (Number_toString (-1))).
Proof.
  split.
  - apply (X15_varint64_decimal_strings 18446744073709551615).
    change (2 ^ 64) with 18446744073709551616. lia.
  - apply (X15_varint64_decimal_strings (-1)).
    change (2 ^ 63) with 9223372036854775808. lia.
Defined.

(** X16: from the bytes [writeZigzagVarint64] appends for a signed 64-bit
    value v, [readZigzagVarint64String] returns the numeral of v, except
    when 0 <= v < 2^53 and bit 31 of v is set: then it returns the numeral
    of v - 2^32. *)
Theorem X16_zigzagVarint64_decimal_string (v : Z)
    (Hv : - 2 ^ 63 <= v < 2 ^ 63) :
  exists bs,
    appends (BinaryEncoder.writeZigzagVarint64 v) bs
    /\ (1 <= List.length bs <= 10)%nat
    /\ readsUnchecked BinaryDecoder.readZigzagVarint64String bs
         (Number_toString (zigzagStringValue v)).
Proof. apply zigzagVarint64_string; exact Hv. Qed.

Lemma X16_zigzagVarint64_decimal_string_witness :
  (exists bs,
     appends (BinaryEncoder.writeZigzagVarint64 2147483648) bs
     /\ (1 <= List.length bs <= 10)%nat
     /\ readsUnchecked BinaryDecoder.readZigzagVarint64String bs
          (Number_toString (zigzagStringValue 2147483648)))
  /\ zigzagStringValue 2147483648 = -2147483648
  /\ zigzagStringValue (-7) = -7.
Proof.
  split; [|split; reflexivity].
  apply (X16_zigzagVarint64_decimal_string 2147483648).
  change (2 ^ 63) with 9223372036854775808. lia.
Defined.

(** X17: what [writeFixedHash64], [writeVarintHash64] and
    [writeZigzagVarintHash64] append for a hash string is read back by
    [readFixedHash64], [readVarintHash64] and [readZigzagVarintHash64] as
    the hash string of the same two words: the string itself when it has
    eight code units below 256. *)
Theorem X17_hash64_wire (h : jsstring) :
  (appends (BinaryEncoder.writeFixedHash64 h) (normalizedHash h)
   /\ readsUnchecked BinaryDecoder.readFixedHash64 (normalizedHash h)
        (normalizedHash h))
  /\ (exists bs,
        appends (BinaryEncoder.writeVarintHash64 h) bs
        /\ readsUnchecked BinaryDecoder.readVarintHash64 bs (normalizedHash h))
  /\ (exists bs,
        appends (BinaryEncoder.writeZigzagVarintHash64 h) bs
        /\ readsUnchecked BinaryDecoder.readZigzagVarintHash64 bs
             (normalizedHash h)).
Proof. exact (hash64_wire h). Qed.

(** X18: [skipVarint] steps over a well-formed varint of any length,
    without looking at [end] and without raising anything. *)
Theorem X18_skipVarint (bs : list Z) (Hwf : wellFormedVarint bs = true) :
  readsUnchecked BinaryDecoder.skipVarint bs tt.
Proof. apply skipVarint_spec; exact Hwf. Qed.

Lemma X18_skipVarint_witness :
  readsUnchecked BinaryDecoder.skipVarint (repeat 128 11 ++ [0]) tt
  /\ BinaryDecoder.skipVarint
       (BinaryDecoder.mk (Some (repeat 128 11 ++ [0])) 0 12 0 false)
     = (Return tt, BinaryDecoder.mk (Some (repeat 128 11 ++ [0])) 0 12 12 false).
Proof.
  assert (R : readsUnchecked BinaryDecoder.skipVarint (repeat 128 11 ++ [0]) tt)
    by (apply (X18_skipVarint (repeat 128 11 ++ [0])); reflexivity).
  split; [exact R|].
  apply (R _ (bytesAtCursor_whole (repeat 128 11 ++ [0]) false)).
Defined.

(** X19: [unskipVarint(value)] moves the cursor back by the number of bytes
    [writeUnsignedVarint32] appends for the 32-bit [value], less one when
    [value >>> 7k] is exactly 128 for some k (the values from 128 * 128^k up
    to 129 * 128^k - 1, k = 0..3). *)
Theorem X19_unskipVarint (v : Z) (Hv : u32 v) :
  exists bs,
    appends (BinaryEncoder.writeUnsignedVarint32 v) bs
    /\ forall d,
         BinaryDecoder.unskipVarint v d
         = (Return tt,
            BinaryDecoder.set_cursor
              (BinaryDecoder.cursor d
               - (Z.of_nat (List.length bs) - unskipShortfall v)) d).
Proof.
  destruct (writeUnsignedVarint32_length v Hv) as (bs & Ha & Hl).
  exists bs. split; [exact Ha|]. intros d. rewrite Hl.
  apply unskipVarint_spec. exact Hv.
Qed.

Lemma X19_unskipVarint_witness :
  (exists bs,
     appends (BinaryEncoder.writeUnsignedVarint32 128) bs
     /\ forall d,
          BinaryDecoder.unskipVarint 128 d
          = (Return tt,
             BinaryDecoder.set_cursor
               (BinaryDecoder.cursor d
                - (Z.of_nat (List.length bs) - unskipShortfall 128)) d))
  /\ unskipShortfall 128 = 1 /\ unskipShortfall 129 = 0.
Proof.
  split; [|split; reflexivity].
  apply (X19_unskipVarint 128). unfold u32, JS.TWO_TO_32; lia.
Defined.

(** ** Strings and byte blocks *)

(** X20: [writeString] returns the number of bytes it appends, and
    [readString] of that length reads from them the string without the
    high surrogates that were followed by a unit other than a low
    surrogate: the string itself when it has no such unit. *)
Theorem X20_string_roundtrip (value : jsstring)
    (Hunits : forallb isUnit value = true) :
  (forall buf,
     BinaryEncoder.writeString value (BinaryEncoder.mk buf)
     = (Return (Z.of_nat (List.length (writeString_bytes value))),
        BinaryEncoder.mk (buf ++ writeString_bytes value)))
  /\ readsUnchecked
       (BinaryDecoder.readString (Z.of_nat (List.length (writeString_bytes value))))
       (writeString_bytes value) (survivors value)
  /\ (noLoneHigh value = true -> survivors value = value).
Proof. exact (string_roundtrip value Hunits). Qed.

Lemma X20_string_roundtrip_witness :
  (forall buf,
     BinaryEncoder.writeString [0x48; 0xe9; 0x20ac; 0xd83d; 0xde00] (BinaryEncoder.mk buf)
     = (Return (Z.of_nat (List.length
                            (writeString_bytes [0x48; 0xe9; 0x20ac; 0xd83d; 0xde00]))),
        BinaryEncoder.mk (buf ++ writeString_bytes [0x48; 0xe9; 0x20ac; 0xd83d; 0xde00])))
  /\ readsUnchecked
       (BinaryDecoder.readString
          (Z.of_nat (List.length (writeString_bytes [0x48; 0xe9; 0x20ac; 0xd83d; 0xde00]))))
       (writeString_bytes [0x48; 0xe9; 0x20ac; 0xd83d; 0xde00])
       (survivors [0x48; 0xe9; 0x20ac; 0xd83d; 0xde00])
  /\ (noLoneHigh [0x48; 0xe9; 0x20ac; 0xd83d; 0xde00] = true ->
      survivors [0x48; 0xe9; 0x20ac; 0xd83d; 0xde00]
      = [0x48; 0xe9; 0x20ac; 0xd83d; 0xde00]).
Proof.
  apply (X20_string_roundtrip [0x48; 0xe9; 0x20ac; 0xd83d; 0xde00]).
  reflexivity.
Defined.



(** ** Range checks of the writers *)

(** X22: each writer of one integer that checks its range ([writeUint8] to
    [writeInt64], the 32-bit and 64-bit varint writers, [writeEnum])
    returns normally and appends at least one byte for a value of the
    range, and for a value outside raises an assertion error with the
    buffer as it was. *)
Theorem X22_writers_check_range (w : Z -> BinaryEncoder.M unit) (lo hi v : Z)
    (Hw : In (w, lo, hi) rangeChecked) :
  (lo <= v < hi -> writesSome (w v))
  /\ (~ lo <= v < hi -> rejects (w v)).
Proof.
  split; [apply writers_accept | apply writers_reject]; exact Hw.
Qed.

Lemma X22_writers_check_range_witness :
  writesSome (BinaryEncoder.writeUint8 200)
  /\ rejects (BinaryEncoder.writeUint8 300)
  /\ rejects (BinaryEncoder.writeZigzagVarint64 9223372036854775808).
Proof.
  split; [|split].
  - apply (X22_writers_check_range BinaryEncoder.writeUint8 0 256 200);
      [left; reflexivity | lia].
  - apply (X22_writers_check_range BinaryEncoder.writeUint8 0 256 300);
      [left; reflexivity | lia].
  - apply (X22_writers_check_range BinaryEncoder.writeZigzagVarint64
             (- BinaryEncoder.TWO_TO_63) BinaryEncoder.TWO_TO_63
             9223372036854775808);
      [do 14 right; left; reflexivity | unfold BinaryEncoder.TWO_TO_63; lia].
Defined.

(** ** lib.ts: decimal strings and hash strings *)

(** X23: [byteArrayToString] returns the string of the bytes as code
    units, whatever their number: cutting the array in chunks of 8192 does
    not show in the result, and the loop ends. *)
Theorem X23_byteArrayToString (bytes : list Z) :
  byteArrayToString bytes = Return (fromCharCode bytes).
Proof. apply byteArrayToString_spec. Qed.

(** X24: [decimalStringToHash64] raises an assertion error on the empty
    string; on a non-empty string of digits it returns the hash string of
    the two words of the number modulo 2^64, and on a minus sign followed
    by digits (or by nothing) that of the negated number. *)
Theorem X24_decimalStringToHash64 (s : string) (v : Z)
    (Hs : parseDecimal_from s 0 = Some v) :
  decimalStringToHash64 EmptyString = Throw AssertionError
  /\ (s <> EmptyString -> decimalStringToHash64 s = Return (hashOf v))
  /\ decimalStringToHash64 (String "-" s) = Return (hashOf (- v)).
Proof.
  split; [reflexivity|].
  split; [intros Hne; apply decimalStringToHash64_digits; assumption
         | apply decimalStringToHash64_minus; exact Hs].
Qed.

Lemma X24_decimalStringToHash64_witness :
  decimalStringToHash64 EmptyString = Throw AssertionError
  /\ ("18446744073709551617"%string <> EmptyString ->
      decimalStringToHash64 "18446744073709551617"
      = Return (hashOf 18446744073709551617))
  /\ decimalStringToHash64 (String "-" "18446744073709551617")
     = Return (hashOf (- 18446744073709551617)).
Proof.
  apply (X24_decimalStringToHash64 "18446744073709551617" 18446744073709551617).
  reflexivity.
Defined.

(** X25: [decimalStringToHash64] reads the numerals printed by
    [joinUnsignedDecimalString] and [joinSignedDecimalString] back into the
    hash string of the same two words. *)
Theorem X25_decimal_string_to_hash (lo hi : Z) (Hlo : u32 lo) (Hhi : u32 hi) :
  decimalStringToHash64 (joinUnsignedDecimalString lo hi) = Return (joinHash64 lo hi)
  /\ decimalStringToHash64 (joinSignedDecimalString lo hi) = Return (joinHash64 lo hi).
Proof.
  split; [apply decimalStringToHash64_joinUnsigned
         | apply decimalStringToHash64_joinSigned]; assumption.
Qed.

Lemma X25_decimal_string_to_hash_witness :
  decimalStringToHash64 (joinUnsignedDecimalString 5 4294967295)
  = Return (joinHash64 5 4294967295)
  /\ decimalStringToHash64 (joinSignedDecimalString 5 4294967295)
     = Return (joinHash64 5 4294967295).
Proof.
  apply (X25_decimal_string_to_hash 5 4294967295);
    unfold u32, JS.TWO_TO_32; lia.
Defined.

(** X26: on the decimal numeral of a signed 64-bit integer
    [writeZigzagVarint64String] does what [writeZigzagVarint64] does on the
    integer: same outcome, same bytes. *)
Theorem X26_writeZigzagVarint64String (v : Z) (Hv : - 2 ^ 63 <= v < 2 ^ 63)
    (e : BinaryEncoder.t) :
  BinaryEncoder.writeZigzagVarint64String (Number_toString v) e
  = BinaryEncoder.writeZigzagVarint64 v e.
Proof. apply writeZigzagVarint64String_number; exact Hv. Qed.

Lemma X26_writeZigzagVarint64String_witness :
  BinaryEncoder.writeZigzagVarint64String (Number_toString (-9223372036854775808))
    (BinaryEncoder.mk [])
  = BinaryEncoder.writeZigzagVarint64 (-9223372036854775808) (BinaryEncoder.mk []).
Proof.
  apply (X26_writeZigzagVarint64String (-9223372036854775808)).
  change (2 ^ 63) with 9223372036854775808. lia.
Defined.

(** ** Classes [UInt64] and [Int64] *)

(** X27: [UInt64.mul32x32] returns the exact 64-bit product of two 32-bit
    words, its carry loop ending after at most two rounds, and [mul]
    returns the product with a 32-bit word modulo 2^64. *)
Theorem X27_UInt64_mul (x : UInt64.t) (a b : Z)
    (Hx : UInt64.wf x) (Ha : u32 a) (Hb : u32 b) :
  (exists p, UInt64.mul32x32 a b = Return p
             /\ UInt64.wf p /\ UInt64.value p = a * b)
  /\ (exists r, UInt64.mul x a = Return r
                /\ UInt64.wf r
                /\ UInt64.value r = (UInt64.value x * a) mod 2 ^ 64).
Proof.
  split; [apply mul32x32_spec | apply mul_spec]; assumption.
Qed.

Lemma X27_UInt64_mul_witness :
  (exists p, UInt64.mul32x32 4294967295 4294967295 = Return p
             /\ UInt64.wf p /\ UInt64.value p = 4294967295 * 4294967295)
  /\ (exists r, UInt64.mul (UInt64.mk 7 4294967295) 4294967295 = Return r
                /\ UInt64.wf r
                /\ UInt64.value r
                   = (UInt64.value (UInt64.mk 7 4294967295) * 4294967295) mod 2 ^ 64).
Proof.
  apply (X27_UInt64_mul (UInt64.mk 7 4294967295) 4294967295 4294967295).
  - split; cbn [UInt64.lo UInt64.hi]; unfold u32, JS.TWO_TO_32; lia.
  - unfold u32, JS.TWO_TO_32; lia.
  - unfold u32, JS.TWO_TO_32; lia.
Defined.

(** X28: [UInt64.fromString] returns [null] for a string with a character
    that is no decimal digit, and otherwise the number the digits stand for
    modulo 2^64 (zero for the empty string). *)
Theorem X28_UInt64_fromString (s : string) :
  match parseDecimal_from s 0 with
  | Some v =>
      exists x, UInt64.fromString s = Return (Some x)
                /\ UInt64.wf x /\ UInt64.value x = v mod 2 ^ 64
  | None => UInt64.fromString s = Return None
  end.
Proof.
  destruct (parseDecimal_from s 0) as [v|] eqn:Hp;
    [apply fromString_digits | apply fromString_not_digits]; exact Hp.
Qed.

(** X29: [UInt64.toString] returns the decimal numeral of the number, its
    loop ending within twenty divisions, and [UInt64.fromString] reads the
    numeral back into the same two words. *)
Theorem X29_UInt64_string_roundtrip (x : UInt64.t) (Hx : UInt64.wf x) :
  UInt64.toString x = Return (Number_toString (UInt64.value x))
  /\ UInt64.fromString (Number_toString (UInt64.value x)) = Return (Some x).
Proof. apply uint64_string_roundtrip; exact Hx. Qed.

Lemma X29_UInt64_string_roundtrip_witness :
  UInt64.toString (UInt64.mk 4294967295 4294967295)
  = Return (Number_toString (UInt64.value (UInt64.mk 4294967295 4294967295)))
  /\ UInt64.fromString
       (Number_toString (UInt64.value (UInt64.mk 4294967295 4294967295)))
     = Return (Some (UInt64.mk 4294967295 4294967295)).
Proof.
  apply (X29_UInt64_string_roundtrip (UInt64.mk 4294967295 4294967295)).
  split; cbn [UInt64.lo UInt64.hi]; unfold u32, JS.TWO_TO_32; lia.
Defined.

(** X30: [Int64.toString] returns the decimal numeral of the signed 64-bit
    integer held by the two words, and [Int64.fromString] reads the numeral
    back into the same two words. *)
Theorem X30_Int64_string_roundtrip (lo hi : Z) (Hlo : u32 lo) (Hhi : u32 hi) :
  Int64.toString (Int64.mk lo hi) = Return (Number_toString (int64_of_split lo hi))
  /\ Int64.fromString (Number_toString (int64_of_split lo hi))
     = Return (Some (Int64.mk lo hi)).
Proof. apply int64_string_roundtrip; assumption. Qed.

Lemma X30_Int64_string_roundtrip_witness :
  Int64.toString (Int64.mk 0 2147483648)
  = Return (Number_toString (int64_of_split 0 2147483648))
  /\ Int64.fromString (Number_toString (int64_of_split 0 2147483648))
     = Return (Some (Int64.mk 0 2147483648)).
Proof.
  apply (X30_Int64_string_roundtrip 0 2147483648);
    unfold u32, JS.TWO_TO_32; lia.
Defined.
